(** * Burning text: heat/fuel simulation, snapshots and the screen-burn wipe

    A shallow embedding of [burning_text.py], [burning_text_state.py] and of
    the [ScreenBurnTransition] classes of [main_menu.py] and
    [settings_screen.py].

    Numbers.  The Python code computes with IEEE doubles; here every float
    is an exact rational ([Q]), compared with [Qeq], [Qle] and [Qlt].

    Arrays.  A two-dimensional numpy array is a list of rows
    ([list (list Q)]), first index [x] (axis 0), second index [y] (axis 1).
    The arrays of a letter have the shape of its rect ([well_shaped]); numpy
    raises when it has to combine arrays of unequal shapes, which can only
    happen after a [restore_state] from a letter of another size, and the
    model then reads the missing entries as 0 or [False].

    Randomness.  Each call that draws from [random] takes the drawn values as
    an argument, so that a statement quantified over the draws holds for
    every outcome of the generator.

    Particles and drawing do not feed back into heat, fuel or the cached
    texture.  Drawing is not part of the model; the particles of a letter
    are modelled on their own, in [Particles] further down.

    Two models.  The first passes arrays by value and carries most of the
    statements.  The second ([Refs]) keeps the arrays in a memory of
    objects, changed in place as numpy changes them; it settles what the
    first cannot express (whether a snapshot shares an array with a
    letter), and [models_agree] shows that it reads as the first. *)

From Stdlib Require Import QArith Qminmax Lqa Lia List Bool ZArith Ascii String.
From stdpp Require Import gmap strings list.

Local Open Scope Q_scope.

(** ** Comparisons on rationals as booleans *)

Definition Qltb (a b : Q) : bool := negb (Qle_bool b a).

(** [np.clip(a, lo, None)] and [np.clip(a, lo, hi)], which numpy computes as
    [minimum(hi, maximum(a, lo))]. *)
Definition clip_lo (lo a : Q) : Q := Qmax a lo.
Definition clip (lo hi a : Q) : Q := Qmin hi (Qmax a lo).

(** ** Arrays *)

Abbreviation Grid := (list (list Q)).
Abbreviation BoolGrid := (list (list bool)).

(** [a[i, j]]: [None] where numpy raises [IndexError]. *)
Definition gget {A} (g : list (list A)) (i j : nat) : option A :=
  g !! i ≫= λ row, row !! j.

(** The same read with a default, for the places where the code reads a
    second array at the coordinates of a first one of the same shape. *)
Definition cell (g : Grid) (i j : nat) : Q := default 0 (gget g i j).
Definition bcell (g : BoolGrid) (i j : nat) : bool := default false (gget g i j).

(** An elementwise operation that may look at the coordinates; the shape of
    the array is kept. *)
Definition amapi {A B} (f : nat -> nat -> A -> B) (g : list (list A))
  : list (list B) :=
  imap (λ i row, imap (λ j a, f i j a) row) g.

Definition amap {A B} (f : A -> B) (g : list (list A)) : list (list B) :=
  amapi (λ _ _, f) g.

(** An array of shape [(w, h)] given by its entries. *)
Definition tabulate {A} (w h : nat) (f : nat -> nat -> A) : list (list A) :=
  (λ i, (λ j, f i j) <$> seq 0 h) <$> seq 0 w.

(** [shape_is w h g]: [g.shape == (w, h)]. *)
Definition shape_is {A} (w h : nat) (g : list (list A)) : Prop :=
  length g = w ∧ Forall (λ row, length row = h) g.

Definition grid_all {A} (P : A -> Prop) (g : list (list A)) : Prop :=
  Forall (Forall P) g.

(** ** Configuration constants of [burning_text.py] *)

Definition HEAT_RATE : Q := 400.
Definition COOL_RATE : Q := 50.
Definition IGNITION_POINT : Q := 200.
Definition HEAT_TRANSFER_RATE : Q := 800.
Definition FUEL_CONSUMPTION_RATE : Q := 1 # 2.
Definition FIRE_SPREAD_CHANCE : Q := 95 # 100.

(** ** Letter *)

(** A pygame surface, as the RGB triples of its pixels. *)
Definition Surface := list (list (Z * Z * Z)).

(** What [font.render(char, True, color)] gives for one character: the size
    of the rendered surface and which of its pixels are set
    ([pygame.mask.from_surface]). *)
Record Glyph := {
  glyph_width : nat;
  glyph_height : nat;
  glyph_pixel : nat -> nat -> bool
}.

(** The part of a pygame font the code uses: rendering one character, the
    advance of a space ([font.size(' ')[0]]) and the size of a rendered
    string. *)
Record Font := {
  render : ascii -> Glyph;
  space_advance : Z;
  text_size : string -> Z * Z
}.

Record Letter := {
  char : ascii;
  pos : Z * Z;                       (* rect.x, rect.y *)
  width : nat;                       (* rect.size *)
  height : nat;
  mask_array : BoolGrid;             (* array3d(mask.to_surface())[:, :, 0] > 0 *)
  heat_map : Grid;
  fuel_map : Grid;
  charred_texture : option Surface
}.

Definition set_heat_map (g : Grid) (l : Letter) : Letter :=
  {| char := char l; pos := pos l; width := width l; height := height l;
     mask_array := mask_array l; heat_map := g; fuel_map := fuel_map l;
     charred_texture := charred_texture l |}.

Definition set_fuel_map (g : Grid) (l : Letter) : Letter :=
  {| char := char l; pos := pos l; width := width l; height := height l;
     mask_array := mask_array l; heat_map := heat_map l; fuel_map := g;
     charred_texture := charred_texture l |}.

Definition set_charred_texture (t : option Surface) (l : Letter) : Letter :=
  {| char := char l; pos := pos l; width := width l; height := height l;
     mask_array := mask_array l; heat_map := heat_map l;
     fuel_map := fuel_map l; charred_texture := t |}.

(** [np.full(size, 100.0) * mask_array]: [True] counts as 1, [False] as 0. *)
Definition mul_mask (g : Grid) (m : BoolGrid) : Grid :=
  amapi (λ i j q, q * (if bcell m i j then 1 else 0)) g.

(** [Letter.__init__]; the ember offsets and colours, which only [draw]
    reads, are left out. *)
Definition Letter_init (c : ascii) (p : Z * Z) (font : Font) : Letter :=
  let gl := render font c in
  let w := glyph_width gl in
  let h := glyph_height gl in
  let m := tabulate w h (glyph_pixel gl) in
  {| char := c; pos := p; width := w; height := h;
     mask_array := m;
     heat_map := tabulate w h (λ _ _, 0);
     fuel_map := mul_mask (tabulate w h (λ _ _, 100)) m;
     charred_texture := None |}.

(** [dist_sq] and [heat_mask] of [Letter.add_heat], entry by entry;
    [coords_x[i, j]] is [i] and [coords_y[i, j]] is [j]. *)
Definition dist_sq (local_x local_y : Q) (i j : nat) : Q :=
  (inject_Z (Z.of_nat i) - local_x) ^ 2 + (inject_Z (Z.of_nat j) - local_y) ^ 2.

Definition heat_mask (x y radius : Q) (l : Letter) (i j : nat) : bool :=
  let local_x := x - inject_Z (fst (pos l)) in
  let local_y := y - inject_Z (snd (pos l)) in
  Qltb (dist_sq local_x local_y i j) (radius ^ 2)
  && Qltb 0 (cell (fuel_map l) i j).

(** [Letter.add_heat] *)
Definition add_heat (x y radius dt : Q) (l : Letter) : Letter :=
  set_heat_map
    (amapi (λ i j h, if heat_mask x y radius l i j then h + HEAT_RATE * dt else h)
           (heat_map l))
    l.

(** The values drawn from the generator during one [Letter.update]:
    [spread_roll x y] is the [random.random()] compared with
    [FIRE_SPREAD_CHANCE] for the burning pixel [(x, y)], and [new_texture]
    is the surface [_generate_charred_texture] would build from its noise
    and cracks. *)
Record Draws := {
  spread_roll : nat -> nat -> Q;
  new_texture : Surface
}.

(** Step 1 of [Letter.update]: [heat_map -= COOL_RATE * dt] and the clip. *)
Definition cool (dt : Q) (heat : Grid) : Grid :=
  amap (clip_lo 0) (amap (λ h, h - COOL_RATE * dt) heat).

(** [(heat_map >= IGNITION_POINT) & (fuel_map > 0)] *)
Definition burning_mask (heat fuel : Grid) : BoolGrid :=
  amapi (λ i j h, Qle_bool IGNITION_POINT h && Qltb 0 (cell fuel i j)) heat.

(** [np.any] *)
Definition any (m : BoolGrid) : bool := existsb (existsb id) m.

(** [np.argwhere]: the coordinates of the [True] entries, row by row. *)
Definition argwhere (m : BoolGrid) : list (nat * nat) :=
  mjoin (imap (λ i row, mjoin (imap (λ j (b : bool), if b then [(i, j)] else []) row)) m).

(** [a[mask] = f(a[mask])] for a boolean mask of the shape of [a]. *)
Definition update_where (m : BoolGrid) (f : Q -> Q) (g : Grid) : Grid :=
  amapi (λ i j q, if bcell m i j then f q else q) g.

(** [a[x0:x1, y0:y1] += c]; a slice that reaches past the array stops at its
    edge. *)
Definition slice_add (x0 x1 y0 y1 : nat) (c : Q) (g : Grid) : Grid :=
  amapi (λ i j q,
           if (x0 <=? i)%nat && (i <? x1)%nat && (y0 <=? j)%nat && (j <? y1)%nat
           then q + c else q) g.

(** The body of the loop over [burning_coords], without the particles;
    [x - 1] on naturals stops at 0, as [max(0, x-1)] does. *)
Definition spread_from (w h : nat) (dt : Q) (roll : nat -> nat -> Q)
    (heat : Grid) (xy : nat * nat) : Grid :=
  let '(x, y) := xy in
  if Qltb (roll x y) FIRE_SPREAD_CHANCE then
    let min_x := Nat.max 0 (x - 1) in
    let max_x := Nat.min w (x + 2) in
    let min_y := Nat.max 0 (y - 1) in
    let max_y := Nat.min h (y + 2) in
    slice_add min_x max_x min_y max_y (HEAT_TRANSFER_RATE * dt) heat
  else heat.

(** Steps 1 and 2 of [Letter.update]: the pair of arrays before the final
    clip of the fuel. *)
Definition burn (dt : Q) (roll : nat -> nat -> Q) (l : Letter) : Grid * Grid :=
  let heat := cool dt (heat_map l) in
  let bm := burning_mask heat (fuel_map l) in
  if any bm then
    let fuel_consumed := FUEL_CONSUMPTION_RATE * 100 * dt in
    let fuel := update_where bm (λ f, f - fuel_consumed) (fuel_map l) in
    let burning_coords := argwhere bm in
    (fold_left (spread_from (width l) (height l) dt roll) burning_coords heat,
     fuel)
  else (heat, fuel_map l).

(** [self.fuel_map[mask_array]]: the entries of the fuel map under the mask. *)
Definition masked (m : BoolGrid) (g : Grid) : list Q :=
  (λ xy, cell g xy.1 xy.2) <$> argwhere m.

(** The test of step 4: the texture is still unset, some fuel is below 100
    and every masked pixel has no fuel left. *)
Definition needs_texture (l : Letter) : bool :=
  match charred_texture l with
  | Some _ => false
  | None =>
      any (amap (λ f, Qltb f 100) (fuel_map l))
      && forallb (λ f, Qeq_bool f 0) (masked (mask_array l) (fuel_map l))
  end.

(** [Letter._generate_charred_texture] *)
Definition _generate_charred_texture (s : Surface) (l : Letter) : Letter :=
  set_charred_texture (Some s) l.

(** Steps 1 to 3 of [Letter.update] (step 3 moves the particles). *)
Definition simulate (dt : Q) (roll : nat -> nat -> Q) (l : Letter) : Letter :=
  let '(heat, fuel) := burn dt roll l in
  set_fuel_map (amap (clip 0 100) fuel) (set_heat_map heat l).

(** [Letter.update]; the method does not use its argument [current_time],
    which is left out. *)
Definition update (dt : Q) (rnd : Draws) (l : Letter) : Letter :=
  let l1 := simulate dt (spread_roll rnd) l in
  if needs_texture l1 then _generate_charred_texture (new_texture rnd) l1
  else l1.

(** ** BurningText *)

Record BurningText := {
  text : string;
  letters : list (option Letter);    (* [None] stands for a space *)
  time : Q
}.

(** The loop of [BurningText._initialize_letters]; [y] is [full_rect.y]. *)
Fixpoint init_letters (font : Font) (y x_offset : Z) (chars : list ascii)
  : list (option Letter) :=
  match chars with
  | [] => []
  | c :: rest =>
      if Ascii.eqb c " " then
        None :: init_letters font y (x_offset + space_advance font)%Z rest
      else
        let letter_obj := Letter_init c (x_offset, y) font in
        Some letter_obj
          :: init_letters font y (x_offset + Z.of_nat (width letter_obj))%Z rest
  end.

(** [BurningText.__init__]; a rect of size [(w, h)] centred on
    [(center_x, center_y)] has its corner at
    [(center_x - w // 2, center_y - h // 2)]. *)
Definition BurningText_init (txt : string) (font : Font) (center_x center_y : Z)
  : BurningText :=
  let '(w, h) := text_size font txt in
  let full_x := (center_x - w / 2)%Z in
  let full_y := (center_y - h / 2)%Z in
  {| text := txt;
     letters := init_letters font full_y full_x (list_ascii_of_string txt);
     time := 0 |}.

(** [letter.rect.collidepoint(mouse_pos)] *)
Definition collidepoint (l : Letter) (p : Z * Z) : bool :=
  ((fst (pos l) <=? fst p) && (fst p <? fst (pos l) + Z.of_nat (width l))
   && (snd (pos l) <=? snd p) && (snd p <? snd (pos l) + Z.of_nat (height l)))%Z.

(** What [BurningText.update] does to one letter. *)
Definition update_letter (mouse_pos : Z * Z) (dt : Q) (rnd : Draws)
    (l : Letter) : Letter :=
  update dt rnd
    (if collidepoint l mouse_pos
     then add_heat (inject_Z (fst mouse_pos)) (inject_Z (snd mouse_pos)) 20 dt l
     else l).

(** [BurningText.update]; [rnd i] holds the draws of the letter at index
    [i]. *)
Definition BurningText_update (mouse_pos : Z * Z) (dt : Q) (rnd : nat -> Draws)
    (bt : BurningText) : BurningText :=
  {| text := text bt;
     letters := imap (λ i, fmap (M:=option) (update_letter mouse_pos dt (rnd i))) (letters bt);
     time := time bt + dt |}.

(** ** BurningStateManager *)

(** The dictionary stored for one letter. *)
Record LetterState := {
  saved_char : ascii;
  saved_pos : Z * Z;
  saved_fuel_map : option Grid;      (* [None] when the map has no [tolist] *)
  saved_heat_map : option Grid
}.

Record StateData := {
  saved_text : string;
  letters_state : list (option LetterState)
}.

(** [self.states] *)
Abbreviation States := (gmap string StateData).

Definition letter_state (l : Letter) : LetterState :=
  {| saved_char := char l; saved_pos := pos l;
     saved_fuel_map := Some (fuel_map l);
     saved_heat_map := Some (heat_map l) |}.

(** [BurningStateManager.save_state] *)
Definition save_state (states : States) (identifier : string)
    (burning_text_obj : BurningText) : States :=
  let state_data :=
    {| saved_text := text burning_text_obj;
       letters_state := fmap (M:=option) letter_state <$> letters burning_text_obj |} in
  <[identifier := state_data]> states.

(** The two assignments at the end of the loop body of [restore_state]. *)
Definition restore_letter (st : LetterState) (letter : Letter) : Letter :=
  let letter :=
    match saved_fuel_map st with
    | Some g => set_fuel_map g letter
    | None => letter
    end in
  match saved_heat_map st with
  | Some g => set_heat_map g letter
  | None => letter
  end.

(** The loop of [restore_state] from index [i] on.  The boolean is [false]
    when [burning_text_obj.letters[i]] raised [IndexError]: the handler
    returns [False], and the letters restored before stay restored. *)
Fixpoint restore_letters (i : nat) (saved : list (option LetterState))
    (ls : list (option Letter)) : list (option Letter) * bool :=
  match saved with
  | [] => (ls, true)
  | None :: rest => restore_letters (S i) rest ls
  | Some st :: rest =>
      match ls !! i with
      | None => (ls, false)
      | Some None => restore_letters (S i) rest ls
      | Some (Some letter) =>
          restore_letters (S i) rest (<[i := Some (restore_letter st letter)]> ls)
      end
  end.

(** [BurningStateManager.restore_state]: the object after the call and the
    returned boolean. *)
Definition restore_state (states : States) (identifier : string)
    (burning_text_obj : BurningText) : BurningText * bool :=
  match states !! identifier with
  | None => (burning_text_obj, false)
  | Some state_data =>
      let '(ls, ok) :=
        restore_letters 0 (letters_state state_data) (letters burning_text_obj) in
      ({| text := text burning_text_obj; letters := ls;
          time := time burning_text_obj |}, ok)
  end.

(** [BurningStateManager.clear_state] and [clear_all_states] *)
Definition clear_state (states : States) (identifier : string) : States :=
  delete identifier states.

Definition clear_all_states (states : States) : States := ∅.

(** ** The running program: text objects and the state manager *)

(** The [BurningText] objects created so far, in order of creation, and the
    [states] dictionary of the module-level [burning_state_manager]. *)
Record Sys := {
  objects : list BurningText;
  manager_states : States
}.

Definition init_sys : Sys := {| objects := []; manager_states := ∅ |}.

(** A call of the public interface; [k] names a text object and [i] one of
    its letters. *)
Inductive Call :=
| CallInit (txt : string) (font : Font) (center_x center_y : Z)
| CallUpdate (k : nat) (mouse_pos : Z * Z) (dt : Q) (rnd : nat -> Draws)
| CallAddHeat (k i : nat) (x y radius dt : Q)
| CallLetterUpdate (k i : nat) (dt : Q) (rnd : Draws)
| CallSave (k : nat) (identifier : string)
| CallRestore (k : nat) (identifier : string)
| CallClear (identifier : string)
| CallClearAll.

Definition on_letter (i : nat) (f : Letter -> Letter) (bt : BurningText)
  : BurningText :=
  {| text := text bt;
     letters := alter (fmap (M:=option) f) i (letters bt);
     time := time bt |}.

Definition on_object (k : nat) (f : BurningText -> BurningText) (s : Sys) : Sys :=
  {| objects := alter f k (objects s); manager_states := manager_states s |}.

Definition exec (s : Sys) (c : Call) : Sys :=
  match c with
  | CallInit txt font cx cy =>
      {| objects := objects s ++ [BurningText_init txt font cx cy];
         manager_states := manager_states s |}
  | CallUpdate k mouse_pos dt rnd =>
      on_object k (BurningText_update mouse_pos dt rnd) s
  | CallAddHeat k i x y radius dt =>
      on_object k (on_letter i (add_heat x y radius dt)) s
  | CallLetterUpdate k i dt rnd =>
      on_object k (on_letter i (update dt rnd)) s
  | CallSave k identifier =>
      match objects s !! k with
      | Some bt =>
          {| objects := objects s;
             manager_states := save_state (manager_states s) identifier bt |}
      | None => s
      end
  | CallRestore k identifier =>
      on_object k (λ bt, (restore_state (manager_states s) identifier bt).1) s
  | CallClear identifier =>
      {| objects := objects s;
         manager_states := clear_state (manager_states s) identifier |}
  | CallClearAll =>
      {| objects := objects s;
         manager_states := clear_all_states (manager_states s) |}
  end.

Definition run (s : Sys) (calls : list Call) : Sys := fold_left exec calls s.

(** ** The life of one letter *)

(** A call that reaches one letter: [add_heat], [update], or the
    assignments of [restore_state] for its slot. *)
Inductive LetterCall :=
| DoAddHeat (x y radius dt : Q)
| DoUpdate (dt : Q) (rnd : Draws)
| DoRestore (st : LetterState).

Definition apply_call (l : Letter) (c : LetterCall) : Letter :=
  match c with
  | DoAddHeat x y radius dt => add_heat x y radius dt l
  | DoUpdate dt rnd => update dt rnd l
  | DoRestore st => restore_letter st l
  end.

Definition letter_run (l : Letter) (calls : list LetterCall) : Letter :=
  fold_left apply_call calls l.

(** * The screen-burn transition *)

(** The state of a [ScreenBurnTransition]; the class is defined twice, in
    [main_menu.py] and in [settings_screen.py], with the same attributes.
    [max_radius], the noise generator and the particle lists feed only the
    drawing and the particle emission and are left out. *)
Module ScreenBurn.

Record ScreenBurnTransition := {
  width : Z;
  height : Z;
  burn_progress : Q;
  burn_speed : Q;
  complete : bool;
  active : bool;
  time : Q;
  reverse_mode : bool;
  black_fade_alpha : Q;
  black_fade_speed : Q;
  center_x : Z;
  center_y : Z
}.

(** [ScreenBurnTransition.__init__] *)
Definition init (screen_width screen_height : Z) : ScreenBurnTransition :=
  {| width := screen_width; height := screen_height;
     burn_progress := 0; burn_speed := 2; complete := false; active := false;
     time := 0; reverse_mode := false;
     black_fade_alpha := 0; black_fade_speed := 8;
     center_x := (screen_width / 2)%Z; center_y := (screen_height / 2)%Z |}.

(** [ScreenBurnTransition.start] *)
Definition start (reverse : bool) (t : ScreenBurnTransition)
  : ScreenBurnTransition :=
  {| width := width t; height := height t;
     burn_progress := if negb reverse then 0 else 1;
     burn_speed := burn_speed t; complete := false; active := true;
     time := 0; reverse_mode := reverse;
     black_fade_alpha := 0; black_fade_speed := black_fade_speed t;
     center_x := center_x t; center_y := center_y t |}.

Definition set_time (q : Q) (t : ScreenBurnTransition) : ScreenBurnTransition :=
  {| width := width t; height := height t;
     burn_progress := burn_progress t; burn_speed := burn_speed t;
     complete := complete t; active := active t;
     time := q; reverse_mode := reverse_mode t;
     black_fade_alpha := black_fade_alpha t;
     black_fade_speed := black_fade_speed t;
     center_x := center_x t; center_y := center_y t |}.

Definition set_black_fade_alpha (q : Q) (t : ScreenBurnTransition)
  : ScreenBurnTransition :=
  {| width := width t; height := height t;
     burn_progress := burn_progress t; burn_speed := burn_speed t;
     complete := complete t; active := active t;
     time := time t; reverse_mode := reverse_mode t;
     black_fade_alpha := q; black_fade_speed := black_fade_speed t;
     center_x := center_x t; center_y := center_y t |}.

Definition set_burn_progress (q : Q) (t : ScreenBurnTransition)
  : ScreenBurnTransition :=
  {| width := width t; height := height t;
     burn_progress := q; burn_speed := burn_speed t;
     complete := complete t; active := active t;
     time := time t; reverse_mode := reverse_mode t;
     black_fade_alpha := black_fade_alpha t;
     black_fade_speed := black_fade_speed t;
     center_x := center_x t; center_y := center_y t |}.

Definition set_complete (b : bool) (t : ScreenBurnTransition)
  : ScreenBurnTransition :=
  {| width := width t; height := height t;
     burn_progress := burn_progress t; burn_speed := burn_speed t;
     complete := b; active := active t;
     time := time t; reverse_mode := reverse_mode t;
     black_fade_alpha := black_fade_alpha t;
     black_fade_speed := black_fade_speed t;
     center_x := center_x t; center_y := center_y t |}.

End ScreenBurn.

(** The methods of the class of [main_menu.py]. *)
Module MainMenu.
Import ScreenBurn.

(** [_update_black_fade]: the object after the call and the returned
    boolean. *)
Definition _update_black_fade (dt : Q) (t : ScreenBurnTransition)
  : ScreenBurnTransition * bool :=
  if negb (complete t) then (t, false)
  else
    let t := set_black_fade_alpha
               (black_fade_alpha t + black_fade_speed t * dt * 255) t in
    let t := if Qle_bool 255 (black_fade_alpha t)
             then set_black_fade_alpha 255 t else t in
    (t, true).

(** [_update_burn_progress] *)
Definition _update_burn_progress (dt : Q) (t : ScreenBurnTransition)
  : ScreenBurnTransition :=
  if reverse_mode t then
    let t := set_burn_progress (burn_progress t - burn_speed t * dt) t in
    if Qle_bool (burn_progress t) 0
    then set_complete true (set_burn_progress 0 t) else t
  else
    let t := set_burn_progress (burn_progress t + burn_speed t * dt) t in
    if Qle_bool 1 (burn_progress t)
    then set_complete true (set_burn_progress 1 t) else t.

(** [update], up to the particles. *)
Definition update (dt : Q) (t : ScreenBurnTransition) : ScreenBurnTransition :=
  if negb (active t) then t
  else
    let t := set_time (time t + dt) t in
    let '(t, fading) := _update_black_fade dt t in
    if fading then t
    else _update_burn_progress dt t.

End MainMenu.

(** The [update] of the class of [settings_screen.py], which has the fade
    and the progress inline. *)
Module SettingsScreen.
Import ScreenBurn.

Definition update (dt : Q) (t : ScreenBurnTransition) : ScreenBurnTransition :=
  if negb (active t) then t
  else
    let t := set_time (time t + dt) t in
    if complete t then
      let t := set_black_fade_alpha
                 (black_fade_alpha t + black_fade_speed t * dt * 255) t in
      if Qle_bool 255 (black_fade_alpha t)
      then set_black_fade_alpha 255 t
      else t
    else if reverse_mode t then
      let t := set_burn_progress (burn_progress t - burn_speed t * dt) t in
      if Qle_bool (burn_progress t) 0
      then set_complete true (set_burn_progress 0 t) else t
    else
      let t := set_burn_progress (burn_progress t + burn_speed t * dt) t in
      if Qle_bool 1 (burn_progress t)
      then set_complete true (set_burn_progress 1 t) else t.

End SettingsScreen.

(** A run of updates, one per frame time, in order. *)
Definition updates {T} (update : Q -> T -> T) (dts : list Q) (t : T) : T :=
  fold_left (λ t dt, update dt t) dts t.

(** * Objects and references

    The model above passes arrays by value.  Python passes references: a
    numpy array is an object that [-=], [+=] on a mask or a slice and
    [np.clip(..., out=...)] change in place, and that anything holding the
    same reference sees changing.  This second model keeps the arrays and
    the lists of [tolist()] in a memory of numbered objects; letters and
    snapshots hold references into it.  It is related to the first model by
    [view], which reads the references. *)
Module Refs.

(** The memory: the array and list objects by reference, and the reference
    the next new object gets. *)
Record Mem := {
  heap : gmap nat Grid;
  next_ref : nat
}.

(** A new object with the entries [g]: [np.zeros], [np.full(...) * mask],
    [a.tolist()], [np.array(lst)]. *)
Definition alloc (g : Grid) (m : Mem) : nat * Mem :=
  (next_ref m,
   {| heap := <[next_ref m := g]> (heap m); next_ref := S (next_ref m) |}).

Definition read (m : Mem) (r : nat) : Grid := default [] (heap m !! r).

(** An operation that changes the object [r] in place. *)
Definition modify (r : nat) (f : Grid -> Grid) (m : Mem) : Mem :=
  {| heap := alter f r (heap m); next_ref := next_ref m |}.

(** A [Letter] object: its [heat_map] and [fuel_map] attributes are
    references. *)
Record LetterObj := {
  obj_char : ascii;
  obj_pos : Z * Z;
  obj_width : nat;
  obj_height : nat;
  obj_mask_array : BoolGrid;
  heat_ref : nat;
  fuel_ref : nat;
  obj_charred_texture : option Surface
}.

(** The letter that the object and the memory stand for. *)
Definition load (m : Mem) (o : LetterObj) : Letter :=
  {| char := obj_char o; pos := obj_pos o;
     width := obj_width o; height := obj_height o;
     mask_array := obj_mask_array o;
     heat_map := read m (heat_ref o); fuel_map := read m (fuel_ref o);
     charred_texture := obj_charred_texture o |}.

Definition set_fuel_ref (r : nat) (o : LetterObj) : LetterObj :=
  {| obj_char := obj_char o; obj_pos := obj_pos o;
     obj_width := obj_width o; obj_height := obj_height o;
     obj_mask_array := obj_mask_array o;
     heat_ref := heat_ref o; fuel_ref := r;
     obj_charred_texture := obj_charred_texture o |}.

Definition set_heat_ref (r : nat) (o : LetterObj) : LetterObj :=
  {| obj_char := obj_char o; obj_pos := obj_pos o;
     obj_width := obj_width o; obj_height := obj_height o;
     obj_mask_array := obj_mask_array o;
     heat_ref := r; fuel_ref := fuel_ref o;
     obj_charred_texture := obj_charred_texture o |}.

Definition set_texture (t : option Surface) (o : LetterObj) : LetterObj :=
  {| obj_char := obj_char o; obj_pos := obj_pos o;
     obj_width := obj_width o; obj_height := obj_height o;
     obj_mask_array := obj_mask_array o;
     heat_ref := heat_ref o; fuel_ref := fuel_ref o;
     obj_charred_texture := t |}.

(** [Letter.__init__]: two new arrays. *)
Definition Letter_init (c : ascii) (p : Z * Z) (font : Font) (m : Mem)
  : LetterObj * Mem :=
  let gl := render font c in
  let w := glyph_width gl in
  let h := glyph_height gl in
  let mask := tabulate w h (glyph_pixel gl) in
  let '(heat, m) := alloc (tabulate w h (λ _ _, 0)) m in
  let '(fuel, m) := alloc (mul_mask (tabulate w h (λ _ _, 100)) mask) m in
  ({| obj_char := c; obj_pos := p; obj_width := w; obj_height := h;
      obj_mask_array := mask; heat_ref := heat; fuel_ref := fuel;
      obj_charred_texture := None |}, m).

(** [Letter.add_heat]: [heat_mask] is a new boolean array, then
    [heat_map[heat_mask] += ...] in place. *)
Definition add_heat (x y radius dt : Q) (o : LetterObj) (m : Mem) : Mem :=
  let mask := heat_mask x y radius (load m o) in
  modify (heat_ref o)
         (amapi (λ i j h, if mask i j then h + HEAT_RATE * dt else h)) m.

(** [Letter.update], statement by statement. *)
Definition update (dt : Q) (rnd : Draws) (o : LetterObj) (m : Mem)
  : LetterObj * Mem :=
  (* heat_map -= COOL_RATE * dt *)
  let m := modify (heat_ref o) (amap (λ h, h - COOL_RATE * dt)) m in
  (* np.clip(heat_map, 0, None, out=heat_map) *)
  let m := modify (heat_ref o) (amap (clip_lo 0)) m in
  let bm := burning_mask (read m (heat_ref o)) (read m (fuel_ref o)) in
  let m :=
    if any bm then
      (* fuel_map[burning_mask] -= fuel_consumed *)
      let fuel_consumed := FUEL_CONSUMPTION_RATE * 100 * dt in
      let m := modify (fuel_ref o) (update_where bm (λ f, f - fuel_consumed)) m in
      (* heat_map[min_x:max_x, min_y:max_y] += ..., for each burning pixel *)
      fold_left
        (λ m xy,
           modify (heat_ref o)
                  (λ heat, spread_from (obj_width o) (obj_height o) dt
                                       (spread_roll rnd) heat xy) m)
        (argwhere bm) m
    else m in
  (* np.clip(fuel_map, 0, 100, out=fuel_map) *)
  let m := modify (fuel_ref o) (amap (clip 0 100)) m in
  if needs_texture (load m o)
  then (set_texture (Some (new_texture rnd)) o, m)
  else (o, m).

(** A [BurningText] object. *)
Record TextObj := {
  obj_text : string;
  obj_letters : list (option LetterObj);
  obj_time : Q
}.

Fixpoint init_letters (font : Font) (y x_offset : Z) (chars : list ascii)
    (m : Mem) : list (option LetterObj) * Mem :=
  match chars with
  | [] => ([], m)
  | c :: rest =>
      if Ascii.eqb c " " then
        let '(os, m) :=
          init_letters font y (x_offset + space_advance font)%Z rest m in
        (None :: os, m)
      else
        let '(letter_obj, m) := Letter_init c (x_offset, y) font m in
        let '(os, m) :=
          init_letters font y (x_offset + Z.of_nat (obj_width letter_obj))%Z
                       rest m in
        (Some letter_obj :: os, m)
  end.

Definition BurningText_init (txt : string) (font : Font) (center_x center_y : Z)
    (m : Mem) : TextObj * Mem :=
  let '(w, h) := text_size font txt in
  let full_x := (center_x - w / 2)%Z in
  let full_y := (center_y - h / 2)%Z in
  let '(os, m) := init_letters font full_y full_x (list_ascii_of_string txt) m in
  ({| obj_text := txt; obj_letters := os; obj_time := 0 |}, m).

(** What [BurningText.update] does to one letter object. *)
Definition update_letter (mouse_pos : Z * Z) (dt : Q) (rnd : Draws)
    (o : LetterObj) (m : Mem) : LetterObj * Mem :=
  let m :=
    if collidepoint (load m o) mouse_pos
    then add_heat (inject_Z (fst mouse_pos)) (inject_Z (snd mouse_pos)) 20 dt o m
    else m in
  update dt rnd o m.

(** The loop of [BurningText.update] from index [i] on. *)
Fixpoint update_letters (i : nat) (mouse_pos : Z * Z) (dt : Q)
    (rnd : nat -> Draws) (os : list (option LetterObj)) (m : Mem)
  : list (option LetterObj) * Mem :=
  match os with
  | [] => ([], m)
  | None :: rest =>
      let '(os', m) := update_letters (S i) mouse_pos dt rnd rest m in
      (None :: os', m)
  | Some o :: rest =>
      let '(o', m) := update_letter mouse_pos dt (rnd i) o m in
      let '(os', m) := update_letters (S i) mouse_pos dt rnd rest m in
      (Some o' :: os', m)
  end.

Definition BurningText_update (mouse_pos : Z * Z) (dt : Q) (rnd : nat -> Draws)
    (t : TextObj) (m : Mem) : TextObj * Mem :=
  let '(os, m) := update_letters 0 mouse_pos dt rnd (obj_letters t) m in
  ({| obj_text := obj_text t; obj_letters := os;
      obj_time := obj_time t + dt |}, m).

(** The dictionary stored for one letter: [tolist()] made two new lists. *)
Record SavedLetter := {
  kept_char : ascii;
  kept_pos : Z * Z;
  fuel_list : option nat;
  heat_list : option nat
}.

Record SavedText := {
  kept_text : string;
  kept_letters : list (option SavedLetter)
}.

(** The loop of [save_state]. *)
Fixpoint save_letters (os : list (option LetterObj)) (m : Mem)
  : list (option SavedLetter) * Mem :=
  match os with
  | [] => ([], m)
  | None :: rest =>
      let '(sts, m) := save_letters rest m in (None :: sts, m)
  | Some letter :: rest =>
      let '(fuel, m) := alloc (read m (fuel_ref letter)) m in
      let '(heat, m) := alloc (read m (heat_ref letter)) m in
      let letter_state :=
        {| kept_char := obj_char letter; kept_pos := obj_pos letter;
           fuel_list := Some fuel; heat_list := Some heat |} in
      let '(sts, m) := save_letters rest m in
      (Some letter_state :: sts, m)
  end.

Definition save_state (states : gmap string SavedText) (identifier : string)
    (t : TextObj) (m : Mem) : gmap string SavedText * Mem :=
  let '(sts, m) := save_letters (obj_letters t) m in
  (<[identifier := {| kept_text := obj_text t; kept_letters := sts |}]> states, m).

(** The two assignments of [restore_state]: [np.array] makes a new array
    from the saved list, and the attribute is bound to it. *)
Definition restore_letter (st : SavedLetter) (letter : LetterObj) (m : Mem)
  : LetterObj * Mem :=
  let '(letter, m) :=
    match fuel_list st with
    | Some lst =>
        let '(r, m) := alloc (read m lst) m in (set_fuel_ref r letter, m)
    | None => (letter, m)
    end in
  match heat_list st with
  | Some lst =>
      let '(r, m) := alloc (read m lst) m in (set_heat_ref r letter, m)
  | None => (letter, m)
  end.

Fixpoint restore_letters (i : nat) (saved : list (option SavedLetter))
    (os : list (option LetterObj)) (m : Mem)
  : list (option LetterObj) * Mem * bool :=
  match saved with
  | [] => (os, m, true)
  | None :: rest => restore_letters (S i) rest os m
  | Some st :: rest =>
      match os !! i with
      | None => (os, m, false)
      | Some None => restore_letters (S i) rest os m
      | Some (Some letter) =>
          let '(letter, m) := restore_letter st letter m in
          restore_letters (S i) rest (<[i := Some letter]> os) m
      end
  end.

Definition restore_state (states : gmap string SavedText) (identifier : string)
    (t : TextObj) (m : Mem) : TextObj * Mem * bool :=
  match states !! identifier with
  | None => (t, m, false)
  | Some state_data =>
      let '(os, m, ok) :=
        restore_letters 0 (kept_letters state_data) (obj_letters t) m in
      ({| obj_text := obj_text t; obj_letters := os; obj_time := obj_time t |},
       m, ok)
  end.

(** The running program with its memory. *)
Record World := {
  mem : Mem;
  texts : list TextObj;
  store : gmap string SavedText
}.

Definition init_world : World :=
  {| mem := {| heap := ∅; next_ref := 0 |}; texts := []; store := ∅ |}.

(** The letter object [i] of the text object [k]. *)
Definition letter_obj (w : World) (k i : nat) : option LetterObj :=
  texts w !! k ≫= λ t, mjoin (obj_letters t !! i).

Definition set_letter (i : nat) (o : LetterObj) (t : TextObj) : TextObj :=
  {| obj_text := obj_text t; obj_letters := <[i := Some o]> (obj_letters t);
     obj_time := obj_time t |}.

Definition exec (w : World) (c : Call) : World :=
  match c with
  | CallInit txt font cx cy =>
      let '(t, m) := BurningText_init txt font cx cy (mem w) in
      {| mem := m; texts := texts w ++ [t]; store := store w |}
  | CallUpdate k mouse_pos dt rnd =>
      match texts w !! k with
      | Some t =>
          let '(t, m) := BurningText_update mouse_pos dt rnd t (mem w) in
          {| mem := m; texts := <[k := t]> (texts w); store := store w |}
      | None => w
      end
  | CallAddHeat k i x y radius dt =>
      match letter_obj w k i with
      | Some o =>
          {| mem := add_heat x y radius dt o (mem w);
             texts := texts w; store := store w |}
      | None => w
      end
  | CallLetterUpdate k i dt rnd =>
      match letter_obj w k i with
      | Some o =>
          let '(o, m) := update dt rnd o (mem w) in
          {| mem := m; texts := alter (set_letter i o) k (texts w);
             store := store w |}
      | None => w
      end
  | CallSave k identifier =>
      match texts w !! k with
      | Some t =>
          let '(states, m) := save_state (store w) identifier t (mem w) in
          {| mem := m; texts := texts w; store := states |}
      | None => w
      end
  | CallRestore k identifier =>
      match texts w !! k with
      | Some t =>
          let '(t, m, _) := restore_state (store w) identifier t (mem w) in
          {| mem := m; texts := <[k := t]> (texts w); store := store w |}
      | None => w
      end
  | CallClear identifier =>
      {| mem := mem w; texts := texts w; store := delete identifier (store w) |}
  | CallClearAll =>
      {| mem := mem w; texts := texts w; store := ∅ |}
  end.

Definition run (w : World) (calls : list Call) : World := fold_left exec calls w.

(** ** Reading the references *)

Definition view_text (m : Mem) (t : TextObj) : BurningText :=
  {| text := obj_text t;
     letters := fmap (M:=option) (load m) <$> obj_letters t;
     time := obj_time t |}.

Definition view_saved_letter (m : Mem) (st : SavedLetter) : LetterState :=
  {| saved_char := kept_char st; saved_pos := kept_pos st;
     saved_fuel_map := read m <$> fuel_list st;
     saved_heat_map := read m <$> heat_list st |}.

Definition view_saved (m : Mem) (sd : SavedText) : StateData :=
  {| saved_text := kept_text sd;
     letters_state := fmap (M:=option) (view_saved_letter m) <$> kept_letters sd |}.

(** The program of the first model that a world stands for. *)
Definition view (w : World) : Sys :=
  {| objects := view_text (mem w) <$> texts w;
     manager_states := view_saved (mem w) <$> store w |}.

End Refs.

(** * The vocabulary of the statements *)

(** ** Heat, fuel and spread *)

(** Equality of optional entries up to [Qeq]. *)
Definition oQeq (a b : option Q) : Prop :=
  match a, b with
  | Some x, Some y => x == y
  | None, None => True
  | _, _ => False
  end.

(** [(i, j)] lies in the slice that the burning pixel [(x, y)] heats. *)
Definition in_block (w h x y i j : nat) : bool :=
  (Nat.max 0 (x - 1) <=? i)%nat && (i <? Nat.min w (x + 2))%nat
  && (Nat.max 0 (y - 1) <=? j)%nat && (j <? Nat.min h (y + 2))%nat.

(** The burning pixels of [coords] whose roll passes and whose slice
    contains [(i, j)]. *)
Definition spreaders (w h : nat) (roll : nat -> nat -> Q)
    (coords : list (nat * nat)) (i j : nat) : list (nat * nat) :=
  List.filter
    (λ xy, Qltb (roll xy.1 xy.2) FIRE_SPREAD_CHANCE && in_block w h xy.1 xy.2 i j)
    coords.

(** The burning mask that [Letter.update] computes after the cooling. *)
Definition burning (dt : Q) (l : Letter) : BoolGrid :=
  burning_mask (cool dt (heat_map l)) (fuel_map l).

(** The pixels that heat [(i, j)] during one [Letter.update]: they are
    burning, their roll passes, and [(i, j)] is in their slice. *)
Definition heated_by (dt : Q) (rnd : Draws) (l : Letter) (i j : nat)
  : list (nat * nat) :=
  spreaders (width l) (height l) (spread_roll rnd) (argwhere (burning dt l)) i j.

(** [(x, y)] loses fuel in the update. *)
Definition consumes (dt : Q) (rnd : Draws) (l : Letter) (x y : nat) : Prop :=
  ∃ f f', gget (fuel_map l) x y = Some f
          ∧ gget (fuel_map (update dt rnd l)) x y = Some f' ∧ f' < f.

Definition fuel_ok (f : Q) : Prop := 0 <= f <= 100.
Definition heat_ok (h : Q) : Prop := 0 <= h.

Definition cells_ok (l : Letter) : Prop :=
  grid_all fuel_ok (fuel_map l) ∧ grid_all heat_ok (heat_map l).

(** The three arrays of a letter have the shape of its rect.  numpy needs
    this where [Letter.update] and [Letter.add_heat] combine them entry by
    entry; [Letter.__init__] establishes it, the two methods keep it, and
    [restore_state] keeps it when the snapshot comes from a letter of the
    same size. *)
Definition well_shaped (l : Letter) : Prop :=
  shape_is (width l) (height l) (heat_map l)
  ∧ shape_is (width l) (height l) (fuel_map l)
  ∧ shape_is (width l) (height l) (mask_array l).

(** ** The running program *)

(** The elapsed time passed to a call is not negative. *)
Definition time_ok (c : Call) : Prop :=
  match c with
  | CallUpdate _ _ dt _ | CallAddHeat _ _ _ _ _ dt | CallLetterUpdate _ _ dt _ =>
      0 <= dt
  | _ => True
  end.

(** The letter at index [i] of the text object [k]. *)
Definition letter_at (s : Sys) (k i : nat) : option Letter :=
  objects s !! k ≫= λ bt, mjoin (letters bt !! i).

Definition fuel_at (s : Sys) (k i x y : nat) : option Q :=
  letter_at s k i ≫= λ l, gget (fuel_map l) x y.

Definition heat_at (s : Sys) (k i x y : nat) : option Q :=
  letter_at s k i ≫= λ l, gget (heat_map l) x y.

(** Every letter of a text object keeps heat and fuel in range. *)
Definition text_ok (bt : BurningText) : Prop :=
  Forall (λ ol, ∀ l, ol = Some l -> cells_ok l) (letters bt).

Definition letter_state_ok (st : LetterState) : Prop :=
  (∀ g, saved_fuel_map st = Some g -> grid_all fuel_ok g)
  ∧ (∀ g, saved_heat_map st = Some g -> grid_all heat_ok g).

Definition snapshot_ok (sd : StateData) : Prop :=
  Forall (λ ost, ∀ st, ost = Some st -> letter_state_ok st) (letters_state sd).

Definition sys_ok (s : Sys) : Prop :=
  Forall text_ok (objects s) ∧ map_Forall (λ _ sd, snapshot_ok sd) (manager_states s).

(** [c] is a [restore_state] on the text object [k]. *)
Definition restores (k : nat) (c : Call) : Prop :=
  match c with
  | CallRestore k' _ => k' = k
  | _ => False
  end.

(** What one call can do to one letter: the three methods that change a
    [Letter]; [restore_state] counts only when [with_restore] is set. *)
Inductive letter_step (with_restore : bool) : Letter -> Letter -> Prop :=
| step_add_heat x y radius dt l :
    letter_step with_restore l (add_heat x y radius dt l)
| step_update dt rnd l :
    letter_step with_restore l (update dt rnd l)
| step_restore st l :
    with_restore = true -> letter_step with_restore l (restore_letter st l).

(** The fuel of the pixel [(x, y)] of letter [i] of object [k] is [q]. *)
Definition fuel_is (s : Sys) (k i x y : nat) (q : Q) : Prop :=
  match fuel_at s k i x y with
  | Some f => f == q
  | None => False
  end.

(** [c] writes or removes the snapshot stored under [identifier]. *)
Definition rewrites (identifier : string) (c : Call) : Prop :=
  match c with
  | CallSave _ identifier' | CallClear identifier' => identifier' = identifier
  | CallClearAll => True
  | _ => False
  end.

(** ** Runs of one letter *)

(** The simulated time that the [update]s of a run add up to. *)
Fixpoint elapsed (calls : list LetterCall) : Q :=
  match calls with
  | [] => 0
  | DoUpdate dt _ :: rest => dt + elapsed rest
  | _ :: rest => elapsed rest
  end.

(** The cell [(i, j)] is held at or above the ignition point through a run of
    [add_heat] and [update] calls: in every [update] the elapsed time is not
    negative and the heat of the cell, when the burning mask is computed
    (after the cooling), is at least [IGNITION_POINT]. *)
Fixpoint held_ignited (i j : nat) (l : Letter) (calls : list LetterCall) : Prop :=
  match calls with
  | [] => True
  | c :: rest =>
      match c with
      | DoAddHeat _ _ _ _ => True
      | DoUpdate dt _ =>
          0 <= dt ∧ IGNITION_POINT <= cell (cool dt (heat_map l)) i j
      | DoRestore _ => False
      end
      ∧ held_ignited i j (apply_call l c) rest
  end.

(** How often a run calls [_generate_charred_texture]: once for every
    [update] whose step 4 finds the two tests true. *)
Fixpoint generations (l : Letter) (calls : list LetterCall) : nat :=
  match calls with
  | [] => 0
  | c :: rest =>
      match c with
      | DoUpdate dt rnd =>
          if needs_texture (simulate dt (spread_roll rnd) l) then 1 else 0
      | _ => 0
      end
      + generations (apply_call l c) rest
  end%nat.

(** ** The slots of a text object *)

Definition occupied (ol : option Letter) : bool :=
  match ol with Some _ => true | None => false end.

(** Which characters of a text get a letter: all but the spaces. *)
Definition text_slots (txt : string) : list bool :=
  (λ c, negb (Ascii.eqb c " ")) <$> list_ascii_of_string txt.

(** The letter list of [bt] has a letter exactly where its text has a
    character other than a space. *)
Definition well_formed (bt : BurningText) : Prop :=
  occupied <$> letters bt = text_slots (text bt).

(** ** Runs of the transition *)

(** The sum of the frame times of a run of updates. *)
Definition total_time (dts : list Q) : Q := fold_right Qplus 0 dts.

(** What an outward burn looks like after [s] seconds of updates: active,
    not reversed, at speed [v], and either still growing with
    [burn_progress = v * s < 1], or complete with [burn_progress = 1] and
    [v * s >= 1]. *)
Definition outward_after (v s : Q) (t : ScreenBurn.ScreenBurnTransition) : Prop :=
  ScreenBurn.active t = true
  ∧ ScreenBurn.reverse_mode t = false
  ∧ ScreenBurn.burn_speed t = v
  ∧ ScreenBurn.time t == s
  ∧ if ScreenBurn.complete t
    then ScreenBurn.burn_progress t == 1 ∧ 1 <= v * s
    else ScreenBurn.burn_progress t == v * s ∧ v * s < 1.

(** ** Memories and references *)

(** Every reference below [next_ref], and no other, names an object. *)
Definition mem_ok (m : Refs.Mem) : Prop :=
  ∀ r, is_Some (Refs.heap m !! r) <-> (r < Refs.next_ref m)%nat.

(** [m'] has the objects of [m], unchanged, and possibly new ones. *)
Definition grows (m m' : Refs.Mem) : Prop :=
  (Refs.next_ref m <= Refs.next_ref m')%nat
  ∧ ∀ r, (r < Refs.next_ref m)%nat -> Refs.read m' r = Refs.read m r.

(** [m'] has the objects of [m], changed at most at the references in
    [R]. *)
Definition same_outside (R : nat -> Prop) (m m' : Refs.Mem) : Prop :=
  Refs.next_ref m' = Refs.next_ref m
  ∧ ∀ r, ¬ R r -> Refs.read m' r = Refs.read m r.

(** The two references of a letter object. *)
Definition refs_of (o : Refs.LetterObj) (r : nat) : Prop :=
  Refs.heat_ref o = r ∨ Refs.fuel_ref o = r.

(** A letter object whose two arrays are distinct objects of the memory. *)
Definition letter_ok (m : Refs.Mem) (o : Refs.LetterObj) : Prop :=
  Refs.heat_ref o ≠ Refs.fuel_ref o
  ∧ (Refs.heat_ref o < Refs.next_ref m)%nat
  ∧ (Refs.fuel_ref o < Refs.next_ref m)%nat.

(** [r] is an array of some letter of the list. *)
Definition slot_refs (os : list (option Refs.LetterObj)) (r : nat) : Prop :=
  ∃ i o, os !! i = Some (Some o) ∧ refs_of o r.

(** The letters of the list are objects of the memory and no two slots share
    an array. *)
Definition slots_ok (m : Refs.Mem) (os : list (option Refs.LetterObj)) : Prop :=
  (∀ i o, os !! i = Some (Some o) -> letter_ok m o)
  ∧ (∀ i j o o' r,
       os !! i = Some (Some o) -> os !! j = Some (Some o') ->
       refs_of o r -> refs_of o' r -> i = j).

(** The letter objects of two lists have, slot by slot, the same arrays. *)
Definition same_refs (os os' : list (option Refs.LetterObj)) : Prop :=
  Forall2 (option_Forall2 (λ o o', Refs.heat_ref o' = Refs.heat_ref o
                                   ∧ Refs.fuel_ref o' = Refs.fuel_ref o))
          os os'.

(** The text objects of two lists have, slot by slot, the same arrays. *)
Definition same_layout (ts ts' : list Refs.TextObj) : Prop :=
  Forall2 (λ t t', same_refs (Refs.obj_letters t) (Refs.obj_letters t')) ts ts'.

(** ** References in use *)

(** [r] is the heat or fuel array of some letter of some text object. *)
Definition live (w : Refs.World) (r : nat) : Prop :=
  ∃ k t, Refs.texts w !! k = Some t ∧ slot_refs (Refs.obj_letters t) r.

(** [r] is one of the lists of the saved letters [sts]. *)
Definition saved_refs (sts : list (option Refs.SavedLetter)) (r : nat) : Prop :=
  ∃ i st, sts !! i = Some (Some st)
          ∧ (Refs.fuel_list st = Some r ∨ Refs.heat_list st = Some r).

(** [r] is a list held by the snapshot [sd]. *)
Definition kept_in (sd : Refs.SavedText) (r : nat) : Prop :=
  saved_refs (Refs.kept_letters sd) r.

(** [r] is a list held by some snapshot of the store. *)
Definition kept (w : Refs.World) (r : nat) : Prop :=
  ∃ identifier sd, Refs.store w !! identifier = Some sd ∧ kept_in sd r.

(** The memory is in order, the letters of every text object are objects
    of their own, no two text objects share an array, no snapshot holds an
    array of a letter, and the lists of the snapshots are objects of the
    memory. *)
Definition separated (w : Refs.World) : Prop :=
  mem_ok (Refs.mem w)
  ∧ (∀ k t, Refs.texts w !! k = Some t -> slots_ok (Refs.mem w) (Refs.obj_letters t))
  ∧ (∀ k k' t t' r,
       Refs.texts w !! k = Some t -> Refs.texts w !! k' = Some t' ->
       slot_refs (Refs.obj_letters t) r -> slot_refs (Refs.obj_letters t') r ->
       k = k')
  ∧ (∀ r, live w r -> ¬ kept w r)
  ∧ (∀ r, kept w r -> (r < Refs.next_ref (Refs.mem w))%nat).

(** The second model does to a world what the first one does to its view,
    and keeps the world separated. *)
Definition refines (w : Refs.World) (c : Call) : Prop :=
  separated (Refs.exec w c) ∧ Refs.view (Refs.exec w c) = exec (Refs.view w) c.

(** ** Small concrete objects, used to run the model *)

(** A font whose glyphs are solid squares of side [n]. *)
Definition block_font (n : nat) : Font :=
  {| render := λ _, {| glyph_width := n; glyph_height := n;
                       glyph_pixel := λ _ _, true |};
     space_advance := Z.of_nat n;
     text_size := λ s, (Z.of_nat (n * String.length s), Z.of_nat n) |}.

(** Draws under which every burning pixel spreads. *)
Definition always_spread : Draws :=
  {| spread_roll := λ _ _, 0; new_texture := [] |}.

(** One letter of one pixel is created and saved while pristine, then heated
    and burnt out in a single long step. *)
Definition burn_out_calls : list Call :=
  [ CallInit "A" (block_font 1) 0 0;
    CallSave 0 "fresh";
    CallAddHeat 0 0 0 0 1 1;
    CallLetterUpdate 0 0 2 always_spread ].

(** A solid 3x3 letter whose centre pixel alone has been heated, to 400. *)
Definition hot_centre : Letter :=
  add_heat 1 1 (1 # 2) 1 (Letter_init "A" (0, 0)%Z (block_font 3)).

(** [hot_centre] is held alight for four half-second updates; before each
    one the pointer adds heat at the centre. *)
Definition hold_centre : list LetterCall :=
  [ DoUpdate (1 # 2) always_spread;
    DoAddHeat 1 1 (1 # 2) 1; DoUpdate (1 # 2) always_spread;
    DoAddHeat 1 1 (1 # 2) 1; DoUpdate (1 # 2) always_spread;
    DoAddHeat 1 1 (1 # 2) 1; DoUpdate (1 # 2) always_spread ].

(** Two letters of one pixel each are created, the first one is heated and
    the object is saved; then a second object with a single letter is
    created. *)
Definition two_then_one : list Call :=
  [ CallInit "AB" (block_font 1) 0 0;
    CallAddHeat 0 0 (-1) 0 1 1;
    CallSave 0 "two";
    CallInit "A" (block_font 1) 0 0 ].

(** The object that [two_then_one] saves under ["two"]. *)
Definition heated_pair : BurningText :=
  {| text := "AB";
     letters :=
       [ Some {| char := "A"; pos := (-1, 0)%Z; width := 1; height := 1;
                 mask_array := [[true]]; heat_map := [[400]];
                 fuel_map := [[100]]; charred_texture := None |};
         Some {| char := "B"; pos := (0, 0)%Z; width := 1; height := 1;
                 mask_array := [[true]]; heat_map := [[0]];
                 fuel_map := [[100]]; charred_texture := None |} ];
     time := 0 |}.

(** Thirty frames at 30 frames per second. *)
Definition second_at_30 : list Q := repeat (1 # 30) 30.

(** * More of the program

    The rest of the four files, as far as it computes state: the layout
    of the letters, frames of a text object, the particles, the fade to
    black, the inward burn and the black fade that ends a burn, the menus
    that drive the transitions, and the widgets of the settings screen. *)

(** ** Frames of a text object *)

(** What one frame passes to [BurningText.update]: the position of the
    pointer, the frame time and the draws of every letter. *)
Record Frame := {
  frame_mouse : Z * Z;
  frame_dt : Q;
  frame_draws : nat -> Draws
}.

(** A run of frames on one text object. *)
Definition play (frames : list Frame) (bt : BurningText) : BurningText :=
  fold_left
    (λ bt fr, BurningText_update (frame_mouse fr) (frame_dt fr) (frame_draws fr) bt)
    frames bt.

(** A frame with a frame time that is not negative and the pointer off
    the rect of [l]. *)
Definition leaves_alone (l : Letter) (fr : Frame) : Prop :=
  0 <= frame_dt fr ∧ collidepoint l (frame_mouse fr) = false.

(** No pixel of the letter has reached the ignition point. *)
Definition cold (l : Letter) : Prop :=
  grid_all (λ h, h < IGNITION_POINT) (heat_map l).

(** How far [_initialize_letters] moves [x_offset] for one character. *)
Definition advance (font : Font) (c : ascii) : Z :=
  if Ascii.eqb c " " then space_advance font
  else Z.of_nat (glyph_width (render font c)).

(** The attributes of a letter that say where it is and which pixels it
    has. *)
Definition same_geometry (l l' : Letter) : Prop :=
  char l' = char l ∧ pos l' = pos l ∧ width l' = width l
  ∧ height l' = height l ∧ mask_array l' = mask_array l.

(** A glyph of 2x2 pixels with no pixel set. *)
Definition blank_font : Font :=
  {| render := λ _, {| glyph_width := 2; glyph_height := 2;
                       glyph_pixel := λ _ _, false |};
     space_advance := 2;
     text_size := λ s, (Z.of_nat (2 * String.length s), 2%Z) |}.

(** The value of [x_offset] when the loop of [_initialize_letters] reaches
    the character at index [i]. *)
Definition x_offset_at (font : Font) (x0 : Z) (chars : list ascii) (i : nat) : Z :=
  fold_left (λ x c, x + advance font c)%Z (take i chars) x0.

(** ** The fade to black of [main_menu.py] *)

Module Fade.

Record FadeTransition := {
  width : Z;
  height : Z;
  fade_alpha : Q;
  fade_speed : Q;
  complete : bool;
  active : bool
}.

(** [FadeTransition.__init__] *)
Definition init (screen_width screen_height : Z) : FadeTransition :=
  {| width := screen_width; height := screen_height;
     fade_alpha := 0; fade_speed := 3; complete := false; active := false |}.

(** [FadeTransition.start] *)
Definition start (t : FadeTransition) : FadeTransition :=
  {| width := width t; height := height t;
     fade_alpha := 0; fade_speed := fade_speed t;
     complete := false; active := true |}.

Definition set_fade_alpha (q : Q) (t : FadeTransition) : FadeTransition :=
  {| width := width t; height := height t;
     fade_alpha := q; fade_speed := fade_speed t;
     complete := complete t; active := active t |}.

Definition set_complete (b : bool) (t : FadeTransition) : FadeTransition :=
  {| width := width t; height := height t;
     fade_alpha := fade_alpha t; fade_speed := fade_speed t;
     complete := b; active := active t |}.

(** [FadeTransition.update] *)
Definition update (dt : Q) (t : FadeTransition) : FadeTransition :=
  if negb (active t) then t
  else
    let t := set_fade_alpha (fade_alpha t + fade_speed t * dt * 255) t in
    if Qle_bool 255 (fade_alpha t)
    then set_complete true (set_fade_alpha 255 t)
    else t.

End Fade.

(** ** The phases of a screen burn *)

(** A property of the [update] method that holds for the class of
    [main_menu.py] and for the class of [settings_screen.py]. *)
Definition in_both_copies
    (P : (Q -> ScreenBurn.ScreenBurnTransition -> ScreenBurn.ScreenBurnTransition)
         -> Prop) : Prop :=
  P MainMenu.update ∧ P SettingsScreen.update.

(** The burn is under way: [s] seconds after the start, in direction
    [reverse] at speed [v], the edge has not arrived yet and the black fade
    has not begun. *)
Definition burn_phase (reverse : bool) (v b s : Q)
    (t : ScreenBurn.ScreenBurnTransition) : Prop :=
  ScreenBurn.active t = true
  ∧ ScreenBurn.reverse_mode t = reverse
  ∧ ScreenBurn.burn_speed t = v
  ∧ ScreenBurn.black_fade_speed t = b
  ∧ ScreenBurn.time t == s
  ∧ ScreenBurn.complete t = false
  ∧ ScreenBurn.burn_progress t == (if reverse then 1 - v * s else v * s)
  ∧ v * s < 1
  ∧ ScreenBurn.black_fade_alpha t == 0.

(** The burn is complete: the edge arrived at or before [s] seconds after
    the start. *)
Definition burnt (reverse : bool) (v s : Q)
    (t : ScreenBurn.ScreenBurnTransition) : Prop :=
  ScreenBurn.active t = true
  ∧ ScreenBurn.reverse_mode t = reverse
  ∧ ScreenBurn.burn_speed t = v
  ∧ ScreenBurn.time t == s
  ∧ ScreenBurn.complete t = true
  ∧ ScreenBurn.burn_progress t == (if reverse then 0 else 1)
  ∧ 1 <= v * s.

(** The burn is complete and the screen has been fading to black for [u]
    seconds at speed [b]. *)
Definition fade_phase (reverse : bool) (v b s u : Q)
    (t : ScreenBurn.ScreenBurnTransition) : Prop :=
  burnt reverse v s t
  ∧ ScreenBurn.black_fade_speed t = b
  ∧ ScreenBurn.black_fade_alpha t == Qmin 255 (255 * (b * u)).

(** The fade has been running for [s] seconds at speed [v]. *)
Definition fade_after (v s : Q) (t : Fade.FadeTransition) : Prop :=
  Fade.active t = true
  ∧ Fade.fade_speed t = v
  ∧ Fade.fade_alpha t == Qmin 255 (255 * (v * s))
  ∧ (Fade.complete t = true <-> 1 <= v * s).

(** ** Particles kept as dictionaries

    The transition classes and the buttons keep their particles as
    dictionaries in a list and update them with one loop,

      [for particle in lst[:]:]
      [    particle['life'] -= dt * rate]
      [    particle['y'] += particle['velocity_y'] * dt]
      [    particle['x'] += particle['velocity_x'] * dt]
      [    particle['velocity_y'] += gravity * dt]
      [    if particle['life'] <= 0:]
      [        lst.remove(particle)]

    with a rate and a gravity of their own.  The loop walks a copy of the
    list, changes each dictionary in place and edits the list itself;
    [lst.remove] looks for the first element that compares equal, and two
    dictionaries are equal when their values are. *)
Module Dict.

Record Particle := {
  x : Q;
  y : Q;
  life : Q;
  velocity_y : Q;
  velocity_x : Q;
  size : Q;
  color : Z * Z * Z
}.

(** [p == q] for two of these dictionaries. *)
Definition eqb (p q : Particle) : bool :=
  Qeq_bool (x p) (x q) && Qeq_bool (y p) (y q) && Qeq_bool (life p) (life q)
  && Qeq_bool (velocity_y p) (velocity_y q)
  && Qeq_bool (velocity_x p) (velocity_x q)
  && Qeq_bool (size p) (size q) && bool_decide (color p = color q).

(** The four assignments of the loop body. *)
Definition move (rate gravity dt : Q) (p : Particle) : Particle :=
  {| x := x p + velocity_x p * dt;
     y := y p + velocity_y p * dt;
     life := life p - dt * rate;
     velocity_y := velocity_y p + gravity * dt;
     velocity_x := velocity_x p;
     size := size p;
     color := color p |}.

(** The state of the loop.  A dictionary is named by its index in the copy
    [lst[:]]: [objs] holds the dictionaries by that name, and [live] is the
    list [lst], as the names of its elements. *)
Record Loop := {
  objs : list Particle;
  live : list nat
}.

(** [lst.remove(v)]: the list without its first element that compares
    equal to [v]; [None] stands for the [ValueError] raised when there is no
    such element. *)
Fixpoint remove (objs : list Particle) (v : Particle) (lst : list nat)
  : option (list nat) :=
  match lst with
  | [] => None
  | name :: rest =>
      if default false (eqb v <$> objs !! name)
      then Some rest
      else cons name <$> remove objs v rest
  end.

(** One pass of the loop body, for the dictionary named [k]. *)
Definition visit (rate gravity dt : Q) (st : option Loop) (k : nat)
  : option Loop :=
  st ← st;
  p ← objs st !! k;
  let p := move rate gravity dt p in
  let objs := <[k := p]> (objs st) in
  if Qle_bool (life p) 0
  then lst ← remove objs p (live st); Some {| objs := objs; live := lst |}
  else Some {| objs := objs; live := live st |}.

(** The whole loop: the list after it, or [None] if [remove] raised. *)
Definition update_particles (rate gravity dt : Q) (lst : list Particle)
  : option (list Particle) :=
  let n := length lst in
  st ← fold_left (visit rate gravity dt) (seq 0 n)
                 (Some {| objs := lst; live := seq 0 n |});
  mapM (λ name, objs st !! name) (live st).

(** The three particle lists of [ScreenBurnTransition] and the embers of an
    [EmberButton]. *)
Definition _update_fire_particles := update_particles (5 # 2) 25.
Definition _update_smoke_particles := update_particles (12 # 10) 8.
Definition _update_spark_particles := update_particles 3 40.
Definition update_ember_particles := update_particles (8 # 10) 50.

(** A run of the loop, one pass per frame time. *)
Definition run (rate gravity : Q) (dts : list Q) (lst : list Particle)
  : option (list Particle) :=
  fold_left (λ o dt, o ≫= update_particles rate gravity dt) dts (Some lst).

(** The particle has life left. *)
Definition alive (p : Particle) : bool := negb (Qle_bool (life p) 0).

End Dict.

(** [q] is the particle [p], [T] seconds of passes later. *)
Definition aged (rate gravity T : Q) (p q : Dict.Particle) : Prop :=
  Dict.life q == Dict.life p - rate * T
  ∧ Dict.x q == Dict.x p + Dict.velocity_x p * T
  ∧ Dict.velocity_y q == Dict.velocity_y p + gravity * T
  ∧ Dict.velocity_x q = Dict.velocity_x p
  ∧ Dict.size q = Dict.size p
  ∧ Dict.color q = Dict.color p.

(** ** The buttons of the main menu *)

Module Button.

(** A [pygame.Rect]. *)
Record Rect := {
  left : Z;
  top : Z;
  rect_width : Z;
  rect_height : Z
}.

Definition right (r : Rect) : Z := left r + rect_width r.
Definition bottom (r : Rect) : Z := top r + rect_height r.

(** [rect.collidepoint(p)], for a rect whose width and height are not
    negative: the left and top edges belong to the rect, the right and
    bottom edges do not. *)
Definition collidepoint (r : Rect) (p : Z * Z) : bool :=
  ((left r <=? p.1) && (p.1 <? right r) && (top r <=? p.2) && (p.2 <? bottom r))%Z.

Record EmberButton := {
  rect : Rect;
  text : string;
  hovered : bool;
  glow_intensity : Q;
  ember_particles : list Dict.Particle;
  time : Q
}.

(** [EmberButton.__init__] *)
Definition init (x y width height : Z) (txt : string) : EmberButton :=
  {| rect := {| left := x; top := y; rect_width := width; rect_height := height |};
     text := txt; hovered := false; glow_intensity := 0;
     ember_particles := []; time := 0 |}.

(** The values one [EmberButton.update] draws: the [random.random()] of the
    spawn test and, for the new particle, the results of
    [random.uniform] and [random.choice]. *)
Record Draws := {
  spawn_roll : Q;
  spawn_x : Q;
  spawn_velocity_y : Q;
  spawn_velocity_x : Q;
  spawn_size : Q;
  spawn_color : Z * Z * Z
}.

(** [EmberButton.update]; [None] if the particle loop raised. *)
Definition update (dt : Q) (mouse_pos : Z * Z) (rnd : Draws) (b : EmberButton)
  : option EmberButton :=
  let time := time b + dt in
  let hovered := collidepoint (rect b) mouse_pos in
  let target_glow : Q := if hovered then 1 else 0 in
  let glow_intensity :=
    glow_intensity b + (target_glow - glow_intensity b) * 8 * dt in
  let particles :=
    if hovered && Qltb (spawn_roll rnd) (25 # 100) then
      ember_particles b
      ++ [ {| Dict.x := spawn_x rnd;
              Dict.y := inject_Z (bottom (rect b));
              Dict.life := 1;
              Dict.velocity_y := spawn_velocity_y rnd;
              Dict.velocity_x := spawn_velocity_x rnd;
              Dict.size := spawn_size rnd;
              Dict.color := spawn_color rnd |} ]
    else ember_particles b in
  particles ← Dict.update_ember_particles dt particles;
  Some {| rect := rect b; text := text b; hovered := hovered;
          glow_intensity := glow_intensity;
          ember_particles := particles; time := time |}.

(** One frame of a button. *)
Record Frame := {
  frame_dt : Q;
  frame_mouse : Z * Z;
  frame_draws : Draws
}.

Definition play (frames : list Frame) (b : EmberButton) : option EmberButton :=
  fold_left (λ o fr, o ≫= update (frame_dt fr) (frame_mouse fr) (frame_draws fr))
            frames (Some b).

End Button.

(** ** The main menu

    The state of [MainMenu] that its events, its transitions and its title
    work on.  The screen, the clock, the fonts and colours, the flame trail
    and the falling embers of the background only feed the drawing and are
    left out; so are the screenshot of F12 and the sounds. *)
Module Menu.

Inductive Key := K_F12 | K_ESCAPE | K_OTHER.

(** A pygame event, as far as [handle_events] tells events apart. *)
Inductive Event :=
| QUIT
| KEYDOWN (key : Key)
| MOUSEBUTTONDOWN (button : Z)
| OTHER.

Record MainMenu := {
  running : bool;
  burning_title : BurningText;
  screen_burn : ScreenBurn.ScreenBurnTransition;
  fade_transition : Fade.FadeTransition;
  transitioning : bool;
  next_scene : option string;
  buttons : list Button.EmberButton;
  selected_option : option string;
  time : Q
}.

Definition SCREEN_WIDTH : Z := 1366.
Definition SCREEN_HEIGHT : Z := 768.

(** [MainMenu.__init__]; [states] is the dictionary of the state manager
    when the menu is built. *)
Definition init (title_font : Font) (states : States) : MainMenu :=
  let button_width := 400%Z in
  let button_height := 70%Z in
  let button_x := ((SCREEN_WIDTH - button_width) / 2)%Z in
  let start_y := 350%Z in
  let spacing := 90%Z in
  {| running := true;
     burning_title :=
       (restore_state states "SCARRED WINDS"
          (BurningText_init "SCARRED WINDS" title_font (SCREEN_WIDTH / 2) 150)).1;
     screen_burn := ScreenBurn.init SCREEN_WIDTH SCREEN_HEIGHT;
     fade_transition := Fade.init SCREEN_WIDTH SCREEN_HEIGHT;
     transitioning := false;
     next_scene := None;
     buttons :=
       [ Button.init button_x start_y button_width button_height "New Game";
         Button.init button_x (start_y + spacing) button_width button_height
                     "Continue";
         Button.init button_x (start_y + spacing * 2) button_width button_height
                     "Settings";
         Button.init button_x (start_y + spacing * 3) button_width button_height
                     "Exit" ];
     selected_option := None;
     time := 0 |}.

(** [MainMenu._get_next_scene_name] *)
Definition _get_next_scene_name (button_text : string) : string :=
  if String.eqb button_text "Settings" then "settings"
  else if String.eqb button_text "New Game" then "new_game"
  else if String.eqb button_text "Continue" then "continue"
  else if String.eqb button_text "Exit" then "exit"
  else "main_menu".

(** The assignments that start the fade to black for the exit. *)
Definition start_fade (option_text : string) (m : MainMenu) : MainMenu :=
  {| running := running m; burning_title := burning_title m;
     screen_burn := screen_burn m;
     fade_transition := Fade.start (fade_transition m);
     transitioning := true; next_scene := next_scene m;
     buttons := buttons m; selected_option := Some option_text;
     time := time m |}.

(** The assignments that start the outward burn for a button. *)
Definition start_burn (button_text : string) (m : MainMenu) : MainMenu :=
  {| running := running m; burning_title := burning_title m;
     screen_burn := ScreenBurn.start false (screen_burn m);
     fade_transition := fade_transition m;
     transitioning := true;
     next_scene := Some (_get_next_scene_name button_text);
     buttons := buttons m; selected_option := Some button_text;
     time := time m |}.

(** The body of the loop over the buttons for a left click. *)
Definition click (m : MainMenu) (button : Button.EmberButton) : MainMenu :=
  if Button.hovered button && negb (transitioning m) then
    if String.eqb (Button.text button) "Exit"
    then start_fade (Button.text button) m
    else start_burn (Button.text button) m
  else m.

(** The two assignments for a QUIT event. *)
Definition quit (m : MainMenu) : MainMenu :=
  {| running := false; burning_title := burning_title m;
     screen_burn := screen_burn m; fade_transition := fade_transition m;
     transitioning := transitioning m; next_scene := next_scene m;
     buttons := buttons m; selected_option := Some "Exit";
     time := time m |}.

(** The body of the loop of [handle_events], for one event. *)
Definition handle_event (m : MainMenu) (event : Event) : MainMenu :=
  match event with
  | QUIT => quit m
  | KEYDOWN K_F12 => m
  | KEYDOWN K_ESCAPE =>
      if negb (transitioning m) then start_fade "Exit" m else m
  | MOUSEBUTTONDOWN 1 => fold_left click (buttons m) m
  | _ => m
  end.

(** [MainMenu.handle_events], for the events of the queue. *)
Definition handle_events (events : list Event) (m : MainMenu) : MainMenu :=
  fold_left handle_event events m.

(** [MainMenu.update]: the title, the transition that is under way, and
    the buttons when none is. *)
Definition update (dt : Q) (mouse_pos : Z * Z) (title_draws : nat -> Draws)
    (button_draws : nat -> Button.Draws) (m : MainMenu) : option MainMenu :=
  let time := time m + dt in
  let burning_title := BurningText_update mouse_pos dt title_draws (burning_title m) in
  let '(fade_transition, screen_burn, running) :=
    if transitioning m then
      if Fade.active (fade_transition m) then
        let fade_transition := Fade.update dt (fade_transition m) in
        (fade_transition, screen_burn m,
         if Fade.complete fade_transition then false else running m)
      else
        let screen_burn := MainMenu.update dt (screen_burn m) in
        (fade_transition m, screen_burn,
         if ScreenBurn.complete screen_burn
            && Qle_bool 255 (ScreenBurn.black_fade_alpha screen_burn)
         then false else running m)
    else (fade_transition m, screen_burn m, running m) in
  let updated :=
    if negb (transitioning m)
    then mapM id (imap (λ i, Button.update dt mouse_pos (button_draws i)) (buttons m))
    else Some (buttons m) in
  (λ buttons,
     {| running := running; burning_title := burning_title;
        screen_burn := screen_burn; fade_transition := fade_transition;
        transitioning := transitioning m; next_scene := next_scene m;
        buttons := buttons; selected_option := selected_option m;
        time := time |}) <$> updated.

(** What one pass of the main loop takes from outside: the events of the
    queue, the tick of the clock, the position of the pointer and the
    draws. *)
Record Frame := {
  events : list Event;
  frame_dt : Q;
  frame_mouse : Z * Z;
  title_draws : nat -> Draws;
  button_draws : nat -> Button.Draws
}.

(** The loop of [MainMenu.run]: a pass per frame while [running] holds. *)
Fixpoint loop (frames : list Frame) (m : MainMenu) : option MainMenu :=
  match frames with
  | [] => Some m
  | fr :: rest =>
      if running m then
        update (frame_dt fr) (frame_mouse fr) (title_draws fr) (button_draws fr)
               (handle_events (events fr) m)
        ≫= loop rest
      else Some m
  end.

(** The end of [MainMenu.run], once the loop has stopped: the title is
    saved and the selected option returned. *)
Definition finish (states : States) (m : MainMenu) : States * option string :=
  (save_state states "SCARRED WINDS" (burning_title m), selected_option m).

End Menu.

(** A frame without a QUIT event and with a frame time that is not
    negative. *)
Definition quiet (fr : Menu.Frame) : Prop :=
  ¬ (Menu.QUIT ∈ Menu.events fr) ∧ 0 <= Menu.frame_dt fr.

(** The frame times of a run of menu frames. *)
Definition frame_times (frames : list Menu.Frame) : list Q :=
  Menu.frame_dt <$> frames.

(** ** The settings screen *)

Module Settings.

Inductive Event :=
| QUIT
| KEYDOWN (key : Menu.Key)
| MOUSEBUTTONDOWN (button : Z)
| MOUSEBUTTONUP (button : Z)
| OTHER.

(** [int(q)] on a float: the fraction is cut off, towards zero. *)
Definition int (q : Q) : Z := Z.quot (Qnum q) (Z.pos (Qden q)).

(** The built-in [max(a, b)] and [min(a, b)] on two numbers: the first
    argument unless the second is strictly beyond it. *)
Definition max (a b : Q) : Q := if Qltb a b then b else a.
Definition min (a b : Q) : Q := if Qltb b a then b else a.

(** *** FlameSlider *)

Record FlameSlider := {
  x : Z;
  y : Z;
  width : Z;
  label : string;
  min_val : Q;
  max_val : Q;
  value : Q;
  dragging : bool;
  hovered : bool;
  time : Q;
  track_rect : Button.Rect;
  handle_x : Z;
  handle_y : Z
}.

Definition handle_radius : Z := 12.
Definition track_height : Z := 6.

Definition set_handle (hx hy : Z) (s : FlameSlider) : FlameSlider :=
  {| x := x s; y := y s; width := width s; label := label s;
     min_val := min_val s; max_val := max_val s; value := value s;
     dragging := dragging s; hovered := hovered s; time := time s;
     track_rect := track_rect s; handle_x := hx; handle_y := hy |}.

Definition set_value (v : Q) (s : FlameSlider) : FlameSlider :=
  {| x := x s; y := y s; width := width s; label := label s;
     min_val := min_val s; max_val := max_val s; value := v;
     dragging := dragging s; hovered := hovered s; time := time s;
     track_rect := track_rect s; handle_x := handle_x s; handle_y := handle_y s |}.

Definition set_time (t : Q) (s : FlameSlider) : FlameSlider :=
  {| x := x s; y := y s; width := width s; label := label s;
     min_val := min_val s; max_val := max_val s; value := value s;
     dragging := dragging s; hovered := hovered s; time := t;
     track_rect := track_rect s; handle_x := handle_x s; handle_y := handle_y s |}.

Definition set_pointer (d h : bool) (s : FlameSlider) : FlameSlider :=
  {| x := x s; y := y s; width := width s; label := label s;
     min_val := min_val s; max_val := max_val s; value := value s;
     dragging := d; hovered := h; time := time s;
     track_rect := track_rect s; handle_x := handle_x s; handle_y := handle_y s |}.

(** [FlameSlider._update_handle_pos]; [None] stands for the
    [ZeroDivisionError] of a slider whose two ends are the same value. *)
Definition _update_handle_pos (s : FlameSlider) : option FlameSlider :=
  if Qeq_bool (max_val s - min_val s) 0 then None
  else
    let ratio := (value s - min_val s) / (max_val s - min_val s) in
    Some (set_handle
            (Button.left (track_rect s)
             + int (ratio * inject_Z (Button.rect_width (track_rect s))))
            (Button.top (track_rect s) + Button.rect_height (track_rect s) / 2)
            s).

(** [FlameSlider.__init__] *)
Definition FlameSlider_init (x y width : Z) (label : string)
    (min_val max_val initial_val : Q) : option FlameSlider :=
  _update_handle_pos
    {| x := x; y := y; width := width; label := label;
       min_val := min_val; max_val := max_val; value := initial_val;
       dragging := false; hovered := false; time := 0;
       track_rect := {| Button.left := x; Button.top := y + 30;
                        Button.rect_width := width;
                        Button.rect_height := track_height |};
       handle_x := 0; handle_y := 0 |}.

(** [FlameSlider.handle_event] *)
Definition slider_handle_event (event : Event) (mouse_pos : Z * Z)
    (s : FlameSlider) : FlameSlider :=
  let handle_rect :=
    {| Button.left := handle_x s - handle_radius;
       Button.top := handle_y s - handle_radius;
       Button.rect_width := handle_radius * 2;
       Button.rect_height := handle_radius * 2 |} in
  let over := Button.collidepoint handle_rect mouse_pos in
  let dragging :=
    match event with
    | MOUSEBUTTONDOWN 1 => if over then true else dragging s
    | MOUSEBUTTONUP 1 => false
    | _ => dragging s
    end in
  set_pointer dragging over s.

(** [FlameSlider.update], up to the calls of the mixer; [None] stands for a
    [ZeroDivisionError]. *)
Definition slider_update (dt : Q) (mouse_pos : Z * Z) (s : FlameSlider)
  : option FlameSlider :=
  let s := set_time (time s + dt) s in
  if dragging s then
    if (Button.rect_width (track_rect s) =? 0)%Z then None
    else
      let ratio := inject_Z (mouse_pos.1 - Button.left (track_rect s))
                   / inject_Z (Button.rect_width (track_rect s)) in
      let ratio := max 0 (min 1 ratio) in
      let s := set_value (min_val s + ratio * (max_val s - min_val s)) s in
      _update_handle_pos s
  else Some s.

(** *** EmberToggle *)

Record EmberToggle := {
  toggle_x : Z;
  toggle_y : Z;
  toggle_label : string;
  state : bool;
  toggle_hovered : bool;
  toggle_time : Q;
  toggle_rect : Button.Rect
}.

(** [EmberToggle.__init__] *)
Definition EmberToggle_init (x y : Z) (label : string) (initial_state : bool)
  : EmberToggle :=
  {| toggle_x := x; toggle_y := y; toggle_label := label;
     state := initial_state; toggle_hovered := false; toggle_time := 0;
     toggle_rect := {| Button.left := x + 250; Button.top := y;
                       Button.rect_width := 60; Button.rect_height := 30 |} |}.

(** [EmberToggle.handle_event], up to the sounds. *)
Definition toggle_handle_event (event : Event) (mouse_pos : Z * Z)
    (t : EmberToggle) : EmberToggle :=
  let over := Button.collidepoint (toggle_rect t) mouse_pos in
  let state :=
    match event with
    | MOUSEBUTTONDOWN 1 => if over then negb (state t) else state t
    | _ => state t
    end in
  {| toggle_x := toggle_x t; toggle_y := toggle_y t;
     toggle_label := toggle_label t; state := state;
     toggle_hovered := over; toggle_time := toggle_time t;
     toggle_rect := toggle_rect t |}.

(** [EmberToggle.update] *)
Definition toggle_update (dt : Q) (t : EmberToggle) : EmberToggle :=
  {| toggle_x := toggle_x t; toggle_y := toggle_y t;
     toggle_label := toggle_label t; state := state t;
     toggle_hovered := toggle_hovered t; toggle_time := toggle_time t + dt;
     toggle_rect := toggle_rect t |}.

(** *** SettingsScreen

    As for the main menu, what only feeds the drawing is left out: the
    screen, the clock, fonts and colours, the embers of the background and
    the flame trail. *)
Record SettingsScreen := {
  running : bool;
  screen_burn : ScreenBurn.ScreenBurnTransition;
  transitioning : bool;
  sliders : list FlameSlider;
  toggles : list EmberToggle;
  screen_time : Q
}.

(** [SettingsScreen.__init__] *)
Definition init : option SettingsScreen :=
  let start_x := 300%Z in
  let start_y := 200%Z in
  let spacing := 100%Z in
  sliders ← mapM id
    [ FlameSlider_init start_x start_y 400 "Master Volume" 0 100 70;
      FlameSlider_init start_x (start_y + spacing) 400 "Music Volume" 0 100 60;
      FlameSlider_init start_x (start_y + spacing * 2) 400 "SFX Volume" 0 100 80 ];
  Some {| running := true;
          screen_burn := ScreenBurn.init 1366 768;
          transitioning := false;
          sliders := sliders;
          toggles :=
            [ EmberToggle_init start_x (start_y + spacing * 3) "Fullscreen" true;
              EmberToggle_init start_x (start_y + spacing * 3 + 60) "V-Sync" true ];
          screen_time := 0 |}.

(** The body of the loop of [handle_events], for one event. *)
Definition handle_event (mouse_pos : Z * Z) (s : SettingsScreen) (event : Event)
  : SettingsScreen :=
  let '(running, transitioning, screen_burn) :=
    match event with
    | QUIT => (false, transitioning s, screen_burn s)
    | KEYDOWN Menu.K_ESCAPE =>
        if negb (transitioning s)
        then (running s, true, ScreenBurn.start true (screen_burn s))
        else (running s, transitioning s, screen_burn s)
    | _ => (running s, transitioning s, screen_burn s)
    end in
  {| running := running; screen_burn := screen_burn;
     transitioning := transitioning;
     sliders := slider_handle_event event mouse_pos <$> sliders s;
     toggles := toggle_handle_event event mouse_pos <$> toggles s;
     screen_time := screen_time s |}.

(** [SettingsScreen.handle_events] *)
Definition handle_events (mouse_pos : Z * Z) (events : list Event)
    (s : SettingsScreen) : SettingsScreen :=
  fold_left (handle_event mouse_pos) events s.

(** [SettingsScreen.update] *)
Definition update (dt : Q) (mouse_pos : Z * Z) (s : SettingsScreen)
  : option SettingsScreen :=
  let '(screen_burn, running) :=
    if transitioning s then
      let screen_burn := SettingsScreen.update dt (screen_burn s) in
      (screen_burn,
       if ScreenBurn.complete screen_burn
          && Qle_bool 255 (ScreenBurn.black_fade_alpha screen_burn)
       then false else running s)
    else (screen_burn s, running s) in
  (λ sliders,
     {| running := running; screen_burn := screen_burn;
        transitioning := transitioning s;
        sliders := sliders;
        toggles := toggle_update dt <$> toggles s;
        screen_time := screen_time s + dt |})
  <$> mapM (slider_update dt mouse_pos) (sliders s).

(** What one pass of the loop takes from outside: the events of the queue,
    the tick of the clock and the position of the pointer when the events
    are handled and when the screen is updated. *)
Record Frame := {
  events : list Event;
  events_mouse : Z * Z;
  frame_dt : Q;
  frame_mouse : Z * Z
}.

(** The loop of [SettingsScreen.run]. *)
Fixpoint loop (frames : list Frame) (s : SettingsScreen) : option SettingsScreen :=
  match frames with
  | [] => Some s
  | fr :: rest =>
      if running s then
        update (frame_dt fr) (frame_mouse fr)
               (handle_events (events_mouse fr) (events fr) s)
        ≫= loop rest
      else Some s
  end.

(** The dictionary that [SettingsScreen.run] returns: the three volumes and
    the two switches, [None] where the list is too short ([IndexError]). *)
Definition result (s : SettingsScreen) : option (Q * Q * Q * bool * bool) :=
  master ← sliders s !! 0%nat;
  music ← sliders s !! 1%nat;
  sfx ← sliders s !! 2%nat;
  fullscreen ← toggles s !! 0%nat;
  vsync ← toggles s !! 1%nat;
  Some (value master, value music, value sfx, state fullscreen, state vsync).

End Settings.

(** A slider whose ends differ, whose track has a width and whose value
    lies between its ends. *)
Definition slider_ok (s : Settings.FlameSlider) : Prop :=
  Settings.min_val s < Settings.max_val s
  ∧ (0 < Button.rect_width (Settings.track_rect s))%Z
  ∧ Settings.min_val s <= Settings.value s <= Settings.max_val s.

(** The slider [s'] is the slider [s] with, at most, another value, handle,
    time and pointer state. *)
Definition same_slider (s s' : Settings.FlameSlider) : Prop :=
  Settings.min_val s' = Settings.min_val s
  ∧ Settings.max_val s' = Settings.max_val s
  ∧ Settings.track_rect s' = Settings.track_rect s
  ∧ Settings.label s' = Settings.label s.

(** A frame of the settings screen without a QUIT event and with a frame
    time that is not negative. *)
Definition settings_quiet (fr : Settings.Frame) : Prop :=
  ¬ (Settings.QUIT ∈ Settings.events fr) ∧ 0 <= Settings.frame_dt fr.

Definition settings_frame_times (frames : list Settings.Frame) : list Q :=
  Settings.frame_dt <$> frames.

(** How many events of the list are left clicks at a position inside the
    rect; each event comes with the position of the pointer it is handled
    with. *)
Definition clicks_inside (r : Button.Rect) (evs : list (Settings.Event * (Z * Z)))
  : nat :=
  length (List.filter
            (λ '(event, mouse_pos),
               match event with
               | Settings.MOUSEBUTTONDOWN 1 => Button.collidepoint r mouse_pos
               | _ => false
               end)
            evs).

(** A toggle handles a run of events, each with the position of the pointer
    it is handled with. *)
Definition toggle_handle_all (evs : list (Settings.Event * (Z * Z)))
    (t : Settings.EmberToggle) : Settings.EmberToggle :=
  fold_left (λ t '(event, mouse_pos), Settings.toggle_handle_event event mouse_pos t)
            evs t.

(** The settings screen as its constructor builds it. *)
Definition new_settings : Settings.SettingsScreen :=
  Eval vm_compute in
    default {| Settings.running := true;
               Settings.screen_burn := ScreenBurn.init 1366 768;
               Settings.transitioning := false;
               Settings.sliders := []; Settings.toggles := [];
               Settings.screen_time := 0 |}
            Settings.init.

(** A frame of the settings screen at 60 frames per second, with a click
    and an Escape in its queue. *)
Definition busy_frame : Settings.Frame :=
  {| Settings.events := [Settings.MOUSEBUTTONDOWN 1;
                         Settings.KEYDOWN Menu.K_ESCAPE];
     Settings.events_mouse := (580, 233)%Z;
     Settings.frame_dt := 1 # 60;
     Settings.frame_mouse := (400, 233)%Z |}.

(** A letter of one pixel, heated and burnt out in one long update; its
    texture is cached. *)
Definition burnt_pixel : Letter :=
  update 2 always_spread (add_heat 0 0 1 1 (Letter_init "A" (0, 0)%Z (block_font 1))).

(** ** The particles of a letter

    [Particle] of [burning_text.py] and the part of [Letter.update] that
    works on [self.particles].  The particles do not act on heat, fuel or
    texture, so they are kept beside the [Letter] of the first model. *)
Module Particles.

Inductive Kind := flame | spark | smoke.

Record Particle := {
  x : Q;
  y : Q;
  type : Kind;
  age : Q;
  lifetime : Q;
  vx : Q;
  vy : Q;
  gravity : Q;
  color : Z * Z * Z
}.

(** What [Particle.__init__] draws, in the order of the calls: three
    [random.uniform] and, for a flame, a [random.choice] of two colours. *)
Record InitDraws := {
  u1 : Q;
  u2 : Q;
  u3 : Q;
  choice : Z * Z * Z
}.

(** What [Letter._spawn_particles] draws: a [random.random()] for each of
    the three kinds, and the draws of the particles it creates. *)
Record SpawnDraws := {
  flame_roll : Q;
  flame_init : InitDraws;
  spark_roll : Q;
  spark_init : InitDraws;
  smoke_roll : Q;
  smoke_init : InitDraws
}.

Definition PARTICLE_LIFETIME_FLAME : Q := 8 # 10.
Definition PARTICLE_LIFETIME_SPARK : Q := 5 # 10.
Definition PARTICLE_LIFETIME_SMOKE : Q := 25 # 10.
Definition PARTICLE_SPAWN_RATE_FLAME : Q := 3.
Definition PARTICLE_SPAWN_RATE_SPARK : Q := 2.
Definition PARTICLE_SPAWN_RATE_SMOKE : Q := 1.
Definition SPARK_VELOCITY : Q := 150.

Section Trig.

(** [math.cos] and [math.sin]. *)
Variables cos sin : Q -> Q.

(** [Particle.__init__] *)
Definition Particle_init (x y : Q) (p_type : Kind) (d : InitDraws) : Particle :=
  match p_type with
  | flame =>
      {| x := x; y := y; type := flame; age := 0;
         lifetime := PARTICLE_LIFETIME_FLAME + u1 d;
         vx := u2 d; vy := u3 d; gravity := 15; color := choice d |}
  | spark =>
      let angle := u2 d in
      let speed := SPARK_VELOCITY * (1 + u3 d) in
      {| x := x; y := y; type := spark; age := 0;
         lifetime := PARTICLE_LIFETIME_SPARK + u1 d;
         vx := cos angle * speed; vy := sin angle * speed;
         gravity := 100; color := (255, 255, 200)%Z |}
  | smoke =>
      {| x := x; y := y; type := smoke; age := 0;
         lifetime := PARTICLE_LIFETIME_SMOKE + u1 d;
         vx := u2 d; vy := u3 d; gravity := -5; color := (40, 40, 45)%Z |}
  end.

(** [Letter._spawn_particles]: the particles appended for the burning pixel
    [(x, y)]. *)
Definition _spawn_particles (l : Letter) (x y : nat) (d : SpawnDraws)
  : list Particle :=
  let px := inject_Z ((pos l).1 + Z.of_nat x) in
  let py := inject_Z ((pos l).2 + Z.of_nat y) in
  (if Qltb (flame_roll d) (PARTICLE_SPAWN_RATE_FLAME / 60)
   then [Particle_init px py flame (flame_init d)] else [])
  ++ (if Qltb (spark_roll d) (PARTICLE_SPAWN_RATE_SPARK / 60)
      then [Particle_init px py spark (spark_init d)] else [])
  ++ (if Qltb (smoke_roll d) (PARTICLE_SPAWN_RATE_SMOKE / 60)
      then [Particle_init px py smoke (smoke_init d)] else []).

(** The particles that step 2 of [Letter.update] appends: those of the
    burning pixels, in the order of [burning_coords]. *)
Definition spawned (dt : Q) (draws : nat -> nat -> SpawnDraws) (l : Letter)
  : list Particle :=
  mjoin ((λ xy, _spawn_particles l xy.1 xy.2 (draws xy.1 xy.2))
           <$> argwhere (burning dt l)).

End Trig.

(** [Particle.update]: the particle after the call and the returned
    boolean. *)
Definition update (dt : Q) (p : Particle) : Particle * bool :=
  let p := {| x := x p + vx p * dt; y := y p + vy p * dt; type := type p;
              age := age p + dt; lifetime := lifetime p;
              vx := vx p; vy := vy p + gravity p * dt;
              gravity := gravity p; color := color p |} in
  (p, Qle_bool (lifetime p) (age p)).

(** Step 3 of [Letter.update]:
    [[p for p in self.particles if not p.update(dt)]]. *)
Definition step3 (dt : Q) (particles : list Particle) : list Particle :=
  fst <$> List.filter (λ r, negb (snd r)) (update dt <$> particles).

(** What [Letter.update] does to [self.particles]. *)
Definition update_particles (cos sin : Q -> Q) (dt : Q)
    (draws : nat -> nat -> SpawnDraws) (l : Letter) (particles : list Particle)
  : list Particle :=
  step3 dt (particles ++ spawned cos sin dt draws l).

End Particles.

(** * Binary64 arithmetic

    Python's [float] and numpy's [float64] are IEEE 754 binary64 numbers:
    every operation returns the exact result rounded to the nearest number
    with a significand of 53 bits, a tie going to the even significand.  The
    definitions above compute in exact rationals.  That agrees with the
    program wherever no outcome hangs on the last bit of a number; it does
    not where a sum is compared with a bound that it is meant to reach
    exactly (a progress that has to arrive at 1, a fuel that has to arrive
    at 0): there the last bit decides.  The statements about such sums are
    made on the definitions of this part, which round after every
    operation.

    A binary64 number is kept as the rational number it denotes.  The range
    of the exponent is not limited, so there are no infinities and no NaN:
    the definitions agree with the machine as long as no result overflows
    (reaches [2^1024]) and no product falls into the subnormal range (below
    [2^-1022]). *)

From Stdlib Require Qabs Qround Qpower.

Module B64.

(** The exponent of a positive number: the [e] with [2^e <= x < 2^(e+1)]. *)
Definition exponent (x : Q) : Z :=
  let k := (Z.log2 (Qnum x) - Z.log2 (Zpos (Qden x)))%Z in
  if Qle_bool (2 ^ k) x then k else (k - 1)%Z.

(** The nearest integer, a tie going to the even one. *)
Definition nearest_even (x : Q) : Z :=
  let n := Qround.Qfloor x in
  match Qcompare (x - inject_Z n) (1 # 2) with
  | Lt => n
  | Gt => (n + 1)%Z
  | Eq => if Z.even n then n else (n + 1)%Z
  end.

(** A positive number rounded to 53 significant bits: its significand is
    scaled to [[2^52, 2^53)], rounded to an integer and scaled back. *)
Definition round_pos (x : Q) : Q :=
  let e := exponent x in
  inject_Z (nearest_even (x * 2 ^ (52 - e))) * 2 ^ (e - 52).

(** Rounding to the nearest binary64 number. *)
Definition round (x : Q) : Q :=
  match Qcompare x 0 with
  | Eq => 0
  | Gt => round_pos x
  | Lt => - round_pos (- x)
  end.

(** The number is a binary64 number. *)
Definition representable (x : Q) : Prop := round x == x.

(** The unit roundoff: one rounding changes a number by at most [u] times
    its size. *)
Definition u : Q := 2 ^ (-53).

(** The operations [+], [-] and [*] on floats. *)
Definition add (a b : Q) : Q := round (a + b).
Definition sub (a b : Q) : Q := round (a - b).
Definition mul (a b : Q) : Q := round (a * b).

(** The float that a decimal literal of the source denotes, as [0.95]. *)
Definition literal (q : Q) : Q := round q.

End B64.

Declare Scope b64_scope.
Delimit Scope b64_scope with b64.
Infix "⊕" := B64.add (at level 50, left associativity) : b64_scope.
Infix "⊖" := B64.sub (at level 50, left associativity) : b64_scope.
Infix "⊗" := B64.mul (at level 40, left associativity) : b64_scope.

(** * The program in binary64

    The methods whose outcome hangs on a sum reaching a bound, with the
    arithmetic of the machine: every [+], [-] and [*] of the source on
    floats is the rounded operation, in the order in which Python evaluates
    the expression.  Records, comparisons, clips, masks and slices are those
    of the definitions above. *)

Module Rounded.

Local Open Scope b64_scope.

(** ** The letter *)

(** [FIRE_SPREAD_CHANCE = 0.95] is not a binary64 number; the constant holds
    the nearest one.  The other constants of the simulation are. *)
Definition FIRE_SPREAD_CHANCE : Q := B64.literal (95 # 100).

(** [dist_sq] and [heat_mask] of [Letter.add_heat], entry by entry.  With
    the pixel coordinates and the radius that [BurningText.update] passes,
    all of these numbers are integers and no operation rounds. *)
Definition dist_sq (local_x local_y : Q) (i j : nat) : Q :=
  let dx := inject_Z (Z.of_nat i) ⊖ local_x in
  let dy := inject_Z (Z.of_nat j) ⊖ local_y in
  (dx ⊗ dx) ⊕ (dy ⊗ dy).

Definition heat_mask (x y radius : Q) (l : Letter) (i j : nat) : bool :=
  let local_x := x ⊖ inject_Z (fst (pos l)) in
  let local_y := y ⊖ inject_Z (snd (pos l)) in
  Qltb (dist_sq local_x local_y i j) (radius ⊗ radius)
  && Qltb 0 (cell (fuel_map l) i j).

(** [Letter.add_heat] *)
Definition add_heat (x y radius dt : Q) (l : Letter) : Letter :=
  let heat := HEAT_RATE ⊗ dt in
  set_heat_map
    (amapi (λ i j h, if heat_mask x y radius l i j then h ⊕ heat else h)
           (heat_map l))
    l.

(** Step 1 of [Letter.update]: [heat_map -= COOL_RATE * dt] and the clip. *)
Definition cool (dt : Q) (heat : Grid) : Grid :=
  let cooling := COOL_RATE ⊗ dt in
  amap (clip_lo 0) (amap (λ h, h ⊖ cooling) heat).

(** [a[x0:x1, y0:y1] += c] *)
Definition slice_add (x0 x1 y0 y1 : nat) (c : Q) (g : Grid) : Grid :=
  amapi (λ i j q,
           if (x0 <=? i)%nat && (i <? x1)%nat && (y0 <=? j)%nat && (j <? y1)%nat
           then q ⊕ c else q) g.

(** The body of the loop over [burning_coords], without the particles. *)
Definition spread_from (w h : nat) (dt : Q) (roll : nat -> nat -> Q)
    (heat : Grid) (xy : nat * nat) : Grid :=
  let '(x, y) := xy in
  if Qltb (roll x y) FIRE_SPREAD_CHANCE then
    let min_x := Nat.max 0 (x - 1) in
    let max_x := Nat.min w (x + 2) in
    let min_y := Nat.max 0 (y - 1) in
    let max_y := Nat.min h (y + 2) in
    slice_add min_x max_x min_y max_y (HEAT_TRANSFER_RATE ⊗ dt) heat
  else heat.

(** The burning mask of an update: the mask of step 2, computed after the
    cooling of step 1. *)
Definition burning (dt : Q) (l : Letter) : BoolGrid :=
  burning_mask (cool dt (heat_map l)) (fuel_map l).

(** Steps 1 and 2 of [Letter.update]: the pair of arrays before the final
    clip of the fuel. *)
Definition burn (dt : Q) (roll : nat -> nat -> Q) (l : Letter) : Grid * Grid :=
  let heat := cool dt (heat_map l) in
  let bm := burning_mask heat (fuel_map l) in
  if any bm then
    let fuel_consumed := FUEL_CONSUMPTION_RATE ⊗ 100 ⊗ dt in
    let fuel := update_where bm (λ f, f ⊖ fuel_consumed) (fuel_map l) in
    let burning_coords := argwhere bm in
    (fold_left (spread_from (width l) (height l) dt roll) burning_coords heat,
     fuel)
  else (heat, fuel_map l).

(** Steps 1 to 3 of [Letter.update]. *)
Definition simulate (dt : Q) (roll : nat -> nat -> Q) (l : Letter) : Letter :=
  let '(heat, fuel) := burn dt roll l in
  set_fuel_map (amap (clip 0 100) fuel) (set_heat_map heat l).

(** [Letter.update] *)
Definition update (dt : Q) (rnd : Draws) (l : Letter) : Letter :=
  let l1 := simulate dt (spread_roll rnd) l in
  if needs_texture l1 then _generate_charred_texture (new_texture rnd) l1
  else l1.

(** A run of calls on one letter. *)
Definition apply_call (l : Letter) (c : LetterCall) : Letter :=
  match c with
  | DoAddHeat x y radius dt => add_heat x y radius dt l
  | DoUpdate dt rnd => update dt rnd l
  | DoRestore st => restore_letter st l
  end.

Definition letter_run (l : Letter) (calls : list LetterCall) : Letter :=
  fold_left apply_call calls l.

(** The cell [(i, j)] is held at or above the ignition point through a run of
    [add_heat] and [update] calls: in every [update] the elapsed time is not
    negative and the heat of the cell, when the burning mask is computed
    (after the cooling), is at least [IGNITION_POINT]. *)
Fixpoint held_ignited (i j : nat) (l : Letter) (calls : list LetterCall) : Prop :=
  match calls with
  | [] => True
  | c :: rest =>
      match c with
      | DoAddHeat _ _ _ _ => True
      | DoUpdate dt _ =>
          0 <= dt ∧ IGNITION_POINT <= cell (cool dt (heat_map l)) i j
      | DoRestore _ => False
      end
      ∧ held_ignited i j (apply_call l c) rest
  end.

(** ** The fade to black *)

Module Fade.
Import Fade.

(** [FadeTransition.update] *)
Definition update (dt : Q) (t : FadeTransition) : FadeTransition :=
  if negb (active t) then t
  else
    let t := set_fade_alpha (fade_alpha t ⊕ fade_speed t ⊗ dt ⊗ 255) t in
    if Qle_bool 255 (fade_alpha t)
    then set_complete true (set_fade_alpha 255 t)
    else t.

End Fade.

(** ** The screen-burn transition *)

(** The methods of the class of [main_menu.py]. *)
Module MainMenu.
Import ScreenBurn.

(** [_update_black_fade]: the object after the call and the returned
    boolean. *)
Definition _update_black_fade (dt : Q) (t : ScreenBurnTransition)
  : ScreenBurnTransition * bool :=
  if negb (complete t) then (t, false)
  else
    let t := set_black_fade_alpha
               (black_fade_alpha t ⊕ black_fade_speed t ⊗ dt ⊗ 255) t in
    let t := if Qle_bool 255 (black_fade_alpha t)
             then set_black_fade_alpha 255 t else t in
    (t, true).

(** [_update_burn_progress] *)
Definition _update_burn_progress (dt : Q) (t : ScreenBurnTransition)
  : ScreenBurnTransition :=
  if reverse_mode t then
    let t := set_burn_progress (burn_progress t ⊖ burn_speed t ⊗ dt) t in
    if Qle_bool (burn_progress t) 0
    then set_complete true (set_burn_progress 0 t) else t
  else
    let t := set_burn_progress (burn_progress t ⊕ burn_speed t ⊗ dt) t in
    if Qle_bool 1 (burn_progress t)
    then set_complete true (set_burn_progress 1 t) else t.

(** [update], up to the particles. *)
Definition update (dt : Q) (t : ScreenBurnTransition) : ScreenBurnTransition :=
  if negb (active t) then t
  else
    let t := set_time (time t ⊕ dt) t in
    let '(t, fading) := _update_black_fade dt t in
    if fading then t
    else _update_burn_progress dt t.

End MainMenu.

(** The [update] of the class of [settings_screen.py]. *)
Module SettingsScreen.
Import ScreenBurn.

Definition update (dt : Q) (t : ScreenBurnTransition) : ScreenBurnTransition :=
  if negb (active t) then t
  else
    let t := set_time (time t ⊕ dt) t in
    if complete t then
      let t := set_black_fade_alpha
                 (black_fade_alpha t ⊕ black_fade_speed t ⊗ dt ⊗ 255) t in
      if Qle_bool 255 (black_fade_alpha t)
      then set_black_fade_alpha 255 t
      else t
    else if reverse_mode t then
      let t := set_burn_progress (burn_progress t ⊖ burn_speed t ⊗ dt) t in
      if Qle_bool (burn_progress t) 0
      then set_complete true (set_burn_progress 0 t) else t
    else
      let t := set_burn_progress (burn_progress t ⊕ burn_speed t ⊗ dt) t in
      if Qle_bool 1 (burn_progress t)
      then set_complete true (set_burn_progress 1 t) else t.

End SettingsScreen.

(** A property of the [update] method that holds for the class of
    [main_menu.py] and for the class of [settings_screen.py]. *)
Definition in_both_copies
    (P : (Q -> ScreenBurn.ScreenBurnTransition -> ScreenBurn.ScreenBurnTransition)
         -> Prop) : Prop :=
  P MainMenu.update ∧ P SettingsScreen.update.

End Rounded.

(** ** Measures of a run *)

(** How many [update] calls a run of calls on a letter holds. *)
Fixpoint update_count (calls : list LetterCall) : nat :=
  match calls with
  | [] => 0
  | DoUpdate _ _ :: rest => S (update_count rest)
  | _ :: rest => update_count rest
  end.

(** The rounding margin of [n] operations: [n] times the unit roundoff. *)
Definition margin (n : nat) : Q := inject_Z (Z.of_nat n) * B64.u.

(** ** The phases of a transition in binary64

    The sums of the program follow the exact ones up to the roundings: after
    [n] updates that took [T] seconds in all, a sum that grows at speed [v]
    towards 1 lies between [(1 - u) * v * T - n * u] and
    [(1 + u) * v * T + n * u], where [u] is the unit roundoff. *)

(** The part of its way that the edge has gone. *)
Definition progress_made (reverse : bool) (t : ScreenBurn.ScreenBurnTransition) : Q :=
  if reverse then 1 - ScreenBurn.burn_progress t else ScreenBurn.burn_progress t.

(** The burn is under way, [n] updates and [T] seconds after the start. *)
Definition burn_under_way (reverse : bool) (v b : Q) (n : nat) (T : Q)
    (t : ScreenBurn.ScreenBurnTransition) : Prop :=
  ScreenBurn.active t = true
  ∧ ScreenBurn.reverse_mode t = reverse
  ∧ ScreenBurn.burn_speed t = v
  ∧ ScreenBurn.black_fade_speed t = b
  ∧ ScreenBurn.complete t = false
  ∧ ScreenBurn.black_fade_alpha t == 0
  ∧ 0 <= progress_made reverse t < 1
  ∧ (1 - B64.u) * (v * T) - margin n <= progress_made reverse t
  ∧ progress_made reverse t <= (1 + B64.u) * (v * T) + margin n.

(** The burn is complete, [n] updates and [T] seconds after the start. *)
Definition burn_done (reverse : bool) (v b : Q) (n : nat) (T : Q)
    (t : ScreenBurn.ScreenBurnTransition) : Prop :=
  ScreenBurn.active t = true
  ∧ ScreenBurn.reverse_mode t = reverse
  ∧ ScreenBurn.burn_speed t = v
  ∧ ScreenBurn.black_fade_speed t = b
  ∧ ScreenBurn.complete t = true
  ∧ ScreenBurn.burn_progress t == (if reverse then 0 else 1)
  ∧ 1 <= (1 + B64.u) * (v * T) + margin n.

(** An alpha that has been fading towards 255 at speed [b] for [m] updates
    and [U] seconds. *)
Definition fading (b : Q) (m : nat) (U : Q) (alpha : Q) : Prop :=
  0 <= alpha <= 255
  ∧ (alpha < 255 ->
     255 * ((1 - B64.u) ^ 2 * (b * U) - margin m) <= alpha
     ∧ alpha <= 255 * ((1 + B64.u) ^ 2 * (b * U) + margin m))
  ∧ (255 <= alpha -> 1 <= (1 + B64.u) ^ 2 * (b * U) + margin m).

(** ** Concrete runs in binary64 *)

(** The frame times [0.05] and [0.016] of the source text, as floats. *)
Definition fifty_ms : Q := B64.literal (5 # 100).
Definition sixteen_ms : Q := B64.literal (16 # 1000).

(** A letter of one pixel that the pointer has heated to 400. *)
Definition heated_pixel : Letter :=
  Rounded.add_heat 0 0 1 1 (Letter_init "A" (0, 0)%Z (block_font 1)).

(** [n] updates of 16 ms each, every burning pixel spreading. *)
Definition burn_for (n : nat) : list LetterCall :=
  repeat (DoUpdate sixteen_ms always_spread) n.

Lemma Qltb_lt (a b : Q) : Qltb a b = true <-> a < b.
Proof.
  unfold Qltb. rewrite negb_true_iff, <- not_true_iff_false, Qle_bool_iff.
  split; intros H; lra.
Qed.

Lemma clip_lo_ge (lo a : Q) : lo <= clip_lo lo a.
Proof. unfold clip_lo. apply Q.le_max_r. Qed.

Lemma clip_bounds (lo hi a : Q) : lo <= hi -> lo <= clip lo hi a <= hi.
Proof.
  intros H. unfold clip. split.
  - apply Q.min_glb; [exact H | apply Q.le_max_r].
  - apply Q.le_min_l.
Qed.

Lemma clip_id (lo hi a : Q) : lo <= a <= hi -> clip lo hi a == a.
Proof.
  intros [H1 H2]. unfold clip.
  rewrite (Q.max_l a lo) by exact H1. apply Q.min_r, H2.
Qed.

Lemma gget_amapi {A B} (f : nat -> nat -> A -> B) g i j :
  gget (amapi f g) i j = f i j <$> gget g i j.
Proof.
  unfold gget, amapi. rewrite list_lookup_imap.
  destruct (g !! i) as [row|]; simpl; [|done].
  by rewrite list_lookup_imap.
Qed.

Lemma gget_amap {A B} (f : A -> B) g i j :
  gget (amap f g) i j = f <$> gget g i j.
Proof. apply gget_amapi. Qed.

Lemma gget_tabulate {A} w h (f : nat -> nat -> A) i j :
  gget (tabulate w h f) i j =
  if decide (i < w ∧ j < h)%nat then Some (f i j) else None.
Proof.
  unfold gget, tabulate. rewrite list_lookup_fmap.
  destruct (decide (i < w)%nat) as [Hi|Hi].
  - rewrite lookup_seq_lt by done. simpl. rewrite list_lookup_fmap.
    destruct (decide (j < h)%nat) as [Hj|Hj].
    + rewrite lookup_seq_lt by done. simpl.
      rewrite decide_True by done. done.
    + rewrite lookup_seq_ge by lia. simpl.
      rewrite decide_False by tauto. done.
  - rewrite lookup_seq_ge by lia. simpl.
    rewrite decide_False by tauto. done.
Qed.

Lemma grid_all_gget {A} (P : A -> Prop) g :
  grid_all P g <-> ∀ i j a, gget g i j = Some a -> P a.
Proof.
  unfold grid_all, gget. rewrite Forall_lookup. split.
  - intros H i j a Hg. destruct (g !! i) as [row|] eqn:Hr; simpl in Hg; [|done].
    specialize (H i row Hr). rewrite Forall_lookup in H. eauto.
  - intros H i row Hr. rewrite Forall_lookup. intros j a Ha.
    apply (H i j a). rewrite Hr. simpl. done.
Qed.

Lemma shape_is_amapi {A B} (f : nat -> nat -> A -> B) w h g :
  shape_is w h g -> shape_is w h (amapi f g).
Proof.
  unfold shape_is, amapi. intros [Hl Hr]. split.
  - by rewrite length_imap.
  - rewrite Forall_lookup in Hr. rewrite Forall_lookup. intros i row.
    rewrite list_lookup_imap. destruct (g !! i) as [r|] eqn:E; simpl; [|done].
    intros [= <-]. rewrite length_imap. eauto.
Qed.

Lemma shape_is_tabulate {A} w h (f : nat -> nat -> A) :
  shape_is w h (tabulate w h f).
Proof.
  unfold shape_is, tabulate. split.
  - by rewrite length_fmap, length_seq.
  - rewrite Forall_fmap. apply Forall_forall. intros i _. simpl.
    by rewrite length_fmap, length_seq.
Qed.

(** * Properties of the arrays *)

Lemma grid_all_amapi {A B} (P : A -> Prop) (R : B -> Prop)
    (f : nat -> nat -> A -> B) g :
  grid_all P g ->
  (∀ i j a, gget g i j = Some a -> P a -> R (f i j a)) ->
  grid_all R (amapi f g).
Proof.
  rewrite !grid_all_gget. intros Hg Hf i j b.
  rewrite gget_amapi. destruct (gget g i j) as [a|] eqn:E; simpl; [|done].
  intros [= <-]. eauto.
Qed.

Lemma grid_all_amap {A B} (P : A -> Prop) (R : B -> Prop) (f : A -> B) g :
  grid_all P g -> (∀ a, P a -> R (f a)) -> grid_all R (amap f g).
Proof. intros Hg Hf. apply (grid_all_amapi P); eauto. Qed.

Lemma grid_all_True {A} (g : list (list A)) : grid_all (λ _, True) g.
Proof. apply grid_all_gget. done. Qed.

Lemma cell_gget (g : Grid) i j q : gget g i j = Some q -> cell g i j = q.
Proof. unfold cell. by intros ->. Qed.

Lemma bcell_true (m : BoolGrid) i j :
  bcell m i j = true <-> gget m i j = Some true.
Proof.
  unfold bcell. destruct (gget m i j) as [[]|]; simpl; split; congruence.
Qed.

Lemma any_false (m : BoolGrid) i j : any m = false -> bcell m i j = false.
Proof.
  intros Hany. destruct (bcell m i j) eqn:E; [|done].
  apply bcell_true in E. unfold gget in E.
  destruct (m !! i) as [row|] eqn:Hr; simpl in E; [|done].
  enough (any m = true) by congruence.
  unfold any. apply existsb_exists. exists row. split.
  - apply list_elem_of_In. eauto using list_elem_of_lookup_2.
  - apply existsb_exists. exists true. split; [|done].
    apply list_elem_of_In. eauto using list_elem_of_lookup_2.
Qed.

Lemma elem_of_argwhere (m : BoolGrid) x y :
  (x, y) ∈ argwhere m <-> gget m x y = Some true.
Proof.
  unfold argwhere, gget. rewrite list_elem_of_join. split.
  - intros (l & Hin & Hl). apply elem_of_lookup_imap_1 in Hl as (i & row & -> & Hrow).
    apply list_elem_of_join in Hin as (c & Hin & Hc).
    apply elem_of_lookup_imap_1 in Hc as (j & b & -> & Hj).
    destruct b; [|by apply not_elem_of_nil in Hin].
    apply list_elem_of_singleton in Hin as [= -> ->]. rewrite Hrow. done.
  - intros H. destruct (m !! x) as [row|] eqn:Hrow; simpl in H; [|done].
    eexists. split; [|by apply elem_of_lookup_imap_2].
    apply list_elem_of_join. exists [(x, y)]. split; [by left|].
    by apply (elem_of_lookup_imap_2 (λ j (b : bool), if b then [(x, j)] else []) row true y).
Qed.

(** Lists built index by index do not repeat an element when the index can
    be read off every element. *)
Lemma NoDup_join_imap {A B} (F : nat -> A -> list B) (key : B -> nat)
    (c : nat -> nat) (l : list A) :
  (∀ i j, c i = c j -> i = j) ->
  (∀ i a b, b ∈ F i a -> key b = c i) ->
  (∀ i a, NoDup (F i a)) ->
  NoDup (mjoin (imap F l)).
Proof.
  revert F c. induction l as [|a l IH]; intros F c Hc Hkey Hnd.
  - constructor.
  - rewrite imap_cons. simpl. apply NoDup_app. split; [apply Hnd|]. split.
    + intros b Hb Hb'. apply list_elem_of_join in Hb' as (l' & Hb' & Hl').
      apply elem_of_lookup_imap_1 in Hl' as (i & a' & -> & _).
      apply Hkey in Hb. apply (Hkey (S i)) in Hb'.
      assert (0 = S i)%nat by (apply Hc; congruence). lia.
    + apply (IH (F ∘ S) (c ∘ S)).
      * intros i j Hij. apply Hc in Hij. lia.
      * intros i a' b Hb. by apply (Hkey (S i)) in Hb.
      * intros i a'. apply Hnd.
Qed.

Lemma NoDup_argwhere (m : BoolGrid) : NoDup (argwhere m).
Proof.
  unfold argwhere. apply (NoDup_join_imap _ fst id).
  - done.
  - intros i row p Hp. apply list_elem_of_join in Hp as (c & Hp & Hc).
    apply elem_of_lookup_imap_1 in Hc as (j & b & -> & _).
    destruct b; [|by apply not_elem_of_nil in Hp].
    by apply list_elem_of_singleton in Hp as ->.
  - intros i row. apply (NoDup_join_imap _ snd id).
    + done.
    + intros j b p Hp. destruct b; [|by apply not_elem_of_nil in Hp].
      by apply list_elem_of_singleton in Hp as ->.
    + intros j b. destruct b; [apply NoDup_singleton|constructor].
Qed.

Lemma gget_burning_mask heat fuel i j :
  gget (burning_mask heat fuel) i j =
  (λ h, Qle_bool IGNITION_POINT h && Qltb 0 (cell fuel i j)) <$> gget heat i j.
Proof. apply gget_amapi. Qed.

(** A pixel is in the burning mask exactly when its heat has reached the
    ignition point and it has fuel left. *)
Lemma burning_mask_spec heat fuel i j :
  bcell (burning_mask heat fuel) i j = true <->
  ∃ h, gget heat i j = Some h ∧ IGNITION_POINT <= h ∧ 0 < cell fuel i j.
Proof.
  rewrite bcell_true, gget_burning_mask. split.
  - destruct (gget heat i j) as [h|]; simpl; [|done].
    intros [= H]. apply andb_true_iff in H as [H1 H2].
    apply Qle_bool_iff in H1. apply Qltb_lt in H2. eauto.
  - intros (h & -> & H1 & H2). simpl. f_equal.
    apply andb_true_iff. by rewrite Qle_bool_iff, Qltb_lt.
Qed.

(** * Properties of [Letter] *)

Lemma oQeq_Some_r a q : oQeq a (Some q) -> ∃ p, a = Some p ∧ p == q.
Proof. destruct a as [p|]; simpl; [eauto|done]. Qed.

Lemma oQeq_Some_l a q : oQeq (Some q) a -> ∃ p, a = Some p ∧ q == p.
Proof. destruct a as [p|]; simpl; [eauto|done]. Qed.

Lemma gget_add_heat x y radius dt l i j :
  gget (heat_map (add_heat x y radius dt l)) i j =
  (λ h, if heat_mask x y radius l i j then h + HEAT_RATE * dt else h)
    <$> gget (heat_map l) i j.
Proof. unfold add_heat. simpl. apply gget_amapi. Qed.

Lemma gget_cool dt heat i j :
  gget (cool dt heat) i j = (λ h, clip_lo 0 (h - COOL_RATE * dt)) <$> gget heat i j.
Proof.
  unfold cool. rewrite !gget_amap. by destruct (gget heat i j).
Qed.

(** The slice is the 3x3 square centred on [(x, y)], cut at the edges of the
    rect; the centre is part of it. *)
Lemma in_block_spec w h x y i j :
  in_block w h x y i j = true <->
  (i < w ∧ j < h ∧ x <= i + 1 ∧ i <= x + 1 ∧ y <= j + 1 ∧ j <= y + 1)%nat.
Proof.
  unfold in_block. rewrite !andb_true_iff, !Nat.leb_le, !Nat.ltb_lt. lia.
Qed.

Lemma gget_spread_from w h dt roll heat x y i j :
  gget (spread_from w h dt roll heat (x, y)) i j =
  (λ q, if Qltb (roll x y) FIRE_SPREAD_CHANCE && in_block w h x y i j
        then q + HEAT_TRANSFER_RATE * dt else q) <$> gget heat i j.
Proof.
  unfold spread_from, in_block.
  destruct (Qltb (roll x y) FIRE_SPREAD_CHANCE); simpl.
  - unfold slice_add. by rewrite gget_amapi.
  - by destruct (gget heat i j).
Qed.

Lemma gget_spread_loop w h dt roll coords heat i j :
  oQeq (gget (fold_left (spread_from w h dt roll) coords heat) i j)
       ((λ q, q + inject_Z (Z.of_nat (length (spreaders w h roll coords i j)))
                  * (HEAT_TRANSFER_RATE * dt)) <$> gget heat i j).
Proof.
  revert heat. induction coords as [|[x y] coords IH]; intros heat.
  - simpl. destruct (gget heat i j); simpl; [|done]. ring.
  - simpl fold_left. specialize (IH (spread_from w h dt roll heat (x, y))).
    rewrite gget_spread_from in IH. unfold spreaders in *. simpl List.filter.
    destruct (gget heat i j) as [q|]; simpl in *; [|done].
    destruct (Qltb (roll x y) FIRE_SPREAD_CHANCE && in_block w h x y i j).
    + apply oQeq_Some_r in IH as (p & -> & Hp). simpl. rewrite Hp.
      simpl length. rewrite Nat2Z.inj_succ, <- Z.add_1_r, inject_Z_plus. ring.
    + done.
Qed.

Lemma argwhere_nil (m : BoolGrid) : any m = false -> argwhere m = [].
Proof.
  intros Hany. destruct (argwhere m) as [|[x y] rest] eqn:E; [done|].
  assert (Hin : (x, y) ∈ argwhere m) by (rewrite E; left).
  apply elem_of_argwhere, bcell_true in Hin.
  by rewrite any_false in Hin.
Qed.

Lemma gget_burn_fuel dt roll l i j :
  gget (burn dt roll l).2 i j =
  (λ f, if bcell (burning dt l) i j
        then f - FUEL_CONSUMPTION_RATE * 100 * dt else f)
    <$> gget (fuel_map l) i j.
Proof.
  unfold burn, burning.
  destruct (any (burning_mask (cool dt (heat_map l)) (fuel_map l))) eqn:Hany; simpl.
  - unfold update_where. by rewrite gget_amapi.
  - rewrite any_false by done. by destruct (gget (fuel_map l) i j).
Qed.

Lemma gget_burn_heat dt roll l i j :
  oQeq (gget (burn dt roll l).1 i j)
       ((λ q, q + inject_Z (Z.of_nat (length
                 (spreaders (width l) (height l) roll
                            (argwhere (burning dt l)) i j)))
                  * (HEAT_TRANSFER_RATE * dt))
          <$> gget (cool dt (heat_map l)) i j).
Proof.
  unfold burn, burning.
  destruct (any (burning_mask (cool dt (heat_map l)) (fuel_map l))) eqn:Hany; simpl.
  - apply gget_spread_loop.
  - rewrite argwhere_nil by done. simpl.
    destruct (gget (cool dt (heat_map l)) i j); simpl; [ring|done].
Qed.

Lemma update_heat_map dt rnd l :
  heat_map (update dt rnd l) = (burn dt (spread_roll rnd) l).1.
Proof.
  unfold update, simulate. destruct (burn dt (spread_roll rnd) l) as [heat fuel].
  by destruct (needs_texture _).
Qed.

Lemma update_fuel_map dt rnd l :
  fuel_map (update dt rnd l) = amap (clip 0 100) (burn dt (spread_roll rnd) l).2.
Proof.
  unfold update, simulate. destruct (burn dt (spread_roll rnd) l) as [heat fuel].
  by destruct (needs_texture _).
Qed.

Lemma update_frame dt rnd l :
  char (update dt rnd l) = char l ∧ pos (update dt rnd l) = pos l
  ∧ width (update dt rnd l) = width l ∧ height (update dt rnd l) = height l
  ∧ mask_array (update dt rnd l) = mask_array l.
Proof.
  unfold update, simulate. destruct (burn dt (spread_roll rnd) l) as [heat fuel].
  by destruct (needs_texture _).
Qed.

Lemma update_texture_kept dt rnd l t :
  charred_texture l = Some t -> charred_texture (update dt rnd l) = Some t.
Proof.
  intros Ht. unfold update, simulate.
  destruct (burn dt (spread_roll rnd) l) as [heat fuel].
  unfold needs_texture. simpl. by rewrite Ht.
Qed.

(** The fuel of a pixel after [Letter.update], from its fuel before. *)
Lemma gget_update_fuel dt rnd l i j :
  gget (fuel_map (update dt rnd l)) i j =
  (λ f, clip 0 100 (if bcell (burning dt l) i j
                    then f - FUEL_CONSUMPTION_RATE * 100 * dt else f))
    <$> gget (fuel_map l) i j.
Proof.
  rewrite update_fuel_map, gget_amap, gget_burn_fuel.
  by destruct (gget (fuel_map l) i j).
Qed.

(** The heat of a pixel after [Letter.update]: the cooled heat plus one
    [HEAT_TRANSFER_RATE * dt] for every spreading pixel around it. *)
Lemma gget_update_heat dt rnd l i j :
  oQeq (gget (heat_map (update dt rnd l)) i j)
       ((λ h, clip_lo 0 (h - COOL_RATE * dt)
              + inject_Z (Z.of_nat (length
                  (spreaders (width l) (height l) (spread_roll rnd)
                             (argwhere (burning dt l)) i j)))
                * (HEAT_TRANSFER_RATE * dt))
          <$> gget (heat_map l) i j).
Proof.
  rewrite update_heat_map.
  pose proof (gget_burn_heat dt (spread_roll rnd) l i j) as H.
  rewrite gget_cool in H. by destruct (gget (heat_map l) i j).
Qed.

(** ** The shape of the arrays *)

Lemma shape_is_gget {A} w h (g : list (list A)) i j :
  shape_is w h g -> is_Some (gget g i j) <-> (i < w ∧ j < h)%nat.
Proof.
  intros [Hl Hr]. unfold gget. rewrite Forall_lookup in Hr. split.
  - intros [a Ha]. destruct (g !! i) as [row|] eqn:E; simpl in Ha; [|done].
    pose proof (Hr i row E) as Hrow. apply lookup_lt_Some in E, Ha. lia.
  - intros [Hi Hj]. destruct (lookup_lt_is_Some_2 g i ltac:(lia)) as [row E].
    rewrite E. simpl. apply lookup_lt_is_Some_2. rewrite (Hr i row E). lia.
Qed.

Lemma shape_is_spread_loop w h w' h' dt roll coords heat :
  shape_is w' h' heat ->
  shape_is w' h' (fold_left (spread_from w h dt roll) coords heat).
Proof.
  revert heat. induction coords as [|[x y] coords IH]; intros heat Hs; [done|].
  simpl. apply IH. destruct (Qltb (roll x y) FIRE_SPREAD_CHANCE); [|done].
  by apply shape_is_amapi.
Qed.

Lemma Letter_init_well_shaped c p font : well_shaped (Letter_init c p font).
Proof.
  unfold well_shaped, Letter_init. simpl. split; [|split].
  - apply shape_is_tabulate.
  - unfold mul_mask. apply shape_is_amapi, shape_is_tabulate.
  - apply shape_is_tabulate.
Qed.

Lemma add_heat_well_shaped x y radius dt l :
  well_shaped l -> well_shaped (add_heat x y radius dt l).
Proof.
  intros (Hh & Hf & Hm). unfold well_shaped, add_heat. simpl.
  split; [by apply shape_is_amapi|done].
Qed.

Lemma update_well_shaped dt rnd l : well_shaped l -> well_shaped (update dt rnd l).
Proof.
  intros (Hh & Hf & Hm).
  destruct (update_frame dt rnd l) as (_ & _ & Hw & Hht & Hmask).
  unfold well_shaped. rewrite Hw, Hht, Hmask, update_heat_map, update_fuel_map.
  assert (Hcool : shape_is (width l) (height l) (cool dt (heat_map l))).
  { unfold cool, amap. by apply shape_is_amapi, shape_is_amapi. }
  split; [|split; [|done]].
  - unfold burn. destruct (any _); simpl; [|done].
    by apply shape_is_spread_loop.
  - unfold amap. apply shape_is_amapi. unfold burn.
    destruct (any _); simpl; [|done]. by apply shape_is_amapi.
Qed.

Lemma restore_letter_well_shaped l lt :
  well_shaped l -> well_shaped lt ->
  width lt = width l -> height lt = height l ->
  well_shaped (restore_letter (letter_state l) lt).
Proof.
  intros (Hh & Hf & _) (_ & _ & Hm) Hw Hht. unfold well_shaped. simpl.
  rewrite Hw, Hht in *. done.
Qed.

(** ** The range of heat and fuel *)

Lemma nat_scale_nonneg (n : nat) (c : Q) : 0 <= c -> 0 <= inject_Z (Z.of_nat n) * c.
Proof.
  intros Hc. apply Qmult_le_0_compat; [|done].
  change 0 with (inject_Z 0). rewrite <- Zle_Qle. lia.
Qed.

Lemma Letter_init_cells_ok c p font : cells_ok (Letter_init c p font).
Proof.
  split; simpl.
  - unfold mul_mask. apply (grid_all_amapi (λ q, q = 100)).
    + apply grid_all_gget. intros i j a. rewrite gget_tabulate.
      case_decide; congruence.
    + intros i j a _ ->. unfold fuel_ok. destruct (bcell _ i j); lra.
  - apply grid_all_gget. intros i j a. rewrite gget_tabulate.
    case_decide; [|done]. intros [= <-]. unfold heat_ok. lra.
Qed.

Lemma add_heat_cells_ok x y radius dt l :
  0 <= dt -> cells_ok l -> cells_ok (add_heat x y radius dt l).
Proof.
  intros Hdt [Hf Hh]. split; [done|].
  unfold add_heat. simpl. apply (grid_all_amapi heat_ok); [done|].
  intros i j h _ Hh0. unfold heat_ok, HEAT_RATE in *.
  destruct (heat_mask x y radius l i j); nra.
Qed.

Lemma update_fuel_ok dt rnd l : grid_all fuel_ok (fuel_map (update dt rnd l)).
Proof.
  rewrite update_fuel_map. apply (grid_all_amap (λ _, True)).
  - apply grid_all_True.
  - intros a _. apply clip_bounds. lra.
Qed.

Lemma update_heat_ok dt rnd l :
  0 <= dt -> grid_all heat_ok (heat_map (update dt rnd l)).
Proof.
  intros Hdt. apply grid_all_gget. intros i j a Ha.
  pose proof (gget_update_heat dt rnd l i j) as H. rewrite Ha in H.
  apply oQeq_Some_l in H as (p & Hp & Hap).
  destruct (gget (heat_map l) i j) as [h|]; simpl in Hp; [|done].
  injection Hp as <-. unfold heat_ok. rewrite Hap.
  pose proof (clip_lo_ge 0 (h - COOL_RATE * dt)).
  pose proof (nat_scale_nonneg
    (length (spreaders (width l) (height l) (spread_roll rnd)
                       (argwhere (burning dt l)) i j))
    (HEAT_TRANSFER_RATE * dt)) as Hn.
  unfold HEAT_TRANSFER_RATE in *. lapply Hn; [lra|lra].
Qed.

Lemma update_cells_ok dt rnd l : 0 <= dt -> cells_ok (update dt rnd l).
Proof. intros Hdt. split; [apply update_fuel_ok | by apply update_heat_ok]. Qed.

(** ** The range of heat and fuel in the running program *)

Lemma restore_letter_cells_ok st l :
  letter_state_ok st -> cells_ok l -> cells_ok (restore_letter st l).
Proof.
  intros [Hsf Hsh] [Hf Hh]. unfold restore_letter, cells_ok.
  destruct (saved_fuel_map st) as [gf|], (saved_heat_map st) as [gh|];
    simpl; split; eauto.
Qed.

Lemma restore_letters_ok i saved ls :
  Forall (λ ost, ∀ st, ost = Some st -> letter_state_ok st) saved ->
  Forall (λ ol, ∀ l, ol = Some l -> cells_ok l) ls ->
  Forall (λ ol, ∀ l, ol = Some l -> cells_ok l) (restore_letters i saved ls).1.
Proof.
  intros Hs. revert i ls. induction Hs as [|ost saved Host Hs IH]; intros i ls Hls.
  - done.
  - simpl. destruct ost as [st|]; [|by apply IH].
    destruct (ls !! i) as [[letter|]|] eqn:E; [| by apply IH | done].
    apply IH. apply Forall_insert; [done|].
    intros l [= <-]. apply restore_letter_cells_ok; [by apply Host|].
    rewrite Forall_lookup in Hls. by apply (Hls i (Some letter)).
Qed.

Lemma restore_state_ok states identifier bt :
  map_Forall (λ _ sd, snapshot_ok sd) states ->
  text_ok bt -> text_ok (restore_state states identifier bt).1.
Proof.
  intros Hst Hbt. unfold restore_state.
  destruct (states !! identifier) as [sd|] eqn:E; [|done].
  pose proof (restore_letters_ok 0 (letters_state sd) (letters bt) (Hst _ _ E) Hbt) as H.
  destruct (restore_letters 0 (letters_state sd) (letters bt)) as [ls ok]. done.
Qed.

Lemma save_state_ok states identifier bt :
  map_Forall (λ _ sd, snapshot_ok sd) states ->
  text_ok bt ->
  map_Forall (λ _ sd, snapshot_ok sd) (save_state states identifier bt).
Proof.
  intros Hst Hbt. unfold save_state. apply map_Forall_insert_2; [|done].
  unfold snapshot_ok. simpl. rewrite Forall_fmap.
  eapply Forall_impl; [exact Hbt|]. intros [l|] Hl st; simpl; [|done].
  intros [= <-]. destruct (Hl l eq_refl) as [Hf Hh].
  split; simpl; intros g [= <-]; done.
Qed.

Lemma init_letters_ok font y x_offset chars :
  Forall (λ ol, ∀ l, ol = Some l -> cells_ok l) (init_letters font y x_offset chars).
Proof.
  revert x_offset. induction chars as [|c rest IH]; intros x_offset; simpl.
  - constructor.
  - destruct (Ascii.eqb c " "); constructor; try apply IH; [done|].
    intros l [= <-]. apply Letter_init_cells_ok.
Qed.

Lemma BurningText_init_ok txt font cx cy : text_ok (BurningText_init txt font cx cy).
Proof.
  unfold BurningText_init, text_ok. destruct (text_size font txt) as [w h].
  simpl. apply init_letters_ok.
Qed.

Lemma update_letter_cells_ok mouse_pos dt rnd l :
  0 <= dt -> cells_ok (update_letter mouse_pos dt rnd l).
Proof. intros Hdt. by apply update_cells_ok. Qed.

Lemma BurningText_update_ok mouse_pos dt rnd bt :
  0 <= dt -> text_ok (BurningText_update mouse_pos dt rnd bt).
Proof.
  intros Hdt. unfold text_ok, BurningText_update. simpl.
  apply Forall_lookup. intros i ol. rewrite list_lookup_imap.
  destruct (letters bt !! i) as [[l0|]|]; simpl; [| congruence | done].
  intros [= <-] l [= <-]. by apply update_letter_cells_ok.
Qed.

Lemma on_letter_ok i f bt :
  (∀ l, cells_ok l -> cells_ok (f l)) -> text_ok bt -> text_ok (on_letter i f bt).
Proof.
  intros Hf Hbt. unfold text_ok, on_letter. simpl.
  apply Forall_alter; [done|].
  intros [l0|] _ H l; simpl; [|done]. intros [= <-]. eauto.
Qed.

Lemma on_object_ok k f s :
  (∀ bt, text_ok bt -> text_ok (f bt)) -> sys_ok s -> sys_ok (on_object k f s).
Proof.
  intros Hf [Ho Hs]. split; [|done]. simpl. apply Forall_alter; eauto.
Qed.

Lemma exec_ok s c : time_ok c -> sys_ok s -> sys_ok (exec s c).
Proof.
  intros Ht Hs. destruct c; simpl in *.
  - destruct Hs as [Ho Hm]. split; [|done]. simpl.
    apply Forall_app. split; [done|]. constructor; [|done].
    apply BurningText_init_ok.
  - apply on_object_ok; [|done]. intros bt _. by apply BurningText_update_ok.
  - apply on_object_ok; [|done]. intros bt. apply on_letter_ok.
    intros l. by apply add_heat_cells_ok.
  - apply on_object_ok; [|done]. intros bt. apply on_letter_ok.
    intros l _. by apply update_cells_ok.
  - destruct (objects s !! k) as [bt|] eqn:E; [|done].
    destruct Hs as [Ho Hm]. split; [done|]. simpl.
    apply save_state_ok; [done|]. rewrite Forall_lookup in Ho. eauto.
  - apply on_object_ok; [|done]. intros bt. apply restore_state_ok. apply Hs.
  - destruct Hs as [Ho Hm]. split; [done|]. simpl.
    unfold clear_state. by apply map_Forall_delete.
  - destruct Hs as [Ho Hm]. split; [done|]. simpl.
    unfold clear_all_states. apply map_Forall_empty.
Qed.

Lemma run_ok calls s : Forall time_ok calls -> sys_ok s -> sys_ok (run s calls).
Proof.
  intros Hc. revert s. induction Hc as [|c calls Hc _ IH]; intros s Hs; [done|].
  simpl. apply IH. by apply exec_ok.
Qed.

Lemma init_sys_ok : sys_ok init_sys.
Proof. split; [constructor | apply map_Forall_empty]. Qed.

Lemma letter_at_ok s k i l : sys_ok s -> letter_at s k i = Some l -> cells_ok l.
Proof.
  intros [Ho _]. unfold letter_at. rewrite Forall_lookup in Ho.
  destruct (objects s !! k) as [bt|] eqn:E; simpl; [|done].
  specialize (Ho k bt E). unfold text_ok in Ho. rewrite Forall_lookup in Ho.
  destruct (letters bt !! i) as [ol|] eqn:E2; simpl; [|done].
  intros ->. by apply (Ho i (Some l)).
Qed.

(** C1.  Whatever calls of the public interface ([add_heat], the two
    [update]s, [save_state], [restore_state], construction, clearing) have
    been made since the start of the program, with elapsed times that are
    not negative, every cell of every letter of every text object has
    [0 <= fuel <= 100] and [0 <= heat]. *)
Theorem cells_in_range (calls : list Call) (k i x y : nat) :
  Forall time_ok calls ->
  (∀ f, fuel_at (run init_sys calls) k i x y = Some f -> 0 <= f <= 100)
  ∧ (∀ h, heat_at (run init_sys calls) k i x y = Some h -> 0 <= h).
Proof.
  intros Hc. unfold fuel_at, heat_at.
  destruct (letter_at (run init_sys calls) k i) as [l|] eqn:Hl; simpl; [|done].
  assert (Hok : cells_ok l).
  { eapply letter_at_ok; [|exact Hl]. apply run_ok; [done|apply init_sys_ok]. }
  destruct Hok as [Hf Hh]. rewrite grid_all_gget in Hf, Hh. split.
  - intros f Hx. exact (Hf x y f Hx).
  - intros h Hx. exact (Hh x y h Hx).
Qed.

Lemma cells_in_range_witness :
  (∀ f, fuel_at (run init_sys burn_out_calls) 0 0 0 0 = Some f -> 0 <= f <= 100)
  ∧ (∀ h, heat_at (run init_sys burn_out_calls) 0 0 0 0 = Some h -> 0 <= h).
Proof.
  apply (cells_in_range burn_out_calls 0 0 0 0).
  repeat constructor; simpl; lra.
Defined.

(** ** The effect of the calls on one letter *)

(** The letter list after the loop of [restore_state]: a slot is restored
    when the snapshot and the target both hold a letter there, and is left
    alone otherwise. *)
Lemma restore_letters_lookup i saved ls n :
  (restore_letters i saved ls).1 !! n =
  if decide (i <= n)%nat then
    match ls !! n, saved !! (n - i)%nat with
    | Some (Some l), Some (Some st) => Some (Some (restore_letter st l))
    | o, _ => o
    end
  else ls !! n.
Proof.
  revert i ls. induction saved as [|ost saved IH]; intros i ls.
  - simpl. case_decide; [|done]. rewrite ?lookup_nil. by destruct (ls !! n) as [[?|]|].
  - simpl. destruct ost as [st|].
    + destruct (ls !! i) as [[letter|]|] eqn:E.
      * rewrite IH. destruct (decide (n = i)) as [->|Hn].
        -- rewrite decide_False by lia. rewrite decide_True by lia.
           rewrite Nat.sub_diag, E. simpl.
           apply list_lookup_insert_eq. by eapply lookup_lt_Some.
        -- rewrite list_lookup_insert_ne by done.
           case_decide; case_decide; try lia; [|done].
           replace (n - i)%nat with (S (n - S i)) by lia. done.
      * rewrite IH. destruct (decide (n = i)) as [->|Hn].
        -- rewrite decide_False by lia. rewrite decide_True by lia. by rewrite E.
        -- case_decide; case_decide; try lia; [|done].
           replace (n - i)%nat with (S (n - S i)) by lia. done.
      * simpl. case_decide; [|done].
        apply lookup_ge_None in E. rewrite (lookup_ge_None_2 ls n) by lia. done.
    + rewrite IH. destruct (decide (n = i)) as [->|Hn].
      * rewrite decide_False by lia. rewrite decide_True by lia.
        rewrite Nat.sub_diag. simpl. by destruct (ls !! i) as [[?|]|].
      * case_decide; case_decide; try lia; [|done].
        replace (n - i)%nat with (S (n - S i)) by lia. done.
Qed.

Lemma restore_state_letter states identifier bt i l :
  mjoin (letters bt !! i) = Some l ->
  ∃ l', mjoin (letters (restore_state states identifier bt).1 !! i) = Some l'
        ∧ (l' = l ∨ ∃ st, l' = restore_letter st l).
Proof.
  intros Hl. unfold restore_state.
  destruct (states !! identifier) as [sd|]; [|eauto].
  pose proof (restore_letters_lookup 0 (letters_state sd) (letters bt) i) as H.
  destruct (restore_letters 0 (letters_state sd) (letters bt)) as [ls ok].
  simpl in *. rewrite H.
  destruct (letters bt !! i) as [[l0|]|]; simpl in Hl; try done.
  injection Hl as ->.
  destruct (letters_state sd !! (i - 0)%nat) as [[st|]|]; simpl; eauto.
Qed.

Lemma letter_at_Some s k i l :
  letter_at s k i = Some l ->
  ∃ bt, objects s !! k = Some bt ∧ mjoin (letters bt !! i) = Some l.
Proof.
  unfold letter_at. destruct (objects s !! k) as [bt|]; simpl; [eauto|done].
Qed.

Lemma letter_at_on_object_eq k f s i bt :
  objects s !! k = Some bt ->
  letter_at (on_object k f s) k i = mjoin (letters (f bt) !! i).
Proof.
  intros Hbt. unfold letter_at, on_object. simpl.
  rewrite list_lookup_alter_eq, Hbt. done.
Qed.

Lemma letter_at_on_object_ne k' f s k i :
  k' ≠ k -> letter_at (on_object k' f s) k i = letter_at s k i.
Proof.
  intros Hk. unfold letter_at, on_object. simpl.
  rewrite list_lookup_alter_ne by done. done.
Qed.

Lemma letters_on_letter i' f bt i :
  mjoin (letters (on_letter i' f bt) !! i) =
  (if decide (i = i') then f else id) <$> mjoin (letters bt !! i).
Proof.
  unfold on_letter. simpl. case_decide as Hi.
  - subst i'. rewrite list_lookup_alter_eq. by destruct (letters bt !! i) as [[?|]|].
  - rewrite list_lookup_alter_ne by done. by destruct (letters bt !! i) as [[?|]|].
Qed.

Lemma letters_BurningText_update mouse_pos dt rnd bt i :
  mjoin (letters (BurningText_update mouse_pos dt rnd bt) !! i) =
  update_letter mouse_pos dt (rnd i) <$> mjoin (letters bt !! i).
Proof.
  unfold BurningText_update. simpl. rewrite list_lookup_imap.
  by destruct (letters bt !! i) as [[?|]|].
Qed.

Lemma update_letter_steps r mouse_pos dt rnd l :
  rtc (letter_step r) l (update_letter mouse_pos dt rnd l).
Proof.
  unfold update_letter. destruct (collidepoint l mouse_pos).
  - eapply rtc_l; [apply step_add_heat|]. apply rtc_once, step_update.
  - apply rtc_once, step_update.
Qed.

(** A call keeps every letter in its slot and changes it by letter steps
    only; without a [restore_state] on the object, none of them is a
    restore. *)
Lemma exec_letter_at r s c k i l :
  (r = false -> ¬ restores k c) ->
  letter_at s k i = Some l ->
  ∃ l', letter_at (exec s c) k i = Some l' ∧ rtc (letter_step r) l l'.
Proof.
  intros Hr Hl. destruct (letter_at_Some s k i l Hl) as (bt & Hbt & Hi).
  destruct c as [txt font cx cy|k' mouse_pos dt rnd|k' i' x y radius dt
                 |k' i' dt rnd|k' ident|k' ident|ident|]; simpl.
  - exists l. split; [|done]. unfold letter_at. simpl.
    rewrite (lookup_app_l_Some _ _ _ _ Hbt). done.
  - destruct (decide (k' = k)) as [->|Hk].
    + rewrite (letter_at_on_object_eq _ _ _ _ _ Hbt).
      rewrite letters_BurningText_update, Hi.
      eexists. split; [done|]. apply update_letter_steps.
    + rewrite letter_at_on_object_ne by done. eauto using rtc_refl.
  - destruct (decide (k' = k)) as [->|Hk].
    + rewrite (letter_at_on_object_eq _ _ _ _ _ Hbt).
      rewrite letters_on_letter, Hi.
      eexists. split; [done|].
      case_decide; eauto using rtc_refl, rtc_once, step_add_heat.
    + rewrite letter_at_on_object_ne by done. eauto using rtc_refl.
  - destruct (decide (k' = k)) as [->|Hk].
    + rewrite (letter_at_on_object_eq _ _ _ _ _ Hbt).
      rewrite letters_on_letter, Hi.
      eexists. split; [done|].
      case_decide; eauto using rtc_refl, rtc_once, step_update.
    + rewrite letter_at_on_object_ne by done. eauto using rtc_refl.
  - exists l. split; [|done]. by destruct (objects s !! k').
  - destruct (decide (k' = k)) as [->|Hk].
    + rewrite (letter_at_on_object_eq _ _ _ _ _ Hbt).
      destruct (restore_state_letter (manager_states s) ident bt i l Hi)
        as (l' & Hl' & [->|[st ->]]); eexists; (split; [exact Hl'|]); [done|].
      apply rtc_once, step_restore. destruct r; [done|].
      exfalso. by apply Hr.
    + rewrite letter_at_on_object_ne by done. eauto using rtc_refl.
  - eauto using rtc_refl.
  - eauto using rtc_refl.
Qed.

Lemma run_letter_at r calls s k i l :
  Forall (λ c, r = false -> ¬ restores k c) calls ->
  letter_at s k i = Some l ->
  ∃ l', letter_at (run s calls) k i = Some l' ∧ rtc (letter_step r) l l'.
Proof.
  intros Hc. revert s l. induction Hc as [|c calls Hc _ IH]; intros s l Hl.
  - eauto using rtc_refl.
  - simpl. destruct (exec_letter_at r s c k i l Hc Hl) as (l1 & Hl1 & Hs1).
    destruct (IH _ _ Hl1) as (l' & Hl' & Hs'). eauto using rtc_trans.
Qed.

(** ** Fuel that has run out *)

Lemma not_burning_without_fuel dt l x y f :
  gget (fuel_map l) x y = Some f -> f <= 0 -> bcell (burning dt l) x y = false.
Proof.
  intros Hf Hz. apply not_true_iff_false. intros Hb.
  apply burning_mask_spec in Hb as (h & _ & _ & Hpos).
  rewrite (cell_gget _ _ _ _ Hf) in Hpos. lra.
Qed.

Lemma update_keeps_zero dt rnd l x y f :
  gget (fuel_map l) x y = Some f -> f == 0 ->
  ∃ f', gget (fuel_map (update dt rnd l)) x y = Some f' ∧ f' == 0.
Proof.
  intros Hf Hz. rewrite gget_update_fuel, Hf. simpl.
  rewrite (not_burning_without_fuel dt l x y f Hf) by lra.
  eexists. split; [done|]. rewrite clip_id; [done|lra].
Qed.

Lemma steps_keep_zero l l' x y :
  rtc (letter_step false) l l' ->
  ∀ f, gget (fuel_map l) x y = Some f -> f == 0 ->
  ∃ f', gget (fuel_map l') x y = Some f' ∧ f' == 0.
Proof.
  induction 1 as [l|l l1 l' Hstep _ IH]; intros f Hf Hz; [eauto|].
  destruct Hstep as [x0 y0 radius dt l|dt rnd l|st l Hr].
  - apply (IH f); done.
  - destruct (update_keeps_zero dt rnd l x y f Hf Hz) as (f1 & Hf1 & Hz1).
    by apply (IH f1).
  - done.
Qed.

(** C2, as the code has it.  Once the fuel of a cell is 0 it stays 0 under
    every sequence of calls that contains no [restore_state] on its text
    object: [add_heat] and [update] (of the letter or of the whole text, with
    any elapsed time), [save_state], clearing, and calls on other objects. *)
Theorem charred_stays_charred (calls : list Call) (s : Sys) (k i x y : nat) :
  Forall (λ c, ¬ restores k c) calls ->
  fuel_is s k i x y 0 ->
  fuel_is (run s calls) k i x y 0.
Proof.
  intros Hc. unfold fuel_is, fuel_at.
  destruct (letter_at s k i) as [l|] eqn:Hl; simpl; [|done].
  destruct (gget (fuel_map l) x y) as [f|] eqn:Hf; [|done]. intros Hz.
  destruct (run_letter_at false calls s k i l) as (l' & Hl' & Hsteps); [|done|].
  { eapply Forall_impl; [exact Hc|]. auto. }
  rewrite Hl'. simpl.
  destruct (steps_keep_zero l l' x y Hsteps f Hf Hz) as (f' & -> & Hz'). done.
Qed.

(** The calls after the burn-out of [burn_out_calls]: more heat, two more
    updates and a second snapshot. *)
Lemma charred_stays_charred_witness :
  fuel_is (run (run init_sys burn_out_calls)
               [ CallAddHeat 0 0 0 0 1 1;
                 CallUpdate 0 (0, 0)%Z (1 # 4) (λ _, always_spread);
                 CallSave 0 "late";
                 CallLetterUpdate 0 0 1 always_spread ])
          0 0 0 0 0.
Proof.
  apply charred_stays_charred.
  - repeat constructor; simpl; tauto.
  - vm_compute. reflexivity.
Defined.

(** C2 as stated fails: [restore_state] installs the fuel map of the
    snapshot.  After [burn_out_calls] the only cell has no fuel; restoring
    the snapshot taken before the burn gives it 100 again. *)
Lemma restore_refuels_charred_cell :
  fuel_is (run init_sys burn_out_calls) 0 0 0 0 0
  ∧ fuel_is (run init_sys (burn_out_calls ++ [CallRestore 0 "fresh"])) 0 0 0 0 100.
Proof. split; vm_compute; reflexivity. Qed.

(** ** Ignition and spread *)

Lemma elem_of_spreaders w h roll coords i j x y :
  (x, y) ∈ spreaders w h roll coords i j <->
  (x, y) ∈ coords ∧ roll x y < FIRE_SPREAD_CHANCE ∧ in_block w h x y i j = true.
Proof.
  unfold spreaders. rewrite !list_elem_of_In, filter_In. simpl.
  rewrite andb_true_iff, Qltb_lt. tauto.
Qed.

Lemma elem_of_heated_by dt rnd l i j x y :
  (x, y) ∈ heated_by dt rnd l i j <->
  bcell (burning dt l) x y = true
  ∧ spread_roll rnd x y < FIRE_SPREAD_CHANCE
  ∧ (i < width l ∧ j < height l
     ∧ x <= i + 1 ∧ i <= x + 1 ∧ y <= j + 1 ∧ j <= y + 1)%nat.
Proof.
  unfold heated_by.
  rewrite elem_of_spreaders, elem_of_argwhere, bcell_true, in_block_spec. tauto.
Qed.

Lemma NoDup_heated_by dt rnd l i j : NoDup (heated_by dt rnd l i j).
Proof.
  unfold heated_by, spreaders.
  apply NoDup_ListNoDup, List.NoDup_filter, NoDup_ListNoDup, NoDup_argwhere.
Qed.

Lemma ignition_after_cooling dt h :
  0 <= dt -> IGNITION_POINT <= clip_lo 0 (h - COOL_RATE * dt) -> IGNITION_POINT <= h.
Proof.
  unfold clip_lo, IGNITION_POINT, COOL_RATE. intros Hdt H.
  destruct (Q.max_spec (h - 50 * dt) 0) as [[_ E]|[_ E]]; rewrite E in H; lra.
Qed.

Lemma burning_spec dt l x y :
  bcell (burning dt l) x y = true <->
  ∃ h, gget (heat_map l) x y = Some h
       ∧ IGNITION_POINT <= clip_lo 0 (h - COOL_RATE * dt)
       ∧ 0 < cell (fuel_map l) x y.
Proof.
  unfold burning. rewrite burning_mask_spec. setoid_rewrite gget_cool. split.
  - intros (h' & Hh & H1 & H2).
    destruct (gget (heat_map l) x y) as [h|]; simpl in Hh; [|done].
    injection Hh as <-. eauto.
  - intros (h & -> & H1 & H2). simpl. eauto.
Qed.

(** C3.  In a reachable state and for an elapsed time that is not negative,
    a cell whose heat is below [IGNITION_POINT] keeps its fuel in
    [Letter.update] and heats no cell; conversely a cell that loses fuel or
    heats some cell has heat at least [IGNITION_POINT] and fuel left. *)
Theorem below_ignition_inert (dt : Q) (rnd : Draws) (l : Letter) :
  0 <= dt ->
  cells_ok l ->
  (∀ x y h f,
      gget (heat_map l) x y = Some h -> gget (fuel_map l) x y = Some f ->
      h < IGNITION_POINT ->
      (∃ f', gget (fuel_map (update dt rnd l)) x y = Some f' ∧ f' == f)
      ∧ ∀ i j, (x, y) ∉ heated_by dt rnd l i j)
  ∧ (∀ x y,
      consumes dt rnd l x y ∨ (∃ i j, (x, y) ∈ heated_by dt rnd l i j) ->
      ∃ h f, gget (heat_map l) x y = Some h ∧ gget (fuel_map l) x y = Some f
             ∧ IGNITION_POINT <= h ∧ 0 < f).
Proof.
  intros Hdt [Hfuel _]. rewrite grid_all_gget in Hfuel.
  assert (Hburn : ∀ x y, bcell (burning dt l) x y = true ->
            ∃ h f, gget (heat_map l) x y = Some h ∧ gget (fuel_map l) x y = Some f
                   ∧ IGNITION_POINT <= h ∧ 0 < f).
  { intros x y Hb. apply burning_spec in Hb as (h & Hh & Hign & Hpos).
    unfold cell in Hpos. destruct (gget (fuel_map l) x y) as [f|]; simpl in Hpos.
    - exists h, f. eauto using ignition_after_cooling.
    - lra. }
  split.
  - intros x y h f Hh Hf Hlow.
    assert (Hnb : bcell (burning dt l) x y = false).
    { apply not_true_iff_false. intros Hb.
      destruct (Hburn x y Hb) as (h' & f' & Hh' & _ & Hign & _).
      rewrite Hh in Hh'. injection Hh' as <-. lra. }
    split.
    + rewrite gget_update_fuel, Hf. simpl. rewrite Hnb.
      eexists. split; [done|]. apply clip_id. exact (Hfuel x y f Hf).
    + intros i j Hin. apply elem_of_heated_by in Hin as [Hb _]. congruence.
  - intros x y [(f & f' & Hf & Hf' & Hlt)|(i & j & Hin)].
    + apply Hburn. destruct (bcell (burning dt l) x y) eqn:Hb; [done|].
      rewrite gget_update_fuel, Hf in Hf'. simpl in Hf'. rewrite Hb in Hf'.
      injection Hf' as <-. rewrite clip_id in Hlt by exact (Hfuel x y f Hf). lra.
    + apply Hburn. by apply elem_of_heated_by in Hin as [Hb _].
Qed.

Lemma below_ignition_inert_witness :
  (∀ x y h f,
      gget (heat_map hot_centre) x y = Some h ->
      gget (fuel_map hot_centre) x y = Some f ->
      h < IGNITION_POINT ->
      (∃ f', gget (fuel_map (update (1 # 10) always_spread hot_centre)) x y = Some f'
             ∧ f' == f)
      ∧ ∀ i j, (x, y) ∉ heated_by (1 # 10) always_spread hot_centre i j)
  ∧ (∀ x y,
      consumes (1 # 10) always_spread hot_centre x y
      ∨ (∃ i j, (x, y) ∈ heated_by (1 # 10) always_spread hot_centre i j) ->
      ∃ h f, gget (heat_map hot_centre) x y = Some h
             ∧ gget (fuel_map hot_centre) x y = Some f
             ∧ IGNITION_POINT <= h ∧ 0 < f).
Proof.
  apply below_ignition_inert.
  - lra.
  - apply add_heat_cells_ok; [lra|]. apply Letter_init_cells_ok.
Defined.

(** C4, as the code has it.  After [Letter.update] the heat of a cell is its
    cooled heat plus [HEAT_TRANSFER_RATE * dt] for each cell of [heated_by]:
    the burning cells whose roll passes and whose 3x3 square, cut at the
    edges of the rect, contains the cell.  The square includes its centre, so
    a spreading cell heats itself as well as its eight neighbours. *)
Theorem spread_heats_block (dt : Q) (rnd : Draws) (l : Letter) (i j : nat) (h : Q) :
  gget (heat_map l) i j = Some h ->
  (∃ h', gget (heat_map (update dt rnd l)) i j = Some h'
         ∧ h' == clip_lo 0 (h - COOL_RATE * dt)
                 + inject_Z (Z.of_nat (length (heated_by dt rnd l i j)))
                   * (HEAT_TRANSFER_RATE * dt))
  ∧ NoDup (heated_by dt rnd l i j)
  ∧ ∀ x y, (x, y) ∈ heated_by dt rnd l i j <->
           bcell (burning dt l) x y = true
           ∧ spread_roll rnd x y < FIRE_SPREAD_CHANCE
           ∧ (i < width l ∧ j < height l
              ∧ x <= i + 1 ∧ i <= x + 1 ∧ y <= j + 1 ∧ j <= y + 1)%nat.
Proof.
  intros Hh. split; [|split].
  - pose proof (gget_update_heat dt rnd l i j) as H. rewrite Hh in H.
    apply oQeq_Some_r in H as (p & Hp & Hq). eauto.
  - apply NoDup_heated_by.
  - intros x y. apply elem_of_heated_by.
Qed.

Lemma spread_heats_block_witness :
  (∃ h', gget (heat_map (update (1 # 10) always_spread hot_centre)) 1 1 = Some h'
         ∧ h' == clip_lo 0 (400 - COOL_RATE * (1 # 10))
                 + inject_Z (Z.of_nat (length
                     (heated_by (1 # 10) always_spread hot_centre 1 1)))
                   * (HEAT_TRANSFER_RATE * (1 # 10)))
  ∧ NoDup (heated_by (1 # 10) always_spread hot_centre 1 1)
  ∧ ∀ x y, (x, y) ∈ heated_by (1 # 10) always_spread hot_centre 1 1 <->
           bcell (burning (1 # 10) hot_centre) x y = true
           ∧ spread_roll always_spread x y < FIRE_SPREAD_CHANCE
           ∧ (1 < width hot_centre ∧ 1 < height hot_centre
              ∧ x <= 1 + 1 ∧ 1 <= x + 1 ∧ y <= 1 + 1 ∧ 1 <= y + 1)%nat.
Proof.
  apply (spread_heats_block (1 # 10) always_spread hot_centre 1 1 400).
  vm_compute. reflexivity.
Defined.

(** C4 as stated fails at the burning cell itself.  In [hot_centre] the
    centre is the only burning cell; it cools from 400 to 395 and then, its
    roll passing, receives its own 800 * 0.1 = 80, like its neighbours. *)
Lemma burning_cell_heats_itself :
  argwhere (burning (1 # 10) hot_centre) = [(1, 1)%nat]
  ∧ cell (cool (1 # 10) (heat_map hot_centre)) 1 1 == 395
  ∧ cell (heat_map (update (1 # 10) always_spread hot_centre)) 1 1 == 395 + 80
  ∧ cell (heat_map (update (1 # 10) always_spread hot_centre)) 0 1 == 0 + 80.
Proof. repeat split; vm_compute; reflexivity. Qed.

(** ** Burning out *)

Lemma elapsed_nonneg i j l calls : held_ignited i j l calls -> 0 <= elapsed calls.
Proof.
  revert l. induction calls as [|c calls IH]; intros l; simpl; [lra|].
  intros [Hc Hrest]. specialize (IH _ Hrest).
  destruct c; [done| |done]. lra.
Qed.

(** One held update takes [FUEL_CONSUMPTION_RATE * 100 * dt] off the fuel
    and stops at 0. *)
Lemma held_update_fuel dt rnd l i j f0 :
  gget (fuel_map l) i j = Some f0 -> 0 <= f0 <= 100 ->
  0 <= dt -> IGNITION_POINT <= cell (cool dt (heat_map l)) i j ->
  ∃ f1, gget (fuel_map (update dt rnd l)) i j = Some f1
        ∧ 0 <= f1 <= 100
        ∧ (f1 == 0 ∨ f1 == f0 - FUEL_CONSUMPTION_RATE * 100 * dt).
Proof.
  intros Hf Hr Hdt Hheat. rewrite gget_update_fuel, Hf. simpl.
  eexists. split; [done|]. split; [apply clip_bounds; lra|].
  destruct (bcell (burning dt l) i j) eqn:Hb.
  - destruct (Qlt_le_dec (f0 - FUEL_CONSUMPTION_RATE * 100 * dt) 0) as [Hneg|Hpos].
    + left. unfold clip. rewrite Q.max_r by lra. apply Q.min_r. lra.
    + right. apply clip_id. unfold FUEL_CONSUMPTION_RATE in *. lra.
  - left. rewrite clip_id by done.
    destruct (Qlt_le_dec 0 f0) as [Hpos|Hle]; [|lra].
    exfalso. apply not_true_iff_false in Hb. apply Hb.
    apply burning_mask_spec. unfold cell in Hheat.
    destruct (gget (cool dt (heat_map l)) i j) as [h|]; simpl in Hheat.
    + exists h. rewrite (cell_gget _ _ _ _ Hf). done.
    + unfold IGNITION_POINT in Hheat. lra.
Qed.

Lemma held_run_fuel i j calls l f0 :
  gget (fuel_map l) i j = Some f0 -> 0 <= f0 <= 100 ->
  held_ignited i j l calls ->
  ∃ f, gget (fuel_map (letter_run l calls)) i j = Some f
       ∧ 0 <= f
       ∧ (f == 0 ∨ f <= f0 - FUEL_CONSUMPTION_RATE * 100 * elapsed calls).
Proof.
  revert l f0. induction calls as [|c calls IH]; intros l f0 Hf Hr Hheld.
  - simpl. exists f0. split; [done|]. split; [lra|]. right. lra.
  - destruct Hheld as [Hc Hrest]. pose proof (elapsed_nonneg _ _ _ _ Hrest) as He.
    destruct c as [x y radius dt|dt rnd|st]; [| |done].
    + simpl in *. apply (IH _ f0); done.
    + destruct Hc as [Hdt Hheat].
      destruct (held_update_fuel dt rnd l i j f0 Hf Hr Hdt Hheat)
        as (f1 & Hf1 & Hr1 & Hstep).
      destruct (IH _ f1 Hf1 Hr1 Hrest) as (f & Hfin & Hpos & Hle).
      exists f. split; [exact Hfin|]. split; [done|]. simpl elapsed.
      unfold FUEL_CONSUMPTION_RATE in *.
      destruct Hle as [Hz|Hle]; [by left|].
      destruct Hstep as [Hz1|Hs1]; [left|right]; nra.
Qed.

(** C5.  A cell that starts with fuel 100 and is held at or above the
    ignition point through a run of [add_heat] and [update] calls has no
    fuel left once the elapsed times of the updates add up to
    [100 / (FUEL_CONSUMPTION_RATE * 100)] seconds, that is 2 seconds,
    whatever the random draws of the updates are. *)
Theorem burnt_out_in_time (i j : nat) (l : Letter) (calls : list LetterCall) (f0 : Q) :
  gget (fuel_map l) i j = Some f0 ->
  f0 == 100 ->
  held_ignited i j l calls ->
  100 / (FUEL_CONSUMPTION_RATE * 100) <= elapsed calls ->
  ∃ f, gget (fuel_map (letter_run l calls)) i j = Some f ∧ f == 0.
Proof.
  intros Hf H100 Hheld Htime.
  destruct (held_run_fuel i j calls l f0 Hf ltac:(lra) Hheld) as (f & Hfin & Hpos & Hle).
  exists f. split; [done|]. destruct Hle as [Hz|Hle]; [done|].
  assert (E : 100 / (FUEL_CONSUMPTION_RATE * 100) == 2) by reflexivity.
  rewrite E in Htime. unfold FUEL_CONSUMPTION_RATE in *. lra.
Qed.

Lemma burnt_out_in_time_witness :
  ∃ f, gget (fuel_map (letter_run hot_centre hold_centre)) 1 1 = Some f ∧ f == 0.
Proof.
  apply (burnt_out_in_time 1 1 hot_centre hold_centre 100).
  - vm_compute. reflexivity.
  - reflexivity.
  - vm_compute. repeat split; discriminate.
  - vm_compute. discriminate.
Defined.

(** ** The cached texture *)

Lemma restore_letter_texture st l :
  charred_texture (restore_letter st l) = charred_texture l.
Proof.
  unfold restore_letter.
  by destruct (saved_fuel_map st), (saved_heat_map st).
Qed.

Lemma apply_call_texture_kept c l t :
  charred_texture l = Some t -> charred_texture (apply_call l c) = Some t.
Proof.
  intros Ht. destruct c; simpl.
  - done.
  - by apply update_texture_kept.
  - by rewrite restore_letter_texture.
Qed.

Lemma simulate_texture dt roll l :
  charred_texture (simulate dt roll l) = charred_texture l.
Proof. unfold simulate. by destruct (burn dt roll l). Qed.

Lemma cached_texture_settled calls l t :
  charred_texture l = Some t ->
  generations l calls = 0%nat ∧ charred_texture (letter_run l calls) = Some t.
Proof.
  revert l. induction calls as [|c calls IH]; intros l Ht; [done|].
  simpl. destruct (IH _ (apply_call_texture_kept c l t Ht)) as [-> Hrun].
  split; [|done]. destruct c; [done| |done].
  unfold needs_texture. by rewrite simulate_texture, Ht.
Qed.

(** C6.  Through any run of [add_heat], [update] and restore calls on a
    letter, [_generate_charred_texture] is called at most once; and once the
    cached texture is set it is never generated again and stays the very
    surface it was, whatever surface a later generation would have built. *)
Theorem texture_generated_once (l : Letter) (calls : list LetterCall) :
  (generations l calls <= 1)%nat
  ∧ ∀ t, charred_texture l = Some t ->
         generations l calls = 0%nat
         ∧ charred_texture (letter_run l calls) = Some t.
Proof.
  split; [|intros t; apply cached_texture_settled].
  revert l. induction calls as [|c calls IH]; intros l; [simpl; lia|].
  cbn [generations].
  destruct c as [x y radius dt|dt rnd|st]; try apply IH.
  destruct (needs_texture (simulate dt (spread_roll rnd) l)) eqn:Hn; [|apply IH].
  assert (Ht : charred_texture (apply_call l (DoUpdate dt rnd))
               = Some (new_texture rnd)).
  { unfold apply_call, update. by rewrite Hn. }
  destruct (cached_texture_settled calls _ _ Ht) as [-> _]. lia.
Qed.

(** ** Snapshots *)

(** The loop of [restore_state] runs to its end exactly when no saved letter
    lies past the end of the target's letter list. *)
Lemma restore_letters_flag i saved ls :
  (restore_letters i saved ls).2 = true <->
  ∀ n st, saved !! n = Some (Some st) -> (i + n < length ls)%nat.
Proof.
  revert i ls. induction saved as [|ost saved IH]; intros i ls.
  - simpl. split; [|done]. intros _ n st Hn. by rewrite lookup_nil in Hn.
  - assert (Hshift : ∀ (len : nat),
              (∀ n st, saved !! n = Some (Some st) -> (S i + n < len)%nat) <->
              (∀ n st, (None :: saved) !! n = Some (Some st) -> (i + n < len)%nat)).
    { intros len. split.
      - intros H [|n] st Hn; [done|]. simpl in Hn. apply H in Hn. lia.
      - intros H n st Hn. specialize (H (S n) st Hn). lia. }
    simpl. destruct ost as [st0|].
    + destruct (ls !! i) as [[letter|]|] eqn:E.
      * rewrite IH, length_insert, Hshift. apply lookup_lt_Some in E. split.
        -- intros H [|n] st Hn; [lia|]. by apply (H (S n) st).
        -- intros H [|n] st Hn; [done|]. by apply (H (S n) st).
      * rewrite IH, Hshift. apply lookup_lt_Some in E. split.
        -- intros H [|n] st Hn; [lia|]. by apply (H (S n) st).
        -- intros H [|n] st Hn; [done|]. by apply (H (S n) st).
      * simpl. apply lookup_ge_None in E. split; [done|].
        intros H. specialize (H 0%nat st0 eq_refl). lia.
    + rewrite IH. apply Hshift.
Qed.

(** [restore_state] with a snapshot under the identifier. *)
Lemma restore_state_found (states : States) (identifier : string)
    (bt : BurningText) (sd : StateData) :
  states !! identifier = Some sd ->
  let bt' := (restore_state states identifier bt).1 in
  text bt' = text bt ∧ time bt' = time bt
  ∧ (∀ i, letters bt' !! i =
          match letters bt !! i, letters_state sd !! i with
          | Some (Some l), Some (Some st) => Some (Some (restore_letter st l))
          | o, _ => o
          end)
  ∧ ((restore_state states identifier bt).2 = true <->
     ∀ i st, letters_state sd !! i = Some (Some st) ->
             (i < length (letters bt))%nat).
Proof.
  intros Hsd. unfold restore_state. rewrite Hsd.
  pose proof (restore_letters_lookup 0 (letters_state sd) (letters bt)) as Hl.
  pose proof (restore_letters_flag 0 (letters_state sd) (letters bt)) as Hf.
  destruct (restore_letters 0 (letters_state sd) (letters bt)) as [ls ok].
  simpl in *. split; [done|]. split; [done|]. split; [|done].
  intros i. rewrite Hl, Nat.sub_0_r. done.
Qed.

(** C8, as the code has it.  With no snapshot under the identifier,
    [restore_state] returns [False] and leaves the target as it is.
    Otherwise every slot where the snapshot and the target both hold a
    letter is restored and every other slot of the target is left alone,
    text and time untouched; the call returns [True] exactly when the
    snapshot holds no letter at an index past the end of the target's
    letters, and [False] (from the handler of the [IndexError]) when it
    does. *)
Theorem restore_is_positional (states : States) (identifier : string) (bt : BurningText) :
  match states !! identifier with
  | None => restore_state states identifier bt = (bt, false)
  | Some sd =>
      let bt' := (restore_state states identifier bt).1 in
      text bt' = text bt ∧ time bt' = time bt
      ∧ (∀ i, letters bt' !! i =
              match letters bt !! i, letters_state sd !! i with
              | Some (Some l), Some (Some st) => Some (Some (restore_letter st l))
              | o, _ => o
              end)
      ∧ ((restore_state states identifier bt).2 = true <->
         ∀ i st, letters_state sd !! i = Some (Some st) ->
                 (i < length (letters bt))%nat)
  end.
Proof.
  destruct (states !! identifier) as [sd|] eqn:Hsd.
  - by apply restore_state_found.
  - unfold restore_state. by rewrite Hsd.
Qed.

(** C8 as stated fails when the snapshot has more letters than the target.
    The snapshot ["two"] of [two_then_one] holds two letters; restored onto
    a fresh one-letter text it does restore slot 0 (heat 400 instead of 0),
    but the call returns [False]. *)
Lemma longer_snapshot_reports_failure :
  let target := BurningText_init "A" (block_font 1) 0 0 in
  let result := restore_state (manager_states (run init_sys two_then_one))
                              "two" target in
  (heat_map <$> mjoin (letters target !! 0%nat)) = Some [[0]]
  ∧ (heat_map <$> mjoin (letters result.1 !! 0%nat)) = Some [[400]]
  ∧ result.2 = false.
Proof. vm_compute. done. Qed.

Lemma occupied_init_letters font y x_offset chars :
  occupied <$> init_letters font y x_offset chars
  = (λ c, negb (Ascii.eqb c " ")) <$> chars.
Proof.
  revert x_offset. induction chars as [|c rest IH]; intros x_offset; [done|].
  simpl. destruct (Ascii.eqb c " "); simpl; by rewrite IH.
Qed.

Lemma BurningText_init_text txt font cx cy :
  text (BurningText_init txt font cx cy) = txt.
Proof. unfold BurningText_init. by destruct (text_size font txt). Qed.

Lemma BurningText_init_well_formed txt font cx cy :
  well_formed (BurningText_init txt font cx cy).
Proof.
  unfold well_formed. rewrite BurningText_init_text.
  unfold BurningText_init. destruct (text_size font txt). simpl.
  apply occupied_init_letters.
Qed.

Lemma occupied_lookup (ls ls' : list (option Letter)) :
  (∀ i, occupied <$> ls' !! i = occupied <$> ls !! i) ->
  occupied <$> ls' = occupied <$> ls.
Proof.
  intros H. apply list_eq. intros i. by rewrite !list_lookup_fmap.
Qed.

Lemma restore_state_frame states identifier bt :
  text (restore_state states identifier bt).1 = text bt
  ∧ occupied <$> letters (restore_state states identifier bt).1
    = occupied <$> letters bt.
Proof.
  destruct (states !! identifier) as [sd|] eqn:Hsd;
    [|unfold restore_state; by rewrite Hsd].
  destruct (restore_state_found states identifier bt sd Hsd) as (Ht & _ & Hl & _).
  split; [done|].
  apply occupied_lookup. intros i. rewrite Hl.
  by destruct (letters bt !! i) as [[l|]|], (letters_state sd !! i) as [[st|]|].
Qed.

Lemma exec_well_formed s c :
  Forall well_formed (objects s) -> Forall well_formed (objects (exec s c)).
Proof.
  intros Hs.
  assert (Halter : ∀ k f,
            (∀ bt, text (f bt) = text bt
                   ∧ occupied <$> letters (f bt) = occupied <$> letters bt) ->
            Forall well_formed (alter f k (objects s))).
  { intros k f Hf. apply Forall_alter; [done|]. intros bt _ Hbt.
    unfold well_formed in *. destruct (Hf bt) as [-> ->]. done. }
  destruct c; simpl; try done.
  - apply Forall_app. split; [done|]. constructor; [|done].
    apply BurningText_init_well_formed.
  - apply Halter. intros bt. split; [done|]. apply occupied_lookup. intros i.
    simpl. rewrite list_lookup_imap. by destruct (letters bt !! i) as [[l|]|].
  - apply Halter. intros bt. split; [done|]. apply occupied_lookup. intros i'.
    simpl. destruct (decide (i = i')) as [->|Hi].
    + rewrite list_lookup_alter_eq. by destruct (letters bt !! i') as [[l|]|].
    + by rewrite list_lookup_alter_ne.
  - apply Halter. intros bt. split; [done|]. apply occupied_lookup. intros i'.
    simpl. destruct (decide (i = i')) as [->|Hi].
    + rewrite list_lookup_alter_eq. by destruct (letters bt !! i') as [[l|]|].
    + by rewrite list_lookup_alter_ne.
  - by destruct (objects s !! k).
  - apply Halter. intros bt. apply restore_state_frame.
Qed.

Lemma run_well_formed calls s :
  Forall well_formed (objects s) -> Forall well_formed (objects (run s calls)).
Proof.
  revert s. induction calls as [|c calls IH]; intros s Hs; [done|].
  simpl. apply IH. by apply exec_well_formed.
Qed.

(** C7.  Let [S] be a text object of the running program.  After
    [save_state] of [S] under an identifier, [restore_state] with that
    identifier on a freshly constructed text object with the text of [S]
    returns [True], and every letter of [S] finds at its index a letter of
    the target whose heat and fuel arrays are those of [S] at the time of
    the save, entry for entry. *)
Theorem snapshot_round_trip (calls : list Call) (k : nat) (S : BurningText)
    (identifier : string) (font : Font) (center_x center_y : Z) :
  objects (run init_sys calls) !! k = Some S ->
  let states := save_state (manager_states (run init_sys calls)) identifier S in
  let T := BurningText_init (text S) font center_x center_y in
  (restore_state states identifier T).2 = true
  ∧ ∀ i l, letters S !! i = Some (Some l) ->
           ∃ l', letters (restore_state states identifier T).1 !! i = Some (Some l')
                 ∧ heat_map l' = heat_map l ∧ fuel_map l' = fuel_map l.
Proof.
  intros HS states T.
  assert (Hwf : well_formed S).
  { pose proof (run_well_formed calls init_sys ltac:(constructor)) as H.
    rewrite Forall_lookup in H. eauto. }
  assert (Hocc : occupied <$> letters T = occupied <$> letters S).
  { rewrite Hwf. pose proof (BurningText_init_well_formed (text S) font center_x center_y) as H.
    unfold well_formed in H. by rewrite BurningText_init_text in H. }
  destruct (restore_state_found states identifier T
              {| saved_text := text S;
                 letters_state := fmap (M:=option) letter_state <$> letters S |})
    as (_ & _ & Hl & Hf).
  { unfold states, save_state. apply lookup_insert_eq. }
  simpl in Hl, Hf. split.
  - apply Hf. intros i st Hi. rewrite list_lookup_fmap in Hi.
    destruct (letters S !! i) as [ol|] eqn:E; [|done].
    apply lookup_lt_Some in E.
    assert (length (letters T) = length (letters S)) as ->; [|done].
    by rewrite <- (length_fmap occupied (letters T)), Hocc, length_fmap.
  - intros i l Hi.
    assert (Ht : occupied <$> letters T !! i = Some true).
    { rewrite <- list_lookup_fmap, Hocc, list_lookup_fmap, Hi. done. }
    destruct (letters T !! i) as [[lt|]|] eqn:E; try done.
    exists (restore_letter (letter_state l) lt).
    rewrite Hl, E, list_lookup_fmap, Hi. simpl. done.
Qed.

Lemma snapshot_round_trip_witness :
  let states := save_state (manager_states (run init_sys two_then_one))
                           "title" heated_pair in
  let T := BurningText_init (text heated_pair) (block_font 1) 5 5 in
  (restore_state states "title" T).2 = true
  ∧ ∀ i l, letters heated_pair !! i = Some (Some l) ->
           ∃ l', letters (restore_state states "title" T).1 !! i = Some (Some l')
                 ∧ heat_map l' = heat_map l ∧ fuel_map l' = fuel_map l.
Proof.
  apply (snapshot_round_trip two_then_one 0 heated_pair "title" (block_font 1) 5 5).
  vm_compute. reflexivity.
Defined.

(** * The screen-burn transition *)

(** The two copies of the class update in the same way. *)
Lemma SettingsScreen_update_eq dt t :
  SettingsScreen.update dt t = MainMenu.update dt t.
Proof.
  unfold SettingsScreen.update, MainMenu.update, MainMenu._update_black_fade,
    MainMenu._update_burn_progress.
  destruct (ScreenBurn.active t); simpl; [|done].
  destruct (ScreenBurn.complete t); simpl.
  - by destruct (Qle_bool 255 _).
  - destruct (ScreenBurn.reverse_mode t); simpl; by destruct (Qle_bool _ _).
Qed.

Lemma updates_SettingsScreen_eq dts t :
  updates SettingsScreen.update dts t = updates MainMenu.update dts t.
Proof.
  revert t. induction dts as [|dt dts IH]; intros t; [done|].
  unfold updates in *. simpl. by rewrite SettingsScreen_update_eq, IH.
Qed.

Lemma start_outward v t :
  ScreenBurn.burn_speed t = v -> 0 < v ->
  outward_after v 0 (ScreenBurn.start false t).
Proof.
  intros Hv Hpos. unfold outward_after. simpl.
  repeat split; try done; lra.
Qed.

Lemma update_outward v s dt t :
  0 < v -> 0 <= dt ->
  outward_after v s t -> outward_after v (s + dt) (MainMenu.update dt t).
Proof.
  intros Hv Hdt (Ha & Hr & Hs & Ht & Hp).
  unfold MainMenu.update, MainMenu._update_black_fade,
    MainMenu._update_burn_progress.
  rewrite Ha. simpl. destruct (ScreenBurn.complete t) eqn:Hc; simpl.
  - destruct Hp as [Hp Hle].
    destruct (Qle_bool 255 _); unfold outward_after; simpl;
      rewrite Hc; (repeat split; try done; [lra|nra]).
  - destruct Hp as [Hp Hlt]. rewrite Hr. simpl.
    destruct (Qle_bool 1 (ScreenBurn.burn_progress t + ScreenBurn.burn_speed t * dt))
      eqn:Hq; unfold outward_after; simpl; rewrite ?Hc.
    + apply Qle_bool_iff in Hq. rewrite Hs in Hq.
      repeat split; try done; [lra|nra].
    + apply not_true_iff_false in Hq. rewrite Qle_bool_iff, Hs in Hq.
      repeat split; try done; [lra| rewrite Hs; lra | nra].
Qed.

Lemma updates_outward v dts s t :
  0 < v -> Forall (λ dt, 0 < dt) dts ->
  outward_after v s t ->
  outward_after v (s + total_time dts) (updates MainMenu.update dts t).
Proof.
  intros Hv Hd. revert s t. induction Hd as [|dt dts Hdt _ IH]; intros s t Ht.
  - simpl. destruct Ht as (Ha & Hr & Hs & Htm & Hp).
    unfold outward_after. repeat split; try done; [lra|].
    destruct (ScreenBurn.complete t); destruct Hp as [Hp Hb]; split; try done; nra.
  - unfold updates in *. simpl.
    apply (update_outward v s dt t Hv ltac:(lra)) in Ht.
    apply IH in Ht. destruct Ht as (Ha & Hr & Hs & Htm & Hp).
    unfold outward_after. repeat split; try done; [lra|].
    destruct (ScreenBurn.complete _); destruct Hp as [Hp Hb]; split; try done; nra.
Qed.

Lemma Qdiv_le_mult (v s : Q) : 0 < v -> 1 / v <= s -> 1 <= v * s.
Proof.
  intros Hv H. apply (Qmult_le_compat_r _ _ v) in H; [|lra].
  assert (E : 1 / v * v == 1) by (field; lra). lra.
Qed.

(** C9.  In both copies of the class, a transition started in outward mode
    and updated with positive frame times is complete, with
    [burn_progress = 1], after every run of updates whose frame times add up
    to at least [1 / burn_speed] seconds, however the time is cut into
    frames; so it is complete by the first update that reaches that time.
    The accumulated time is the one the object keeps in [time]. *)
Theorem outward_burn_completes (t0 : ScreenBurn.ScreenBurnTransition) (dts : list Q) :
  0 < ScreenBurn.burn_speed t0 ->
  Forall (λ dt, 0 < dt) dts ->
  1 / ScreenBurn.burn_speed t0 <= total_time dts ->
  let t := updates MainMenu.update dts (ScreenBurn.start false t0) in
  let t' := updates SettingsScreen.update dts (ScreenBurn.start false t0) in
  (ScreenBurn.complete t = true ∧ ScreenBurn.burn_progress t == 1
   ∧ ScreenBurn.time t == total_time dts)
  ∧ (ScreenBurn.complete t' = true ∧ ScreenBurn.burn_progress t' == 1
     ∧ ScreenBurn.time t' == total_time dts).
Proof.
  intros Hv Hd Htime t t'.
  assert (H : ScreenBurn.complete t = true ∧ ScreenBurn.burn_progress t == 1
              ∧ ScreenBurn.time t == total_time dts).
  { pose proof (updates_outward (ScreenBurn.burn_speed t0) dts 0
                  (ScreenBurn.start false t0) Hv Hd
                  (start_outward _ t0 eq_refl Hv)) as (_ & _ & _ & Htm & Hp).
    fold t in Htm, Hp. apply Qdiv_le_mult in Htime; [|done].
    destruct (ScreenBurn.complete t).
    - destruct Hp as [Hp _]. repeat split; [done|lra].
    - destruct Hp as [_ Hlt]. lra. }
  split; [exact H|]. unfold t'. rewrite updates_SettingsScreen_eq. exact H.
Qed.

Lemma outward_burn_completes_witness :
  let t := updates MainMenu.update second_at_30
                   (ScreenBurn.start false (ScreenBurn.init 800 600)) in
  let t' := updates SettingsScreen.update second_at_30
                    (ScreenBurn.start false (ScreenBurn.init 800 600)) in
  (ScreenBurn.complete t = true ∧ ScreenBurn.burn_progress t == 1
   ∧ ScreenBurn.time t == total_time second_at_30)
  ∧ (ScreenBurn.complete t' = true ∧ ScreenBurn.burn_progress t' == 1
     ∧ ScreenBurn.time t' == total_time second_at_30).
Proof.
  apply (outward_burn_completes (ScreenBurn.init 800 600) second_at_30).
  - reflexivity.
  - repeat constructor.
  - vm_compute. discriminate.
Defined.

(** * Objects and references *)

(** ** The memory *)

Lemma read_alloc_new g m : Refs.read (Refs.alloc g m).2 (Refs.next_ref m) = g.
Proof. unfold Refs.read, Refs.alloc. simpl. by rewrite lookup_insert_eq. Qed.

Lemma read_alloc_old g m r :
  r ≠ Refs.next_ref m -> Refs.read (Refs.alloc g m).2 r = Refs.read m r.
Proof.
  intros Hr. unfold Refs.read, Refs.alloc. simpl.
  by rewrite lookup_insert_ne.
Qed.

Lemma alloc_mem_ok g m : mem_ok m -> mem_ok (Refs.alloc g m).2.
Proof.
  intros Hm r. unfold Refs.alloc. simpl.
  destruct (decide (r = Refs.next_ref m)) as [->|Hr].
  - rewrite lookup_insert_eq. split; [lia|eauto].
  - rewrite lookup_insert_ne by done. rewrite (Hm r). lia.
Qed.

Lemma alloc_grows g m : grows m (Refs.alloc g m).2.
Proof.
  split; [simpl; lia|]. intros r Hr. apply read_alloc_old. lia.
Qed.

Lemma grows_refl m : grows m m.
Proof. split; [lia|done]. Qed.

Lemma grows_trans m1 m2 m3 : grows m1 m2 -> grows m2 m3 -> grows m1 m3.
Proof.
  intros [H1 R1] [H2 R2]. split; [lia|].
  intros r Hr. rewrite R2 by lia. by apply R1.
Qed.

Lemma read_modify_same r f m :
  mem_ok m -> (r < Refs.next_ref m)%nat ->
  Refs.read (Refs.modify r f m) r = f (Refs.read m r).
Proof.
  intros Hm Hr. apply Hm in Hr as [g Hg].
  unfold Refs.read, Refs.modify. simpl. by rewrite lookup_alter_eq, Hg.
Qed.

Lemma read_modify_other r f m r' :
  r ≠ r' -> Refs.read (Refs.modify r f m) r' = Refs.read m r'.
Proof.
  intros Hr. unfold Refs.read, Refs.modify. simpl.
  by rewrite lookup_alter_ne.
Qed.

Lemma modify_mem_ok r f m : mem_ok m -> mem_ok (Refs.modify r f m).
Proof.
  intros Hm r'. unfold Refs.modify. simpl. rewrite <- (Hm r').
  destruct (decide (r = r')) as [->|Hr].
  - rewrite lookup_alter_eq. by rewrite fmap_is_Some.
  - by rewrite lookup_alter_ne.
Qed.

Lemma modify_same_outside (R : nat -> Prop) r f m :
  R r -> same_outside R m (Refs.modify r f m).
Proof.
  intros Hr. split; [done|]. intros r' Hr'. apply read_modify_other. congruence.
Qed.

Lemma same_outside_refl R m : same_outside R m m.
Proof. by split. Qed.

Lemma same_outside_trans R m1 m2 m3 :
  same_outside R m1 m2 -> same_outside R m2 m3 -> same_outside R m1 m3.
Proof.
  intros [H1 R1] [H2 R2]. split; [congruence|].
  intros r Hr. rewrite R2 by done. by apply R1.
Qed.

Lemma same_outside_weaken (R R' : nat -> Prop) m m' :
  (∀ r, R r -> R' r) -> same_outside R m m' -> same_outside R' m m'.
Proof. intros HR [H1 H2]. split; [done|]. intros r Hr. apply H2. auto. Qed.

(** A loop of in-place changes of one object. *)
Lemma fold_modify {A} r (F : Grid -> A -> Grid) (l : list A) m :
  mem_ok m -> (r < Refs.next_ref m)%nat ->
  let m' := fold_left (λ m a, Refs.modify r (λ g, F g a) m) l m in
  mem_ok m' ∧ Refs.next_ref m' = Refs.next_ref m
  ∧ Refs.read m' r = fold_left F l (Refs.read m r)
  ∧ ∀ r', r ≠ r' -> Refs.read m' r' = Refs.read m r'.
Proof.
  revert m. induction l as [|a l IH]; intros m Hm Hr; simpl; [done|].
  destruct (IH (Refs.modify r (λ g, F g a) m)) as (Hok & Hn & Hread & Hother).
  { by apply modify_mem_ok. }
  { done. }
  split; [done|]. split; [done|]. split.
  - by rewrite Hread, read_modify_same.
  - intros r' Hr'. by rewrite Hother, read_modify_other.
Qed.

(** ** The methods of a letter, in place and by value *)

Lemma load_agree m m' o :
  Refs.read m' (Refs.heat_ref o) = Refs.read m (Refs.heat_ref o) ->
  Refs.read m' (Refs.fuel_ref o) = Refs.read m (Refs.fuel_ref o) ->
  Refs.load m' o = Refs.load m o.
Proof. intros H1 H2. unfold Refs.load. by rewrite H1, H2. Qed.

Lemma load_same_outside (R : nat -> Prop) m m' o :
  same_outside R m m' -> (∀ r, refs_of o r -> ¬ R r) ->
  Refs.load m' o = Refs.load m o.
Proof.
  intros [_ H] Ho. apply load_agree; apply H, Ho; [by left|by right].
Qed.

Lemma load_grows m m' o :
  grows m m' -> letter_ok m o -> Refs.load m' o = Refs.load m o.
Proof.
  intros [_ H] (_ & H1 & H2). apply load_agree; by apply H.
Qed.

Lemma letter_ok_grows m m' o : grows m m' -> letter_ok m o -> letter_ok m' o.
Proof. intros [Hn _] (H0 & H1 & H2). repeat split; [done|lia|lia]. Qed.

Lemma add_heat_in_place x y radius dt o m :
  mem_ok m -> letter_ok m o ->
  let m' := Refs.add_heat x y radius dt o m in
  mem_ok m' ∧ same_outside (refs_of o) m m'
  ∧ Refs.load m' o = add_heat x y radius dt (Refs.load m o).
Proof.
  intros Hm (Hne & Hh & Hf). unfold Refs.add_heat. simpl.
  split; [by apply modify_mem_ok|]. split.
  - apply modify_same_outside. by left.
  - unfold Refs.load, add_heat, set_heat_map. simpl.
    rewrite read_modify_same by done.
    rewrite read_modify_other by done. done.
Qed.

Lemma update_in_place dt rnd o m :
  mem_ok m -> letter_ok m o ->
  let o' := (Refs.update dt rnd o m).1 in
  let m' := (Refs.update dt rnd o m).2 in
  mem_ok m' ∧ same_outside (refs_of o) m m'
  ∧ Refs.heat_ref o' = Refs.heat_ref o ∧ Refs.fuel_ref o' = Refs.fuel_ref o
  ∧ Refs.load m' o' = update dt rnd (Refs.load m o).
Proof.
  intros Hm (Hne & Hh & Hf). unfold Refs.update.
  set (m1 := Refs.modify (Refs.heat_ref o) (amap (λ h, h - COOL_RATE * dt)) m).
  set (m2 := Refs.modify (Refs.heat_ref o) (amap (clip_lo 0)) m1).
  assert (Hm2 : mem_ok m2) by (by apply modify_mem_ok, modify_mem_ok).
  assert (Hheat2 : Refs.read m2 (Refs.heat_ref o)
                   = cool dt (Refs.read m (Refs.heat_ref o))).
  { unfold m2, m1, cool. rewrite !read_modify_same; try done.
    by apply modify_mem_ok. }
  assert (Hfuel2 : Refs.read m2 (Refs.fuel_ref o) = Refs.read m (Refs.fuel_ref o)).
  { unfold m2, m1. by rewrite !read_modify_other. }
  assert (H12 : same_outside (refs_of o) m m2).
  { eapply same_outside_trans; apply modify_same_outside; by left. }
  rewrite Hheat2, Hfuel2.
  set (bm := burning_mask (cool dt (Refs.read m (Refs.heat_ref o)))
                          (Refs.read m (Refs.fuel_ref o))).
  set (m3 := if any bm then _ else m2).
  assert (H3 : mem_ok m3 ∧ same_outside (refs_of o) m m3
               ∧ (Refs.read m3 (Refs.heat_ref o), Refs.read m3 (Refs.fuel_ref o))
                 = burn dt (spread_roll rnd) (Refs.load m o)).
  { unfold m3, burn. simpl. fold bm. destruct (any bm).
    - set (ma := Refs.modify (Refs.fuel_ref o) _ m2).
      assert (Hma : mem_ok ma) by (by apply modify_mem_ok).
      destruct (fold_modify (Refs.heat_ref o)
                  (spread_from (Refs.obj_width o) (Refs.obj_height o) dt
                               (spread_roll rnd))
                  (argwhere bm) ma Hma Hh) as (Hok & Hn & Hread & Hother).
      split; [exact Hok|]. split.
      + eapply same_outside_trans; [exact H12|].
        eapply same_outside_trans; [apply modify_same_outside; by right|].
        split; [exact Hn|]. intros r Hr. apply Hother. intros <-. apply Hr. by left.
      + rewrite Hread, Hother by done. unfold ma.
        rewrite read_modify_other by done.
        rewrite read_modify_same by done. by rewrite Hheat2, Hfuel2.
    - split; [done|]. split; [done|]. by rewrite Hheat2, Hfuel2. }
  clearbody m3. destruct H3 as (Hm3 & H13 & Hburn).
  set (m4 := Refs.modify (Refs.fuel_ref o) (amap (clip 0 100)) m3).
  assert (Hm4 : mem_ok m4) by (by apply modify_mem_ok).
  assert (H14 : same_outside (refs_of o) m m4).
  { eapply same_outside_trans; [exact H13|]. apply modify_same_outside. by right. }
  assert (Hsim : Refs.load m4 o = simulate dt (spread_roll rnd) (Refs.load m o)).
  { unfold simulate. rewrite <- Hburn. unfold Refs.load, m4. simpl.
    rewrite read_modify_other by done. rewrite read_modify_same; [done|done|].
    destruct H13 as [-> _]. done. }
  unfold update. rewrite <- Hsim.
  destruct (needs_texture (Refs.load m4 o)); simpl; done.
Qed.

(** ** Lists of letter objects *)

Lemma slot_refs_cons_None os r : slot_refs (None :: os) r <-> slot_refs os r.
Proof.
  split.
  - intros ([|i] & o & Hi & Hr); [done|]. by exists i, o.
  - intros (i & o & Hi & Hr). by exists (S i), o.
Qed.

Lemma slot_refs_cons_Some o os r :
  slot_refs (Some o :: os) r <-> refs_of o r ∨ slot_refs os r.
Proof.
  split.
  - intros ([|i] & o' & Hi & Hr).
    + injection Hi as <-. by left.
    + right. by exists i, o'.
  - intros [Hr|(i & o' & Hi & Hr)]; [by exists 0%nat, o | by exists (S i), o'].
Qed.

Lemma slots_ok_nil m : slots_ok m [].
Proof. split; intros *; by rewrite lookup_nil. Qed.

Lemma slots_ok_cons_None m os : slots_ok m (None :: os) <-> slots_ok m os.
Proof.
  split; intros [H1 H2]; split.
  - intros i o Hi. by apply (H1 (S i)).
  - intros i j o o' r Hi Hj Hr Hr'.
    by specialize (H2 (S i) (S j) o o' r Hi Hj Hr Hr') as [= ->].
  - intros [|i] o Hi; [done|]. by apply (H1 i).
  - intros [|i] [|j] o o' r Hi Hj Hr Hr'; try done.
    f_equal. by apply (H2 i j o o' r).
Qed.

Lemma slots_ok_cons_Some m o os :
  slots_ok m (Some o :: os) <->
  letter_ok m o ∧ slots_ok m os ∧ (∀ r, refs_of o r -> ¬ slot_refs os r).
Proof.
  split.
  - intros [H1 H2]. split; [by apply (H1 0%nat)|]. split; [split|].
    + intros i o' Hi. by apply (H1 (S i)).
    + intros i j o1 o2 r Hi Hj Hr Hr'.
      by specialize (H2 (S i) (S j) o1 o2 r Hi Hj Hr Hr') as [= ->].
    + intros r Hr (i & o' & Hi & Hr').
      by specialize (H2 0%nat (S i) o o' r eq_refl Hi Hr Hr').
  - intros (Ho & [H1 H2] & Hd). split.
    + intros [|i] o' Hi; [by injection Hi as <-|]. by apply (H1 i).
    + intros [|i] [|j] o1 o2 r Hi Hj Hr Hr'; simpl in *.
      * done.
      * injection Hi as <-. exfalso. apply (Hd r Hr). by exists j, o2.
      * injection Hj as <-. exfalso. apply (Hd r Hr'). by exists i, o1.
      * f_equal. by apply (H2 i j o1 o2 r).
Qed.

Lemma slots_ok_grows m m' os : grows m m' -> slots_ok m os -> slots_ok m' os.
Proof.
  intros Hg [H1 H2]. split; [|done].
  intros i o Hi. eapply letter_ok_grows; eauto.
Qed.

Lemma slots_ok_below m os r : slots_ok m os -> slot_refs os r -> (r < Refs.next_ref m)%nat.
Proof.
  intros [H1 _] (i & o & Hi & Hr). destruct (H1 i o Hi) as (_ & Hh & Hf).
  destruct Hr as [<-|<-]; done.
Qed.

Lemma loads_agree m m' (os : list (option Refs.LetterObj)) :
  (∀ r, slot_refs os r -> Refs.read m' r = Refs.read m r) ->
  fmap (M:=option) (Refs.load m') <$> os = fmap (M:=option) (Refs.load m) <$> os.
Proof.
  intros H. apply list_eq. intros i. rewrite !list_lookup_fmap.
  destruct (os !! i) as [[o|]|] eqn:Hi; simpl; try done.
  do 2 f_equal. apply load_agree; apply H; exists i, o; split; try done;
    [by left|by right].
Qed.

Lemma loads_grows m m' os :
  grows m m' -> slots_ok m os ->
  fmap (M:=option) (Refs.load m') <$> os = fmap (M:=option) (Refs.load m) <$> os.
Proof.
  intros [_ Hg] Hos. apply loads_agree. intros r Hr.
  apply Hg. by eapply slots_ok_below.
Qed.

Lemma Letter_init_alloc c p font m :
  mem_ok m ->
  let o := (Refs.Letter_init c p font m).1 in
  let m' := (Refs.Letter_init c p font m).2 in
  mem_ok m' ∧ grows m m' ∧ letter_ok m' o
  ∧ (∀ r, refs_of o r -> (Refs.next_ref m <= r)%nat)
  ∧ Refs.obj_width o = width (Letter_init c p font)
  ∧ Refs.load m' o = Letter_init c p font.
Proof.
  intros Hm.
  set (g1 := tabulate (glyph_width (render font c)) (glyph_height (render font c))
                      (λ _ _, 0)).
  set (g2 := mul_mask
               (tabulate (glyph_width (render font c))
                         (glyph_height (render font c)) (λ _ _, 100))
               (tabulate (glyph_width (render font c))
                         (glyph_height (render font c))
                         (glyph_pixel (render font c)))).
  set (m1 := (Refs.alloc g1 m).2).
  set (m2 := (Refs.alloc g2 m1).2).
  assert (E : (Refs.Letter_init c p font m).2 = m2) by reflexivity.
  assert (Eh : Refs.heat_ref (Refs.Letter_init c p font m).1 = Refs.next_ref m)
    by reflexivity.
  assert (Ef : Refs.fuel_ref (Refs.Letter_init c p font m).1 = Refs.next_ref m1)
    by reflexivity.
  assert (En : Refs.next_ref m2 = S (S (Refs.next_ref m))) by reflexivity.
  assert (En1 : Refs.next_ref m1 = S (Refs.next_ref m)) by reflexivity.
  cbv zeta. rewrite E.
  split; [apply alloc_mem_ok, alloc_mem_ok, Hm|].
  split; [eapply grows_trans; apply alloc_grows|].
  split; [unfold letter_ok; rewrite Eh, Ef, En, En1; lia|].
  split; [intros r [<-|<-]; rewrite ?Eh, ?Ef, ?En1; lia|].
  split; [done|].
  unfold Refs.load. rewrite Eh, Ef. unfold Letter_init. cbv zeta. f_equal.
  - unfold m2. rewrite read_alloc_old by (rewrite En1; lia). apply read_alloc_new.
  - apply read_alloc_new.
Qed.

Lemma init_letters_cons font y x_offset c rest m :
  Refs.init_letters font y x_offset (c :: rest) m =
  if Ascii.eqb c " " then
    let r := Refs.init_letters font y (x_offset + space_advance font)%Z rest m in
    (None :: r.1, r.2)
  else
    let a := Refs.Letter_init c (x_offset, y) font m in
    let r := Refs.init_letters font y (x_offset + Z.of_nat (Refs.obj_width a.1))%Z
                               rest a.2 in
    (Some a.1 :: r.1, r.2).
Proof.
  cbn [Refs.init_letters]. destruct (Ascii.eqb c " ").
  - by destruct (Refs.init_letters font y _ rest m).
  - destruct (Refs.Letter_init c (x_offset, y) font m) as [o m1]. cbn [fst snd].
    by destruct (Refs.init_letters font y _ rest m1).
Qed.

Lemma init_letters_alloc font y x_offset chars m :
  mem_ok m ->
  let os := (Refs.init_letters font y x_offset chars m).1 in
  let m' := (Refs.init_letters font y x_offset chars m).2 in
  mem_ok m' ∧ grows m m' ∧ slots_ok m' os
  ∧ (∀ r, slot_refs os r -> (Refs.next_ref m <= r)%nat)
  ∧ fmap (M:=option) (Refs.load m') <$> os = init_letters font y x_offset chars.
Proof.
  revert x_offset m. induction chars as [|c rest IH]; intros x_offset m Hm.
  - simpl. split; [done|]. split; [apply grows_refl|].
    split; [apply slots_ok_nil|]. split; [|done].
    intros r (i & o & Hi & _). by rewrite lookup_nil in Hi.
  - cbv zeta. rewrite init_letters_cons. cbn [init_letters].
    destruct (Ascii.eqb c " ").
    + destruct (IH (x_offset + space_advance font)%Z m Hm)
        as (Hm' & Hg & Hs & Hr & Hv).
      cbn [fst snd].
      split; [done|]. split; [done|]. split; [by apply slots_ok_cons_None|].
      split; [|by rewrite fmap_cons, Hv].
      intros r Hr'. apply Hr. by apply slot_refs_cons_None.
    + destruct (Letter_init_alloc c (x_offset, y) font m Hm)
        as (Hm1 & Hg1 & Ho & Hr1 & Hw & Hl).
      set (o := (Refs.Letter_init c (x_offset, y) font m).1) in *.
      set (m1 := (Refs.Letter_init c (x_offset, y) font m).2) in *.
      destruct (IH (x_offset + Z.of_nat (Refs.obj_width o))%Z m1 Hm1)
        as (Hm' & Hg & Hs & Hr & Hv).
      cbn [fst snd].
      split; [done|]. split; [by eapply grows_trans|]. split; [|split].
      * apply slots_ok_cons_Some. split; [by eapply letter_ok_grows|].
        split; [done|]. intros r Hro Hrs. apply Hr in Hrs.
        destruct Ho as (_ & Hh & Hf). destruct Hro as [<-|<-]; lia.
      * intros r Hr'. apply slot_refs_cons_Some in Hr' as [Hr'|Hr'].
        -- by apply Hr1.
        -- apply Hr in Hr'. destruct Hg1 as [Hn _]. lia.
      * rewrite fmap_cons, Hv. cbn [fmap option_fmap option_map].
        rewrite (load_grows m1 _ o Hg Ho), Hl, Hw. done.
Qed.

Lemma BurningText_init_alloc txt font cx cy m :
  mem_ok m ->
  let t := (Refs.BurningText_init txt font cx cy m).1 in
  let m' := (Refs.BurningText_init txt font cx cy m).2 in
  mem_ok m' ∧ grows m m' ∧ slots_ok m' (Refs.obj_letters t)
  ∧ (∀ r, slot_refs (Refs.obj_letters t) r -> (Refs.next_ref m <= r)%nat)
  ∧ Refs.view_text m' t = BurningText_init txt font cx cy.
Proof.
  intros Hm. unfold Refs.BurningText_init, BurningText_init.
  destruct (text_size font txt) as [w h].
  destruct (init_letters_alloc font (cy - h / 2)%Z (cx - w / 2)%Z
              (list_ascii_of_string txt) m Hm) as (Hm' & Hg & Hs & Hr & Hv).
  destruct (Refs.init_letters font _ _ _ m) as [os m'].
  cbn [fst snd] in *. cbn [Refs.obj_letters].
  split; [done|]. split; [done|]. split; [done|]. split; [done|].
  unfold Refs.view_text. cbn [Refs.obj_letters Refs.obj_text Refs.obj_time].
  by rewrite Hv.
Qed.

Lemma letter_ok_same_next m m' o :
  Refs.next_ref m' = Refs.next_ref m -> letter_ok m o -> letter_ok m' o.
Proof. unfold letter_ok. by intros ->. Qed.

Lemma slots_ok_same_next m m' os :
  Refs.next_ref m' = Refs.next_ref m -> slots_ok m os -> slots_ok m' os.
Proof.
  intros Hn [H1 H2]. split; [|done].
  intros i o Hi. eapply letter_ok_same_next; eauto.
Qed.

Lemma same_refs_slot_refs os os' r :
  same_refs os os' -> slot_refs os' r <-> slot_refs os r.
Proof.
  intros H. unfold slot_refs, refs_of. split.
  - intros (i & o' & Hi & Hr).
    destruct (Forall2_lookup_r _ _ _ _ _ H Hi) as (oo & Hoo & Ho).
    inversion Ho as [o ? [Hh Hf]|]; subst. exists i, o. split; [done|].
    rewrite <- Hh, <- Hf. done.
  - intros (i & o & Hi & Hr).
    destruct (Forall2_lookup_l _ _ _ _ _ H Hi) as (oo & Hoo & Ho).
    inversion Ho as [? o' [Hh Hf]|]; subst. exists i, o'. split; [done|].
    rewrite Hh, Hf. done.
Qed.

Lemma same_refs_slots_ok m os os' :
  same_refs os os' -> slots_ok m os -> slots_ok m os'.
Proof.
  intros H [H1 H2]. split.
  - intros i o' Hi.
    destruct (Forall2_lookup_r _ _ _ _ _ H Hi) as (oo & Hoo & Ho).
    inversion Ho as [o ? [Hh Hf]|]; subst.
    specialize (H1 i o Hoo). unfold letter_ok in *. by rewrite Hh, Hf.
  - intros i j o1' o2' r Hi Hj Hr Hr'.
    destruct (Forall2_lookup_r _ _ _ _ _ H Hi) as (oo1 & Hoo1 & Ho1).
    destruct (Forall2_lookup_r _ _ _ _ _ H Hj) as (oo2 & Hoo2 & Ho2).
    inversion Ho1 as [o1 ? [Hh1 Hf1]|]; subst.
    inversion Ho2 as [o2 ? [Hh2 Hf2]|]; subst.
    apply (H2 i j o1 o2 r Hoo1 Hoo2); unfold refs_of in *; congruence.
Qed.

Lemma update_letter_in_place mouse_pos dt rnd o m :
  mem_ok m -> letter_ok m o ->
  let o' := (Refs.update_letter mouse_pos dt rnd o m).1 in
  let m' := (Refs.update_letter mouse_pos dt rnd o m).2 in
  mem_ok m' ∧ same_outside (refs_of o) m m'
  ∧ Refs.heat_ref o' = Refs.heat_ref o ∧ Refs.fuel_ref o' = Refs.fuel_ref o
  ∧ Refs.load m' o' = update_letter mouse_pos dt rnd (Refs.load m o).
Proof.
  intros Hm Ho. unfold Refs.update_letter, update_letter.
  set (m1 := if collidepoint (Refs.load m o) mouse_pos then _ else m).
  assert (H1 : mem_ok m1 ∧ same_outside (refs_of o) m m1
               ∧ Refs.load m1 o =
                 (if collidepoint (Refs.load m o) mouse_pos
                  then add_heat (inject_Z mouse_pos.1) (inject_Z mouse_pos.2) 20 dt
                                (Refs.load m o)
                  else Refs.load m o)).
  { unfold m1. destruct (collidepoint (Refs.load m o) mouse_pos).
    - by apply add_heat_in_place.
    - split; [done|]. split; [apply same_outside_refl|done]. }
  clearbody m1. destruct H1 as (Hm1 & H01 & Hl1).
  assert (Ho1 : letter_ok m1 o) by (eapply letter_ok_same_next; [apply H01|done]).
  destruct (update_in_place dt rnd o m1 Hm1 Ho1) as (Hm' & H1' & Hh & Hf & Hl).
  split; [done|]. split; [by eapply same_outside_trans|].
  split; [done|]. split; [done|]. by rewrite Hl, Hl1.
Qed.

Lemma update_letters_cons i mouse_pos dt rnd oo rest m :
  Refs.update_letters i mouse_pos dt rnd (oo :: rest) m =
  match oo with
  | None =>
      let r := Refs.update_letters (S i) mouse_pos dt rnd rest m in
      (None :: r.1, r.2)
  | Some o =>
      let a := Refs.update_letter mouse_pos dt (rnd i) o m in
      let r := Refs.update_letters (S i) mouse_pos dt rnd rest a.2 in
      (Some a.1 :: r.1, r.2)
  end.
Proof.
  cbn [Refs.update_letters]. destruct oo as [o|].
  - destruct (Refs.update_letter mouse_pos dt (rnd i) o m) as [o' m1].
    cbn [fst snd]. by destruct (Refs.update_letters (S i) mouse_pos dt rnd rest m1).
  - by destruct (Refs.update_letters (S i) mouse_pos dt rnd rest m).
Qed.

Lemma update_letters_in_place i0 mouse_pos dt rnd os m :
  mem_ok m -> slots_ok m os ->
  let os' := (Refs.update_letters i0 mouse_pos dt rnd os m).1 in
  let m' := (Refs.update_letters i0 mouse_pos dt rnd os m).2 in
  mem_ok m' ∧ same_outside (slot_refs os) m m' ∧ same_refs os os'
  ∧ fmap (M:=option) (Refs.load m') <$> os'
    = imap (λ i, fmap (M:=option) (update_letter mouse_pos dt (rnd (i0 + i)%nat)))
           (fmap (M:=option) (Refs.load m) <$> os).
Proof.
  revert i0 m. induction os as [|oo rest IH]; intros i0 m Hm Hos.
  - simpl. split; [done|]. split; [apply same_outside_refl|]. split; [constructor|done].
  - cbv zeta. rewrite update_letters_cons. destruct oo as [o|]; cbv zeta.
    + apply slots_ok_cons_Some in Hos as (Ho & Hrest & Hdis).
      destruct (update_letter_in_place mouse_pos dt (rnd i0) o m Hm Ho)
        as (Hm1 & H01 & Hh & Hf & Hl).
      set (o' := (Refs.update_letter mouse_pos dt (rnd i0) o m).1) in *.
      set (m1 := (Refs.update_letter mouse_pos dt (rnd i0) o m).2) in *.
      assert (Hrest1 : slots_ok m1 rest).
      { eapply slots_ok_same_next; [apply H01|done]. }
      destruct (IH (S i0) m1 Hm1 Hrest1) as (Hm' & H1' & Hsame & Hv).
      cbn [fst snd]. split; [done|]. split; [|split].
      * eapply same_outside_trans.
        -- eapply same_outside_weaken; [|exact H01].
           intros r Hr. apply slot_refs_cons_Some. by left.
        -- eapply same_outside_weaken; [|exact H1'].
           intros r Hr. apply slot_refs_cons_Some. by right.
      * constructor; [by constructor|done].
      * rewrite !fmap_cons, imap_cons, Hv. cbn [fmap option_fmap option_map].
        f_equal.
        -- f_equal. rewrite Nat.add_0_r, <- Hl. apply load_agree.
           ++ rewrite Hh. apply H1'. intros Hr. apply (Hdis (Refs.heat_ref o)); [by left|done].
           ++ rewrite Hf. apply H1'. intros Hr. apply (Hdis (Refs.fuel_ref o)); [by right|done].
        -- rewrite (loads_agree m m1 rest).
           ++ apply imap_ext. intros i x _. simpl. by rewrite Nat.add_succ_r.
           ++ intros r Hr. apply H01. intros Hro. by apply (Hdis r).
    + apply (proj1 (slots_ok_cons_None m rest)) in Hos.
      destruct (IH (S i0) m Hm Hos) as (Hm' & H1' & Hsame & Hv).
      cbn [fst snd]. split; [done|]. split; [|split].
      * eapply same_outside_weaken; [|exact H1'].
        intros r Hr. by apply slot_refs_cons_None.
      * constructor; [constructor|done].
      * rewrite !fmap_cons, imap_cons, Hv. cbn [fmap option_fmap option_map].
        f_equal. apply imap_ext. intros i x _. simpl. by rewrite Nat.add_succ_r.
Qed.

(** ** Saving and restoring *)

Lemma saved_refs_cons_None sts r : saved_refs (None :: sts) r <-> saved_refs sts r.
Proof.
  split.
  - intros ([|i] & st & Hi & Hr); [done|]. by exists i, st.
  - intros (i & st & Hi & Hr). by exists (S i), st.
Qed.

Lemma saved_refs_cons_Some st sts r :
  saved_refs (Some st :: sts) r <->
  (Refs.fuel_list st = Some r ∨ Refs.heat_list st = Some r) ∨ saved_refs sts r.
Proof.
  split.
  - intros ([|i] & st' & Hi & Hr).
    + injection Hi as <-. by left.
    + right. by exists i, st'.
  - intros [Hr|(i & st' & Hi & Hr)]; [by exists 0%nat, st | by exists (S i), st'].
Qed.

Lemma view_saved_letter_agree m m' st :
  (∀ r, Refs.fuel_list st = Some r ∨ Refs.heat_list st = Some r ->
        Refs.read m' r = Refs.read m r) ->
  Refs.view_saved_letter m' st = Refs.view_saved_letter m st.
Proof.
  intros H. unfold Refs.view_saved_letter. f_equal.
  - destruct (Refs.fuel_list st) as [r|] eqn:E; simpl; [|done].
    f_equal. apply H. by left.
  - destruct (Refs.heat_list st) as [r|] eqn:E; simpl; [|done].
    f_equal. apply H. by right.
Qed.

Lemma view_saved_letters_agree m m' (sts : list (option Refs.SavedLetter)) :
  (∀ r, saved_refs sts r -> Refs.read m' r = Refs.read m r) ->
  fmap (M:=option) (Refs.view_saved_letter m') <$> sts
  = fmap (M:=option) (Refs.view_saved_letter m) <$> sts.
Proof.
  intros H. apply list_eq. intros i. rewrite !list_lookup_fmap.
  destruct (sts !! i) as [[st|]|] eqn:Hi; simpl; try done.
  do 2 f_equal. apply view_saved_letter_agree. intros r Hr.
  apply H. by exists i, st.
Qed.

Lemma save_letters_cons oo rest m :
  Refs.save_letters (oo :: rest) m =
  match oo with
  | None => let r := Refs.save_letters rest m in (None :: r.1, r.2)
  | Some letter =>
      let m1 := (Refs.alloc (Refs.read m (Refs.fuel_ref letter)) m).2 in
      let m2 := (Refs.alloc (Refs.read m1 (Refs.heat_ref letter)) m1).2 in
      let r := Refs.save_letters rest m2 in
      (Some {| Refs.kept_char := Refs.obj_char letter;
               Refs.kept_pos := Refs.obj_pos letter;
               Refs.fuel_list := Some (Refs.next_ref m);
               Refs.heat_list := Some (Refs.next_ref m1) |} :: r.1, r.2)
  end.
Proof.
  cbn [Refs.save_letters]. destruct oo as [o|].
  - unfold Refs.alloc at 1 2. cbn [fst snd].
    by destruct (Refs.save_letters rest _).
  - by destruct (Refs.save_letters rest m).
Qed.

Lemma save_letters_alloc os m :
  mem_ok m -> slots_ok m os ->
  let sts := (Refs.save_letters os m).1 in
  let m' := (Refs.save_letters os m).2 in
  mem_ok m' ∧ grows m m'
  ∧ (∀ r, saved_refs sts r -> (Refs.next_ref m <= r < Refs.next_ref m')%nat)
  ∧ fmap (M:=option) (Refs.view_saved_letter m') <$> sts
    = fmap (M:=option) letter_state <$> (fmap (M:=option) (Refs.load m) <$> os).
Proof.
  revert m. induction os as [|oo rest IH]; intros m Hm Hos.
  - simpl. split; [done|]. split; [apply grows_refl|]. split; [|done].
    intros r (i & st & Hi & _). by rewrite lookup_nil in Hi.
  - cbv zeta. rewrite save_letters_cons. destruct oo as [o|]; cbv zeta.
    + apply slots_ok_cons_Some in Hos as (Ho & Hrest & Hdis).
      destruct Ho as (Hne & Hh & Hf).
      set (m1 := (Refs.alloc (Refs.read m (Refs.fuel_ref o)) m).2).
      set (m2 := (Refs.alloc (Refs.read m1 (Refs.heat_ref o)) m1).2).
      assert (Hm1 : mem_ok m1) by (by apply alloc_mem_ok).
      assert (Hm2 : mem_ok m2) by (by apply alloc_mem_ok).
      assert (Hg1 : grows m m1) by apply alloc_grows.
      assert (Hg2 : grows m1 m2) by apply alloc_grows.
      assert (Hg02 : grows m m2) by (by eapply grows_trans).
      assert (En1 : Refs.next_ref m1 = S (Refs.next_ref m)) by reflexivity.
      assert (En2 : Refs.next_ref m2 = S (S (Refs.next_ref m))) by reflexivity.
      destruct (IH m2 Hm2 (slots_ok_grows _ _ _ Hg02 Hrest))
        as (Hm' & Hg & Hr & Hv).
      set (sts := (Refs.save_letters rest m2).1) in *.
      set (m' := (Refs.save_letters rest m2).2) in *.
      cbn [fst snd]. split; [done|]. split; [by eapply grows_trans|].
      destruct Hg as [Hn' Hread']. split.
      * intros r Hr'. apply saved_refs_cons_Some in Hr' as [[Hr'|Hr']|Hr'].
        -- injection Hr' as <-. lia.
        -- injection Hr' as <-. lia.
        -- apply Hr in Hr'. lia.
      * rewrite !fmap_cons, Hv. rewrite (loads_grows m m2 rest Hg02 Hrest).
        f_equal. cbn [fmap option_fmap option_map]. f_equal.
        unfold Refs.view_saved_letter, letter_state. simpl. f_equal.
        -- f_equal. rewrite Hread' by lia.
           unfold m2. rewrite read_alloc_old by lia. apply read_alloc_new.
        -- f_equal. rewrite Hread' by lia.
           unfold m2. rewrite read_alloc_new.
           unfold m1. apply read_alloc_old. lia.
    + apply (proj1 (slots_ok_cons_None m rest)) in Hos.
      destruct (IH m Hm Hos) as (Hm' & Hg & Hr & Hv).
      cbn [fst snd]. split; [done|]. split; [done|]. split.
      * intros r Hr'. apply Hr. by apply saved_refs_cons_None.
      * by rewrite !fmap_cons, Hv.
Qed.

Lemma restore_letter_alloc st o m :
  mem_ok m -> letter_ok m o ->
  (∀ r, Refs.fuel_list st = Some r ∨ Refs.heat_list st = Some r ->
        (r < Refs.next_ref m)%nat) ->
  let o' := (Refs.restore_letter st o m).1 in
  let m' := (Refs.restore_letter st o m).2 in
  mem_ok m' ∧ grows m m' ∧ letter_ok m' o'
  ∧ (∀ r, refs_of o' r -> refs_of o r ∨ (Refs.next_ref m <= r)%nat)
  ∧ Refs.load m' o' = restore_letter (Refs.view_saved_letter m st) (Refs.load m o).
Proof.
  intros Hm (Hne & Hh & Hf) Hst.
  unfold Refs.restore_letter, restore_letter, Refs.view_saved_letter.
  cbn [saved_fuel_map saved_heat_map].
  destruct (Refs.fuel_list st) as [lf|] eqn:Ef;
    destruct (Refs.heat_list st) as [lh|] eqn:Eh; cbn [fmap option_fmap option_map].
  - specialize (Hst lf (or_introl eq_refl)) as Hlf.
    specialize (Hst lh (or_intror eq_refl)) as Hlh.
    set (m1 := (Refs.alloc (Refs.read m lf) m).2).
    set (m2 := (Refs.alloc (Refs.read m1 lh) m1).2).
    change (let o' := Refs.set_heat_ref (Refs.next_ref m1)
                        (Refs.set_fuel_ref (Refs.next_ref m) o) in
            mem_ok m2 ∧ grows m m2 ∧ letter_ok m2 o'
            ∧ (∀ r, refs_of o' r -> refs_of o r ∨ (Refs.next_ref m <= r)%nat)
            ∧ Refs.load m2 o' =
              set_heat_map (Refs.read m lh)
                (set_fuel_map (Refs.read m lf) (Refs.load m o))).
    cbv zeta.
    assert (En1 : Refs.next_ref m1 = S (Refs.next_ref m)) by reflexivity.
    assert (En2 : Refs.next_ref m2 = S (S (Refs.next_ref m))) by reflexivity.
    split; [by apply alloc_mem_ok, alloc_mem_ok|].
    split; [eapply grows_trans; apply alloc_grows|].
    split; [unfold letter_ok; simpl; lia|].
    split; [intros r [<-|<-]; simpl; lia|].
    unfold Refs.load, set_heat_map, set_fuel_map. simpl. f_equal.
    + unfold m2. rewrite read_alloc_new. unfold m1. apply read_alloc_old. lia.
    + unfold m2. rewrite read_alloc_old by lia. apply read_alloc_new.
  - specialize (Hst lf (or_introl eq_refl)) as Hlf.
    set (m1 := (Refs.alloc (Refs.read m lf) m).2).
    change (let o' := Refs.set_fuel_ref (Refs.next_ref m) o in
            mem_ok m1 ∧ grows m m1 ∧ letter_ok m1 o'
            ∧ (∀ r, refs_of o' r -> refs_of o r ∨ (Refs.next_ref m <= r)%nat)
            ∧ Refs.load m1 o' = set_fuel_map (Refs.read m lf) (Refs.load m o)).
    cbv zeta.
    assert (En1 : Refs.next_ref m1 = S (Refs.next_ref m)) by reflexivity.
    split; [by apply alloc_mem_ok|]. split; [apply alloc_grows|].
    split; [unfold letter_ok; simpl; lia|].
    split; [intros r [<-|<-]; simpl; [left; by left|lia]|].
    unfold Refs.load, set_fuel_map. simpl. f_equal.
    + apply read_alloc_old. lia.
    + apply read_alloc_new.
  - specialize (Hst lh (or_intror eq_refl)) as Hlh.
    set (m1 := (Refs.alloc (Refs.read m lh) m).2).
    change (let o' := Refs.set_heat_ref (Refs.next_ref m) o in
            mem_ok m1 ∧ grows m m1 ∧ letter_ok m1 o'
            ∧ (∀ r, refs_of o' r -> refs_of o r ∨ (Refs.next_ref m <= r)%nat)
            ∧ Refs.load m1 o' = set_heat_map (Refs.read m lh) (Refs.load m o)).
    cbv zeta.
    assert (En1 : Refs.next_ref m1 = S (Refs.next_ref m)) by reflexivity.
    split; [by apply alloc_mem_ok|]. split; [apply alloc_grows|].
    split; [unfold letter_ok; simpl; lia|].
    split; [intros r [<-|<-]; simpl; [lia|left; by right]|].
    unfold Refs.load, set_heat_map. simpl. f_equal.
    + apply read_alloc_new.
    + apply read_alloc_old. lia.
  - simpl. split; [done|]. split; [apply grows_refl|].
    split; [done|]. split; [by left|done].
Qed.

Lemma slot_refs_insert os i o' r :
  slot_refs (<[i := Some o']> os) r -> refs_of o' r ∨ slot_refs os r.
Proof.
  intros (j & o & Hj & Hr). destruct (decide (i = j)) as [->|Hij].
  - apply list_lookup_insert_Some in Hj as [(_ & Ho & _)|[? _]]; [|done].
    injection Ho as <-. by left.
  - rewrite list_lookup_insert_ne in Hj by done. right. by exists j, o.
Qed.

Lemma slots_ok_insert m m1 os i o o' :
  slots_ok m os -> grows m m1 -> os !! i = Some (Some o) -> letter_ok m1 o' ->
  (∀ r, refs_of o' r -> refs_of o r ∨ (Refs.next_ref m <= r)%nat) ->
  slots_ok m1 (<[i := Some o']> os).
Proof.
  intros Hos Hg Hi Ho' Hfresh.
  pose proof (slots_ok_grows _ _ _ Hg Hos) as [H1 _]. destruct Hos as [H0 H2].
  assert (Hold : ∀ j oj r, os !! j = Some (Some oj) -> refs_of oj r ->
                           (r < Refs.next_ref m)%nat).
  { intros j oj r Hj Hr. destruct (H0 j oj Hj) as (_ & Hh & Hf).
    destruct Hr as [<-|<-]; done. }
  assert (Hclash : ∀ j oj r, j ≠ i -> os !! j = Some (Some oj) ->
                             refs_of oj r -> refs_of o' r -> False).
  { intros j oj r Hji Hj Hr Hr'. destruct (Hfresh r Hr') as [Hro|Hge].
    - apply Hji. by apply (H2 j i oj o r).
    - specialize (Hold j oj r Hj Hr). lia. }
  split.
  - intros j oj Hj. destruct (decide (i = j)) as [->|Hij].
    + apply list_lookup_insert_Some in Hj as [(_ & Ho & _)|[? _]]; [|done].
      by injection Ho as <-.
    + rewrite list_lookup_insert_ne in Hj by done. by apply (H1 j).
  - intros j1 j2 o1 o2 r Hj1 Hj2 Hr1 Hr2.
    destruct (decide (j1 = j2)) as [|Hne]; [done|]. exfalso.
    destruct (decide (i = j1)) as [->|Hi1].
    + apply list_lookup_insert_Some in Hj1 as [(_ & Ho & _)|[? _]]; [|done].
      injection Ho as <-. rewrite list_lookup_insert_ne in Hj2 by done.
      by apply (Hclash j2 o2 r).
    + rewrite list_lookup_insert_ne in Hj1 by done.
      destruct (decide (i = j2)) as [->|Hi2].
      * apply list_lookup_insert_Some in Hj2 as [(_ & Ho & _)|[? _]]; [|done].
        injection Ho as <-. apply (Hclash j1 o1 r); done.
      * rewrite list_lookup_insert_ne in Hj2 by done.
        apply Hne. by apply (H2 j1 j2 o1 o2 r).
Qed.

Lemma restore_letters_cons_Some i st rest os m :
  Refs.restore_letters i (Some st :: rest) os m =
  match os !! i with
  | None => (os, m, false)
  | Some None => Refs.restore_letters (S i) rest os m
  | Some (Some letter) =>
      let a := Refs.restore_letter st letter m in
      Refs.restore_letters (S i) rest (<[i := Some a.1]> os) a.2
  end.
Proof.
  cbn [Refs.restore_letters]. destruct (os !! i) as [[letter|]|]; try done.
  by destruct (Refs.restore_letter st letter m).
Qed.

Lemma restore_letters_alloc i saved os m :
  mem_ok m -> slots_ok m os ->
  (∀ r, saved_refs saved r -> (r < Refs.next_ref m)%nat) ->
  let res := Refs.restore_letters i saved os m in
  mem_ok res.1.2 ∧ grows m res.1.2 ∧ slots_ok res.1.2 res.1.1
  ∧ (∀ r, slot_refs res.1.1 r -> slot_refs os r ∨ (Refs.next_ref m <= r)%nat)
  ∧ (fmap (M:=option) (Refs.load res.1.2) <$> res.1.1, res.2)
    = restore_letters i (fmap (M:=option) (Refs.view_saved_letter m) <$> saved)
                      (fmap (M:=option) (Refs.load m) <$> os).
Proof.
  revert i os m. induction saved as [|ost rest IH]; intros i os m Hm Hos Hsv.
  - simpl. split; [done|]. split; [apply grows_refl|]. split; [done|].
    split; [by left|done].
  - destruct ost as [st|].
    + cbv zeta. rewrite restore_letters_cons_Some, fmap_cons.
      cbn [fmap option_fmap option_map restore_letters].
      rewrite list_lookup_fmap.
      assert (Hrest : ∀ r, saved_refs rest r -> (r < Refs.next_ref m)%nat).
      { intros r Hr. apply Hsv, saved_refs_cons_Some. by right. }
      destruct (os !! i) as [[o|]|] eqn:Hi; cbn [fmap option_fmap option_map].
      * destruct (restore_letter_alloc st o m Hm (proj1 Hos i o Hi))
          as (Hm1 & Hg1 & Ho' & Hfresh & Hl).
        { intros r Hr. apply Hsv, saved_refs_cons_Some. by left. }
        cbv zeta.
        set (o' := (Refs.restore_letter st o m).1) in *.
        set (m1 := (Refs.restore_letter st o m).2) in *.
        assert (Hos1 : slots_ok m1 (<[i := Some o']> os)).
        { by eapply slots_ok_insert. }
        destruct (IH (S i) (<[i := Some o']> os) m1 Hm1 Hos1)
          as (Hm' & Hg & Hos' & Hrefs & Hv).
        { intros r Hr. apply Hrest in Hr. destruct Hg1 as [Hn _]. lia. }
        split; [done|]. split; [by eapply grows_trans|]. split; [done|]. split.
        -- intros r Hr. destruct (Hrefs r Hr) as [Hr1|Hge].
           ++ apply slot_refs_insert in Hr1 as [Hr1|Hr1]; [|by left].
              destruct (Hfresh r Hr1) as [Hro|Hge]; [|by right].
              left. by exists i, o.
           ++ right. destruct Hg1 as [Hn _]. lia.
        -- rewrite Hv. rewrite list_fmap_insert.
           cbn [fmap option_fmap option_map]. rewrite Hl.
           rewrite (loads_grows m m1 os Hg1 Hos).
           rewrite (view_saved_letters_agree m m1 rest); [done|].
           intros r Hr. apply Hg1. by apply Hrest.
      * by apply IH.
      * split; [done|]. split; [apply grows_refl|]. split; [done|].
        split; [by left|done].
    + cbn [Refs.restore_letters restore_letters fmap_cons]. rewrite fmap_cons.
      cbn [fmap option_fmap option_map restore_letters].
      apply IH; try done. intros r Hr. apply Hsv. by apply saved_refs_cons_None.
Qed.

(** ** The views of a world *)

Lemma view_text_agree m m' t :
  (∀ r, slot_refs (Refs.obj_letters t) r -> Refs.read m' r = Refs.read m r) ->
  Refs.view_text m' t = Refs.view_text m t.
Proof. intros H. unfold Refs.view_text. by rewrite (loads_agree m m'). Qed.

Lemma view_saved_agree m m' sd :
  (∀ r, kept_in sd r -> Refs.read m' r = Refs.read m r) ->
  Refs.view_saved m' sd = Refs.view_saved m sd.
Proof.
  intros H. unfold Refs.view_saved. by rewrite (view_saved_letters_agree m m').
Qed.

Lemma view_texts_agree m m' (ts : list Refs.TextObj) :
  (∀ k t r, ts !! k = Some t -> slot_refs (Refs.obj_letters t) r ->
            Refs.read m' r = Refs.read m r) ->
  Refs.view_text m' <$> ts = Refs.view_text m <$> ts.
Proof.
  intros H. apply list_eq. intros k. rewrite !list_lookup_fmap.
  destruct (ts !! k) as [t|] eqn:E; simpl; [|done].
  f_equal. apply view_text_agree. eauto.
Qed.

Lemma view_store_agree m m' (st : gmap string Refs.SavedText) :
  (∀ identifier sd r, st !! identifier = Some sd -> kept_in sd r ->
                      Refs.read m' r = Refs.read m r) ->
  Refs.view_saved m' <$> st = Refs.view_saved m <$> st.
Proof.
  intros H. apply map_eq. intros identifier. rewrite !lookup_fmap.
  destruct (st !! identifier) as [sd|] eqn:E; simpl; [|done].
  f_equal. apply view_saved_agree. eauto.
Qed.

(** Two lists that agree, through [g'] and [g], everywhere but at [k], where
    they differ by [F]. *)
Lemma fmap_alter_pointwise {A B} (g g' : A -> B) (F : B -> B) (k : nat)
    (l l' : list A) :
  length l' = length l ->
  (∀ j a, j ≠ k -> l !! j = Some a -> ∃ a', l' !! j = Some a' ∧ g' a' = g a) ->
  (∀ a, l !! k = Some a -> ∃ a', l' !! k = Some a' ∧ g' a' = F (g a)) ->
  g' <$> l' = alter F k (g <$> l).
Proof.
  intros Hlen Hother Hk. apply list_eq. intros j. rewrite list_lookup_fmap.
  assert (Hnone : l !! j = None -> l' !! j = None).
  { intros Hj. apply lookup_ge_None. apply lookup_ge_None in Hj. lia. }
  destruct (decide (j = k)) as [->|Hj].
  - rewrite list_lookup_alter_eq, list_lookup_fmap.
    destruct (l !! k) as [a|] eqn:E.
    + destruct (Hk a eq_refl) as (a' & -> & Ha). simpl. by rewrite Ha.
    + by rewrite Hnone.
  - rewrite list_lookup_alter_ne by done. rewrite list_lookup_fmap.
    destruct (l !! j) as [a|] eqn:E.
    + destruct (Hother j a Hj E) as (a' & -> & Ha). simpl. by rewrite Ha.
    + by rewrite Hnone.
Qed.

Lemma same_refs_refl os : same_refs os os.
Proof.
  apply Forall2_lookup. intros i. destruct (os !! i) as [[o|]|]; by repeat constructor.
Qed.

Lemma same_refs_insert os i o o' :
  os !! i = Some (Some o) ->
  Refs.heat_ref o' = Refs.heat_ref o -> Refs.fuel_ref o' = Refs.fuel_ref o ->
  same_refs os (<[i := Some o']> os).
Proof.
  intros Hi Hh Hf. apply Forall2_lookup. intros j.
  destruct (decide (i = j)) as [<-|Hij].
  - rewrite list_lookup_insert_eq by (by eapply lookup_lt_Some).
    rewrite Hi. by repeat constructor.
  - rewrite list_lookup_insert_ne by done.
    destruct (os !! j) as [[oj|]|]; by repeat constructor.
Qed.

Lemma same_layout_insert ts k t t' :
  ts !! k = Some t ->
  same_refs (Refs.obj_letters t) (Refs.obj_letters t') ->
  same_layout ts (<[k := t']> ts).
Proof.
  intros Hk Hs. apply Forall2_lookup. intros j.
  destruct (decide (k = j)) as [<-|Hkj].
  - rewrite list_lookup_insert_eq by (by eapply lookup_lt_Some).
    rewrite Hk. by constructor.
  - rewrite list_lookup_insert_ne by done.
    destruct (ts !! j); constructor. apply same_refs_refl.
Qed.

(** Separation depends on the references only: it survives every change of
    the memory below [next_ref] and every change of the letter objects that
    keeps their arrays. *)
Lemma separated_relayout w m' ts' :
  separated w -> mem_ok m' -> Refs.next_ref m' = Refs.next_ref (Refs.mem w) ->
  same_layout (Refs.texts w) ts' ->
  separated {| Refs.mem := m'; Refs.texts := ts'; Refs.store := Refs.store w |}.
Proof.
  intros (Hm & Hslots & Hcross & Hsep & Hkept) Hm' Hn Hlay.
  assert (Hback : ∀ k t', ts' !! k = Some t' ->
            ∃ t, Refs.texts w !! k = Some t
                 ∧ same_refs (Refs.obj_letters t) (Refs.obj_letters t')).
  { intros k t' Hk. destruct (Forall2_lookup_r _ _ _ _ _ Hlay Hk) as (t & Ht & Hs).
    eauto. }
  split; [done|]. simpl. split; [|split; [|split]].
  - intros k t' Hk. destruct (Hback k t' Hk) as (t & Ht & Hs).
    eapply same_refs_slots_ok; [exact Hs|].
    eapply slots_ok_same_next; [exact Hn|]. eauto.
  - intros k k' t1' t2' r Hk Hk' Hr Hr'.
    destruct (Hback k t1' Hk) as (t1 & Ht1 & Hs1).
    destruct (Hback k' t2' Hk') as (t2 & Ht2 & Hs2).
    apply (Hcross k k' t1 t2 r Ht1 Ht2).
    + by apply (same_refs_slot_refs _ _ r Hs1).
    + by apply (same_refs_slot_refs _ _ r Hs2).
  - intros r (k & t' & Hk & Hr) Hkr. simpl in *.
    destruct (Hback k t' Hk) as (t & Ht & Hs).
    apply (Hsep r); [|exact Hkr]. exists k, t. split; [done|].
    by apply (same_refs_slot_refs _ _ r Hs).
  - intros r Hr. rewrite Hn. by apply Hkept.
Qed.

Lemma separated_live_below w r :
  separated w -> live w r -> (r < Refs.next_ref (Refs.mem w))%nat.
Proof.
  intros (_ & Hslots & _) (k & t & Hk & Hr). eapply slots_ok_below; eauto.
Qed.

(** A change of the memory at arrays of the text object [k] only is not
    seen by the other text objects nor by the snapshots. *)
Lemma others_unchanged w k t m' :
  separated w -> Refs.texts w !! k = Some t ->
  same_outside (slot_refs (Refs.obj_letters t)) (Refs.mem w) m' ->
  (∀ j t0, j ≠ k -> Refs.texts w !! j = Some t0 ->
           Refs.view_text m' t0 = Refs.view_text (Refs.mem w) t0)
  ∧ Refs.view_saved m' <$> Refs.store w
    = Refs.view_saved (Refs.mem w) <$> Refs.store w.
Proof.
  intros (Hm & Hslots & Hcross & Hsep & Hkept) Hk [_ Hout]. split.
  - intros j t0 Hj Hj0. apply view_text_agree. intros r Hr. apply Hout.
    intros Hr'. apply Hj. by apply (Hcross j k t0 t r).
  - apply view_store_agree. intros identifier sd r Hsd Hr. apply Hout.
    intros Hr'. apply (Hsep r); [by exists k, t|by exists identifier, sd].
Qed.

(** ** Calls on one letter *)

Lemma list_alter_None {A} (f : A -> A) (l : list A) k :
  l !! k = None -> alter f k l = l.
Proof.
  intros Hk. apply list_eq. intros j. destruct (decide (j = k)) as [->|Hj].
  - by rewrite list_lookup_alter_eq, Hk.
  - by rewrite list_lookup_alter_ne.
Qed.

Lemma on_letter_absent i f bt :
  mjoin (letters bt !! i) = None -> on_letter i f bt = bt.
Proof.
  intros Hi. destruct bt as [txt ls tm]. unfold on_letter. simpl in *. f_equal.
  apply list_eq. intros j. destruct (decide (j = i)) as [->|Hj].
  - rewrite list_lookup_alter_eq. by destruct (ls !! i) as [[l|]|].
  - by rewrite list_lookup_alter_ne.
Qed.

Lemma on_object_absent k i f s :
  letter_at s k i = None -> on_object k (on_letter i f) s = s.
Proof.
  intros Hl. destruct s as [objs st]. unfold on_object, letter_at in *.
  simpl in *. f_equal. apply list_eq. intros j.
  destruct (decide (j = k)) as [->|Hj].
  - rewrite list_lookup_alter_eq. destruct (objs !! k) as [bt|]; simpl in *; [|done].
    by rewrite on_letter_absent.
  - by rewrite list_lookup_alter_ne.
Qed.

Lemma letter_at_view w k i :
  letter_at (Refs.view w) k i = Refs.load (Refs.mem w) <$> Refs.letter_obj w k i.
Proof.
  unfold letter_at, Refs.letter_obj, Refs.view. simpl.
  rewrite list_lookup_fmap. destruct (Refs.texts w !! k) as [t|]; simpl; [|done].
  rewrite list_lookup_fmap. by destruct (Refs.obj_letters t !! i) as [[o|]|].
Qed.

Lemma letter_obj_Some w k i o :
  Refs.letter_obj w k i = Some o ->
  ∃ t, Refs.texts w !! k = Some t ∧ Refs.obj_letters t !! i = Some (Some o).
Proof.
  unfold Refs.letter_obj. intros H.
  destruct (Refs.texts w !! k) as [t|]; [|done]. simpl in H.
  destruct (Refs.obj_letters t !! i) as [[o'|]|] eqn:E; try done.
  injection H as ->. eauto.
Qed.

Lemma refs_of_slot_refs (os : list (option Refs.LetterObj)) i o r :
  os !! i = Some (Some o) -> refs_of o r -> slot_refs os r.
Proof. intros Hi Hr. by exists i, o. Qed.

(** The effect of a method that changes the arrays of one letter in place
    and leaves its references as they are. *)
Lemma one_letter_changed w k i t o o' m' f :
  separated w ->
  Refs.texts w !! k = Some t -> Refs.obj_letters t !! i = Some (Some o) ->
  mem_ok m' -> same_outside (refs_of o) (Refs.mem w) m' ->
  Refs.heat_ref o' = Refs.heat_ref o -> Refs.fuel_ref o' = Refs.fuel_ref o ->
  Refs.load m' o' = f (Refs.load (Refs.mem w) o) ->
  let w' := {| Refs.mem := m';
               Refs.texts := alter (Refs.set_letter i o') k (Refs.texts w);
               Refs.store := Refs.store w |} in
  separated w' ∧ Refs.view w' = on_object k (on_letter i f) (Refs.view w).
Proof.
  intros Hsep Hk Hi Hm' Hout Hh Hf Hl w'.
  assert (Hout_t : same_outside (slot_refs (Refs.obj_letters t)) (Refs.mem w) m').
  { eapply same_outside_weaken; [|exact Hout].
    intros r Hr. by apply (refs_of_slot_refs _ i o). }
  destruct (others_unchanged w k t m' Hsep Hk Hout_t) as [Hothers Hstore].
  split.
  - apply separated_relayout; [done|done|apply Hout|].
    apply Forall2_lookup. intros j. destruct (decide (j = k)) as [->|Hj].
    + rewrite list_lookup_alter_eq, Hk. constructor. simpl.
      by apply (same_refs_insert _ _ o).
    + rewrite list_lookup_alter_ne by done.
      destruct (Refs.texts w !! j); constructor. apply same_refs_refl.
  - unfold Refs.view, w', on_object. simpl. f_equal; [|done].
    apply fmap_alter_pointwise.
    + by rewrite length_alter.
    + intros j t0 Hj Hj0. exists t0. rewrite list_lookup_alter_ne by done. eauto.
    + intros t0 Ht0. rewrite Hk in Ht0. injection Ht0 as <-.
      exists (Refs.set_letter i o' t). rewrite list_lookup_alter_eq, Hk.
      split; [done|]. unfold Refs.view_text, on_letter. simpl. f_equal.
      change (alter (fmap f) i) with (alter (M:=list (option Letter)) (fmap (M:=option) f) i).
      apply fmap_alter_pointwise.
      * by rewrite length_insert.
      * intros j oj Hj Hjo. exists oj. rewrite list_lookup_insert_ne by done.
        split; [done|]. destruct oj as [oj|]; simpl; [|done]. f_equal.
        eapply load_same_outside; [exact Hout|]. intros r Hr Hr'.
        destruct Hsep as (_ & Hslots & _). destruct (Hslots k t Hk) as [_ Hdis].
        apply Hj. by apply (Hdis j i oj o r).
      * intros oi Hoi. rewrite Hi in Hoi. injection Hoi as <-.
        exists (Some o'). rewrite list_lookup_insert_eq by (by eapply lookup_lt_Some).
        split; [done|]. simpl. by rewrite Hl.
Qed.

Lemma set_letter_same w k i t o :
  Refs.texts w !! k = Some t -> Refs.obj_letters t !! i = Some (Some o) ->
  alter (Refs.set_letter i o) k (Refs.texts w) = Refs.texts w.
Proof.
  intros Hk Hi. apply list_eq. intros j. destruct (decide (j = k)) as [->|Hj].
  - rewrite list_lookup_alter_eq, Hk. simpl. f_equal.
    destruct t as [txt os tm]. unfold Refs.set_letter. simpl in *.
    by rewrite list_insert_id.
  - by rewrite list_lookup_alter_ne.
Qed.

Lemma exec_add_heat_refines w k i x y radius dt :
  separated w -> refines w (CallAddHeat k i x y radius dt).
Proof.
  intros Hsep. unfold refines. cbn [Refs.exec exec].
  destruct (Refs.letter_obj w k i) as [o|] eqn:Ho.
  - destruct (letter_obj_Some w k i o Ho) as (t & Hk & Hi).
    destruct Hsep as (Hm & Hslots & Hrest) eqn:E. clear E.
    pose proof (proj1 (Hslots k t Hk) i o Hi) as Hok.
    destruct (add_heat_in_place x y radius dt o (Refs.mem w) Hm Hok)
      as (Hm' & Hout & Hl).
    pose proof (one_letter_changed w k i t o o _ (add_heat x y radius dt)
                  (conj Hm (conj Hslots Hrest)) Hk Hi Hm' Hout eq_refl eq_refl Hl)
      as H.
    cbv zeta in H. by rewrite (set_letter_same w k i t o Hk Hi) in H.
  - split; [by destruct w|].
    rewrite on_object_absent; [by destruct w|].
    by rewrite letter_at_view, Ho.
Qed.

Lemma exec_letter_update_refines w k i dt rnd :
  separated w -> refines w (CallLetterUpdate k i dt rnd).
Proof.
  intros Hsep. unfold refines. cbn [Refs.exec exec].
  destruct (Refs.letter_obj w k i) as [o|] eqn:Ho.
  - destruct (letter_obj_Some w k i o Ho) as (t & Hk & Hi).
    destruct Hsep as (Hm & Hslots & Hrest) eqn:E. clear E.
    pose proof (proj1 (Hslots k t Hk) i o Hi) as Hok.
    destruct (update_in_place dt rnd o (Refs.mem w) Hm Hok)
      as (Hm' & Hout & Hh & Hf & Hl).
    destruct (Refs.update dt rnd o (Refs.mem w)) as [o' m']. cbn [fst snd] in *.
    exact (one_letter_changed w k i t o o' m' (update dt rnd)
             (conj Hm (conj Hslots Hrest)) Hk Hi Hm' Hout Hh Hf Hl).
  - split; [by destruct w|].
    rewrite on_object_absent; [by destruct w|].
    by rewrite letter_at_view, Ho.
Qed.

(** ** Calls on a text object *)

Lemma on_object_None k f s : objects s !! k = None -> on_object k f s = s.
Proof.
  intros Hk. destruct s as [objs st]. unfold on_object. simpl in *.
  by rewrite list_alter_None.
Qed.

Lemma BurningText_update_in_place mouse_pos dt rnd t m :
  mem_ok m -> slots_ok m (Refs.obj_letters t) ->
  let t' := (Refs.BurningText_update mouse_pos dt rnd t m).1 in
  let m' := (Refs.BurningText_update mouse_pos dt rnd t m).2 in
  mem_ok m' ∧ same_outside (slot_refs (Refs.obj_letters t)) m m'
  ∧ same_refs (Refs.obj_letters t) (Refs.obj_letters t')
  ∧ Refs.view_text m' t' = BurningText_update mouse_pos dt rnd (Refs.view_text m t).
Proof.
  intros Hm Hos. unfold Refs.BurningText_update.
  destruct (update_letters_in_place 0 mouse_pos dt rnd (Refs.obj_letters t) m Hm Hos)
    as (Hm' & Hout & Hsame & Hv).
  destruct (Refs.update_letters 0 mouse_pos dt rnd (Refs.obj_letters t) m) as [os' m'].
  cbn [fst snd] in *. cbn [Refs.obj_letters].
  split; [done|]. split; [done|]. split; [done|].
  unfold Refs.view_text, BurningText_update.
  cbn [Refs.obj_letters Refs.obj_text Refs.obj_time text letters time].
  by rewrite Hv.
Qed.

Lemma exec_update_refines w k mouse_pos dt rnd :
  separated w -> refines w (CallUpdate k mouse_pos dt rnd).
Proof.
  intros Hsep. unfold refines. cbn [Refs.exec exec].
  destruct (Refs.texts w !! k) as [t|] eqn:Hk.
  - pose proof Hsep as (Hm & Hslots & _).
    destruct (BurningText_update_in_place mouse_pos dt rnd t (Refs.mem w) Hm
                (Hslots k t Hk)) as (Hm' & Hout & Hsame & Hv).
    destruct (Refs.BurningText_update mouse_pos dt rnd t (Refs.mem w)) as [t' m'].
    cbn [fst snd] in *.
    destruct (others_unchanged w k t m' Hsep Hk Hout) as [Hothers Hstore].
    split.
    + apply separated_relayout; [done|done|apply Hout|].
      by apply (same_layout_insert _ _ t).
    + unfold Refs.view, on_object. simpl. f_equal; [|done].
      apply fmap_alter_pointwise.
      * by rewrite length_insert.
      * intros j t0 Hj Hj0. exists t0. rewrite list_lookup_insert_ne by done. eauto.
      * intros t0 Ht0. rewrite Hk in Ht0. injection Ht0 as <-. exists t'.
        rewrite list_lookup_insert_eq by (by eapply lookup_lt_Some). done.
  - split; [by destruct w|].
    rewrite on_object_None; [by destruct w|].
    unfold Refs.view. simpl. by rewrite list_lookup_fmap, Hk.
Qed.

Lemma exec_init_refines w txt font cx cy :
  separated w -> refines w (CallInit txt font cx cy).
Proof.
  intros Hsep. unfold refines. cbn [Refs.exec exec].
  pose proof Hsep as (Hm & Hslots & Hcross & Hlk & Hkept).
  destruct (BurningText_init_alloc txt font cx cy (Refs.mem w) Hm)
    as (Hm' & Hg & Hos & Hfresh & Hv).
  destruct (Refs.BurningText_init txt font cx cy (Refs.mem w)) as [t m'].
  cbn [fst snd] in *.
  assert (Hold : ∀ k t0 r, Refs.texts w !! k = Some t0 ->
                   slot_refs (Refs.obj_letters t0) r ->
                   (r < Refs.next_ref (Refs.mem w))%nat).
  { intros k t0 r Hk Hr. eapply slots_ok_below; eauto. }
  assert (Hlook : ∀ k t0, (Refs.texts w ++ [t]) !! k = Some t0 ->
            Refs.texts w !! k = Some t0
            ∨ (k = length (Refs.texts w) ∧ t0 = t)).
  { intros k t0 Hk. apply lookup_app_Some in Hk as [Hk|[Hge Hk]]; [by left|].
    right. apply list_lookup_singleton_Some in Hk as [Hz ->]. split; [lia|done]. }
  split.
  - split; [done|]. simpl. split; [|split; [|split]].
    + intros k t0 Hk. destruct (Hlook k t0 Hk) as [Ht0|[-> ->]]; [|done].
      eapply slots_ok_grows; eauto.
    + intros k k' t1 t2 r Hk Hk' Hr Hr'.
      destruct (Hlook k t1 Hk) as [Ht1|[-> ->]];
        destruct (Hlook k' t2 Hk') as [Ht2|[-> ->]]; try done.
      * by apply (Hcross k k' t1 t2 r).
      * apply Hfresh in Hr'. specialize (Hold k t1 r Ht1 Hr). lia.
      * apply Hfresh in Hr. specialize (Hold k' t2 r Ht2 Hr'). lia.
    + intros r (k & t0 & Hk & Hr) Hkr. simpl in *.
      destruct (Hlook k t0 Hk) as [Ht0|[-> ->]].
      * apply (Hlk r); [by exists k, t0|done].
      * apply Hfresh in Hr. apply Hkept in Hkr. lia.
    + intros r Hr. apply Hkept in Hr. destruct Hg as [Hn _]. lia.
  - unfold Refs.view. simpl. f_equal.
    + rewrite fmap_app. simpl. rewrite Hv. f_equal.
      apply view_texts_agree. intros k t0 r Hk Hr. apply Hg. eauto.
    + apply view_store_agree. intros identifier sd r Hsd Hr. apply Hg.
      apply Hkept. by exists identifier, sd.
Qed.

Lemma exec_save_refines w k identifier :
  separated w -> refines w (CallSave k identifier).
Proof.
  intros Hsep. unfold refines. cbn [Refs.exec exec].
  pose proof Hsep as (Hm & Hslots & Hcross & Hlk & Hkept).
  unfold Refs.view at 2. cbn [objects manager_states]. rewrite list_lookup_fmap.
  destruct (Refs.texts w !! k) as [t|] eqn:Hk; simpl; [|by destruct w].
  unfold Refs.save_state.
  destruct (save_letters_alloc (Refs.obj_letters t) (Refs.mem w) Hm (Hslots k t Hk))
    as (Hm' & Hg & Hnew & Hv).
  destruct (Refs.save_letters (Refs.obj_letters t) (Refs.mem w)) as [sts m'].
  cbn [fst snd] in *.
  assert (Hkept' : ∀ r,
            kept {| Refs.mem := m'; Refs.texts := Refs.texts w;
                    Refs.store := <[identifier :=
                      {| Refs.kept_text := Refs.obj_text t;
                         Refs.kept_letters := sts |}]> (Refs.store w) |} r ->
            saved_refs sts r ∨ kept w r).
  { intros r (id' & sd & Hsd & Hr). simpl in Hsd.
    apply lookup_insert_Some in Hsd as [[_ <-]|[_ Hsd]]; [by left|].
    right. by exists id', sd. }
  split.
  - split; [done|]. cbn [Refs.mem Refs.texts Refs.store].
    split; [|split; [|split]].
    + intros k0 t0 Hk0. eapply slots_ok_grows; eauto.
    + done.
    + intros r Hlive Hkr. apply Hkept' in Hkr as [Hr|Hr].
      * apply Hnew in Hr. apply (separated_live_below w r Hsep) in Hlive. lia.
      * by apply (Hlk r).
    + intros r Hr. apply Hkept' in Hr as [Hr|Hr].
      * apply Hnew in Hr. lia.
      * apply Hkept in Hr. destruct Hg as [Hn _]. lia.
  - unfold Refs.view. simpl. f_equal.
    + apply view_texts_agree. intros k0 t0 r Hk0 Hr. apply Hg.
      eapply slots_ok_below; eauto.
    + unfold save_state. rewrite fmap_insert. f_equal.
      * unfold Refs.view_saved, Refs.view_text. simpl. by rewrite Hv.
      * apply view_store_agree. intros id' sd r Hsd Hr. apply Hg.
        apply Hkept. by exists id', sd.
Qed.

Lemma exec_clear_refines w identifier :
  separated w -> refines w (CallClear identifier).
Proof.
  intros (Hm & Hslots & Hcross & Hlk & Hkept). unfold refines.
  cbn [Refs.exec exec].
  assert (Hsub : ∀ r,
            kept {| Refs.mem := Refs.mem w; Refs.texts := Refs.texts w;
                    Refs.store := delete identifier (Refs.store w) |} r ->
            kept w r).
  { intros r (id' & sd & Hsd & Hr). simpl in Hsd.
    apply lookup_delete_Some in Hsd as [_ Hsd]. by exists id', sd. }
  split.
  - split; [done|]. split; [done|]. split; [done|]. split.
    + intros r Hlive Hkr. apply (Hlk r); [exact Hlive|by apply Hsub].
    + intros r Hr. by apply Hkept, Hsub.
  - unfold Refs.view, clear_state. simpl. by rewrite fmap_delete.
Qed.

Lemma exec_clear_all_refines w : separated w -> refines w CallClearAll.
Proof.
  intros (Hm & Hslots & Hcross & Hlk & Hkept). unfold refines.
  cbn [Refs.exec exec]. split.
  - split; [done|]. split; [done|]. split; [done|]. split.
    + intros r _ (id' & sd & Hsd & _). simpl in Hsd. by rewrite lookup_empty in Hsd.
    + intros r (id' & sd & Hsd & _). simpl in Hsd. by rewrite lookup_empty in Hsd.
  - unfold Refs.view, clear_all_states. simpl. by rewrite fmap_empty.
Qed.

Lemma restore_state_alloc states identifier t m :
  mem_ok m -> slots_ok m (Refs.obj_letters t) ->
  (∀ sd r, states !! identifier = Some sd -> kept_in sd r ->
           (r < Refs.next_ref m)%nat) ->
  let res := Refs.restore_state states identifier t m in
  mem_ok res.1.2 ∧ grows m res.1.2
  ∧ slots_ok res.1.2 (Refs.obj_letters res.1.1)
  ∧ (∀ r, slot_refs (Refs.obj_letters res.1.1) r ->
          slot_refs (Refs.obj_letters t) r ∨ (Refs.next_ref m <= r)%nat)
  ∧ (Refs.view_text res.1.2 res.1.1, res.2)
    = restore_state (Refs.view_saved m <$> states) identifier (Refs.view_text m t).
Proof.
  intros Hm Hos Hsv. unfold Refs.restore_state, restore_state.
  rewrite lookup_fmap. destruct (states !! identifier) as [sd|] eqn:E; simpl.
  - destruct (restore_letters_alloc 0 (Refs.kept_letters sd) (Refs.obj_letters t)
                m Hm Hos (λ r, Hsv sd r eq_refl)) as (Hm' & Hg & Hos' & Hr & Hv).
    destruct (Refs.restore_letters 0 (Refs.kept_letters sd) (Refs.obj_letters t) m)
      as [[os' m'] ok]. cbn [fst snd] in *.
    split; [done|]. split; [done|]. split; [done|]. split; [done|].
    rewrite <- Hv. done.
  - split; [done|]. split; [apply grows_refl|]. split; [done|].
    split; [by left|done].
Qed.

Lemma exec_restore_refines w k identifier :
  separated w -> refines w (CallRestore k identifier).
Proof.
  intros Hsep. unfold refines. cbn [Refs.exec exec].
  pose proof Hsep as (Hm & Hslots & Hcross & Hlk & Hkept).
  destruct (Refs.texts w !! k) as [t|] eqn:Hk.
  - destruct (restore_state_alloc (Refs.store w) identifier t (Refs.mem w) Hm
                (Hslots k t Hk)) as (Hm' & Hg & Hos' & Hrefs & Hv).
    { intros sd r Hsd Hr. apply Hkept. by exists identifier, sd. }
    destruct (Refs.restore_state (Refs.store w) identifier t (Refs.mem w))
      as [[t' m'] ok]. cbn [fst snd] in *.
    assert (Hold : ∀ j t0 r, Refs.texts w !! j = Some t0 ->
                     slot_refs (Refs.obj_letters t0) r ->
                     (r < Refs.next_ref (Refs.mem w))%nat).
    { intros j t0 r Hj Hr. eapply slots_ok_below; eauto. }
    assert (Hlook : ∀ j t0, <[k := t']> (Refs.texts w) !! j = Some t0 ->
              (j = k ∧ t0 = t') ∨ (j ≠ k ∧ Refs.texts w !! j = Some t0)).
    { intros j t0 Hj. apply list_lookup_insert_Some in Hj as [(-> & -> & _)|[? ?]];
        [by left|right; split; [congruence|done]]. }
    split.
    + split; [done|]. cbn [Refs.mem Refs.texts Refs.store].
      split; [|split; [|split]].
      * intros j t0 Hj. destruct (Hlook j t0 Hj) as [[-> ->]|[_ Ht0]]; [done|].
        eapply slots_ok_grows; eauto.
      * intros j1 j2 t1 t2 r Hj1 Hj2 Hr1 Hr2.
        destruct (Hlook j1 t1 Hj1) as [[-> ->]|[Hn1 Ht1]];
          destruct (Hlook j2 t2 Hj2) as [[-> ->]|[Hn2 Ht2]]; try done.
        -- destruct (Hrefs r Hr1) as [Hr|Hge].
           ++ symmetry. by apply (Hcross j2 k t2 t r).
           ++ specialize (Hold j2 t2 r Ht2 Hr2). lia.
        -- destruct (Hrefs r Hr2) as [Hr|Hge].
           ++ by apply (Hcross j1 k t1 t r).
           ++ specialize (Hold j1 t1 r Ht1 Hr1). lia.
        -- by apply (Hcross j1 j2 t1 t2 r).
      * intros r (j & t0 & Hj & Hr) Hkr. cbn [Refs.texts] in Hj.
        assert (Hkr' : kept w r) by exact Hkr.
        destruct (Hlook j t0 Hj) as [[-> ->]|[_ Ht0]].
        -- destruct (Hrefs r Hr) as [Hr'|Hge].
           ++ apply (Hlk r); [by exists k, t|done].
           ++ apply Hkept in Hkr'. lia.
        -- apply (Hlk r); [by exists j, t0|done].
      * intros r Hr. assert (Hr' : kept w r) by exact Hr.
        apply Hkept in Hr'. destruct Hg as [Hn _]. lia.
    + unfold Refs.view, on_object. simpl. f_equal.
      * apply fmap_alter_pointwise.
        -- by rewrite length_insert.
        -- intros j t0 Hj Hj0. exists t0. rewrite list_lookup_insert_ne by done.
           split; [done|]. apply view_text_agree. intros r Hr. apply Hg. eauto.
        -- intros t0 Ht0. rewrite Hk in Ht0. injection Ht0 as <-. exists t'.
           rewrite list_lookup_insert_eq by (by eapply lookup_lt_Some).
           split; [done|]. by rewrite <- Hv.
      * apply view_store_agree. intros id' sd r Hsd Hr. apply Hg.
        apply Hkept. by exists id', sd.
  - split; [by destruct w|].
    rewrite on_object_None; [by destruct w|].
    unfold Refs.view. simpl. by rewrite list_lookup_fmap, Hk.
Qed.

(** Every call does to a separated world what the first model does to its
    view, and leaves it separated. *)
Lemma exec_refines w c : separated w -> refines w c.
Proof.
  destruct c.
  - apply exec_init_refines.
  - apply exec_update_refines.
  - apply exec_add_heat_refines.
  - apply exec_letter_update_refines.
  - apply exec_save_refines.
  - apply exec_restore_refines.
  - apply exec_clear_refines.
  - apply exec_clear_all_refines.
Qed.

Lemma init_world_separated : separated Refs.init_world.
Proof.
  split; [|split; [|split; [|split]]]; simpl.
  - intros r. change (is_Some ((∅ : gmap nat Grid) !! r) <-> (r < 0)%nat).
    rewrite lookup_empty. split; [by intros [? ?]|lia].
  - intros k t Hk. by rewrite lookup_nil in Hk.
  - intros k k' t t' r Hk. by rewrite lookup_nil in Hk.
  - intros r (k & t & Hk & _). simpl in Hk. by rewrite lookup_nil in Hk.
  - intros r (identifier & sd & Hsd & _). simpl in Hsd. by rewrite lookup_empty in Hsd.
Qed.

Lemma run_refines calls w :
  separated w ->
  separated (Refs.run w calls)
  ∧ Refs.view (Refs.run w calls) = run (Refs.view w) calls.
Proof.
  revert w. induction calls as [|c calls IH]; intros w Hw; [done|].
  simpl. destruct (exec_refines w c Hw) as [Hsep Hv].
  destruct (IH _ Hsep) as [Hsep' Hv']. split; [done|]. by rewrite Hv', Hv.
Qed.

Lemma init_world_view : Refs.view Refs.init_world = init_sys.
Proof. unfold Refs.view, init_sys. simpl. by rewrite fmap_empty. Qed.

(** From the start of the program on, the model with references reads as
    the model with values: what is proved of [run init_sys calls] holds of
    the arrays that the letters of the running program refer to. *)
Lemma models_agree calls :
  Refs.view (Refs.run Refs.init_world calls) = run init_sys calls.
Proof.
  destruct (run_refines calls Refs.init_world init_world_separated) as [_ H].
  by rewrite H, init_world_view.
Qed.

(** ** Snapshots are copies *)

Lemma exec_keeps_snapshot identifier s c :
  ¬ rewrites identifier c ->
  manager_states (exec s c) !! identifier = manager_states s !! identifier.
Proof.
  intros Hc. destruct c; simpl in *; try done.
  - destruct (objects s !! k); [|done]. simpl. unfold save_state.
    rewrite lookup_insert_ne; [done|]. intros ->. by apply Hc.
  - unfold clear_state. rewrite lookup_delete_ne; [done|]. intros ->. by apply Hc.
Qed.

Lemma run_keeps_snapshot identifier calls s :
  Forall (λ c, ¬ rewrites identifier c) calls ->
  manager_states (run s calls) !! identifier = manager_states s !! identifier.
Proof.
  intros Hc. revert s. induction Hc as [|c calls Hc _ IH]; intros s; [done|].
  simpl. by rewrite IH, exec_keeps_snapshot.
Qed.

Lemma exec_save_view s k identifier :
  objects (exec s (CallSave k identifier)) = objects s
  ∧ ∀ S, objects s !! k = Some S ->
         manager_states (exec s (CallSave k identifier)) !! identifier
         = Some {| saved_text := text S;
                   letters_state := fmap (M:=option) letter_state <$> letters S |}.
Proof.
  simpl. destruct (objects s !! k) as [bt|]; simpl; split; try done.
  intros S [= <-]. unfold save_state. by rewrite lookup_insert_eq.
Qed.

Lemma exec_save_memory w k identifier :
  separated w ->
  Refs.texts (Refs.exec w (CallSave k identifier)) = Refs.texts w
  ∧ grows (Refs.mem w) (Refs.mem (Refs.exec w (CallSave k identifier))).
Proof.
  intros (Hm & Hslots & _). cbn [Refs.exec].
  destruct (Refs.texts w !! k) as [t|] eqn:Hk; [|split; [done|apply grows_refl]].
  unfold Refs.save_state.
  destruct (save_letters_alloc (Refs.obj_letters t) (Refs.mem w) Hm (Hslots k t Hk))
    as (_ & Hg & _).
  destruct (Refs.save_letters (Refs.obj_letters t) (Refs.mem w)) as [sts m'].
  done.
Qed.

(** C10.  Take the program after any calls [before] and let it save the
    text object [k] under [identifier].
    - The save changes no text object: the objects, their letters and the
      references they hold are the same, every object of the memory has the
      entries it had, and so every text reads as before.
    - The snapshot reads as the text, positions, heat and fuel of the source
      at that moment.
    - After any further calls that do not save or clear that identifier
      (heat, updates, restores onto any object, other snapshots), the
      snapshot still reads the same: no array that a letter changes in place
      is a list of a snapshot, in the source, in a restored target or
      anywhere else. *)
Theorem snapshot_isolated (before after : list Call) (k : nat) (identifier : string) :
  let w := Refs.run Refs.init_world before in
  let w1 := Refs.exec w (CallSave k identifier) in
  let w2 := Refs.run w1 after in
  (Refs.texts w1 = Refs.texts w
   ∧ (∀ r, (r < Refs.next_ref (Refs.mem w))%nat ->
           Refs.read (Refs.mem w1) r = Refs.read (Refs.mem w) r)
   ∧ objects (Refs.view w1) = objects (Refs.view w))
  ∧ (∀ S, objects (Refs.view w) !! k = Some S ->
          manager_states (Refs.view w1) !! identifier
          = Some {| saved_text := text S;
                    letters_state := fmap (M:=option) letter_state <$> letters S |})
  ∧ (Forall (λ c, ¬ rewrites identifier c) after ->
     manager_states (Refs.view w2) !! identifier
     = manager_states (Refs.view w1) !! identifier)
  ∧ (∀ r, live w2 r -> ¬ kept w2 r).
Proof.
  intros w w1 w2.
  destruct (run_refines before Refs.init_world init_world_separated) as [Hw Hvw].
  fold w in Hw, Hvw.
  destruct (exec_refines w (CallSave k identifier) Hw) as [Hw1 Hvw1].
  fold w1 in Hw1, Hvw1.
  destruct (run_refines after w1 Hw1) as [Hw2 Hvw2]. fold w2 in Hw2, Hvw2.
  destruct (exec_save_memory w k identifier Hw) as [Htexts Hgrow].
  fold w1 in Htexts, Hgrow.
  destruct (exec_save_view (Refs.view w) k identifier) as [Hobjs Hsnap].
  split; [split; [done|split]|split; [|split]].
  - apply Hgrow.
  - by rewrite Hvw1.
  - intros S HS. rewrite Hvw1. by apply Hsnap.
  - intros Hafter. rewrite Hvw2. by apply run_keeps_snapshot.
  - apply Hw2.
Qed.

(** * More properties of the letters *)

Lemma amapi_ext {A B} (f g : nat -> nat -> A -> B) (a : list (list A)) :
  (∀ i j q, gget a i j = Some q -> f i j q = g i j q) -> amapi f a = amapi g a.
Proof.
  intros H. unfold amapi. apply list_eq. intros i.
  rewrite !list_lookup_imap. destruct (a !! i) as [row|] eqn:Hr; simpl; [|done].
  f_equal. apply list_eq. intros j. rewrite !list_lookup_imap.
  destruct (row !! j) as [q|] eqn:Hq; simpl; [|done].
  f_equal. apply H. unfold gget. rewrite Hr. simpl. done.
Qed.

Lemma amapi_id {A} (f : nat -> nat -> A -> A) (a : list (list A)) :
  (∀ i j q, gget a i j = Some q -> f i j q = q) -> amapi f a = a.
Proof.
  intros H. unfold amapi. apply list_eq. intros i.
  rewrite list_lookup_imap. destruct (a !! i) as [row|] eqn:Hr; simpl; [|done].
  f_equal. apply list_eq. intros j. rewrite list_lookup_imap.
  destruct (row !! j) as [q|] eqn:Hq; simpl; [|done].
  f_equal. apply H. unfold gget. rewrite Hr. simpl. done.
Qed.

Lemma fresh_letter_init_fuel c p font i j f :
  gget (fuel_map (Letter_init c p font)) i j = Some f ->
  ∃ b, b = glyph_pixel (render font c) i j ∧ f == if b then 100 else 0.
Proof.
  unfold Letter_init. simpl. unfold mul_mask.
  rewrite gget_amapi, gget_tabulate. case_decide as H; [|done]. simpl.
  intros [= <-]. eexists. split; [done|].
  unfold bcell. rewrite gget_tabulate, decide_True by done. simpl.
  destruct (glyph_pixel (render font c) i j); ring.
Qed.

(** X1.  [Letter.__init__]: a new letter has the size of its rendered
    glyph; inside that size every pixel has heat 0, and fuel 100 where the
    glyph has a pixel and 0 where it has none; outside it the arrays have no
    entry.  No texture is cached. *)
Theorem fresh_letter_cells (c : ascii) (p : Z * Z) (font : Font) (i j : nat) :
  let l := Letter_init c p font in
  let gl := render font c in
  width l = glyph_width gl ∧ height l = glyph_height gl
  ∧ charred_texture l = None
  ∧ if decide (i < glyph_width gl ∧ j < glyph_height gl)%nat then
      gget (heat_map l) i j = Some 0
      ∧ gget (mask_array l) i j = Some (glyph_pixel gl i j)
      ∧ ∃ f, gget (fuel_map l) i j = Some f
             ∧ f == if glyph_pixel gl i j then 100 else 0
    else gget (heat_map l) i j = None ∧ gget (mask_array l) i j = None
         ∧ gget (fuel_map l) i j = None.
Proof.
  intros l gl. split; [done|]. split; [done|]. split; [done|].
  unfold l, Letter_init. simpl. fold gl. unfold mul_mask.
  rewrite gget_amapi, !gget_tabulate. case_decide as H.
  - split; [done|]. split; [done|]. simpl. eexists. split; [done|].
    unfold bcell. rewrite gget_tabulate, decide_True by done. simpl.
    destruct (glyph_pixel gl i j); ring.
  - done.
Qed.

Lemma heat_mask_no_fuel x y radius l i j :
  cell (fuel_map l) i j <= 0 -> heat_mask x y radius l i j = false.
Proof.
  intros Hf. unfold heat_mask. apply andb_false_iff. right.
  apply not_true_iff_false. rewrite Qltb_lt. lra.
Qed.

(** [Letter.add_heat] writes to the heat map only, and not at a pixel
    without fuel. *)
Lemma add_heat_frame (x y radius dt : Q) (l : Letter)
    (i j : nat) :
  fuel_map (add_heat x y radius dt l) = fuel_map l
  ∧ charred_texture (add_heat x y radius dt l) = charred_texture l
  ∧ same_geometry l (add_heat x y radius dt l)
  ∧ (cell (fuel_map l) i j <= 0 ->
     gget (heat_map (add_heat x y radius dt l)) i j = gget (heat_map l) i j).
Proof.
  split; [done|]. split; [done|]. split; [by repeat split|].
  intros Hf. rewrite gget_add_heat, heat_mask_no_fuel by done.
  by destruct (gget (heat_map l) i j).
Qed.

Lemma Qltb_proper a a' b b' : a == a' -> b == b' -> Qltb a b = Qltb a' b'.
Proof.
  intros Ha Hb. destruct (Qltb a' b') eqn:E.
  - apply Qltb_lt. apply Qltb_lt in E. lra.
  - apply not_true_iff_false. apply not_true_iff_false in E.
    rewrite Qltb_lt in *. lra.
Qed.

(** The radius of [Letter.add_heat] enters squared. *)
Lemma add_heat_radius (x y radius dt : Q) (l : Letter) :
  add_heat x y (- radius) dt l = add_heat x y radius dt l
  ∧ (radius == 0 -> add_heat x y radius dt l = l).
Proof.
  split.
  - unfold add_heat. f_equal. apply amapi_ext. intros i j q _.
    unfold heat_mask.
    rewrite (Qltb_proper _ (dist_sq (x - inject_Z (pos l).1) (y - inject_Z (pos l).2) i j)
                         ((- radius) ^ 2) (radius ^ 2)); [done|reflexivity|].
    simpl. ring.
  - intros Hr. unfold add_heat.
    rewrite amapi_id; [by destruct l|].
    intros i j q _. unfold heat_mask.
    assert (E : Qltb (dist_sq (x - inject_Z (pos l).1) (y - inject_Z (pos l).2) i j)
                     (radius ^ 2) = false).
    { apply not_true_iff_false. rewrite Qltb_lt. unfold dist_sq.
      assert (radius ^ 2 == 0) by (rewrite Hr; reflexivity).
      simpl in *. rewrite H.
      set (a := inject_Z (Z.of_nat i) - (x - inject_Z (pos l).1)).
      set (b := inject_Z (Z.of_nat j) - (y - inject_Z (pos l).2)).
      intros Hlt. nra. }
    by rewrite E.
Qed.

(** X2.  What [Letter.add_heat] leaves alone.  It writes to the heat map
    only: fuel, texture, place and mask stay as they are.  A pixel that has
    no fuel (outside the glyph, or burnt out) keeps its heat, wherever the
    pointer is and whatever the radius.  The radius enters squared: a
    negative radius heats the same pixels as its absolute value, and a
    radius of 0 heats none. *)
Theorem add_heat_leaves_the_rest_alone (x y radius dt : Q) (l : Letter)
    (i j : nat) :
  fuel_map (add_heat x y radius dt l) = fuel_map l
  ∧ charred_texture (add_heat x y radius dt l) = charred_texture l
  ∧ same_geometry l (add_heat x y radius dt l)
  ∧ (cell (fuel_map l) i j <= 0 ->
     gget (heat_map (add_heat x y radius dt l)) i j = gget (heat_map l) i j)
  ∧ add_heat x y (- radius) dt l = add_heat x y radius dt l
  ∧ (radius == 0 -> add_heat x y radius dt l = l).
Proof.
  destruct (add_heat_frame x y radius dt l i j) as (A1 & A2 & A3 & A4).
  destruct (add_heat_radius x y radius dt l) as (B1 & B2).
  done.
Qed.

(** ** What the calls do to one letter, with the frame times in view *)

Section LetterRelation.
Context (R : Letter -> Letter -> Prop) (k : nat).
Hypothesis R_refl : ∀ l, R l l.
Hypothesis R_trans : ∀ l1 l2 l3, R l1 l2 -> R l2 l3 -> R l1 l3.
Hypothesis R_add_heat :
  ∀ x y radius dt l, 0 <= dt -> R l (add_heat x y radius dt l).
Hypothesis R_update : ∀ dt rnd l, 0 <= dt -> R l (update dt rnd l).

Lemma update_letter_rel mouse_pos dt rnd l :
  0 <= dt -> R l (update_letter mouse_pos dt rnd l).
Proof using R_refl R_trans R_add_heat R_update.
  intros Hdt. unfold update_letter. destruct (collidepoint l mouse_pos).
  - eapply R_trans; [apply R_add_heat|apply R_update]; done.
  - by apply R_update.
Qed.

Lemma exec_letter_rel s c i l :
  time_ok c -> ¬ restores k c ->
  letter_at s k i = Some l ->
  ∃ l', letter_at (exec s c) k i = Some l' ∧ R l l'.
Proof using R_refl R_trans R_add_heat R_update.
  intros Ht Hr Hl. destruct (letter_at_Some s k i l Hl) as (bt & Hbt & Hi).
  destruct c as [txt font cx cy|k' mouse_pos dt rnd|k' i' x y radius dt
                 |k' i' dt rnd|k' ident|k' ident|ident|]; simpl in *.
  - exists l. split; [|done]. unfold letter_at. simpl.
    rewrite (lookup_app_l_Some _ _ _ _ Hbt). done.
  - destruct (decide (k' = k)) as [->|Hk].
    + rewrite (letter_at_on_object_eq _ _ _ _ _ Hbt).
      rewrite letters_BurningText_update, Hi.
      eexists. split; [done|]. by apply update_letter_rel.
    + rewrite letter_at_on_object_ne by done. eauto.
  - destruct (decide (k' = k)) as [->|Hk].
    + rewrite (letter_at_on_object_eq _ _ _ _ _ Hbt).
      rewrite letters_on_letter, Hi.
      eexists. split; [done|]. case_decide; eauto.
    + rewrite letter_at_on_object_ne by done. eauto.
  - destruct (decide (k' = k)) as [->|Hk].
    + rewrite (letter_at_on_object_eq _ _ _ _ _ Hbt).
      rewrite letters_on_letter, Hi.
      eexists. split; [done|]. case_decide; eauto.
    + rewrite letter_at_on_object_ne by done. eauto.
  - exists l. split; [|done]. by destruct (objects s !! k').
  - destruct (decide (k' = k)) as [->|Hk]; [done|].
    rewrite letter_at_on_object_ne by done. eauto.
  - eauto.
  - eauto.
Qed.

Lemma run_letter_rel calls s i l :
  Forall time_ok calls -> Forall (λ c, ¬ restores k c) calls ->
  letter_at s k i = Some l ->
  ∃ l', letter_at (run s calls) k i = Some l' ∧ R l l'.
Proof using R_refl R_trans R_add_heat R_update.
  intros Ht. revert s l. induction Ht as [|c calls Hc _ IH]; intros s l Hr Hl.
  - eauto.
  - apply Forall_cons in Hr as [Hr1 Hr2]. simpl.
    destruct (exec_letter_rel s c i l Hc Hr1 Hl) as (l1 & Hl1 & HR1).
    destruct (IH _ _ Hr2 Hl1) as (l' & Hl' & HR'). eauto.
Qed.
End LetterRelation.

Lemma clip_le_max (lo hi a : Q) : clip lo hi a <= Qmax a lo.
Proof. unfold clip. apply Q.le_min_r. Qed.

Lemma update_fuel_le dt rnd l x y f :
  0 <= dt -> gget (fuel_map l) x y = Some f -> 0 <= f ->
  ∃ f', gget (fuel_map (update dt rnd l)) x y = Some f' ∧ 0 <= f' ∧ f' <= f.
Proof.
  intros Hdt Hf H0. rewrite gget_update_fuel, Hf. simpl.
  eexists. split; [done|].
  set (a := if bcell (burning dt l) x y
            then f - FUEL_CONSUMPTION_RATE * 100 * dt else f).
  assert (Ha : a <= f).
  { unfold a, FUEL_CONSUMPTION_RATE. destruct (bcell _ x y); lra. }
  split.
  - apply (clip_bounds 0 100 a). lra.
  - eapply Qle_trans; [apply clip_le_max|]. by apply Q.max_lub.
Qed.

(** X3.  The fuel of a pixel never rises.  Along every run of calls of the
    public interface with frame times that are not negative and without a
    [restore_state] on the pixel's text object, the fuel of a pixel that is
    not negative stays in place and is at most what it was. *)
Theorem fuel_never_rises (calls : list Call) (s : Sys) (k i x y : nat) (f : Q) :
  Forall time_ok calls ->
  Forall (λ c, ¬ restores k c) calls ->
  fuel_at s k i x y = Some f -> 0 <= f ->
  ∃ f', fuel_at (run s calls) k i x y = Some f' ∧ 0 <= f' ∧ f' <= f.
Proof.
  intros Ht Hr Hf H0. unfold fuel_at in *.
  destruct (letter_at s k i) as [l|] eqn:Hl; simpl in Hf; [|done].
  destruct (run_letter_rel
              (λ l l', ∀ f, gget (fuel_map l) x y = Some f -> 0 <= f ->
                            ∃ f', gget (fuel_map l') x y = Some f'
                                  ∧ 0 <= f' ∧ f' <= f)
              k) with (calls := calls) (s := s) (i := i) (l := l)
    as (l' & Hl' & HR); try done.
  - intros l0 g Hg Hg0. exists g. split; [done|]. split; [done|]. apply Qle_refl.
  - intros l1 l2 l3 H12 H23 g Hg Hg0.
    destruct (H12 g Hg Hg0) as (g2 & Hg2 & Hg20 & Hle2).
    destruct (H23 g2 Hg2 Hg20) as (g3 & Hg3 & Hg30 & Hle3).
    exists g3. split; [done|]. split; [done|]. by eapply Qle_trans.
  - intros x0 y0 radius dt l0 _ g Hg Hg0. exists g. split; [done|].
    split; [done|]. apply Qle_refl.
  - intros dt rnd l0 Hdt g Hg Hg0. by apply update_fuel_le.
  - rewrite Hl'. simpl. by apply HR.
Qed.

(** The fuel of the only pixel of [burn_out_calls] after the first three
    calls is 100; the update that follows burns it out. *)
Lemma fuel_never_rises_witness :
  ∃ f', fuel_at (run (run init_sys (take 3 burn_out_calls))
                     [CallLetterUpdate 0 0 2 always_spread; CallSave 0 "late"])
                0 0 0 0 = Some f'
        ∧ 0 <= f' ∧ f' <= 100.
Proof.
  apply (fuel_never_rises _ (run init_sys (take 3 burn_out_calls)) 0 0 0 0 100).
  - repeat constructor; simpl; lra.
  - repeat constructor; simpl; tauto.
  - vm_compute. reflexivity.
  - lra.
Defined.

Lemma same_geometry_refl l : same_geometry l l.
Proof. by repeat split. Qed.

Lemma same_geometry_trans l1 l2 l3 :
  same_geometry l1 l2 -> same_geometry l2 l3 -> same_geometry l1 l3.
Proof.
  intros (A1 & A2 & A3 & A4 & A5) (B1 & B2 & B3 & B4 & B5).
  repeat split; congruence.
Qed.

Lemma restore_letter_geometry st l : same_geometry l (restore_letter st l).
Proof.
  unfold restore_letter.
  destruct (saved_fuel_map st), (saved_heat_map st); by repeat split.
Qed.

Lemma letter_step_geometry r l l' :
  letter_step r l l' ->
  same_geometry l l'
  ∧ ∀ t, charred_texture l = Some t -> charred_texture l' = Some t.
Proof.
  intros [x y radius dt l0|dt rnd l0|st l0 _].
  - split; [by repeat split|done].
  - split; [|intros t; apply update_texture_kept].
    destruct (update_frame dt rnd l0) as (A1 & A2 & A3 & A4 & A5).
    by repeat split.
  - split; [apply restore_letter_geometry|].
    intros t. by rewrite restore_letter_texture.
Qed.

Lemma letter_steps_geometry r l l' :
  rtc (letter_step r) l l' ->
  same_geometry l l'
  ∧ ∀ t, charred_texture l = Some t -> charred_texture l' = Some t.
Proof.
  induction 1 as [l|l l1 l' Hstep _ [IHg IHt]].
  - split; [apply same_geometry_refl|done].
  - destruct (letter_step_geometry _ _ _ Hstep) as [Hg Ht].
    split; [by eapply same_geometry_trans|]. auto.
Qed.

(** X4.  No call of the public interface moves, resizes or reshapes a
    letter, removes it from its slot, or drops a cached texture: whatever
    the calls ([restore_state] and negative frame times included), the
    letter of a slot keeps its character, position, size and mask, and a
    texture that is set stays the same surface. *)
Theorem letters_stay_in_place (calls : list Call) (s : Sys) (k i : nat) (l : Letter) :
  letter_at s k i = Some l ->
  ∃ l', letter_at (run s calls) k i = Some l'
        ∧ same_geometry l l'
        ∧ ∀ t, charred_texture l = Some t -> charred_texture l' = Some t.
Proof.
  intros Hl.
  destruct (run_letter_at true calls s k i l) as (l' & Hl' & Hsteps); [|done|].
  { apply Forall_forall. intros c _ [=]. }
  exists l'. split; [done|]. by eapply letter_steps_geometry.
Qed.

Lemma letters_stay_in_place_witness :
  ∃ l', letter_at (run (run init_sys two_then_one)
                       [CallRestore 1 "two"; CallLetterUpdate 1 0 (-1) always_spread])
                  1 0 = Some l'
        ∧ same_geometry (Letter_init "A" (0, 0)%Z (block_font 1)) l'
        ∧ ∀ t, charred_texture (Letter_init "A" (0, 0)%Z (block_font 1)) = Some t ->
               charred_texture l' = Some t.
Proof.
  apply (letters_stay_in_place _ (run init_sys two_then_one) 1 0).
  vm_compute. reflexivity.
Defined.

(** At most the nine pixels of the square around [(i, j)] can heat it. *)
Lemma heated_by_length dt rnd l i j : (length (heated_by dt rnd l i j) <= 9)%nat.
Proof.
  set (block := ((λ x, (λ y, (x, y)) <$> [j - 1; j; j + 1]) <$> [i - 1; i; i + 1])%nat).
  change 9%nat with (length (mjoin block)).
  apply submseteq_length, NoDup_submseteq; [apply NoDup_heated_by|].
  intros [x y] H. apply elem_of_heated_by in H as (_ & _ & H).
  assert (Hx : (x = i - 1 ∨ x = i ∨ x = i + 1)%nat) by lia.
  assert (Hy : (y = j - 1 ∨ y = j ∨ y = j + 1)%nat) by lia.
  unfold block. simpl. rewrite !elem_of_cons.
  destruct Hx as [->|[->| ->]], Hy as [->|[->| ->]]; tauto.
Qed.

(** X5.  One [Letter.update] with a frame time that is not negative raises
    the heat of a pixel above its cooled value by at most nine times
    [HEAT_TRANSFER_RATE * dt], whatever the draws: only the nine pixels of
    the square around it can reach it, each once. *)
Theorem spread_gain_bounded (dt : Q) (rnd : Draws) (l : Letter) (i j : nat) (h : Q) :
  0 <= dt ->
  gget (heat_map l) i j = Some h ->
  ∃ h', gget (heat_map (update dt rnd l)) i j = Some h'
        ∧ clip_lo 0 (h - COOL_RATE * dt) <= h'
        ∧ h' <= clip_lo 0 (h - COOL_RATE * dt) + 9 * (HEAT_TRANSFER_RATE * dt).
Proof.
  intros Hdt Hh. pose proof (gget_update_heat dt rnd l i j) as H.
  rewrite Hh in H. simpl in H. apply oQeq_Some_r in H as (h' & Hh' & E).
  exists h'. split; [done|]. rewrite E.
  fold (heated_by dt rnd l i j).
  pose proof (heated_by_length dt rnd l i j) as Hlen.
  set (n := length (heated_by dt rnd l i j)) in *.
  assert (Hn0 : 0 <= inject_Z (Z.of_nat n)).
  { change 0 with (inject_Z 0). rewrite <- Zle_Qle. lia. }
  assert (Hn9 : inject_Z (Z.of_nat n) <= 9).
  { change 9 with (inject_Z 9). rewrite <- Zle_Qle. lia. }
  unfold HEAT_TRANSFER_RATE. split; nra.
Qed.

Lemma spread_gain_bounded_witness :
  ∃ h', gget (heat_map (update (1 # 10) always_spread hot_centre)) 1 1 = Some h'
        ∧ clip_lo 0 (400 - COOL_RATE * (1 # 10)) <= h'
        ∧ h' <= clip_lo 0 (400 - COOL_RATE * (1 # 10))
                + 9 * (HEAT_TRANSFER_RATE * (1 # 10)).
Proof.
  apply (spread_gain_bounded (1 # 10) always_spread hot_centre 1 1 400).
  - vm_compute. discriminate.
  - vm_compute. reflexivity.
Defined.

(** ** Letters that are left alone *)

Lemma cold_not_burning dt l x y :
  0 <= dt -> cold l -> bcell (burning dt l) x y = false.
Proof.
  intros Hdt Hc. apply not_true_iff_false. intros Hb.
  apply burning_spec in Hb as (h & Hh & Hig & _).
  apply ignition_after_cooling in Hig; [|done].
  unfold cold in Hc. rewrite grid_all_gget in Hc. apply Hc in Hh. lra.
Qed.

Lemma cold_heated_by dt rnd l i j :
  0 <= dt -> cold l -> heated_by dt rnd l i j = [].
Proof.
  intros Hdt Hc. destruct (heated_by dt rnd l i j) as [|[x y] rest] eqn:E; [done|].
  assert (Hin : (x, y) ∈ heated_by dt rnd l i j) by (rewrite E; left).
  apply elem_of_heated_by in Hin as (Hb & _).
  by rewrite cold_not_burning in Hb.
Qed.

Lemma update_cold dt rnd l :
  0 <= dt -> cells_ok l -> cold l ->
  cells_ok (update dt rnd l) ∧ cold (update dt rnd l)
  ∧ (∀ x y, oQeq (gget (fuel_map (update dt rnd l)) x y) (gget (fuel_map l) x y))
  ∧ (∀ x y h, gget (heat_map l) x y = Some h ->
       ∃ h', gget (heat_map (update dt rnd l)) x y = Some h' ∧ 0 <= h' ∧ h' <= h).
Proof.
  intros Hdt [Hf Hh] Hc.
  assert (Hheat : ∀ x y h, gget (heat_map l) x y = Some h ->
            ∃ h', gget (heat_map (update dt rnd l)) x y = Some h' ∧ 0 <= h' ∧ h' <= h).
  { intros x y h Hxy. pose proof (gget_update_heat dt rnd l x y) as H.
    rewrite Hxy in H. simpl in H. apply oQeq_Some_r in H as (h' & Hh' & E).
    fold (heated_by dt rnd l x y) in E. rewrite cold_heated_by in E by done.
    simpl in E. exists h'. split; [done|].
    rewrite grid_all_gget in Hh. apply Hh in Hxy. unfold heat_ok in Hxy.
    rewrite E. unfold clip_lo, COOL_RATE, HEAT_TRANSFER_RATE.
    change (inject_Z (Z.of_nat 0)) with 0.
    destruct (Q.max_spec (h - 50 * dt) 0) as [[? E']|[? E']]; rewrite E'; lra. }
  split; [by apply update_cells_ok|]. split; [|split; [|done]].
  - unfold cold. apply grid_all_gget. intros x y h' Hh'.
    pose proof (gget_update_heat dt rnd l x y) as H.
    destruct (gget (heat_map l) x y) as [h|] eqn:Hxy.
    + destruct (Hheat x y h Hxy) as (h2 & Hh2 & _ & Hle).
      rewrite Hh' in Hh2. injection Hh2 as <-.
      unfold cold in Hc. rewrite grid_all_gget in Hc. apply Hc in Hxy. lra.
    + rewrite Hh' in H. done.
  - intros x y. rewrite gget_update_fuel.
    destruct (gget (fuel_map l) x y) as [f|] eqn:Hxy; simpl; [|done].
    rewrite cold_not_burning by done. apply clip_id.
    rewrite grid_all_gget in Hf. by apply Hf in Hxy.
Qed.

Lemma collidepoint_geometry l l' p :
  same_geometry l l' -> collidepoint l' p = collidepoint l p.
Proof.
  intros (_ & Hp & Hw & Hh & _). unfold collidepoint. by rewrite Hp, Hw, Hh.
Qed.

Lemma oQeq_trans a b c : oQeq a b -> oQeq b c -> oQeq a c.
Proof.
  destruct a, b, c; simpl; try done. intros H1 H2. by rewrite H1.
Qed.

Lemma play_cons fr frames bt :
  play (fr :: frames) bt =
  play frames (BurningText_update (frame_mouse fr) (frame_dt fr) (frame_draws fr) bt).
Proof. done. Qed.

(** X6.  A letter that is cold (no pixel at the ignition point) and that the
    pointer stays off never starts to burn.  Over every run of
    [BurningText.update] frames with frame times that are not negative and
    the pointer outside the letter's rect, whatever the draws and whatever
    happens to the other letters, every pixel of the letter keeps its fuel
    and its heat only falls (it stays 0 where it was 0). *)
Theorem cold_letter_left_alone_keeps_fuel (frames : list Frame) (bt : BurningText)
    (i : nat) (l : Letter) :
  letters bt !! i = Some (Some l) ->
  cells_ok l -> cold l ->
  Forall (leaves_alone l) frames ->
  ∃ l', letters (play frames bt) !! i = Some (Some l')
        ∧ (∀ x y, oQeq (gget (fuel_map l') x y) (gget (fuel_map l) x y))
        ∧ (∀ x y h, gget (heat_map l) x y = Some h ->
             ∃ h', gget (heat_map l') x y = Some h' ∧ 0 <= h' ∧ h' <= h).
Proof.
  intros Hl Hok Hc Hfr.
  enough (H : ∀ bt0 l0,
            letters bt0 !! i = Some (Some l0) ->
            cells_ok l0 -> cold l0 -> same_geometry l l0 ->
            ∃ l', letters (play frames bt0) !! i = Some (Some l')
                  ∧ (∀ x y, oQeq (gget (fuel_map l') x y) (gget (fuel_map l0) x y))
                  ∧ (∀ x y h, gget (heat_map l0) x y = Some h ->
                       ∃ h', gget (heat_map l') x y = Some h' ∧ 0 <= h' ∧ h' <= h)).
  { apply (H bt l); auto using same_geometry_refl. }
  clear Hl Hok Hc bt.
  induction Hfr as [|fr frames [Hdt Hoff] _ IH]; intros bt0 l0 Hl0 Hok0 Hc0 Hg0.
  - exists l0. split; [done|]. split.
    + intros x y. by destruct (gget (fuel_map l0) x y).
    + intros x y h Hh. exists h. split; [done|].
      destruct Hok0 as [_ Hh0]. rewrite grid_all_gget in Hh0.
      apply Hh0 in Hh. unfold heat_ok in Hh. lra.
  - rewrite play_cons.
    set (l1 := update (frame_dt fr) (frame_draws fr i) l0).
    destruct (update_cold (frame_dt fr) (frame_draws fr i) l0 Hdt Hok0 Hc0)
      as (Hok1 & Hc1 & Hf1 & Hh1).
    fold l1 in Hok1, Hc1, Hf1, Hh1.
    assert (Hl1 : letters (BurningText_update (frame_mouse fr) (frame_dt fr)
                             (frame_draws fr) bt0) !! i = Some (Some l1)).
    { unfold BurningText_update. simpl. rewrite list_lookup_imap, Hl0. simpl.
      unfold update_letter.
      by rewrite (collidepoint_geometry l l0 _ Hg0), Hoff. }
    assert (Hg1 : same_geometry l l1).
    { eapply same_geometry_trans; [exact Hg0|].
      destruct (update_frame (frame_dt fr) (frame_draws fr i) l0)
        as (A1 & A2 & A3 & A4 & A5).
      by repeat split. }
    destruct (IH _ _ Hl1 Hok1 Hc1 Hg1) as (l' & Hl' & Hf' & Hh').
    exists l'. split; [done|]. split.
    + intros x y. eapply oQeq_trans; [apply Hf'|apply Hf1].
    + intros x y h Hh. destruct (Hh1 x y h Hh) as (h1 & Hh1' & H10 & H1le).
      destruct (Hh' x y h1 Hh1') as (h' & Hh'' & H0 & Hle).
      exists h'. split; [done|]. split; [done|]. lra.
Qed.

(** Two frames on a fresh ["AB"] with the pointer over ["A"]: ["B"], whose
    rect starts at [x = 0], is left alone. *)
Lemma cold_letter_left_alone_keeps_fuel_witness :
  let bt := BurningText_init "AB" (block_font 1) 0 0 in
  let frames := [ {| frame_mouse := (-1, 0)%Z; frame_dt := 1 # 2;
                     frame_draws := λ _, always_spread |};
                  {| frame_mouse := (-1, 0)%Z; frame_dt := 1 # 2;
                     frame_draws := λ _, always_spread |} ] in
  let l := Letter_init "B" (0, 0)%Z (block_font 1) in
  ∃ l', letters (play frames bt) !! 1%nat = Some (Some l')
        ∧ (∀ x y, oQeq (gget (fuel_map l') x y) (gget (fuel_map l) x y))
        ∧ (∀ x y h, gget (heat_map l) x y = Some h ->
             ∃ h', gget (heat_map l') x y = Some h' ∧ 0 <= h' ∧ h' <= h).
Proof.
  apply (cold_letter_left_alone_keeps_fuel _ (BurningText_init "AB" (block_font 1) 0 0) 1).
  - reflexivity.
  - apply Letter_init_cells_ok.
  - repeat constructor.
  - repeat constructor; vm_compute; congruence.
Defined.

(** ** The layout of the letters *)

Lemma init_letters_lookup font y x0 chars i c :
  chars !! i = Some c ->
  init_letters font y x0 chars !! i =
  Some (if Ascii.eqb c " " then None
        else Some (Letter_init c (x_offset_at font x0 chars i, y) font)).
Proof.
  revert x0 i. induction chars as [|c0 rest IH]; intros x0 i Hc; [done|].
  destruct i as [|i]; simpl in Hc.
  - injection Hc as ->. simpl. by destruct (Ascii.eqb c " ").
  - unfold x_offset_at. simpl. unfold advance at 2.
    destruct (Ascii.eqb c0 " "); simpl; by rewrite (IH _ _ Hc).
Qed.

Lemma length_init_letters font y x0 chars :
  length (init_letters font y x0 chars) = length chars.
Proof.
  revert x0. induction chars as [|c rest IH]; intros x0; [done|].
  simpl. destruct (Ascii.eqb c " "); simpl; by rewrite IH.
Qed.

Lemma length_list_ascii_of_string s :
  length (list_ascii_of_string s) = String.length s.
Proof. induction s as [|c s IH]; simpl; congruence. Qed.

(** X7.  [BurningText.__init__] makes one slot per character of the text, in
    order: [None] for a space, and for any other character a new letter of
    that character whose rect has its top at the top of the rendered text
    and its left edge where the advances of the characters before it end
    (the advance of a space for a space, the width of the glyph
    otherwise), counted from the left edge of the centred text. *)
Theorem letters_laid_left_to_right (txt : string) (font : Font) (cx cy : Z)
    (i : nat) (c : ascii) :
  list_ascii_of_string txt !! i = Some c ->
  let bt := BurningText_init txt font cx cy in
  let full_x := (cx - (text_size font txt).1 / 2)%Z in
  let full_y := (cy - (text_size font txt).2 / 2)%Z in
  length (letters bt) = String.length txt
  ∧ letters bt !! i =
    Some (if Ascii.eqb c " " then None
          else Some (Letter_init c
                       (x_offset_at font full_x (list_ascii_of_string txt) i, full_y)
                       font)).
Proof.
  intros Hc. unfold BurningText_init. destruct (text_size font txt) as [w h].
  simpl. split.
  - by rewrite length_init_letters, length_list_ascii_of_string.
  - by apply init_letters_lookup.
Qed.

Lemma letters_laid_left_to_right_witness :
  let bt := BurningText_init "A B" (block_font 3) 10 10 in
  length (letters bt) = 3%nat
  ∧ letters bt !! 2%nat =
    Some (Some (Letter_init "B" (x_offset_at (block_font 3) 6 ["A"; " "; "B"]%char 2, 9%Z)
                            (block_font 3))).
Proof.
  apply (letters_laid_left_to_right "A B" (block_font 3) 10 10 2 "B").
  reflexivity.
Defined.

Lemma x_offset_at_S font x0 chars i c :
  chars !! i = Some c ->
  x_offset_at font x0 chars (S i) = (x_offset_at font x0 chars i + advance font c)%Z.
Proof.
  intros Hc. unfold x_offset_at. rewrite (take_S_r _ _ _ Hc), fold_left_app. done.
Qed.

Lemma advance_nonneg font c : (0 <= space_advance font)%Z -> (0 <= advance font c)%Z.
Proof. intros H. unfold advance. destruct (Ascii.eqb c " "); lia. Qed.

Lemma x_offset_at_mono font x0 chars i j :
  (0 <= space_advance font)%Z -> (i <= j)%nat -> (j <= length chars)%nat ->
  (x_offset_at font x0 chars i <= x_offset_at font x0 chars j)%Z.
Proof.
  intros Hs Hij. induction Hij as [|j Hij IH]; intros Hj; [lia|].
  destruct (lookup_lt_is_Some_2 chars j ltac:(lia)) as [c Hc].
  rewrite (x_offset_at_S _ _ _ _ _ Hc).
  pose proof (advance_nonneg font c Hs). lia.
Qed.

(** The rect of a letter ends before the rect of any later letter starts. *)
Lemma init_letters_apart font y x0 chars i j l l' :
  (0 <= space_advance font)%Z -> (i < j)%nat ->
  init_letters font y x0 chars !! i = Some (Some l) ->
  init_letters font y x0 chars !! j = Some (Some l') ->
  ((pos l).1 + Z.of_nat (width l) <= (pos l').1)%Z.
Proof.
  intros Hs Hij Hl Hl'.
  assert (Hi : (i < length chars)%nat).
  { apply lookup_lt_Some in Hl. by rewrite length_init_letters in Hl. }
  assert (Hj : (j < length chars)%nat).
  { apply lookup_lt_Some in Hl'. by rewrite length_init_letters in Hl'. }
  destruct (lookup_lt_is_Some_2 chars i Hi) as [c Hc].
  destruct (lookup_lt_is_Some_2 chars j Hj) as [c' Hc'].
  rewrite (init_letters_lookup _ _ _ _ _ _ Hc) in Hl.
  rewrite (init_letters_lookup _ _ _ _ _ _ Hc') in Hl'.
  pose proof (x_offset_at_S font x0 chars i c Hc) as HS.
  unfold advance in HS.
  destruct (Ascii.eqb c " "); [done|]. destruct (Ascii.eqb c' " "); [done|].
  injection Hl as <-. injection Hl' as <-. simpl.
  pose proof (x_offset_at_mono font x0 chars (S i) j Hs ltac:(lia) ltac:(lia)).
  lia.
Qed.

(** X8.  With a font whose space does not move the pen backwards, the rects
    of the letters of a new text do not overlap: a point lies in the rect of
    at most one letter, so one [BurningText.update] adds the pointer's heat
    to at most one letter. *)
Theorem pointer_over_one_letter (txt : string) (font : Font) (cx cy : Z)
    (i j : nat) (l l' : Letter) (p : Z * Z) :
  (0 <= space_advance font)%Z ->
  letters (BurningText_init txt font cx cy) !! i = Some (Some l) ->
  letters (BurningText_init txt font cx cy) !! j = Some (Some l') ->
  collidepoint l p = true -> collidepoint l' p = true ->
  i = j.
Proof.
  intros Hs Hl Hl' Hp Hp'. unfold BurningText_init in *.
  destruct (text_size font txt) as [w h]. simpl in *.
  unfold collidepoint in *.
  apply andb_true_iff in Hp as [Hp _]. apply andb_true_iff in Hp as [Hp _].
  apply andb_true_iff in Hp as [H1 H2].
  apply andb_true_iff in Hp' as [Hp' _]. apply andb_true_iff in Hp' as [Hp' _].
  apply andb_true_iff in Hp' as [H1' H2'].
  apply Z.leb_le in H1, H1'. apply Z.ltb_lt in H2, H2'.
  destruct (Nat.lt_trichotomy i j) as [Hij|[Hij|Hij]]; [|done|].
  - pose proof (init_letters_apart _ _ _ _ i j l l' Hs Hij Hl Hl'). lia.
  - pose proof (init_letters_apart _ _ _ _ j i l' l Hs Hij Hl' Hl). lia.
Qed.

Lemma pointer_over_one_letter_witness :
  let l := Letter_init "A" (8, 9)%Z (block_font 2) in
  letters (BurningText_init "AB" (block_font 2) 10 10) !! 0%nat = Some (Some l)
  ∧ collidepoint l (9, 10)%Z = true
  ∧ 0%nat = 0%nat.
Proof.
  split; [reflexivity|]. split; [reflexivity|].
  apply (pointer_over_one_letter "AB" (block_font 2) 10 10 0 0
           (Letter_init "A" (8, 9)%Z (block_font 2))
           (Letter_init "A" (8, 9)%Z (block_font 2)) (9, 10)%Z);
    [simpl; lia | reflexivity ..].
Defined.

(** * More properties of the snapshots *)

(** [clear_state] removes the snapshot of its identifier and no other. *)
Lemma cleared_snapshot_is_gone (states : States) (identifier : string)
    (bt : BurningText) :
  restore_state (clear_state states identifier) identifier bt = (bt, false)
  ∧ (∀ other, other ≠ identifier ->
       restore_state (clear_state states identifier) other bt
       = restore_state states other bt)
  ∧ (states !! identifier = None -> clear_state states identifier = states)
  ∧ (∀ other, restore_state (clear_all_states states) other bt = (bt, false)).
Proof.
  unfold restore_state, clear_state, clear_all_states. split; [|split; [|split]].
  - by rewrite lookup_delete_eq.
  - intros other Ho. by rewrite lookup_delete_ne.
  - apply delete_id.
  - intros other. by rewrite lookup_empty.
Qed.

(** [save_state] keeps one snapshot per identifier. *)
Lemma save_state_overwrites (states : States) (identifier : string)
    (a b bt : BurningText) :
  save_state (save_state states identifier a) identifier b
  = save_state states identifier b
  ∧ (∀ other, other ≠ identifier ->
       restore_state (save_state states identifier a) other bt
       = restore_state states other bt).
Proof.
  unfold save_state, restore_state. split.
  - apply insert_insert_eq.
  - intros other Ho. by rewrite lookup_insert_ne.
Qed.

(** X9.  The state manager keeps one snapshot per identifier.  A second
    [save_state] under an identifier replaces the first.  [clear_state]
    removes the snapshot of its identifier: a later [restore_state] with it
    returns [False] and leaves the target as it is; clearing an identifier
    that holds no snapshot changes nothing (no [KeyError]).  Saving or
    clearing one identifier leaves what [restore_state] does with every
    other identifier unchanged.  After [clear_all_states] every
    [restore_state] returns [False]. *)
Theorem one_snapshot_per_identifier (states : States) (identifier : string)
    (a b bt : BurningText) :
  save_state (save_state states identifier a) identifier b
  = save_state states identifier b
  ∧ restore_state (clear_state states identifier) identifier bt = (bt, false)
  ∧ (states !! identifier = None -> clear_state states identifier = states)
  ∧ (∀ other, other ≠ identifier ->
       restore_state (save_state states identifier a) other bt
       = restore_state states other bt
       ∧ restore_state (clear_state states identifier) other bt
         = restore_state states other bt)
  ∧ (∀ other, restore_state (clear_all_states states) other bt = (bt, false)).
Proof.
  destruct (cleared_snapshot_is_gone states identifier bt) as (A1 & A2 & A3 & A4).
  destruct (save_state_overwrites states identifier a b bt) as (B1 & B2).
  split; [done|]. split; [done|]. split; [done|]. split; [|done].
  intros other Ho. split; [by apply B2|by apply A2].
Qed.

Lemma restore_letter_idempotent st l :
  restore_letter st (restore_letter st l) = restore_letter st l.
Proof.
  unfold restore_letter.
  by destruct (saved_fuel_map st), (saved_heat_map st).
Qed.

Lemma length_restore_letters i saved ls :
  length (restore_letters i saved ls).1 = length ls.
Proof.
  revert i ls. induction saved as [|[st|] saved IH]; intros i ls; simpl; [done| |].
  - destruct (ls !! i) as [[letter|]|]; simpl; [|done..].
    by rewrite IH, length_insert.
  - apply IH.
Qed.

(** X10.  [restore_state] is idempotent: restoring the same snapshot a
    second time returns the same boolean and leaves the target exactly as
    the first restore left it. *)
Theorem restore_state_idempotent (states : States) (identifier : string)
    (bt : BurningText) :
  restore_state states identifier (restore_state states identifier bt).1
  = restore_state states identifier bt.
Proof.
  destruct (states !! identifier) as [sd|] eqn:Hsd;
    [|unfold restore_state; by rewrite Hsd].
  set (bt1 := (restore_state states identifier bt).1).
  destruct (restore_state_found states identifier bt sd Hsd) as (Ht & Htm & Hl & Hf).
  destruct (restore_state_found states identifier bt1 sd Hsd) as (Ht1 & Htm1 & Hl1 & Hf1).
  fold bt1 in Ht, Htm, Hl.
  assert (Hlen : length (letters bt1) = length (letters bt)).
  { unfold bt1, restore_state. rewrite Hsd.
    pose proof (length_restore_letters 0 (letters_state sd) (letters bt)).
    by destruct (restore_letters 0 (letters_state sd) (letters bt)). }
  destruct (restore_state states identifier bt1) as [bt2 ok2] eqn:E2.
  destruct (restore_state states identifier bt) as [bt1' ok1] eqn:E1.
  simpl in *. subst bt1. f_equal.
  - destruct bt2 as [t2 ls2 tm2], bt1' as [t1 ls1 tm1]. simpl in *.
    f_equal; [congruence| |congruence].
    apply list_eq. intros i. rewrite Hl1, Hl.
    destruct (letters bt !! i) as [[l|]|], (letters_state sd !! i) as [[st|]|];
      try done.
    by rewrite restore_letter_idempotent.
  - apply eq_true_iff_eq. rewrite Hf1, Hf, Hlen. done.
Qed.

(** * The texture of a letter without pixels *)

Lemma gget_Some_any {A} (g : list (list A)) (f : A -> bool) i j a :
  gget g i j = Some a -> f a = true -> any (amap f g) = true.
Proof.
  intros Hg Hf.
  assert (H : bcell (amap f g) i j = true).
  { apply bcell_true. rewrite gget_amap, Hg. simpl. by rewrite Hf. }
  destruct (any (amap f g)) eqn:E; [done|]. by rewrite any_false in H.
Qed.

(** X11.  A letter whose glyph has a size but no pixel (a blank character
    other than the space) gets its charred texture in its first
    [Letter.update], although nothing has burnt: its fuel map is 0
    everywhere, which is below 100, and the test that every pixel of the
    mask has no fuel holds for an empty mask. *)
Theorem blank_glyph_charred_at_once (c : ascii) (p : Z * Z) (font : Font)
    (dt : Q) (rnd : Draws) :
  (0 < glyph_width (render font c))%nat ->
  (0 < glyph_height (render font c))%nat ->
  (∀ i j, glyph_pixel (render font c) i j = false) ->
  charred_texture (update dt rnd (Letter_init c p font)) = Some (new_texture rnd).
Proof.
  intros Hw Hh Hpix. set (l := Letter_init c p font).
  assert (Hfuel : ∀ i j f, gget (fuel_map l) i j = Some f -> f == 0).
  { intros i j f Hf.
    destruct (fresh_letter_init_fuel c p font i j f Hf) as [b [Hb E]].
    rewrite Hpix in Hb. subst b. exact E. }
  assert (Hmask : argwhere (mask_array l) = []).
  { destruct (argwhere (mask_array l)) as [|[x y] rest] eqn:E; [done|].
    assert (Hin : (x, y) ∈ argwhere (mask_array l)) by (rewrite E; left).
    apply elem_of_argwhere in Hin. unfold l, Letter_init in Hin. simpl in Hin.
    rewrite gget_tabulate in Hin. case_decide; [|done].
    injection Hin as Hin. by rewrite Hpix in Hin. }
  unfold update.
  set (l1 := simulate dt (spread_roll rnd) l).
  assert (Hf1 : fuel_map l1 = fuel_map (update dt rnd l)).
  { unfold l1, update. by destruct (needs_texture _). }
  assert (Hm1 : mask_array l1 = mask_array l).
  { unfold l1, simulate. by destruct (burn dt (spread_roll rnd) l). }
  assert (Ht1 : charred_texture l1 = None).
  { unfold l1, simulate. by destruct (burn dt (spread_roll rnd) l). }
  assert (Hneeds : needs_texture l1 = true).
  { unfold needs_texture. rewrite Ht1, Hm1. unfold masked. rewrite Hmask. simpl.
    rewrite andb_true_r.
    assert (His : is_Some (gget (fuel_map l) 0 0)).
    { apply (shape_is_gget (width l) (height l)).
      - apply Letter_init_well_shaped.
      - done. }
    destruct His as [f Hf]. pose proof (Hfuel _ _ _ Hf) as Hz.
    pose proof (gget_update_fuel dt rnd l 0 0) as Hu. rewrite Hf in Hu.
    simpl in Hu. rewrite (not_burning_without_fuel dt l 0 0 f Hf) in Hu by lra.
    rewrite <- Hf1 in Hu.
    apply (gget_Some_any _ _ 0 0 _ Hu). apply Qltb_lt.
    rewrite clip_id; lra. }
  rewrite Hneeds. done.
Qed.

Lemma blank_glyph_charred_at_once_witness :
  charred_texture (update (1 # 60) always_spread (Letter_init "_" (0, 0)%Z blank_font))
  = Some (new_texture always_spread).
Proof.
  apply (blank_glyph_charred_at_once "_" (0, 0)%Z blank_font (1 # 60) always_spread).
  - simpl. lia.
  - simpl. lia.
  - reflexivity.
Defined.

(** [Letter.update] generates the texture as soon as no pixel of the mask
    has fuel and some pixel is below 100. *)
Lemma update_generates_texture dt rnd l i j f :
  0 <= dt ->
  charred_texture l = None ->
  (∀ x y, gget (mask_array l) x y = Some true -> cell (fuel_map l) x y == 0) ->
  gget (fuel_map l) i j = Some f -> 0 <= f -> f < 100 ->
  charred_texture (update dt rnd l) = Some (new_texture rnd).
Proof.
  intros Hdt Ht Hmask Hf Hf0 Hf100.
  destruct (update_fuel_le dt rnd l i j f Hdt Hf Hf0) as (f' & Hf' & _ & Hle).
  unfold update in *.
  set (l1 := simulate dt (spread_roll rnd) l) in *.
  assert (Hf1 : ∀ x y, gget (fuel_map l1) x y
                       = gget (fuel_map (update dt rnd l)) x y).
  { intros x y. unfold update. fold l1. by destruct (needs_texture l1). }
  assert (Hm1 : mask_array l1 = mask_array l).
  { unfold l1, simulate. by destruct (burn dt (spread_roll rnd) l). }
  assert (Ht1 : charred_texture l1 = None).
  { unfold l1, simulate. by destruct (burn dt (spread_roll rnd) l). }
  assert (Hneeds : needs_texture l1 = true).
  { unfold needs_texture. rewrite Ht1, Hm1. apply andb_true_iff. split.
    - apply (gget_Some_any _ _ i j f').
      + destruct (needs_texture l1); exact Hf'.
      + apply Qltb_lt. lra.
    - apply forallb_forall. intros q Hq.
      apply list_elem_of_In in Hq. unfold masked in Hq.
      apply list_elem_of_fmap in Hq as ([x y] & -> & Hxy). simpl.
      apply elem_of_argwhere in Hxy. apply Hmask in Hxy.
      apply Qeq_bool_iff. unfold cell in *. rewrite Hf1, gget_update_fuel.
      destruct (gget (fuel_map l) x y) as [g|] eqn:Hg; simpl in *; [|reflexivity].
      rewrite (not_burning_without_fuel dt l x y g Hg) by lra.
      rewrite clip_id; lra. }
  by rewrite Hneeds.
Qed.

(** X12.  [restore_state] does not bring the charred texture back; the next
    update makes a new one.  Let a letter be restored from the state of a
    letter with the same mask that is burnt out (no pixel of the mask has
    fuel, and some pixel is below 100).  After the restore the letter has
    the texture it had before, none for a new letter, and its next
    [Letter.update] with a frame time that is not negative generates one
    from the draws of that update, whatever texture the saved letter
    had. *)
Theorem burnt_letter_gets_new_texture_after_restore (dt : Q) (rnd : Draws)
    (src tgt : Letter) (i j : nat) (f : Q) :
  0 <= dt ->
  charred_texture tgt = None ->
  mask_array tgt = mask_array src ->
  (∀ x y, gget (mask_array src) x y = Some true -> cell (fuel_map src) x y == 0) ->
  gget (fuel_map src) i j = Some f -> 0 <= f -> f < 100 ->
  let restored := restore_letter (letter_state src) tgt in
  charred_texture restored = None
  ∧ charred_texture (update dt rnd restored) = Some (new_texture rnd).
Proof.
  intros Hdt Ht Hm Hmask Hf Hf0 Hf100 restored.
  assert (Hr : charred_texture restored = None).
  { unfold restored. by rewrite restore_letter_texture. }
  split; [done|].
  apply (update_generates_texture dt rnd restored i j f); try done.
  unfold restored. simpl. by rewrite Hm.
Qed.

(** The burnt pixel, whose cached texture is the empty surface, restored
    onto a new letter; the next update draws a texture of one pixel. *)
Lemma burnt_letter_gets_new_texture_after_restore_witness :
  let rnd := {| spread_roll := λ _ _, 0; new_texture := [[(20, 15, 15)%Z]] |} in
  let restored := restore_letter (letter_state burnt_pixel)
                                 (Letter_init "A" (0, 0)%Z (block_font 1)) in
  charred_texture restored = None
  ∧ charred_texture (update (1 # 60) rnd restored) = Some (new_texture rnd).
Proof.
  intros rnd.
  apply (burnt_letter_gets_new_texture_after_restore (1 # 60) rnd burnt_pixel
           (Letter_init "A" (0, 0)%Z (block_font 1)) 0 0 (0 # 2)).
  - vm_compute. congruence.
  - reflexivity.
  - reflexivity.
  - intros [|x] [|y] H; vm_compute in H; try discriminate.
    vm_compute. reflexivity.
  - vm_compute. reflexivity.
  - vm_compute. congruence.
  - vm_compute. reflexivity.
Defined.

(** * The fade to black *)

Lemma Fade_update_after v s dt t :
  0 <= v -> 0 <= dt ->
  fade_after v s t -> fade_after v (s + dt) (Fade.update dt t).
Proof.
  intros Hv Hdt (Ha & Hs & Hal & Hc).
  assert (Hd : 0 <= v * dt) by (by apply Qmult_le_0_compat).
  unfold Fade.update. rewrite Ha. simpl. rewrite Hs.
  destruct (Q.min_spec 255 (255 * (v * s))) as [[Hlt E]|[Hle E]];
    rewrite E in Hal;
    destruct (Q.min_spec 255 (255 * (v * (s + dt)))) as [[Hlt' E']|[Hle' E']];
    destruct (Qle_bool 255 (Fade.fade_alpha t + v * dt * 255)) eqn:Hq;
    try (apply Qle_bool_iff in Hq);
    try (apply not_true_iff_false in Hq; rewrite Qle_bool_iff in Hq);
    unfold fade_after; simpl; rewrite ?E';
    (split; [done|]); (split; [done|]); (split; [try reflexivity; nra|]);
    try (split; [intros _; nra | done]);
    try (rewrite Hc; split; intros; nra).
Qed.

Lemma Fade_updates_after v dts s t :
  0 <= v -> Forall (λ dt, 0 <= dt) dts ->
  fade_after v s t ->
  ∃ s', s' == s + total_time dts
        ∧ fade_after v s' (updates Fade.update dts t).
Proof.
  intros Hv Hd. revert s t. induction Hd as [|dt dts Hdt _ IH]; intros s t Ht.
  - exists s. split; [simpl; ring|done].
  - unfold updates in *. simpl.
    apply (Fade_update_after v s dt t Hv Hdt) in Ht.
    destruct (IH _ _ Ht) as (s' & Hs' & Ht'). exists s'. split; [|done].
    rewrite Hs'. ring.
Qed.

Lemma fade_after_proper v s s' t : s == s' -> fade_after v s t -> fade_after v s' t.
Proof.
  intros E (Ha & Hs & Hal & Hc). unfold fade_after.
  split; [done|]. split; [done|]. split.
  - rewrite Hal.
    destruct (Q.min_spec 255 (255 * (v * s))) as [[? ->]|[? ->]];
      destruct (Q.min_spec 255 (255 * (v * s'))) as [[? ->]|[? ->]]; nra.
  - rewrite Hc. split; intros; nra.
Qed.

(** X13.  The fade to black of the main menu.  Started and then updated with
    frame times that are not negative, the overlay's alpha is
    [255 * fade_speed * T] capped at 255, where [T] is the sum of the frame
    times, and the fade is complete exactly when [fade_speed * T >= 1]: with
    the speed 3 of the constructor, after a third of a second, however the
    time is cut into frames. *)
Theorem fade_to_black_timing (t0 : Fade.FadeTransition) (dts : list Q) :
  0 <= Fade.fade_speed t0 ->
  Forall (λ dt, 0 <= dt) dts ->
  let t := updates Fade.update dts (Fade.start t0) in
  Fade.fade_alpha t == Qmin 255 (255 * (Fade.fade_speed t0 * total_time dts))
  ∧ (Fade.complete t = true <-> 1 <= Fade.fade_speed t0 * total_time dts).
Proof.
  intros Hv Hd t.
  destruct (Fade_updates_after (Fade.fade_speed t0) dts 0 (Fade.start t0) Hv Hd)
    as (s' & Hs' & Ht').
  { unfold fade_after. simpl. split; [done|]. split; [done|]. split.
    - rewrite Q.min_r; lra.
    - split; [done|]. intros H. lra. }
  apply (fade_after_proper _ _ (total_time dts)) in Ht'; [|lra].
  destruct Ht' as (_ & _ & Hal & Hc). done.
Qed.

Lemma fade_to_black_timing_witness :
  let t := updates Fade.update (repeat (1 # 60) 20) (Fade.start (Fade.init 1366 768)) in
  Fade.fade_alpha t == Qmin 255 (255 * (3 * total_time (repeat (1 # 60) 20)))
  ∧ (Fade.complete t = true <-> 1 <= 3 * total_time (repeat (1 # 60) 20)).
Proof.
  apply (fade_to_black_timing (Fade.init 1366 768) (repeat (1 # 60) 20)).
  - simpl. lra.
  - repeat constructor; vm_compute; congruence.
Defined.

(** * The phases of the screen burn *)

Lemma in_both_copies_intro
    (P : (Q -> ScreenBurn.ScreenBurnTransition -> ScreenBurn.ScreenBurnTransition)
         -> Prop) dts t :
  (∀ update, updates update dts t = updates MainMenu.update dts t -> P update) ->
  in_both_copies P.
Proof.
  intros H. split; apply H; [done|apply updates_SettingsScreen_eq].
Qed.

Lemma start_burn_phase reverse t0 :
  burn_phase reverse (ScreenBurn.burn_speed t0) (ScreenBurn.black_fade_speed t0) 0
             (ScreenBurn.start reverse t0).
Proof.
  unfold burn_phase. simpl. repeat split; try done; try lra.
  destruct reverse; simpl; ring.
Qed.

(** One update during the burn: the edge arrives in it or not. *)
Lemma update_burn_phase reverse v b s dt t :
  0 <= v -> 0 <= dt ->
  burn_phase reverse v b s t ->
  if Qle_bool 1 (v * (s + dt))
  then fade_phase reverse v b (s + dt) 0 (MainMenu.update dt t)
  else burn_phase reverse v b (s + dt) (MainMenu.update dt t).
Proof.
  intros Hv Hdt (Ha & Hr & Hs & Hb & Ht & Hc & Hp & Hlt & Hal).
  assert (Hd : 0 <= v * dt) by (by apply Qmult_le_0_compat).
  unfold MainMenu.update, MainMenu._update_black_fade,
    MainMenu._update_burn_progress.
  rewrite Ha. simpl. rewrite Hc. simpl. rewrite Hr, Hs.
  destruct (Qle_bool 1 (v * (s + dt))) eqn:Hq;
    [apply Qle_bool_iff in Hq
    |apply not_true_iff_false in Hq; rewrite Qle_bool_iff in Hq].
  - destruct reverse; simpl.
    + assert (E : Qle_bool (ScreenBurn.burn_progress t - v * dt) 0 = true).
      { apply Qle_bool_iff. nra. }
      rewrite E. unfold fade_phase, burnt. simpl.
      repeat split; try done; try lra.
      rewrite Hal, Q.min_r; lra.
    + assert (E : Qle_bool 1 (ScreenBurn.burn_progress t + v * dt) = true).
      { apply Qle_bool_iff. nra. }
      rewrite E. unfold fade_phase, burnt. simpl.
      repeat split; try done; try lra.
      rewrite Hal, Q.min_r; lra.
  - destruct reverse; simpl.
    + assert (E : Qle_bool (ScreenBurn.burn_progress t - v * dt) 0 = false).
      { apply not_true_iff_false. rewrite Qle_bool_iff. nra. }
      rewrite E. unfold burn_phase. simpl.
      repeat split; try done; try lra; nra.
    + assert (E : Qle_bool 1 (ScreenBurn.burn_progress t + v * dt) = false).
      { apply not_true_iff_false. rewrite Qle_bool_iff. nra. }
      rewrite E. unfold burn_phase. simpl.
      repeat split; try done; try lra; nra.
Qed.

(** One update after the burn leaves the burn as it is. *)
Lemma update_burnt reverse v s dt t :
  0 <= v -> 0 <= dt ->
  burnt reverse v s t -> burnt reverse v (s + dt) (MainMenu.update dt t).
Proof.
  intros Hv Hdt (Ha & Hr & Hs & Ht & Hc & Hp & Hge).
  assert (Hd : 0 <= v * dt) by (by apply Qmult_le_0_compat).
  unfold MainMenu.update, MainMenu._update_black_fade.
  rewrite Ha. simpl. rewrite Hc. simpl. unfold burnt.
  destruct (Qle_bool 255 _); simpl; repeat split; try done; try lra; nra.
Qed.

(** One update of the black fade. *)
Lemma update_fade_phase reverse v b s u dt t :
  0 <= v -> 0 <= b -> 0 <= dt -> 0 <= u ->
  fade_phase reverse v b s u t ->
  fade_phase reverse v b (s + dt) (u + dt) (MainMenu.update dt t).
Proof.
  intros Hv Hb Hdt Hu (Hburnt & Hbs & Hal).
  split; [by apply update_burnt|].
  destruct Hburnt as (Ha & _ & _ & _ & Hc & _).
  assert (Hd' : 0 <= b * dt) by (by apply Qmult_le_0_compat).
  assert (Hbu : 0 <= b * u) by (by apply Qmult_le_0_compat).
  unfold MainMenu.update, MainMenu._update_black_fade.
  rewrite Ha. simpl. rewrite Hc. simpl. rewrite Hbs.
  destruct (Q.min_spec 255 (255 * (b * u))) as [[Hlt E]|[Hle E]];
    rewrite E in Hal;
    destruct (Q.min_spec 255 (255 * (b * (u + dt)))) as [[Hlt' E']|[Hle' E']];
    rewrite E';
    destruct (Qle_bool 255 (ScreenBurn.black_fade_alpha t + b * dt * 255)) eqn:Hq;
    try (apply Qle_bool_iff in Hq);
    try (apply not_true_iff_false in Hq; rewrite Qle_bool_iff in Hq);
    simpl; repeat split; try done; try lra; try nra.
Qed.

Lemma burn_phase_proper reverse v b s s' t :
  s == s' -> burn_phase reverse v b s t -> burn_phase reverse v b s' t.
Proof.
  intros E (Ha & Hr & Hs & Hb & Ht & Hc & Hp & Hlt & Hal). unfold burn_phase.
  repeat split; try done; try lra; try nra.
  rewrite Hp. destruct reverse; nra.
Qed.

Lemma burnt_proper reverse v s s' t :
  s == s' -> burnt reverse v s t -> burnt reverse v s' t.
Proof.
  intros E (Ha & Hr & Hs & Ht & Hc & Hp & Hge). unfold burnt.
  repeat split; try done; try lra; nra.
Qed.

Lemma fade_phase_proper reverse v b s s' u u' t :
  s == s' -> u == u' ->
  fade_phase reverse v b s u t -> fade_phase reverse v b s' u' t.
Proof.
  intros E E' (Hburnt & Hb & Hal).
  split; [by eapply burnt_proper|]. split; [done|].
  rewrite Hal.
  destruct (Q.min_spec 255 (255 * (b * u))) as [[? ->]|[? ->]];
    destruct (Q.min_spec 255 (255 * (b * u'))) as [[? ->]|[? ->]]; nra.
Qed.

Lemma updates_burnt reverse v dts s t :
  0 <= v -> Forall (λ dt, 0 <= dt) dts ->
  burnt reverse v s t ->
  burnt reverse v (s + total_time dts) (updates MainMenu.update dts t).
Proof.
  intros Hv Hd. revert s t. induction Hd as [|dt dts Hdt _ IH]; intros s t Ht.
  - simpl. eapply burnt_proper; [|exact Ht]. ring.
  - unfold updates in *. simpl.
    apply (update_burnt reverse v s dt t Hv Hdt) in Ht. apply IH in Ht.
    eapply burnt_proper; [|exact Ht]. ring.
Qed.

Lemma updates_fade_phase reverse v b dts s u t :
  0 <= v -> 0 <= b -> Forall (λ dt, 0 <= dt) dts -> 0 <= u ->
  fade_phase reverse v b s u t ->
  fade_phase reverse v b (s + total_time dts) (u + total_time dts)
             (updates MainMenu.update dts t).
Proof.
  intros Hv Hb Hd. revert s u t.
  induction Hd as [|dt dts Hdt _ IH]; intros s u t Hu Ht.
  - simpl. eapply fade_phase_proper; [| |exact Ht]; ring.
  - unfold updates in *. simpl.
    apply (update_fade_phase reverse v b s u dt t Hv Hb Hdt Hu) in Ht.
    apply IH in Ht; [|lra].
    eapply fade_phase_proper; [| |exact Ht]; ring.
Qed.

Lemma total_time_nonneg dts : Forall (λ dt, 0 <= dt) dts -> 0 <= total_time dts.
Proof. induction 1; simpl; lra. Qed.

Lemma total_time_app a b : total_time (a ++ b) == total_time a + total_time b.
Proof. induction a as [|x a IH]; simpl; [ring|]. rewrite IH. ring. Qed.

Lemma updates_app {T} (update : Q -> T -> T) a b t :
  updates update (a ++ b) t = updates update b (updates update a t).
Proof. unfold updates. apply fold_left_app. Qed.

(** While the accumulated time stays short of the arrival of the edge, the
    burn is under way. *)
Lemma updates_burn_phase reverse v b dts s t :
  0 <= v -> Forall (λ dt, 0 <= dt) dts ->
  burn_phase reverse v b s t ->
  v * (s + total_time dts) < 1 ->
  burn_phase reverse v b (s + total_time dts) (updates MainMenu.update dts t).
Proof.
  intros Hv Hd. revert s t. induction Hd as [|dt dts Hdt Hd IH]; intros s t Ht Hlt.
  - simpl. eapply burn_phase_proper; [|exact Ht]. ring.
  - unfold updates in *. simpl in *.
    pose proof (total_time_nonneg dts Hd) as Hn.
    assert (Hvn : 0 <= v * total_time dts) by (by apply Qmult_le_0_compat).
    pose proof (update_burn_phase reverse v b s dt t Hv Hdt Ht) as H.
    assert (E : Qle_bool 1 (v * (s + dt)) = false).
    { apply not_true_iff_false. rewrite Qle_bool_iff. nra. }
    rewrite E in H. apply IH in H; [|nra].
    eapply burn_phase_proper; [|exact H]. ring.
Qed.

(** After any run of updates the burn is under way or complete. *)
Lemma updates_burn reverse v b dts s t :
  0 <= v -> Forall (λ dt, 0 <= dt) dts ->
  burn_phase reverse v b s t ->
  burn_phase reverse v b (s + total_time dts) (updates MainMenu.update dts t)
  ∨ burnt reverse v (s + total_time dts) (updates MainMenu.update dts t).
Proof.
  intros Hv Hd. revert s t. induction Hd as [|dt dts Hdt Hd IH]; intros s t Ht.
  - left. simpl. eapply burn_phase_proper; [|exact Ht]. ring.
  - unfold updates in *. simpl.
    pose proof (update_burn_phase reverse v b s dt t Hv Hdt Ht) as H.
    destruct (Qle_bool 1 (v * (s + dt))).
    + right. destruct H as [H _].
      apply (updates_burnt reverse v dts _ _ Hv Hd) in H.
      eapply burnt_proper; [|exact H]. ring.
    + destruct (IH _ _ H) as [H'|H'].
      * left. eapply burn_phase_proper; [|exact H']. ring.
      * right. eapply burnt_proper; [|exact H']. ring.
Qed.

(** After any run of updates the transition is in one of the two phases. *)
Lemma updates_phase reverse v b dts s t :
  0 <= v -> 0 <= b -> Forall (λ dt, 0 <= dt) dts ->
  burn_phase reverse v b s t ->
  burn_phase reverse v b (s + total_time dts) (updates MainMenu.update dts t)
  ∨ ∃ u, 0 <= u
         ∧ fade_phase reverse v b (s + total_time dts) u
                      (updates MainMenu.update dts t).
Proof.
  intros Hv Hb Hd. revert s t. induction Hd as [|dt dts Hdt Hd IH]; intros s t Ht.
  - left. simpl. eapply burn_phase_proper; [|exact Ht]. ring.
  - unfold updates in *. simpl.
    pose proof (update_burn_phase reverse v b s dt t Hv Hdt Ht) as H.
    destruct (Qle_bool 1 (v * (s + dt))).
    + right. exists (0 + total_time dts). split.
      { pose proof (total_time_nonneg dts Hd). lra. }
      assert (H0 : 0 <= 0) by lra.
      pose proof (updates_fade_phase reverse v b dts _ _ _ Hv Hb Hd H0 H) as H'.
      eapply fade_phase_proper; [| |exact H']; ring.
    + destruct (IH _ _ H) as [H'|(u & Hu & H')].
      * left. eapply burn_phase_proper; [|exact H']. ring.
      * right. exists u. split; [done|].
        eapply fade_phase_proper; [| |exact H']; ring.
Qed.

(** X14.  The burn in either direction, in both copies of the class.
    Started and then updated with frame times that are not negative, the
    transition is complete exactly when [burn_speed * T >= 1], where [T] is
    the sum of the frame times; [burn_progress] is [burn_speed * T] capped
    at 1 for the outward burn and [1 - burn_speed * T] floored at 0 for the
    inward burn, and [time] is [T]. *)
Theorem burn_progress_timing (reverse : bool)
    (t0 : ScreenBurn.ScreenBurnTransition) (dts : list Q) :
  0 <= ScreenBurn.burn_speed t0 ->
  Forall (λ dt, 0 <= dt) dts ->
  in_both_copies (λ update,
    let t := updates update dts (ScreenBurn.start reverse t0) in
    let vT := ScreenBurn.burn_speed t0 * total_time dts in
    (ScreenBurn.complete t = true <-> 1 <= vT)
    ∧ ScreenBurn.burn_progress t == (if reverse then Qmax 0 (1 - vT) else Qmin 1 vT)
    ∧ ScreenBurn.time t == total_time dts).
Proof.
  intros Hv Hd.
  apply (in_both_copies_intro _ dts (ScreenBurn.start reverse t0)).
  intros update ->. cbv zeta.
  set (v := ScreenBurn.burn_speed t0). set (T := total_time dts).
  destruct (updates_burn reverse v (ScreenBurn.black_fade_speed t0) dts 0
              (ScreenBurn.start reverse t0) Hv Hd (start_burn_phase reverse t0))
    as [H|H]; fold T in H.
  - destruct H as (_ & _ & _ & _ & Ht & Hc & Hp & Hlt & _).
    rewrite Hc, Hp, Ht. split; [|split; [|ring]].
    + split; [done|]. intros H1. nra.
    + destruct reverse.
      * rewrite Q.max_r; nra.
      * rewrite Q.min_r; nra.
  - destruct H as (_ & _ & _ & Ht & Hc & Hp & Hge).
    rewrite Hc, Hp, Ht. split; [|split; [|ring]].
    + split; [|done]. intros _. nra.
    + destruct reverse.
      * rewrite Q.max_l; nra.
      * rewrite Q.min_l; nra.
Qed.

(** Half a second of inward burn at 60 frames per second. *)
Lemma burn_progress_timing_witness :
  in_both_copies (λ update,
    let t := updates update (repeat (1 # 60) 30)
                     (ScreenBurn.start true (ScreenBurn.init 1366 768)) in
    let vT := 2 * total_time (repeat (1 # 60) 30) in
    (ScreenBurn.complete t = true <-> 1 <= vT)
    ∧ ScreenBurn.burn_progress t == Qmax 0 (1 - vT)
    ∧ ScreenBurn.time t == total_time (repeat (1 # 60) 30)).
Proof.
  apply (burn_progress_timing true (ScreenBurn.init 1366 768) (repeat (1 # 60) 30)).
  - simpl. lra.
  - repeat constructor; vm_compute; congruence.
Defined.

(** X15.  The black fade that ends a burn, in both copies of the class.  Let
    the frame times be cut at the update in which the edge arrives: the
    frames before it add up to less than [1 / burn_speed], and with its own
    frame time [d] they reach it.  That update completes the burn and does
    not fade yet; after the frames that follow it, [black_fade_alpha] is
    [255 * black_fade_speed * U] capped at 255, where [U] is the sum of the
    frame times after the cut. *)
Theorem black_fade_follows_burn (reverse : bool)
    (t0 : ScreenBurn.ScreenBurnTransition) (pre : list Q) (d : Q) (post : list Q) :
  0 <= ScreenBurn.burn_speed t0 ->
  0 <= ScreenBurn.black_fade_speed t0 ->
  Forall (λ dt, 0 <= dt) (pre ++ d :: post) ->
  ScreenBurn.burn_speed t0 * total_time pre < 1 ->
  1 <= ScreenBurn.burn_speed t0 * (total_time pre + d) ->
  in_both_copies (λ update,
    let t := updates update (pre ++ d :: post) (ScreenBurn.start reverse t0) in
    ScreenBurn.complete t = true
    ∧ ScreenBurn.black_fade_alpha t
      == Qmin 255 (255 * (ScreenBurn.black_fade_speed t0 * total_time post))).
Proof.
  intros Hv Hb Hd Hlt Hge.
  apply (in_both_copies_intro _ (pre ++ d :: post) (ScreenBurn.start reverse t0)).
  intros update ->. cbv zeta.
  apply Forall_app in Hd as [Hpre Hd]. apply Forall_cons in Hd as [Hd0 Hpost].
  set (v := ScreenBurn.burn_speed t0) in *.
  set (b := ScreenBurn.black_fade_speed t0) in *.
  rewrite updates_app. unfold updates at 1. simpl fold_left.
  fold (updates MainMenu.update post).
  pose proof (updates_burn_phase reverse v b pre 0 (ScreenBurn.start reverse t0)
                Hv Hpre (start_burn_phase reverse t0)) as H1.
  lapply H1; [clear H1; intros H1|nra].
  pose proof (update_burn_phase reverse v b _ d _ Hv Hd0 H1) as H2.
  assert (E : Qle_bool 1 (v * (0 + total_time pre + d)) = true).
  { apply Qle_bool_iff. nra. }
  rewrite E in H2.
  assert (H0 : 0 <= 0) by lra.
  pose proof (updates_fade_phase reverse v b post _ _ _ Hv Hb Hpost H0 H2) as H3.
  destruct H3 as ((_ & _ & _ & _ & Hc & _) & _ & Hal).
  split; [done|]. rewrite Hal.
  destruct (Q.min_spec 255 (255 * (b * (0 + total_time post)))) as [[? ->]|[? ->]];
    destruct (Q.min_spec 255 (255 * (b * total_time post))) as [[? ->]|[? ->]]; nra.
Qed.

(** At 60 frames per second the outward burn arrives in frame 30; eight
    more frames fade to black. *)
Lemma black_fade_follows_burn_witness :
  in_both_copies (λ update,
    let t := updates update (repeat (1 # 60) 29 ++ (1 # 60) :: repeat (1 # 60) 8)
                     (ScreenBurn.start false (ScreenBurn.init 1366 768)) in
    ScreenBurn.complete t = true
    ∧ ScreenBurn.black_fade_alpha t
      == Qmin 255 (255 * (8 * total_time (repeat (1 # 60) 8)))).
Proof.
  apply (black_fade_follows_burn false (ScreenBurn.init 1366 768)
           (repeat (1 # 60) 29) (1 # 60) (repeat (1 # 60) 8)).
  - simpl. lra.
  - simpl. lra.
  - repeat constructor; vm_compute; congruence.
  - vm_compute. reflexivity.
  - vm_compute. congruence.
Defined.

(** X16.  The values a transition hands to the drawing code stay in range,
    in both copies of the class: after a start and any run of updates with
    frame times that are not negative, [burn_progress] is in [0, 1] and
    [black_fade_alpha] is in [0, 255], and the black fade is 0 as long as
    the burn is not complete. *)
Theorem transition_stays_in_range (reverse : bool)
    (t0 : ScreenBurn.ScreenBurnTransition) (dts : list Q) :
  0 <= ScreenBurn.burn_speed t0 ->
  0 <= ScreenBurn.black_fade_speed t0 ->
  Forall (λ dt, 0 <= dt) dts ->
  in_both_copies (λ update,
    let t := updates update dts (ScreenBurn.start reverse t0) in
    0 <= ScreenBurn.burn_progress t <= 1
    ∧ 0 <= ScreenBurn.black_fade_alpha t <= 255
    ∧ (ScreenBurn.complete t = false -> ScreenBurn.black_fade_alpha t == 0)).
Proof.
  intros Hv Hb Hd.
  apply (in_both_copies_intro _ dts (ScreenBurn.start reverse t0)).
  intros update ->. cbv zeta.
  set (v := ScreenBurn.burn_speed t0). set (b := ScreenBurn.black_fade_speed t0).
  pose proof (total_time_nonneg dts Hd) as HT.
  assert (HvT : 0 <= v * total_time dts) by (by apply Qmult_le_0_compat).
  destruct (updates_phase reverse v b dts 0
              (ScreenBurn.start reverse t0) Hv Hb Hd (start_burn_phase reverse t0))
    as [H|(u & Hu & H)].
  - destruct H as (_ & _ & _ & _ & _ & Hc & Hp & Hlt & Hal).
    rewrite Hp, Hal. split; [|split; [lra|done]].
    destruct reverse; nra.
  - destruct H as ((_ & _ & _ & _ & Hc & Hp & _) & _ & Hal).
    assert (Hbu : 0 <= b * u) by (by apply Qmult_le_0_compat).
    rewrite Hp, Hal, Hc. split; [destruct reverse; lra|]. split; [|done].
    destruct (Q.min_spec 255 (255 * (b * u))) as [[? ->]|[? ->]]; lra.
Qed.

Lemma transition_stays_in_range_witness :
  in_both_copies (λ update,
    let t := updates update [1 # 4; 0; 1; 1 # 60]
                     (ScreenBurn.start true (ScreenBurn.init 1366 768)) in
    0 <= ScreenBurn.burn_progress t <= 1
    ∧ 0 <= ScreenBurn.black_fade_alpha t <= 255
    ∧ (ScreenBurn.complete t = false -> ScreenBurn.black_fade_alpha t == 0)).
Proof.
  apply (transition_stays_in_range true (ScreenBurn.init 1366 768) [1 # 4; 0; 1; 1 # 60]).
  - simpl. lra.
  - simpl. lra.
  - repeat constructor; vm_compute; congruence.
Defined.

(** X17.  The two copies of [ScreenBurnTransition] behave alike.  The class
    of [main_menu.py] updates through [_update_black_fade] and
    [_update_burn_progress], the class of [settings_screen.py] has both
    inline with early returns; for every frame time and every state,
    started or not, they leave the same state, and so do runs of
    updates. *)
Theorem both_copies_update_alike (dt : Q) (dts : list Q)
    (t : ScreenBurn.ScreenBurnTransition) :
  SettingsScreen.update dt t = MainMenu.update dt t
  ∧ updates SettingsScreen.update dts t = updates MainMenu.update dts t.
Proof. split; [apply SettingsScreen_update_eq|apply updates_SettingsScreen_eq]. Qed.

(** * Particles kept as dictionaries *)

Lemma Dict_eqb_refl p : Dict.eqb p p = true.
Proof.
  unfold Dict.eqb. rewrite !andb_true_iff, !Qeq_bool_iff, bool_decide_eq_true.
  repeat split; reflexivity.
Qed.

Lemma Dict_eqb_life p q : Dict.eqb p q = true -> Dict.life p == Dict.life q.
Proof.
  unfold Dict.eqb. rewrite !andb_true_iff, !Qeq_bool_iff. tauto.
Qed.

(** A dictionary whose life has run out is not equal to one with life
    left. *)
Lemma Dict_eqb_expired v q :
  Qle_bool (Dict.life v) 0 = true -> Dict.alive q = true -> Dict.eqb v q = false.
Proof.
  intros Hv Hq. apply not_true_iff_false. intros E%Dict_eqb_life.
  unfold Dict.alive in Hq. apply negb_true_iff, not_true_iff_false in Hq.
  apply Qle_bool_iff in Hv. rewrite Qle_bool_iff in Hq. lra.
Qed.

(** [remove] walks past the dictionaries with life left and takes out the
    expired one itself. *)
Lemma Dict_remove_own objs v k before rest :
  Qle_bool (Dict.life v) 0 = true ->
  Forall (λ name, ∃ q, objs !! name = Some q ∧ Dict.alive q = true) before ->
  objs !! k = Some v ->
  Dict.remove objs v (before ++ k :: rest) = Some (before ++ rest).
Proof.
  intros Hv Hb Hk. induction Hb as [|name before (q & Hq & Ha) _ IH]; simpl.
  - by rewrite Hk; simpl; rewrite Dict_eqb_refl.
  - rewrite Hq. simpl. rewrite (Dict_eqb_expired v q Hv Ha), IH. done.
Qed.

Lemma lookup_moved_prefix {A} (f : A -> A) (lst : list A) k name :
  (name < k)%nat -> (k <= length lst)%nat ->
  ((f <$> take k lst) ++ drop k lst) !! name = (f <$> lst) !! name.
Proof.
  intros Hn Hk. rewrite lookup_app_l by (rewrite length_fmap, length_take; lia).
  rewrite !list_lookup_fmap, lookup_take_lt by done. done.
Qed.

Lemma insert_moved_prefix {A} (f : A -> A) (lst : list A) k p :
  lst !! k = Some p ->
  <[k := f p]> ((f <$> take k lst) ++ drop k lst)
  = (f <$> take (S k) lst) ++ drop (S k) lst.
Proof.
  intros Hp. pose proof (lookup_lt_Some _ _ _ Hp) as Hk.
  rewrite (take_S_r _ _ _ Hp), fmap_app, <- app_assoc. simpl.
  rewrite (drop_S _ _ _ Hp).
  rewrite insert_app_r_alt by (rewrite length_fmap, length_take; lia).
  rewrite length_fmap, length_take, Nat.min_l, Nat.sub_diag by lia. done.
Qed.

(** The state of the loop after the first [k] dictionaries. *)
Lemma Dict_loop_prefix rate gravity dt lst k :
  (k <= length lst)%nat ->
  let mv := Dict.move rate gravity dt in
  let alive_at := λ name, default false (Dict.alive <$> (mv <$> lst) !! name) in
  fold_left (Dict.visit rate gravity dt) (seq 0 k)
            (Some {| Dict.objs := lst; Dict.live := seq 0 (length lst) |})
  = Some {| Dict.objs := (mv <$> take k lst) ++ drop k lst;
            Dict.live := List.filter alive_at (seq 0 k) ++ seq k (length lst - k) |}.
Proof.
  intros Hk mv alive_at. induction k as [|k IH].
  - simpl. by rewrite drop_0, Nat.sub_0_r.
  - rewrite seq_S, fold_left_app, IH by lia. simpl.
    destruct (lookup_lt_is_Some_2 lst k ltac:(lia)) as [p Hp].
    assert (Hobj : ((mv <$> take k lst) ++ drop k lst) !! k = Some p).
    { rewrite lookup_app_r by (rewrite length_fmap, length_take; lia).
      rewrite length_fmap, length_take, Nat.min_l, Nat.sub_diag by lia.
      rewrite lookup_drop, Nat.add_0_r. done. }
    rewrite Hobj. simpl. fold mv. rewrite (insert_moved_prefix mv lst k p Hp).
    rewrite List.filter_app. simpl.
    assert (Hat : alive_at k = Dict.alive (mv p)).
    { unfold alive_at. by rewrite list_lookup_fmap, Hp. }
    rewrite Hat. unfold Dict.alive.
    replace (length lst - k)%nat with (S (length lst - S k)) by lia. simpl.
    change (Dict.life p - dt * rate) with (Dict.life (mv p)).
    destruct (Qle_bool (Dict.life (mv p)) 0) eqn:Hq; simpl.
    + rewrite (Dict_remove_own _ (mv p) k); simpl; [by rewrite app_nil_r|done| |].
      * apply Forall_forall. intros name Hin.
        apply list_elem_of_In, filter_In in Hin as [Hin Ha].
        apply in_seq in Hin. unfold alive_at in Ha.
        rewrite lookup_moved_prefix by lia.
        destruct ((mv <$> lst) !! name) as [q|]; simpl in Ha; [eauto|done].
      * rewrite lookup_app_l by (rewrite length_fmap, length_take; lia).
        rewrite list_lookup_fmap, lookup_take_lt, Hp by lia. done.
    + by rewrite <- app_assoc.
Qed.

Lemma Dict_read_survivors (P : Dict.Particle -> bool) (pre ms : list Dict.Particle) :
  Forall2 (λ name q, (pre ++ ms) !! name = Some q)
          (List.filter (λ name, default false (P <$> (pre ++ ms) !! name))
                       (seq (length pre) (length ms)))
          (List.filter P ms).
Proof.
  revert pre. induction ms as [|q ms IH]; intros pre; [constructor|].
  simpl. rewrite list_lookup_middle by done. simpl.
  specialize (IH (pre ++ [q])). rewrite <- app_assoc, length_app in IH.
  simpl in IH. rewrite Nat.add_1_r in IH.
  destruct (P q); [constructor|]; try done.
  by apply list_lookup_middle.
Qed.

(** The loop as a filter of the moved particles. *)
Lemma Dict_update_particles_filter rate gravity dt lst :
  Dict.update_particles rate gravity dt lst
  = Some (List.filter Dict.alive (Dict.move rate gravity dt <$> lst)).
Proof.
  unfold Dict.update_particles.
  rewrite (Dict_loop_prefix rate gravity dt lst (length lst)) by done.
  simpl. rewrite firstn_all, drop_all, Nat.sub_diag, !app_nil_r. simpl.
  apply mapM_Some.
  pose proof (Dict_read_survivors Dict.alive [] (Dict.move rate gravity dt <$> lst)) as H.
  simpl in H. by rewrite length_fmap in H.
Qed.

(** X18.  The particle loop drops exactly the particles whose life has run
    out.  [lst.remove(particle)] compares dictionaries by value, but it
    never takes out another particle than the expired one and never raises:
    every pass leaves the moved particles with life above 0, in their
    order.  This holds for the fire, smoke and spark lists of the
    transition and for the embers of a button, whatever the frame time. *)
Theorem expired_particles_removed (rate gravity dt : Q) (lst : list Dict.Particle) :
  Dict.update_particles rate gravity dt lst
  = Some (List.filter Dict.alive (Dict.move rate gravity dt <$> lst)).
Proof. apply Dict_update_particles_filter. Qed.

Lemma filter_filter_fmap {A} (f : A -> A) (P1 P2 P3 : A -> bool) (l : list A) :
  (∀ a, P3 a = P1 (f a) && P2 (f a)) ->
  List.filter P2 (List.filter P1 (f <$> l)) = f <$> List.filter P3 l.
Proof.
  intros H. induction l as [|a l IH]; [done|].
  rewrite fmap_cons. cbn [List.filter]. rewrite H.
  destruct (P1 (f a)); cbn [List.filter andb]; [|done].
  destruct (P2 (f a)); by rewrite IH.
Qed.

(** X19.  How long a particle lives.  Let the particles of a list all have
    life left, and let the loop run with a rate and frame times that are not
    negative, [T] seconds in all.  The loop never raises, and the list then
    holds, in their order, exactly the particles whose life was above
    [rate * T], each with its life lowered by [rate * T]: a particle spawned
    with life 1 is gone once [rate * T >= 1] (0.4 s for fire, 1.25 s for a
    button's embers), however the time is cut into frames. *)
Theorem particles_live_their_life (rate gravity : Q) (dts : list Q)
    (lst : list Dict.Particle) :
  0 <= rate ->
  Forall (λ dt, 0 <= dt) dts ->
  Forall (λ p, 0 < Dict.life p) lst ->
  ∃ out, Dict.run rate gravity dts lst = Some out
         ∧ Forall2 (aged rate gravity (total_time dts))
                   (List.filter (λ p, Qltb (rate * total_time dts) (Dict.life p)) lst)
                   out.
Proof.
  intros Hr Hd. revert lst. induction Hd as [|dt dts Hdt Hd IH]; intros lst Hl.
  - exists lst. split; [done|]. simpl.
    induction Hl as [|p lst Hp _ IHl]; [constructor|]. simpl.
    assert (E : Qltb (rate * 0) (Dict.life p) = true) by (apply Qltb_lt; lra).
    rewrite E. constructor; [|done].
    unfold aged. repeat split; ring.
  - unfold Dict.run in *. simpl fold_left.
    rewrite Dict_update_particles_filter.
    set (mv := Dict.move rate gravity dt).
    set (lst1 := List.filter Dict.alive (mv <$> lst)).
    destruct (IH lst1) as (out & Hout & Hall).
    { apply Forall_forall. intros q Hq.
      apply list_elem_of_In, filter_In in Hq as [_ Hq].
      unfold Dict.alive in Hq. apply negb_true_iff, not_true_iff_false in Hq.
      rewrite Qle_bool_iff in Hq. lra. }
    exists out. split; [done|].
    pose proof (total_time_nonneg dts Hd) as HT.
    assert (HrT : 0 <= rate * total_time dts) by (by apply Qmult_le_0_compat).
    assert (Hrd : 0 <= rate * dt) by (by apply Qmult_le_0_compat).
    unfold lst1 in Hall.
    rewrite (filter_filter_fmap mv Dict.alive
               (λ q, Qltb (rate * total_time dts) (Dict.life q))
               (λ p, Qltb (rate * total_time (dt :: dts)) (Dict.life p))) in Hall.
    + rewrite Forall2_fmap_l in Hall. eapply Forall2_impl; [exact Hall|].
      intros p q (A1 & A2 & A3 & A4 & A5 & A6). simpl in *.
      unfold aged. simpl. repeat split; try done; try (rewrite A1; ring);
        try (rewrite A2; ring); try (rewrite A3; ring).
    + intros p. simpl.
      destruct (Qltb (rate * (dt + total_time dts)) (Dict.life p)) eqn:E.
      * apply Qltb_lt in E. symmetry. apply andb_true_iff. split.
        -- unfold Dict.alive. apply negb_true_iff, not_true_iff_false.
           rewrite Qle_bool_iff. simpl. nra.
        -- apply Qltb_lt. nra.
      * apply not_true_iff_false in E. rewrite Qltb_lt in E.
        symmetry. apply andb_false_iff. right.
        apply not_true_iff_false. rewrite Qltb_lt. nra.
Qed.

(** Two fire particles with life 1 and life 1/4, six frames of 1/20 s. *)
Lemma particles_live_their_life_witness :
  let fresh := {| Dict.x := 0; Dict.y := 0; Dict.life := 1;
                  Dict.velocity_y := -30; Dict.velocity_x := 5;
                  Dict.size := 6; Dict.color := (255, 180, 100)%Z |} in
  let old := {| Dict.x := 0; Dict.y := 0; Dict.life := 1 # 4;
                Dict.velocity_y := -30; Dict.velocity_x := 5;
                Dict.size := 6; Dict.color := (255, 180, 100)%Z |} in
  ∃ out, Dict.run (5 # 2) 25 (repeat (1 # 20) 6) [fresh; old] = Some out
         ∧ Forall2 (aged (5 # 2) 25 (total_time (repeat (1 # 20) 6)))
                   (List.filter (λ p, Qltb ((5 # 2) * total_time (repeat (1 # 20) 6))
                                           (Dict.life p))
                                [fresh; old])
                   out.
Proof.
  apply (particles_live_their_life (5 # 2) 25 (repeat (1 # 20) 6)).
  - vm_compute. congruence.
  - repeat constructor; vm_compute; congruence.
  - repeat constructor.
Defined.

(** * The buttons of the main menu *)

Lemma Button_update_Some dt mouse_pos rnd b :
  ∃ b', Button.update dt mouse_pos rnd b = Some b'
        ∧ Button.rect b' = Button.rect b ∧ Button.text b' = Button.text b
        ∧ Button.hovered b' = Button.collidepoint (Button.rect b) mouse_pos
        ∧ Button.time b' = Button.time b + dt
        ∧ Button.glow_intensity b'
          = Button.glow_intensity b
            + ((if Button.collidepoint (Button.rect b) mouse_pos then 1 else 0)
               - Button.glow_intensity b) * 8 * dt
        ∧ Forall (λ p, Dict.alive p = true) (Button.ember_particles b').
Proof.
  unfold Button.update, Dict.update_ember_particles.
  rewrite Dict_update_particles_filter. simpl.
  eexists. split; [done|]. simpl. repeat split.
  apply Forall_forall. intros p Hp.
  by apply list_elem_of_In, filter_In in Hp as [_ Hp].
Qed.

(** X20.  The glow of a button stays between 0 and 1.  From a glow in that
    range, every run of [EmberButton.update] with frame times between 0 and
    1/8 s returns normally and leaves the glow in the range, wherever the
    pointer is and whatever is drawn; rect and text are untouched.  (The glow
    moves towards its target by the fraction [8 * dt] of the distance, which
    overshoots when [dt] is longer.) *)
Theorem button_glow_stays_in_range (frames : list Button.Frame)
    (b : Button.EmberButton) :
  0 <= Button.glow_intensity b <= 1 ->
  Forall (λ fr, 0 <= Button.frame_dt fr <= 1 # 8) frames ->
  ∃ b', Button.play frames b = Some b'
        ∧ 0 <= Button.glow_intensity b' <= 1
        ∧ Button.rect b' = Button.rect b ∧ Button.text b' = Button.text b.
Proof.
  intros Hg Hf. revert b Hg. induction Hf as [|fr frames Hdt _ IH]; intros b Hg.
  - exists b. done.
  - unfold Button.play in *. simpl fold_left.
    destruct (Button_update_Some (Button.frame_dt fr) (Button.frame_mouse fr)
                (Button.frame_draws fr) b)
      as (b1 & -> & Hr & Ht & _ & _ & Hg1 & _).
    destruct (IH b1) as (b' & Hb' & Hg' & Hr' & Ht').
    + rewrite Hg1.
      destruct (Button.collidepoint (Button.rect b) (Button.frame_mouse fr)); nra.
    + exists b'. split; [done|]. split; [done|]. split; congruence.
Qed.

Lemma button_glow_stays_in_range_witness :
  let b := Button.init 483 350 400 70 "New Game" in
  let rnd := {| Button.spawn_roll := 1 # 10; Button.spawn_x := 500;
                Button.spawn_velocity_y := -60; Button.spawn_velocity_x := 0;
                Button.spawn_size := 4; Button.spawn_color := (255, 100, 30)%Z |} in
  let frames := [ {| Button.frame_dt := 1 # 60; Button.frame_mouse := (500, 360)%Z;
                     Button.frame_draws := rnd |};
                  {| Button.frame_dt := 1 # 8; Button.frame_mouse := (0, 0)%Z;
                     Button.frame_draws := rnd |} ] in
  ∃ b', Button.play frames b = Some b'
        ∧ 0 <= Button.glow_intensity b' <= 1
        ∧ Button.rect b' = Button.rect b ∧ Button.text b' = Button.text b.
Proof.
  apply button_glow_stays_in_range.
  - simpl. lra.
  - repeat constructor; vm_compute; congruence.
Defined.

(** * The main menu *)

Lemma Menu_clicks_locked bs m :
  Menu.transitioning m = true -> fold_left Menu.click bs m = m.
Proof.
  intros Ht. induction bs as [|b bs IH]; [done|].
  simpl. unfold Menu.click at 2. rewrite Ht, andb_false_r. exact IH.
Qed.

Lemma Menu_handle_event_locked m e :
  Menu.transitioning m = true -> e ≠ Menu.QUIT -> Menu.handle_event m e = m.
Proof.
  intros Ht He. destruct e as [|[| |]|button|]; simpl; try done.
  - by rewrite Ht.
  - destruct button as [|[p|p|]|p]; try done. by apply Menu_clicks_locked.
Qed.

Lemma Menu_handle_events_quiet events m :
  Menu.transitioning m = true -> ¬ (Menu.QUIT ∈ events) ->
  Menu.handle_events events m = m.
Proof.
  intros Ht. unfold Menu.handle_events.
  induction events as [|e events IH]; intros Hq; [done|].
  simpl. rewrite Menu_handle_event_locked; [|done|].
  - apply IH. intros H. apply Hq. by right.
  - intros ->. apply Hq. by left.
Qed.

(** X21.  While a transition is under way the menu takes no input.  With
    [transitioning] set, [handle_events] leaves the menu exactly as it is for
    every queue of events without a QUIT: clicks, Escape and F12 start
    nothing and change no selection.  A queue with a QUIT stops the loop and
    selects ["Exit"], and changes nothing else. *)
Theorem transition_locks_the_menu (events : list Menu.Event) (m : Menu.MainMenu) :
  Menu.transitioning m = true ->
  (¬ (Menu.QUIT ∈ events) -> Menu.handle_events events m = m)
  ∧ (Menu.QUIT ∈ events -> Menu.handle_events events m = Menu.quit m).
Proof.
  intros Ht. split; [by apply Menu_handle_events_quiet|].
  unfold Menu.handle_events. revert m Ht.
  induction events as [|e events IH]; intros m Ht Hq.
  - by apply elem_of_nil in Hq.
  - simpl. destruct e as [|key|button|].
    + simpl.
      assert (H : ∀ es, fold_left Menu.handle_event es (Menu.quit m) = Menu.quit m).
      { intros es. induction es as [|e es IHes]; [done|].
        simpl.
        assert (He : e = Menu.QUIT ∨ e ≠ Menu.QUIT) by (destruct e; auto).
        destruct He as [->|He]; [exact IHes|].
        rewrite Menu_handle_event_locked; done. }
      apply H.
    + rewrite Menu_handle_event_locked by done. apply IH; [done|].
      by apply elem_of_cons in Hq as [|].
    + rewrite Menu_handle_event_locked by done. apply IH; [done|].
      by apply elem_of_cons in Hq as [|].
    + apply IH; [done|]. by apply elem_of_cons in Hq as [|].
Qed.

Lemma transition_locks_the_menu_witness :
  let m := Menu.start_fade "Exit" (Menu.init (block_font 1) ∅) in
  let events := [Menu.MOUSEBUTTONDOWN 1; Menu.KEYDOWN Menu.K_ESCAPE] in
  (¬ (Menu.QUIT ∈ events) -> Menu.handle_events events m = m)
  ∧ (Menu.QUIT ∈ events -> Menu.handle_events events m = Menu.quit m).
Proof.
  apply (transition_locks_the_menu
           [Menu.MOUSEBUTTONDOWN 1; Menu.KEYDOWN Menu.K_ESCAPE]
           (Menu.start_fade "Exit" (Menu.init (block_font 1) ∅))).
  reflexivity.
Defined.

Lemma Menu_clicks_none bs m :
  Forall (λ b, Button.hovered b = false) bs -> fold_left Menu.click bs m = m.
Proof.
  intros Hb. induction Hb as [|b bs Hb _ IH]; [done|].
  simpl. unfold Menu.click at 2. by rewrite Hb.
Qed.

Lemma Menu_start_fade_transitioning txt m :
  Menu.transitioning (Menu.start_fade txt m) = true.
Proof. done. Qed.

Lemma Menu_start_burn_transitioning txt m :
  Menu.transitioning (Menu.start_burn txt m) = true.
Proof. done. Qed.

(** X22.  What starts a transition of the main menu.  With no transition
    under way, a left click takes the first button of the list that is
    hovered and no other: the ["Exit"] button starts the fade to black, any
    other button starts the outward burn and sets the next scene from its
    text; the button's text becomes the selected option.  A left click with
    no button hovered, and a click of another mouse button, change nothing.
    Escape starts the fade to black and selects ["Exit"]. *)
Theorem click_starts_one_transition (m : Menu.MainMenu)
    (before : list Button.EmberButton) (b : Button.EmberButton)
    (after : list Button.EmberButton) (other : Z) :
  Menu.transitioning m = false ->
  Menu.buttons m = before ++ b :: after ->
  Forall (λ b', Button.hovered b' = false) before ->
  (Button.hovered b = true ->
   Menu.handle_events [Menu.MOUSEBUTTONDOWN 1] m
   = if String.eqb (Button.text b) "Exit"
     then Menu.start_fade (Button.text b) m
     else Menu.start_burn (Button.text b) m)
  ∧ (Button.hovered b = false ->
     Forall (λ b', Button.hovered b' = false) after ->
     Menu.handle_events [Menu.MOUSEBUTTONDOWN 1] m = m)
  ∧ (other ≠ 1%Z -> Menu.handle_events [Menu.MOUSEBUTTONDOWN other] m = m)
  ∧ Menu.handle_events [Menu.KEYDOWN Menu.K_ESCAPE] m = Menu.start_fade "Exit" m.
Proof.
  intros Ht Hbs Hbefore. unfold Menu.handle_events. simpl. rewrite Hbs.
  split; [|split; [|split]].
  - intros Hb. rewrite fold_left_app, (Menu_clicks_none before) by done. simpl.
    unfold Menu.click at 2. rewrite Hb, Ht. simpl.
    destruct (String.eqb (Button.text b) "Exit");
      by rewrite Menu_clicks_locked.
  - intros Hb Hafter. apply Menu_clicks_none.
    apply Forall_app. split; [done|]. by constructor.
  - intros Ho. by destruct other as [|[p|p|]|p].
  - by rewrite Ht.
Qed.

(** The pointer is over ["Settings"], the third button of a new menu. *)
Lemma click_starts_one_transition_witness :
  let m0 := Menu.init (block_font 1) ∅ in
  let hover b := {| Button.rect := Button.rect b; Button.text := Button.text b;
                    Button.hovered := true;
                    Button.glow_intensity := Button.glow_intensity b;
                    Button.ember_particles := Button.ember_particles b;
                    Button.time := Button.time b |} in
  let settings := hover (Button.init 483 530 400 70 "Settings") in
  let m := {| Menu.running := true; Menu.burning_title := Menu.burning_title m0;
              Menu.screen_burn := Menu.screen_burn m0;
              Menu.fade_transition := Menu.fade_transition m0;
              Menu.transitioning := false; Menu.next_scene := None;
              Menu.buttons := take 2 (Menu.buttons m0) ++ settings
                              :: drop 3 (Menu.buttons m0);
              Menu.selected_option := None; Menu.time := 0 |} in
  (Button.hovered settings = true ->
   Menu.handle_events [Menu.MOUSEBUTTONDOWN 1] m
   = if String.eqb (Button.text settings) "Exit"
     then Menu.start_fade (Button.text settings) m
     else Menu.start_burn (Button.text settings) m)
  ∧ (Button.hovered settings = false ->
     Forall (λ b', Button.hovered b' = false) (drop 3 (Menu.buttons m0)) ->
     Menu.handle_events [Menu.MOUSEBUTTONDOWN 1] m = m)
  ∧ (3%Z ≠ 1%Z -> Menu.handle_events [Menu.MOUSEBUTTONDOWN 3] m = m)
  ∧ Menu.handle_events [Menu.KEYDOWN Menu.K_ESCAPE] m = Menu.start_fade "Exit" m.
Proof.
  intros m0 hover settings m.
  apply (click_starts_one_transition m (take 2 (Menu.buttons m0)) settings
           (drop 3 (Menu.buttons m0)) 3).
  - reflexivity.
  - reflexivity.
  - repeat constructor.
Defined.

Lemma Menu_loop_stopped frames m :
  Menu.running m = false -> Menu.loop frames m = Some m.
Proof. intros Hr. destruct frames; simpl; by rewrite ?Hr. Qed.

Lemma Menu_loop_app a b m :
  Menu.loop (a ++ b) m = Menu.loop a m ≫= Menu.loop b.
Proof.
  revert m. induction a as [|fr a IH]; intros m; [done|].
  simpl. destruct (Menu.running m) eqn:Hr.
  - destruct (Menu.update _ _ _ _ _) as [m1|]; simpl; [apply IH|done].
  - simpl. by rewrite Menu_loop_stopped.
Qed.

(** One pass of the loop while a transition is under way and no QUIT
    arrives. *)
Lemma Menu_pass_transitioning fr m :
  Menu.transitioning m = true -> ¬ (Menu.QUIT ∈ Menu.events fr) ->
  ∃ m1,
    Menu.update (Menu.frame_dt fr) (Menu.frame_mouse fr) (Menu.title_draws fr)
                (Menu.button_draws fr) (Menu.handle_events (Menu.events fr) m)
    = Some m1
    ∧ Menu.transitioning m1 = true
    ∧ Menu.selected_option m1 = Menu.selected_option m
    ∧ Menu.next_scene m1 = Menu.next_scene m
    ∧ if Fade.active (Menu.fade_transition m) then
        Menu.fade_transition m1 = Fade.update (Menu.frame_dt fr) (Menu.fade_transition m)
        ∧ Menu.screen_burn m1 = Menu.screen_burn m
        ∧ Menu.running m1
          = (if Fade.complete (Menu.fade_transition m1) then false else Menu.running m)
      else
        Menu.fade_transition m1 = Menu.fade_transition m
        ∧ Menu.screen_burn m1 = MainMenu.update (Menu.frame_dt fr) (Menu.screen_burn m)
        ∧ Menu.running m1
          = (if ScreenBurn.complete (Menu.screen_burn m1)
                && Qle_bool 255 (ScreenBurn.black_fade_alpha (Menu.screen_burn m1))
             then false else Menu.running m).
Proof.
  intros Ht Hq. rewrite Menu_handle_events_quiet by done.
  unfold Menu.update. rewrite Ht. simpl.
  destruct (Fade.active (Menu.fade_transition m)); simpl;
    eexists; (split; [done|]); simpl; done.
Qed.

Lemma Fade_update_active dt t :
  Fade.active (Fade.update dt t) = Fade.active t.
Proof.
  unfold Fade.update. destruct (Fade.active t) eqn:E; simpl; [|done].
  by destruct (Qle_bool 255 _).
Qed.

(** The loop during the fade to black, [s] seconds after its start. *)
Lemma Menu_loop_fading v frames s m :
  0 <= v -> 0 <= s -> Forall quiet frames ->
  Menu.transitioning m = true ->
  Fade.active (Menu.fade_transition m) = true ->
  (if Menu.running m
   then fade_after v s (Menu.fade_transition m) ∧ v * s < 1
   else 1 <= v * s) ->
  ∃ m', Menu.loop frames m = Some m'
        ∧ Menu.selected_option m' = Menu.selected_option m
        ∧ (Menu.running m' = false <-> 1 <= v * (s + total_time (frame_times frames))).
Proof.
  intros Hv Hs Hf. revert s m Hs.
  induction Hf as [|fr frames [Hq Hdt] Hf IH]; intros s m Hs Ht Ha Hinv.
  - exists m. split; [done|]. split; [done|]. simpl.
    destruct (Menu.running m); [destruct Hinv as [_ Hlt]|]; split; try done; nra.
  - pose proof (total_time_nonneg (frame_times frames)) as HT.
    lapply HT; [clear HT; intros HT|].
    2:{ unfold frame_times. apply Forall_fmap. eapply Forall_impl; [exact Hf|].
        by intros fr' [_ H]. }
    assert (HvT : 0 <= v * total_time (frame_times frames))
      by (by apply Qmult_le_0_compat).
    assert (Hvd : 0 <= v * Menu.frame_dt fr) by (by apply Qmult_le_0_compat).
    simpl. destruct (Menu.running m) eqn:Hr.
    + destruct Hinv as [Hfade Hlt].
      destruct (Menu_pass_transitioning fr m Ht Hq)
        as (m1 & -> & Ht1 & Hsel1 & _ & Hstep).
      rewrite Ha in Hstep. destruct Hstep as (Hf1 & _ & Hr1). simpl.
      pose proof (Fade_update_after v s (Menu.frame_dt fr) _ Hv Hdt Hfade) as Hfade1.
      rewrite <- Hf1 in Hfade1.
      destruct (IH (s + Menu.frame_dt fr) m1) as (m' & Hm' & Hsel' & Hrun');
        [lra|done| |  |].
      * by rewrite Hf1, Fade_update_active.
      * rewrite Hr1, Hr. destruct Hfade1 as (A1 & A2 & A3 & Hc).
        destruct (Fade.complete (Menu.fade_transition m1)) eqn:Ec.
        -- by apply Hc.
        -- split; [unfold fade_after; by rewrite Ec|].
           destruct (Qlt_le_dec (v * (s + Menu.frame_dt fr)) 1) as [|Hge]; [done|].
           apply Hc in Hge. done.
      * exists m'. split; [done|]. split; [congruence|].
        rewrite Hrun'. split; intros; nra.
    + exists m. split; [done|]. split; [done|]. split; [intros _; nra|done].
Qed.

(** X23.  Leaving the main menu by the fade to black.  Let the fade be
    started for an option (Escape or the ["Exit"] button) on a running menu,
    and let the loop then run frames without a QUIT event and with frame
    times that are not negative.  The loop never fails, the selected option
    stays what it was whatever is clicked, and [running] is [False] at the
    end exactly when [fade_speed * T >= 1] for the sum [T] of the frame
    times: a third of a second with the speed 3 of the constructor. *)
Theorem fade_ends_the_menu (m0 : Menu.MainMenu) (txt : string)
    (frames : list Menu.Frame) :
  Menu.running m0 = true ->
  0 <= Fade.fade_speed (Menu.fade_transition m0) ->
  Forall quiet frames ->
  ∃ m, Menu.loop frames (Menu.start_fade txt m0) = Some m
       ∧ Menu.selected_option m = Some txt
       ∧ (Menu.running m = false
          <-> 1 <= Fade.fade_speed (Menu.fade_transition m0)
                   * total_time (frame_times frames)).
Proof.
  intros Hr Hv Hf.
  assert (H0 : 0 <= 0) by lra.
  assert (Hinv : if Menu.running (Menu.start_fade txt m0)
                 then fade_after (Fade.fade_speed (Menu.fade_transition m0)) 0
                                 (Menu.fade_transition (Menu.start_fade txt m0))
                      ∧ Fade.fade_speed (Menu.fade_transition m0) * 0 < 1
                 else 1 <= Fade.fade_speed (Menu.fade_transition m0) * 0).
  { simpl. rewrite Hr. split; [|lra].
    unfold fade_after. simpl. split; [done|]. split; [done|]. split.
    - rewrite Q.min_r; lra.
    - split; [done|]. intros H. lra. }
  destruct (Menu_loop_fading (Fade.fade_speed (Menu.fade_transition m0)) frames 0
              (Menu.start_fade txt m0) Hv H0 Hf eq_refl eq_refl Hinv)
    as (m & Hm & Hsel & Hrun).
  exists m. split; [done|]. split; [done|]. rewrite Hrun. split; intros; nra.
Qed.

(** Twenty quiet frames at 60 frames per second, with a click in each. *)
Lemma fade_ends_the_menu_witness :
  let fr := {| Menu.events := [Menu.MOUSEBUTTONDOWN 1]; Menu.frame_dt := 1 # 60;
               Menu.frame_mouse := (500, 360)%Z;
               Menu.title_draws := λ _, always_spread;
               Menu.button_draws := λ _, {| Button.spawn_roll := 0;
                 Button.spawn_x := 0; Button.spawn_velocity_y := 0;
                 Button.spawn_velocity_x := 0; Button.spawn_size := 0;
                 Button.spawn_color := (0, 0, 0)%Z |} |} in
  ∃ m, Menu.loop (repeat fr 20)
                 (Menu.start_fade "Exit" (Menu.init (block_font 1) ∅)) = Some m
       ∧ Menu.selected_option m = Some "Exit"
       ∧ (Menu.running m = false
          <-> 1 <= 3 * total_time (frame_times (repeat fr 20))).
Proof.
  intros fr.
  apply (fade_ends_the_menu (Menu.init (block_font 1) ∅) "Exit" (repeat fr 20)).
  - reflexivity.
  - simpl. lra.
  - repeat constructor; simpl; try lra;
      rewrite elem_of_cons, elem_of_nil; intros [[=]|[]].
Defined.

Lemma frame_times_nonneg frames :
  Forall quiet frames -> Forall (λ dt, 0 <= dt) (frame_times frames).
Proof.
  intros Hf. unfold frame_times. apply Forall_fmap.
  eapply Forall_impl; [exact Hf|]. by intros fr [_ H].
Qed.

(** One pass of the loop during the burn: the edge arrives in it or not;
    the menu keeps running either way. *)
Lemma Menu_pass_burning v b s fr m :
  0 <= v -> quiet fr ->
  Menu.transitioning m = true ->
  Fade.active (Menu.fade_transition m) = false ->
  burn_phase false v b s (Menu.screen_burn m) ->
  ∃ m1,
    Menu.update (Menu.frame_dt fr) (Menu.frame_mouse fr) (Menu.title_draws fr)
                (Menu.button_draws fr) (Menu.handle_events (Menu.events fr) m)
    = Some m1
    ∧ Menu.transitioning m1 = true
    ∧ Fade.active (Menu.fade_transition m1) = false
    ∧ Menu.selected_option m1 = Menu.selected_option m
    ∧ Menu.next_scene m1 = Menu.next_scene m
    ∧ Menu.running m1 = Menu.running m
    ∧ if Qle_bool 1 (v * (s + Menu.frame_dt fr))
      then fade_phase false v b (s + Menu.frame_dt fr) 0 (Menu.screen_burn m1)
      else burn_phase false v b (s + Menu.frame_dt fr) (Menu.screen_burn m1).
Proof.
  intros Hv [Hq Hdt] Ht Ha Hb.
  destruct (Menu_pass_transitioning fr m Ht Hq) as (m1 & Hm1 & Ht1 & Hs1 & Hn1 & Hstep).
  rewrite Ha in Hstep. destruct Hstep as (Hf1 & Hb1 & Hr1).
  exists m1. split; [done|]. split; [done|]. split; [congruence|].
  split; [done|]. split; [done|].
  pose proof (update_burn_phase false v b s (Menu.frame_dt fr) _ Hv Hdt Hb) as H.
  rewrite <- Hb1 in H. split; [|done].
  rewrite Hr1. destruct (Qle_bool 1 (v * (s + Menu.frame_dt fr))).
  - destruct H as (_ & _ & Hal).
    assert (E : Qle_bool 255 (ScreenBurn.black_fade_alpha (Menu.screen_burn m1)) = false).
    { apply not_true_iff_false. rewrite Qle_bool_iff, Hal, Q.min_r; lra. }
    by rewrite E, andb_false_r.
  - destruct H as (_ & _ & _ & _ & _ & Hc & _). by rewrite Hc.
Qed.

(** The loop while the edge has not arrived. *)
Lemma Menu_loop_burning v b frames s m :
  0 <= v -> Forall quiet frames ->
  Menu.running m = true ->
  Menu.transitioning m = true ->
  Fade.active (Menu.fade_transition m) = false ->
  burn_phase false v b s (Menu.screen_burn m) ->
  v * (s + total_time (frame_times frames)) < 1 ->
  ∃ m', Menu.loop frames m = Some m'
        ∧ Menu.running m' = true
        ∧ Menu.transitioning m' = true
        ∧ Fade.active (Menu.fade_transition m') = false
        ∧ Menu.selected_option m' = Menu.selected_option m
        ∧ Menu.next_scene m' = Menu.next_scene m
        ∧ burn_phase false v b (s + total_time (frame_times frames))
                     (Menu.screen_burn m').
Proof.
  intros Hv Hf. revert s m.
  induction Hf as [|fr frames Hfr Hf IH]; intros s m Hr Ht Ha Hb Hlt.
  - exists m. do 6 (split; [done|]).
    eapply burn_phase_proper; [|exact Hb].
    change (total_time (frame_times [])) with 0. ring.
  - pose proof (total_time_nonneg _ (frame_times_nonneg frames Hf)) as HT.
    assert (HvT : 0 <= v * total_time (frame_times frames))
      by (by apply Qmult_le_0_compat).
    simpl in Hlt. simpl. rewrite Hr.
    destruct (Menu_pass_burning v b s fr m Hv Hfr Ht Ha Hb)
      as (m1 & -> & Ht1 & Ha1 & Hs1 & Hn1 & Hr1 & H). simpl.
    assert (E : Qle_bool 1 (v * (s + Menu.frame_dt fr)) = false).
    { apply not_true_iff_false. rewrite Qle_bool_iff. nra. }
    rewrite E in H.
    destruct (IH (s + Menu.frame_dt fr) m1) as (m' & Hm' & A1 & A2 & A3 & A4 & A5 & A6);
      try done; [congruence|nra|].
    exists m'. do 4 (split; [done|]). split; [congruence|]. split; [congruence|].
    eapply burn_phase_proper; [|exact A6]. simpl. ring.
Qed.

(** The loop during the black fade, [u] seconds after the edge arrived. *)
Lemma Menu_loop_black_fade v b frames s u m :
  0 <= v -> 0 <= b -> 0 <= u -> Forall quiet frames ->
  Menu.transitioning m = true ->
  Fade.active (Menu.fade_transition m) = false ->
  (if Menu.running m
   then fade_phase false v b s u (Menu.screen_burn m) ∧ b * u < 1
   else 1 <= b * u) ->
  ∃ m', Menu.loop frames m = Some m'
        ∧ Menu.selected_option m' = Menu.selected_option m
        ∧ Menu.next_scene m' = Menu.next_scene m
        ∧ (Menu.running m' = false <-> 1 <= b * (u + total_time (frame_times frames))).
Proof.
  intros Hv Hb Hu Hf. revert s u m Hu.
  induction Hf as [|fr frames Hfr Hf IH]; intros s u m Hu Ht Ha Hinv.
  - exists m. split; [done|]. split; [done|]. split; [done|]. simpl.
    destruct (Menu.running m); [destruct Hinv as [_ Hlt]|]; split; try done; nra.
  - pose proof (total_time_nonneg _ (frame_times_nonneg frames Hf)) as HT.
    assert (HbT : 0 <= b * total_time (frame_times frames))
      by (by apply Qmult_le_0_compat).
    destruct Hfr as [Hq Hdt].
    assert (Hbd : 0 <= b * Menu.frame_dt fr) by (by apply Qmult_le_0_compat).
    simpl. destruct (Menu.running m) eqn:Hr.
    + destruct Hinv as [Hfade Hlt].
      destruct (Menu_pass_transitioning fr m Ht Hq)
        as (m1 & -> & Ht1 & Hs1 & Hn1 & Hstep).
      rewrite Ha in Hstep. destruct Hstep as (Hf1 & Hb1 & Hr1). simpl.
      pose proof (update_fade_phase false v b s u (Menu.frame_dt fr) _
                    Hv Hb Hdt Hu Hfade) as Hfade1.
      rewrite <- Hb1 in Hfade1.
      destruct (IH (s + Menu.frame_dt fr) (u + Menu.frame_dt fr) m1)
        as (m' & Hm' & Hs' & Hn' & Hrun'); [lra|done|congruence| |].
      * rewrite Hr1, Hr.
        destruct Hfade1 as (Hburnt & Hbs & Hal).
        pose proof Hburnt as (_ & _ & _ & _ & Hc & _). rewrite Hc. simpl.
        destruct (Qle_bool 255 (ScreenBurn.black_fade_alpha (Menu.screen_burn m1)))
          eqn:E.
        -- apply Qle_bool_iff in E. rewrite Hal in E.
           destruct (Q.min_spec 255 (255 * (b * (u + Menu.frame_dt fr))))
             as [[? E']|[? E']]; rewrite E' in E; lra.
        -- apply not_true_iff_false in E. rewrite Qle_bool_iff, Hal in E.
           split; [done|].
           destruct (Q.min_spec 255 (255 * (b * (u + Menu.frame_dt fr))))
             as [[? E']|[? E']]; rewrite E' in E; lra.
      * exists m'. split; [done|]. split; [congruence|]. split; [congruence|].
        rewrite Hrun'. split; intros; nra.
    + exists m. split; [done|]. split; [done|]. split; [done|].
      split; [intros _; nra|done].
Qed.

(** X24.  Leaving the main menu by the burn.  Let the outward burn be
    started for a button on a running menu whose fade to black is not
    active, and let the loop then run frames without a QUIT event and with
    frame times that are not negative, cut at the pass in which the edge
    arrives.  The loop never fails; selected option and next scene are those
    of the button whatever is clicked meanwhile; the menu is still running
    after the pass of the cut, and [running] is [False] at the end exactly
    when [black_fade_speed * U >= 1] for the sum [U] of the frame times
    after the cut.  With the speeds 2 and 8 of the constructor the menu
    takes more than 0.5 s + 0.125 s to hand over. *)
Theorem burn_ends_the_menu (m0 : Menu.MainMenu) (txt : string)
    (pre : list Menu.Frame) (fr : Menu.Frame) (post : list Menu.Frame) :
  Menu.running m0 = true ->
  Fade.active (Menu.fade_transition m0) = false ->
  0 <= ScreenBurn.burn_speed (Menu.screen_burn m0) ->
  0 <= ScreenBurn.black_fade_speed (Menu.screen_burn m0) ->
  Forall quiet (pre ++ fr :: post) ->
  ScreenBurn.burn_speed (Menu.screen_burn m0) * total_time (frame_times pre) < 1 ->
  1 <= ScreenBurn.burn_speed (Menu.screen_burn m0)
       * (total_time (frame_times pre) + Menu.frame_dt fr) ->
  ∃ m, Menu.loop (pre ++ fr :: post) (Menu.start_burn txt m0) = Some m
       ∧ Menu.selected_option m = Some txt
       ∧ Menu.next_scene m = Some (Menu._get_next_scene_name txt)
       ∧ (Menu.running m = false
          <-> 1 <= ScreenBurn.black_fade_speed (Menu.screen_burn m0)
                   * total_time (frame_times post)).
Proof.
  intros Hr Ha Hv Hb Hf Hlt Hge.
  apply Forall_app in Hf as [Hpre Hf]. apply Forall_cons in Hf as [Hfr Hpost].
  set (v := ScreenBurn.burn_speed (Menu.screen_burn m0)) in *.
  set (b := ScreenBurn.black_fade_speed (Menu.screen_burn m0)) in *.
  set (m1 := Menu.start_burn txt m0).
  destruct (Menu_loop_burning v b pre 0 m1 Hv Hpre) as
    (m2 & Hm2 & Hr2 & Ht2 & Ha2 & Hs2 & Hn2 & Hb2); try done.
  { apply (start_burn_phase false (Menu.screen_burn m0)). }
  { nra. }
  destruct (Menu_pass_burning v b _ fr m2 Hv Hfr Ht2 Ha2 Hb2)
    as (m3 & Hm3 & Ht3 & Ha3 & Hs3 & Hn3 & Hr3 & H).
  assert (E : Qle_bool 1 (v * (0 + total_time (frame_times pre) + Menu.frame_dt fr))
              = true).
  { apply Qle_bool_iff. nra. }
  rewrite E in H.
  assert (H0 : 0 <= 0) by lra.
  destruct (Menu_loop_black_fade v b post
              (0 + total_time (frame_times pre) + Menu.frame_dt fr) 0 m3
              Hv Hb H0 Hpost Ht3 Ha3)
    as (m & Hm & Hs & Hn & Hrun).
  { rewrite Hr3, Hr2. split; [done|]. lra. }
  exists m. split.
  - rewrite Menu_loop_app, Hm2. simpl. rewrite Hr2, Hm3. simpl. exact Hm.
  - assert (Hs1 : Menu.selected_option m1 = Some txt) by done.
    assert (Hn1 : Menu.next_scene m1 = Some (Menu._get_next_scene_name txt)) by done.
    split; [congruence|]. split; [congruence|].
    rewrite Hrun. split; intros; nra.
Qed.

(** A click on ["New Game"], then 40 frames at 60 frames per second: the
    edge arrives in frame 30, and ten more frames fade to black. *)
Lemma burn_ends_the_menu_witness :
  let fr := {| Menu.events := [Menu.KEYDOWN Menu.K_ESCAPE]; Menu.frame_dt := 1 # 60;
               Menu.frame_mouse := (500, 360)%Z;
               Menu.title_draws := λ _, always_spread;
               Menu.button_draws := λ _, {| Button.spawn_roll := 0;
                 Button.spawn_x := 0; Button.spawn_velocity_y := 0;
                 Button.spawn_velocity_x := 0; Button.spawn_size := 0;
                 Button.spawn_color := (0, 0, 0)%Z |} |} in
  ∃ m, Menu.loop (repeat fr 29 ++ fr :: repeat fr 10)
                 (Menu.start_burn "New Game" (Menu.init (block_font 1) ∅)) = Some m
       ∧ Menu.selected_option m = Some "New Game"
       ∧ Menu.next_scene m = Some (Menu._get_next_scene_name "New Game")
       ∧ (Menu.running m = false
          <-> 1 <= 8 * total_time (frame_times (repeat fr 10))).
Proof.
  intros fr.
  apply (burn_ends_the_menu (Menu.init (block_font 1) ∅) "New Game"
           (repeat fr 29) fr (repeat fr 10)).
  - reflexivity.
  - reflexivity.
  - simpl. lra.
  - simpl. lra.
  - repeat constructor; simpl; try lra;
      rewrite elem_of_cons, elem_of_nil; intros [[=]|[]].
  - vm_compute. reflexivity.
  - vm_compute. congruence.
Defined.

(** * The settings screen *)

Lemma Settings_clamp r :
  0 <= Settings.max 0 (Settings.min 1 r) <= 1
  ∧ (r <= 0 -> Settings.max 0 (Settings.min 1 r) == 0)
  ∧ (1 <= r -> Settings.max 0 (Settings.min 1 r) == 1).
Proof.
  unfold Settings.max, Settings.min.
  destruct (Qltb r 1) eqn:E1;
    [apply Qltb_lt in E1|apply not_true_iff_false in E1; rewrite Qltb_lt in E1].
  - destruct (Qltb 0 r) eqn:E2;
      [apply Qltb_lt in E2|apply not_true_iff_false in E2; rewrite Qltb_lt in E2];
      repeat split; intros; lra.
  - destruct (Qltb 0 1) eqn:E2;
      [apply Qltb_lt in E2|apply not_true_iff_false in E2; rewrite Qltb_lt in E2];
      repeat split; intros; lra.
Qed.

Lemma Settings_int_bounds (q : Q) (n : Z) :
  0 <= q -> q <= inject_Z n -> (0 <= Settings.int q <= n)%Z.
Proof.
  destruct q as [a d]. unfold Qle, Settings.int, inject_Z. simpl.
  intros H0 Hn. rewrite Z.mul_1_r in *.
  rewrite Z.quot_div_nonneg by lia. split.
  - apply Z.div_pos; lia.
  - apply Z.div_le_upper_bound; lia.
Qed.

(** [FlameSlider.update] on a slider that is dragged. *)
Lemma Settings_slider_update_dragging (dt : Q) (mouse_pos : Z * Z)
    (s : Settings.FlameSlider) :
  Settings.min_val s < Settings.max_val s ->
  (0 < Button.rect_width (Settings.track_rect s))%Z ->
  Settings.dragging s = true ->
  ∃ s', Settings.slider_update dt mouse_pos s = Some s'
        ∧ Settings.min_val s <= Settings.value s' <= Settings.max_val s
        ∧ ((mouse_pos.1 <= Button.left (Settings.track_rect s))%Z ->
           Settings.value s' == Settings.min_val s)
        ∧ ((Button.right (Settings.track_rect s) <= mouse_pos.1)%Z ->
           Settings.value s' == Settings.max_val s)
        ∧ (Button.left (Settings.track_rect s) <= Settings.handle_x s'
           <= Button.right (Settings.track_rect s))%Z
        ∧ Settings.min_val s' = Settings.min_val s
        ∧ Settings.max_val s' = Settings.max_val s
        ∧ Settings.track_rect s' = Settings.track_rect s
        ∧ Settings.dragging s' = true.
Proof.
  intros Hends Hw Hd. unfold Settings.slider_update. simpl. rewrite Hd.
  assert (Ew : (Button.rect_width (Settings.track_rect s) =? 0)%Z = false)
    by (apply Z.eqb_neq; lia).
  rewrite Ew. unfold Settings._update_handle_pos. simpl.
  assert (Ez : Qeq_bool (Settings.max_val s - Settings.min_val s) 0 = false).
  { apply not_true_iff_false. rewrite Qeq_bool_iff. lra. }
  rewrite Ez.
  set (w := Button.rect_width (Settings.track_rect s)) in *.
  set (r0 := inject_Z (mouse_pos.1 - Button.left (Settings.track_rect s)) / inject_Z w).
  set (r := Settings.max 0 (Settings.min 1 r0)).
  destruct (Settings_clamp r0) as (Hr & Hlo & Hhi). fold r in Hr, Hlo, Hhi.
  assert (Hwq : 0 < inject_Z w).
  { change 0 with (inject_Z 0). rewrite <- Zlt_Qlt. lia. }
  eexists. split; [done|]. simpl. fold w r.
  split; [nra|]. split; [|split; [|split; [|done]]].
  - intros Hm. rewrite Hlo; [ring|].
    unfold r0. apply Qle_shift_div_r; [done|].
    rewrite Qmult_0_l. change 0 with (inject_Z 0). rewrite <- Zle_Qle. lia.
  - intros Hm. rewrite Hhi; [ring|].
    unfold r0. apply Qle_shift_div_l; [done|].
    rewrite Qmult_1_l. rewrite <- Zle_Qle. unfold Button.right in Hm. fold w in Hm. lia.
  - assert (E : (Settings.min_val s + r * (Settings.max_val s - Settings.min_val s)
                 - Settings.min_val s)
                / (Settings.max_val s - Settings.min_val s) * inject_Z w
                == r * inject_Z w).
    { field. lra. }
    assert (Hb : (0 <= Settings.int ((Settings.min_val s
                       + r * (Settings.max_val s - Settings.min_val s)
                       - Settings.min_val s)
                      / (Settings.max_val s - Settings.min_val s) * inject_Z w) <= w)%Z).
    { apply Settings_int_bounds; rewrite E; nra. }
    unfold Button.right. fold w. lia.
Qed.

(** X25.  A slider that is dragged stays on its track.  For a slider whose
    ends differ ([min_val < max_val]) and whose track has a width,
    [FlameSlider.update] returns normally while it is dragged; the value it
    sets lies between [min_val] and [max_val], it is [min_val] when the
    pointer is at or left of the track and [max_val] when it is at or right
    of its end, and the handle lies between the two ends of the track.
    Ends, track and dragging state are untouched. *)
Theorem slider_stays_on_its_track (dt : Q) (mouse_pos : Z * Z)
    (s : Settings.FlameSlider) :
  Settings.min_val s < Settings.max_val s ->
  (0 < Button.rect_width (Settings.track_rect s))%Z ->
  Settings.dragging s = true ->
  ∃ s', Settings.slider_update dt mouse_pos s = Some s'
        ∧ Settings.min_val s <= Settings.value s' <= Settings.max_val s
        ∧ ((mouse_pos.1 <= Button.left (Settings.track_rect s))%Z ->
           Settings.value s' == Settings.min_val s)
        ∧ ((Button.right (Settings.track_rect s) <= mouse_pos.1)%Z ->
           Settings.value s' == Settings.max_val s)
        ∧ (Button.left (Settings.track_rect s) <= Settings.handle_x s'
           <= Button.right (Settings.track_rect s))%Z
        ∧ Settings.min_val s' = Settings.min_val s
        ∧ Settings.max_val s' = Settings.max_val s
        ∧ Settings.track_rect s' = Settings.track_rect s
        ∧ Settings.dragging s' = true.
Proof. apply Settings_slider_update_dragging. Qed.

(** The master volume of the settings screen, dragged to [x = 400], a
    quarter of its track. *)
Lemma slider_stays_on_its_track_witness :
  let s := {| Settings.x := 300; Settings.y := 200; Settings.width := 400;
              Settings.label := "Master Volume";
              Settings.min_val := 0; Settings.max_val := 100; Settings.value := 70;
              Settings.dragging := true; Settings.hovered := true;
              Settings.time := 0;
              Settings.track_rect := {| Button.left := 300; Button.top := 230;
                                        Button.rect_width := 400;
                                        Button.rect_height := 6 |};
              Settings.handle_x := 580; Settings.handle_y := 233 |} in
  ∃ s', Settings.slider_update (1 # 60) (400, 233)%Z s = Some s'
        ∧ Settings.min_val s <= Settings.value s' <= Settings.max_val s
        ∧ (((400, 233)%Z.1 <= Button.left (Settings.track_rect s))%Z ->
           Settings.value s' == Settings.min_val s)
        ∧ ((Button.right (Settings.track_rect s) <= (400, 233)%Z.1)%Z ->
           Settings.value s' == Settings.max_val s)
        ∧ (Button.left (Settings.track_rect s) <= Settings.handle_x s'
           <= Button.right (Settings.track_rect s))%Z
        ∧ Settings.min_val s' = Settings.min_val s
        ∧ Settings.max_val s' = Settings.max_val s
        ∧ Settings.track_rect s' = Settings.track_rect s
        ∧ Settings.dragging s' = true.
Proof.
  intros s. apply (slider_stays_on_its_track (1 # 60) (400, 233)%Z s).
  - reflexivity.
  - reflexivity.
  - reflexivity.
Defined.

Lemma same_slider_refl s : same_slider s s.
Proof. by repeat split. Qed.

Lemma same_slider_trans s1 s2 s3 :
  same_slider s1 s2 -> same_slider s2 s3 -> same_slider s1 s3.
Proof.
  intros (A1 & A2 & A3 & A4) (B1 & B2 & B3 & B4). repeat split; congruence.
Qed.

Lemma same_sliders_refl l : Forall2 same_slider l l.
Proof. induction l; constructor; [apply same_slider_refl|done]. Qed.

Lemma same_sliders_trans l1 l2 l3 :
  Forall2 same_slider l1 l2 -> Forall2 same_slider l2 l3 ->
  Forall2 same_slider l1 l3.
Proof.
  intros H. revert l3. induction H as [|a b l1 l2 Hab _ IH]; intros l3 H23.
  - by apply Forall2_nil_inv_l in H23 as ->.
  - apply Forall2_cons_inv_l in H23 as (c & l3' & Hbc & H23 & ->).
    constructor; [by eapply same_slider_trans|by apply IH].
Qed.

Lemma slider_ok_same s s' :
  same_slider s s' -> Settings.value s' = Settings.value s ->
  slider_ok s -> slider_ok s'.
Proof.
  intros (A1 & A2 & A3 & _) Hv (B1 & B2 & B3). unfold slider_ok.
  by rewrite A1, A2, A3, Hv.
Qed.

Lemma slider_handle_event_ok e mp s :
  slider_ok s ->
  slider_ok (Settings.slider_handle_event e mp s)
  ∧ same_slider s (Settings.slider_handle_event e mp s).
Proof.
  intros Hs. split; [|by repeat split].
  eapply slider_ok_same; [| |exact Hs]; by repeat split.
Qed.

Lemma slider_update_ok dt mp s :
  slider_ok s ->
  ∃ s', Settings.slider_update dt mp s = Some s' ∧ slider_ok s' ∧ same_slider s s'.
Proof.
  intros Hs. destruct (Settings.dragging s) eqn:Hd.
  - destruct Hs as (H1 & H2 & H3).
    destruct (Settings_slider_update_dragging dt mp s H1 H2 Hd)
      as (s' & Hs' & Hv & _ & _ & _ & A1 & A2 & A3 & _).
    exists s'. split; [done|]. split.
    + unfold slider_ok. by rewrite A1, A2, A3.
    + repeat split; try done.
      unfold Settings.slider_update in Hs'. simpl in Hs'. rewrite Hd in Hs'.
      destruct (_ =? 0)%Z; [done|]. unfold Settings._update_handle_pos in Hs'.
      destruct (Qeq_bool _ 0); [done|]. by injection Hs' as <-.
  - unfold Settings.slider_update. simpl. rewrite Hd.
    eexists. split; [done|]. split; [|by repeat split].
    eapply slider_ok_same; [| |exact Hs]; by repeat split.
Qed.

Lemma sliders_update_ok dt mp l :
  Forall slider_ok l ->
  ∃ l', mapM (Settings.slider_update dt mp) l = Some l'
        ∧ Forall slider_ok l' ∧ Forall2 same_slider l l'.
Proof.
  induction 1 as [|s l Hs _ (l' & Hl' & Hok & Hsame)].
  - exists []. by repeat split; constructor.
  - destruct (slider_update_ok dt mp s Hs) as (s' & Hs' & Hok' & Hsame').
    exists (s' :: l'). simpl. rewrite Hs'. simpl. rewrite Hl'. simpl.
    split; [done|]. split; by constructor.
Qed.

Lemma Settings_handle_events_sliders mp events s :
  Forall slider_ok (Settings.sliders s) ->
  Forall slider_ok (Settings.sliders (Settings.handle_events mp events s))
  ∧ Forall2 same_slider (Settings.sliders s)
            (Settings.sliders (Settings.handle_events mp events s))
  ∧ length (Settings.toggles (Settings.handle_events mp events s))
    = length (Settings.toggles s).
Proof.
  unfold Settings.handle_events. revert s.
  induction events as [|e events IH]; intros s Hs.
  - split; [done|]. split; [|done]. apply same_sliders_refl.
  - simpl.
    assert (H1 : Forall slider_ok (Settings.sliders (Settings.handle_event mp s e))
                 ∧ Forall2 same_slider (Settings.sliders s)
                           (Settings.sliders (Settings.handle_event mp s e))
                 ∧ length (Settings.toggles (Settings.handle_event mp s e))
                   = length (Settings.toggles s)).
    { unfold Settings.handle_event.
      destruct (match e with Settings.QUIT => _ | _ => _ end) as [[r t] sb].
      simpl. split; [|split].
      - apply Forall_fmap. eapply Forall_impl; [exact Hs|].
        intros a Ha. by apply slider_handle_event_ok.
      - apply Forall2_fmap_r.
        eapply Forall2_impl; [apply same_sliders_refl|].
        intros a b (B1 & B2 & B3 & B4). by repeat split.
      - by rewrite length_fmap. }
    destruct H1 as (A1 & A2 & A3).
    destruct (IH _ A1) as (B1 & B2 & B3). split; [done|]. split; [|congruence].
    by eapply same_sliders_trans.
Qed.

Lemma Settings_loop_sliders frames s :
  Forall slider_ok (Settings.sliders s) ->
  ∃ s', Settings.loop frames s = Some s'
        ∧ Forall slider_ok (Settings.sliders s')
        ∧ Forall2 same_slider (Settings.sliders s) (Settings.sliders s')
        ∧ length (Settings.toggles s') = length (Settings.toggles s).
Proof.
  revert s. induction frames as [|fr frames IH]; intros s Hs.
  - exists s. split; [done|]. split; [done|]. split; [|done].
    apply same_sliders_refl.
  - simpl. destruct (Settings.running s).
    + destruct (Settings_handle_events_sliders (Settings.events_mouse fr)
                  (Settings.events fr) s Hs) as (A1 & A2 & A3).
      set (s1 := Settings.handle_events _ _ s) in *.
      destruct (sliders_update_ok (Settings.frame_dt fr) (Settings.frame_mouse fr)
                  _ A1) as (l' & Hl' & B1 & B2).
      unfold Settings.update. rewrite Hl'.
      destruct (if Settings.transitioning s1 then _ else _) as [sb r]. simpl.
      match goal with |- ∃ s', Settings.loop frames ?s2 = _ ∧ _ =>
        destruct (IH s2 B1) as (s' & Hs' & C1 & C2 & C3) end.
      exists s'. split; [done|]. split; [done|]. simpl in *. split.
      * eapply same_sliders_trans; [exact A2|].
        eapply same_sliders_trans; [exact B2|exact C2].
      * rewrite C3, length_fmap. done.
    + exists s. split; [done|]. split; [done|]. split; [|done].
      apply same_sliders_refl.
Qed.

(** X26.  The settings screen never fails and returns volumes in range.  The
    constructor builds the screen; from there every run of the loop, whatever
    the events, pointer positions and frame times, ends normally, and the
    dictionary that [run] returns holds three volumes between 0 and 100 and
    the two switches. *)
Theorem settings_stay_in_range :
  ∃ s0, Settings.init = Some s0
        ∧ ∀ frames, ∃ s master music sfx fullscreen vsync,
            Settings.loop frames s0 = Some s
            ∧ Settings.result s = Some (master, music, sfx, fullscreen, vsync)
            ∧ 0 <= master <= 100 ∧ 0 <= music <= 100 ∧ 0 <= sfx <= 100.
Proof.
  destruct Settings.init as [s0|] eqn:E0; [|by vm_compute in E0].
  exists s0. split; [done|]. intros frames.
  assert (Hinit : ∃ a b c t u,
            Settings.sliders s0 = [a; b; c] ∧ Settings.toggles s0 = [t; u]
            ∧ Forall (λ s, slider_ok s ∧ Settings.min_val s = 0
                           ∧ Settings.max_val s = 100) [a; b; c]).
  { vm_compute in E0. injection E0 as <-. do 5 eexists.
    split; [reflexivity|]. split; [reflexivity|].
    repeat constructor; vm_compute; congruence. }
  destruct Hinit as (a & b & c & t & u & Hsl & Htg & Hok).
  destruct (Settings_loop_sliders frames s0) as (s & Hs & A1 & A2 & A3).
  { rewrite Hsl. eapply Forall_impl; [exact Hok|]. by intros ? [? _]. }
  rewrite Hsl in A2. rewrite Htg in A3.
  apply Forall2_cons_inv_l in A2 as (a' & l1 & Ha & A2 & E1).
  apply Forall2_cons_inv_l in A2 as (b' & l2 & Hb & A2 & ->).
  apply Forall2_cons_inv_l in A2 as (c' & l3 & Hc & A2 & ->).
  apply Forall2_nil_inv_l in A2 as ->.
  rewrite E1 in A1.
  apply Forall_cons in A1 as [Oa A1]. apply Forall_cons in A1 as [Ob A1].
  apply Forall_cons in A1 as [Oc _].
  apply Forall_cons in Hok as [(_ & Ma & Xa) Hok].
  apply Forall_cons in Hok as [(_ & Mb & Xb) Hok].
  apply Forall_cons in Hok as [(_ & Mc & Xc) _].
  destruct (Settings.toggles s) as [|t' [|u' [|? ?]]] eqn:Et; try done.
  exists s, (Settings.value a'), (Settings.value b'), (Settings.value c'),
    (Settings.state t'), (Settings.state u').
  split; [done|]. split.
  { unfold Settings.result. rewrite E1, Et. done. }
  destruct Ha as (Ha1 & Ha2 & _), Hb as (Hb1 & Hb2 & _), Hc as (Hc1 & Hc2 & _).
  destruct Oa as (_ & _ & Oa), Ob as (_ & _ & Ob), Oc as (_ & _ & Oc).
  rewrite Ha1, Ha2, Ma, Xa in Oa. rewrite Hb1, Hb2, Mb, Xb in Ob.
  rewrite Hc1, Hc2, Mc, Xc in Oc. done.
Qed.

(** X27.  A switch of the settings screen counts the left clicks inside its
    rect.  After any run of events its state is the initial one when the
    number of left clicks at a position inside the rect is even and the
    opposite one when it is odd; no other event and no click outside the
    rect or with another button changes it, and the rect stays where it
    is. *)
Theorem toggle_counts_clicks (evs : list (Settings.Event * (Z * Z)))
    (t : Settings.EmberToggle) :
  let t' := toggle_handle_all evs t in
  Settings.state t'
  = (if Nat.even (clicks_inside (Settings.toggle_rect t) evs)
     then Settings.state t else negb (Settings.state t))
  ∧ Settings.toggle_rect t' = Settings.toggle_rect t.
Proof.
  unfold toggle_handle_all, clicks_inside. revert t.
  induction evs as [|[e mp] evs IH]; intros t; [done|].
  cbn [fold_left List.filter].
  destruct (IH (Settings.toggle_handle_event e mp t)) as [IH1 IH2].
  cbv zeta in *. rewrite IH1, IH2. split; [|done].
  change (Settings.toggle_rect (Settings.toggle_handle_event e mp t))
    with (Settings.toggle_rect t).
  assert (Hstate : Settings.state (Settings.toggle_handle_event e mp t)
                   = if match e with
                        | Settings.MOUSEBUTTONDOWN 1 =>
                            Button.collidepoint (Settings.toggle_rect t) mp
                        | _ => false
                        end
                     then negb (Settings.state t) else Settings.state t).
  { destruct e as [|key|button|button|]; try done.
    destruct button as [|[p|p|]|p]; simpl; try done. }
  rewrite Hstate.
  destruct (match e with Settings.MOUSEBUTTONDOWN 1 => _ | _ => false end).
  - cbn [length]. rewrite Nat.even_succ, <- Nat.negb_even.
    destruct (Nat.even (length _)); simpl; [done|]. by rewrite negb_involutive.
  - done.
Qed.

Lemma Settings_handle_events_transitioning mp events s :
  Settings.transitioning s = true -> ¬ (Settings.QUIT ∈ events) ->
  Settings.running (Settings.handle_events mp events s) = Settings.running s
  ∧ Settings.transitioning (Settings.handle_events mp events s) = true
  ∧ Settings.screen_burn (Settings.handle_events mp events s) = Settings.screen_burn s.
Proof.
  unfold Settings.handle_events. revert s.
  induction events as [|e events IH]; intros s Ht Hq; [done|].
  simpl.
  assert (H1 : Settings.running (Settings.handle_event mp s e) = Settings.running s
               ∧ Settings.transitioning (Settings.handle_event mp s e) = true
               ∧ Settings.screen_burn (Settings.handle_event mp s e)
                 = Settings.screen_burn s).
  { destruct e as [|[| |]|button|button|];
      [exfalso; apply Hq; by left|..];
      unfold Settings.handle_event; simpl; rewrite ?Ht; simpl; done. }
  destruct H1 as (A1 & A2 & A3).
  destruct (IH _ A2) as (B1 & B2 & B3).
  { intros H. apply Hq. by right. }
  split; [congruence|]. split; [done|congruence].
Qed.

(** One pass of the settings loop while the burn is under way and no QUIT
    arrives. *)
Lemma Settings_pass_transitioning fr s :
  Settings.transitioning s = true ->
  Forall slider_ok (Settings.sliders s) ->
  ¬ (Settings.QUIT ∈ Settings.events fr) ->
  ∃ s1,
    Settings.update (Settings.frame_dt fr) (Settings.frame_mouse fr)
      (Settings.handle_events (Settings.events_mouse fr) (Settings.events fr) s)
    = Some s1
    ∧ Settings.transitioning s1 = true
    ∧ Forall slider_ok (Settings.sliders s1)
    ∧ Settings.screen_burn s1
      = MainMenu.update (Settings.frame_dt fr) (Settings.screen_burn s)
    ∧ Settings.running s1
      = (if ScreenBurn.complete (Settings.screen_burn s1)
            && Qle_bool 255 (ScreenBurn.black_fade_alpha (Settings.screen_burn s1))
         then false else Settings.running s).
Proof.
  intros Ht Hs Hq.
  destruct (Settings_handle_events_transitioning (Settings.events_mouse fr)
              (Settings.events fr) s Ht Hq) as (A1 & A2 & A3).
  destruct (Settings_handle_events_sliders (Settings.events_mouse fr)
              (Settings.events fr) s Hs) as (B1 & _ & _).
  set (s0 := Settings.handle_events _ _ s) in *.
  destruct (sliders_update_ok (Settings.frame_dt fr) (Settings.frame_mouse fr) _ B1)
    as (l' & Hl' & C1 & _).
  unfold Settings.update. rewrite Hl', A2, A3, A1, SettingsScreen_update_eq. simpl.
  eexists. split; [done|]. simpl. done.
Qed.

Lemma settings_frame_times_nonneg frames :
  Forall settings_quiet frames -> Forall (λ dt, 0 <= dt) (settings_frame_times frames).
Proof.
  intros Hf. unfold settings_frame_times. apply Forall_fmap.
  eapply Forall_impl; [exact Hf|]. by intros fr [_ H].
Qed.

Lemma Settings_loop_stopped frames s :
  Settings.running s = false -> Settings.loop frames s = Some s.
Proof. intros Hr. destruct frames; simpl; by rewrite ?Hr. Qed.

Lemma Settings_loop_app a b s :
  Settings.loop (a ++ b) s = Settings.loop a s ≫= Settings.loop b.
Proof.
  revert s. induction a as [|fr a IH]; intros s; [done|].
  simpl. destruct (Settings.running s) eqn:Hr.
  - destruct (Settings.update _ _ _) as [s1|]; simpl; [apply IH|done].
  - simpl. by rewrite Settings_loop_stopped.
Qed.

Lemma Settings_pass_burning v b t fr s :
  0 <= v -> settings_quiet fr ->
  Settings.transitioning s = true ->
  Forall slider_ok (Settings.sliders s) ->
  burn_phase true v b t (Settings.screen_burn s) ->
  ∃ s1,
    Settings.update (Settings.frame_dt fr) (Settings.frame_mouse fr)
      (Settings.handle_events (Settings.events_mouse fr) (Settings.events fr) s)
    = Some s1
    ∧ Settings.transitioning s1 = true
    ∧ Forall slider_ok (Settings.sliders s1)
    ∧ Settings.running s1 = Settings.running s
    ∧ if Qle_bool 1 (v * (t + Settings.frame_dt fr))
      then fade_phase true v b (t + Settings.frame_dt fr) 0 (Settings.screen_burn s1)
      else burn_phase true v b (t + Settings.frame_dt fr) (Settings.screen_burn s1).
Proof.
  intros Hv [Hq Hdt] Ht Hs Hb.
  destruct (Settings_pass_transitioning fr s Ht Hs Hq) as (s1 & Hs1 & Ht1 & Ho1 & Hb1 & Hr1).
  exists s1. split; [done|]. split; [done|]. split; [done|].
  pose proof (update_burn_phase true v b t (Settings.frame_dt fr) _ Hv Hdt Hb) as H.
  rewrite <- Hb1 in H. split; [|done].
  rewrite Hr1. destruct (Qle_bool 1 (v * (t + Settings.frame_dt fr))).
  - destruct H as (_ & _ & Hal).
    assert (E : Qle_bool 255 (ScreenBurn.black_fade_alpha (Settings.screen_burn s1))
                = false).
    { apply not_true_iff_false. rewrite Qle_bool_iff, Hal, Q.min_r; lra. }
    by rewrite E, andb_false_r.
  - destruct H as (_ & _ & _ & _ & _ & Hc & _). by rewrite Hc.
Qed.

Lemma Settings_loop_burning v b frames t s :
  0 <= v -> Forall settings_quiet frames ->
  Settings.running s = true ->
  Settings.transitioning s = true ->
  Forall slider_ok (Settings.sliders s) ->
  burn_phase true v b t (Settings.screen_burn s) ->
  v * (t + total_time (settings_frame_times frames)) < 1 ->
  ∃ s', Settings.loop frames s = Some s'
        ∧ Settings.running s' = true
        ∧ Settings.transitioning s' = true
        ∧ Forall slider_ok (Settings.sliders s')
        ∧ burn_phase true v b (t + total_time (settings_frame_times frames))
                     (Settings.screen_burn s').
Proof.
  intros Hv Hf. revert t s.
  induction Hf as [|fr frames Hfr Hf IH]; intros t s Hr Ht Hs Hb Hlt.
  - exists s. do 4 (split; [done|]).
    eapply burn_phase_proper; [|exact Hb].
    change (total_time (settings_frame_times [])) with 0. ring.
  - pose proof (total_time_nonneg _ (settings_frame_times_nonneg frames Hf)) as HT.
    assert (HvT : 0 <= v * total_time (settings_frame_times frames))
      by (by apply Qmult_le_0_compat).
    simpl in Hlt. simpl. rewrite Hr.
    destruct (Settings_pass_burning v b t fr s Hv Hfr Ht Hs Hb)
      as (s1 & -> & Ht1 & Ho1 & Hr1 & H). simpl.
    assert (E : Qle_bool 1 (v * (t + Settings.frame_dt fr)) = false).
    { apply not_true_iff_false. rewrite Qle_bool_iff. nra. }
    rewrite E in H.
    destruct (IH (t + Settings.frame_dt fr) s1) as (s' & Hs' & A1 & A2 & A3 & A4);
      try done; [congruence|nra|].
    exists s'. do 4 (split; [done|]).
    eapply burn_phase_proper; [|exact A4]. simpl. ring.
Qed.

Lemma Settings_loop_black_fade v b frames t u s :
  0 <= v -> 0 <= b -> 0 <= u -> Forall settings_quiet frames ->
  Settings.transitioning s = true ->
  Forall slider_ok (Settings.sliders s) ->
  (if Settings.running s
   then fade_phase true v b t u (Settings.screen_burn s) ∧ b * u < 1
   else 1 <= b * u) ->
  ∃ s', Settings.loop frames s = Some s'
        ∧ (Settings.running s' = false
           <-> 1 <= b * (u + total_time (settings_frame_times frames))).
Proof.
  intros Hv Hb Hu Hf. revert t u s Hu.
  induction Hf as [|fr frames Hfr Hf IH]; intros t u s Hu Ht Hs Hinv.
  - exists s. split; [done|]. simpl.
    destruct (Settings.running s); [destruct Hinv as [_ Hlt]|]; split; try done; nra.
  - pose proof (total_time_nonneg _ (settings_frame_times_nonneg frames Hf)) as HT.
    assert (HbT : 0 <= b * total_time (settings_frame_times frames))
      by (by apply Qmult_le_0_compat).
    destruct Hfr as [Hq Hdt].
    assert (Hbd : 0 <= b * Settings.frame_dt fr) by (by apply Qmult_le_0_compat).
    simpl. destruct (Settings.running s) eqn:Hr.
    + destruct Hinv as [Hfade Hlt].
      destruct (Settings_pass_transitioning fr s Ht Hs Hq)
        as (s1 & -> & Ht1 & Ho1 & Hb1 & Hr1). simpl.
      pose proof (update_fade_phase true v b t u (Settings.frame_dt fr) _
                    Hv Hb Hdt Hu Hfade) as Hfade1.
      rewrite <- Hb1 in Hfade1.
      destruct (IH (t + Settings.frame_dt fr) (u + Settings.frame_dt fr) s1)
        as (s' & Hs' & Hrun'); [lra|done|done| |].
      * rewrite Hr1, Hr.
        destruct Hfade1 as (Hburnt & Hbs & Hal).
        pose proof Hburnt as (_ & _ & _ & _ & Hc & _). rewrite Hc. simpl.
        destruct (Qle_bool 255 (ScreenBurn.black_fade_alpha (Settings.screen_burn s1)))
          eqn:E.
        -- apply Qle_bool_iff in E. rewrite Hal in E.
           destruct (Q.min_spec 255 (255 * (b * (u + Settings.frame_dt fr))))
             as [[? E']|[? E']]; rewrite E' in E; lra.
        -- apply not_true_iff_false in E. rewrite Qle_bool_iff, Hal in E.
           split; [done|].
           destruct (Q.min_spec 255 (255 * (b * (u + Settings.frame_dt fr))))
             as [[? E']|[? E']]; rewrite E' in E; lra.
      * exists s'. split; [done|]. rewrite Hrun'. split; intros; nra.
    + exists s. split; [done|]. split; [intros _; nra|done].
Qed.

(** X28.  Leaving the settings screen.  Escape on a running screen with no
    transition under way starts the inward burn.  Let the loop then run
    frames without a QUIT event and with frame times that are not negative,
    cut at the pass in which the edge arrives (the pass that handled the
    Escape counts as the first).  The loop never fails, whatever is clicked
    or dragged meanwhile and however often Escape is pressed again; the
    screen is still running after the pass of the cut, and [running] is
    [False] at the end exactly when [black_fade_speed * U >= 1] for the sum
    [U] of the frame times after the cut. *)
Theorem escape_ends_the_settings_screen (s0 : Settings.SettingsScreen)
    (mouse_pos : Z * Z) (pre : list Settings.Frame) (fr : Settings.Frame)
    (post : list Settings.Frame) :
  Settings.running s0 = true ->
  Settings.transitioning s0 = false ->
  Forall slider_ok (Settings.sliders s0) ->
  0 <= ScreenBurn.burn_speed (Settings.screen_burn s0) ->
  0 <= ScreenBurn.black_fade_speed (Settings.screen_burn s0) ->
  Forall settings_quiet (pre ++ fr :: post) ->
  ScreenBurn.burn_speed (Settings.screen_burn s0)
  * total_time (settings_frame_times pre) < 1 ->
  1 <= ScreenBurn.burn_speed (Settings.screen_burn s0)
       * (total_time (settings_frame_times pre) + Settings.frame_dt fr) ->
  let s1 := Settings.handle_events mouse_pos [Settings.KEYDOWN Menu.K_ESCAPE] s0 in
  Settings.transitioning s1 = true
  ∧ Settings.screen_burn s1 = ScreenBurn.start true (Settings.screen_burn s0)
  ∧ ∃ s, Settings.loop (pre ++ fr :: post) s1 = Some s
         ∧ (Settings.running s = false
            <-> 1 <= ScreenBurn.black_fade_speed (Settings.screen_burn s0)
                     * total_time (settings_frame_times post)).
Proof.
  intros Hr Ht Hs Hv Hb Hf Hlt Hge s1.
  apply Forall_app in Hf as [Hpre Hf]. apply Forall_cons in Hf as [Hfr Hpost].
  set (v := ScreenBurn.burn_speed (Settings.screen_burn s0)) in *.
  set (b := ScreenBurn.black_fade_speed (Settings.screen_burn s0)) in *.
  assert (Ht1 : Settings.transitioning s1 = true).
  { unfold s1, Settings.handle_events, Settings.handle_event. simpl. by rewrite Ht. }
  assert (Hb1 : Settings.screen_burn s1 = ScreenBurn.start true (Settings.screen_burn s0)).
  { unfold s1, Settings.handle_events, Settings.handle_event. simpl. by rewrite Ht. }
  assert (Hr1 : Settings.running s1 = true).
  { unfold s1, Settings.handle_events, Settings.handle_event. simpl. by rewrite Ht. }
  assert (Ho1 : Forall slider_ok (Settings.sliders s1)).
  { by apply Settings_handle_events_sliders. }
  split; [done|]. split; [done|].
  destruct (Settings_loop_burning v b pre 0 s1 Hv Hpre Hr1 Ht1 Ho1) as
    (s2 & Hs2 & Hr2 & Ht2 & Ho2 & Hb2).
  { rewrite Hb1. apply (start_burn_phase true (Settings.screen_burn s0)). }
  { nra. }
  destruct (Settings_pass_burning v b _ fr s2 Hv Hfr Ht2 Ho2 Hb2)
    as (s3 & Hs3 & Ht3 & Ho3 & Hr3 & H).
  assert (E : Qle_bool 1 (v * (0 + total_time (settings_frame_times pre)
                               + Settings.frame_dt fr)) = true).
  { apply Qle_bool_iff. nra. }
  rewrite E in H.
  assert (H0 : 0 <= 0) by lra.
  destruct (Settings_loop_black_fade v b post
              (0 + total_time (settings_frame_times pre) + Settings.frame_dt fr) 0 s3
              Hv Hb H0 Hpost Ht3 Ho3)
    as (s & Hs' & Hrun).
  { rewrite Hr3, Hr2. split; [done|]. lra. }
  exists s. split.
  - rewrite Settings_loop_app, Hs2. simpl. rewrite Hr2, Hs3. simpl. exact Hs'.
  - rewrite Hrun. split; intros; nra.
Qed.

Lemma new_settings_init : Settings.init = Some new_settings.
Proof. reflexivity. Qed.

(** Escape on a new settings screen, then 40 frames in which the master
    volume is dragged: the edge arrives in frame 30. *)
Lemma escape_ends_the_settings_screen_witness :
  let s1 := Settings.handle_events (0, 0)%Z [Settings.KEYDOWN Menu.K_ESCAPE]
                                   new_settings in
  Settings.transitioning s1 = true
  ∧ Settings.screen_burn s1
    = ScreenBurn.start true (Settings.screen_burn new_settings)
  ∧ ∃ s, Settings.loop (repeat busy_frame 29 ++ busy_frame :: repeat busy_frame 10) s1
         = Some s
         ∧ (Settings.running s = false
            <-> 1 <= ScreenBurn.black_fade_speed (Settings.screen_burn new_settings)
                     * total_time (settings_frame_times (repeat busy_frame 10))).
Proof.
  apply (escape_ends_the_settings_screen new_settings (0, 0)%Z
           (repeat busy_frame 29) busy_frame (repeat busy_frame 10)).
  - reflexivity.
  - reflexivity.
  - repeat constructor; vm_compute; congruence.
  - vm_compute. congruence.
  - vm_compute. congruence.
  - repeat constructor; simpl; try lra;
      rewrite !elem_of_cons, elem_of_nil; intros [[=]|[[=]|[]]].
  - vm_compute. reflexivity.
  - vm_compute. congruence.
Defined.

(** X29.  When a slider fails.  [FlameSlider.__init__] raises
    [ZeroDivisionError] exactly when the two ends are the same value, and
    [FlameSlider.update] raises exactly when the slider is dragged and its
    track has width 0 or its two ends are the same value; a slider that is
    not dragged only has its time advanced. *)
Theorem slider_fails_on_division_by_zero (x y width : Z) (label : string)
    (min_val max_val initial_val dt : Q) (mouse_pos : Z * Z)
    (s : Settings.FlameSlider) :
  (Settings.FlameSlider_init x y width label min_val max_val initial_val = None
   <-> max_val == min_val)
  ∧ (Settings.slider_update dt mouse_pos s = None
     <-> Settings.dragging s = true
         ∧ (Button.rect_width (Settings.track_rect s) = 0%Z
            ∨ Settings.max_val s == Settings.min_val s))
  ∧ (Settings.dragging s = false ->
     Settings.slider_update dt mouse_pos s
     = Some (Settings.set_time (Settings.time s + dt) s)).
Proof.
  split; [|split].
  - unfold Settings.FlameSlider_init, Settings._update_handle_pos. simpl.
    destruct (Qeq_bool (max_val - min_val) 0) eqn:E.
    + apply Qeq_bool_iff in E. split; [intros _; lra|done].
    + apply not_true_iff_false in E. rewrite Qeq_bool_iff in E.
      split; [done|]. intros H. exfalso. apply E. lra.
  - unfold Settings.slider_update, Settings._update_handle_pos. simpl.
    destruct (Settings.dragging s); [|split; [done|by intros [? _]]].
    destruct (Z.eqb_spec (Button.rect_width (Settings.track_rect s)) 0) as [Ew|Ew].
    + split; [|done]. intros _. split; [done|]. by left.
    + destruct (Qeq_bool (Settings.max_val s - Settings.min_val s) 0) eqn:E.
      * apply Qeq_bool_iff in E. split; [|done]. intros _. split; [done|].
        right. lra.
      * apply not_true_iff_false in E. rewrite Qeq_bool_iff in E.
        split; [done|]. intros [_ [H|H]]; [done|]. exfalso. apply E. lra.
  - intros Hd. unfold Settings.slider_update. simpl. by rewrite Hd.
Qed.

(** * The particles of a letter *)

Lemma Particles_step3_young dt ps :
  Forall (λ p, Particles.age p < Particles.lifetime p) (Particles.step3 dt ps).
Proof.
  unfold Particles.step3. apply Forall_fmap, Forall_forall. intros [p dead] Hin.
  apply list_elem_of_In, filter_In in Hin as [Hin Hd]. simpl in *.
  apply list_elem_of_In, list_elem_of_fmap in Hin as (p0 & E & _).
  unfold Particles.update in E. injection E as -> ->.
  apply negb_true_iff, not_true_iff_false in Hd. rewrite Qle_bool_iff in Hd.
  simpl in *. lra.
Qed.

Lemma Particles_step3_length dt ps :
  (length (Particles.step3 dt ps) <= length ps)%nat.
Proof.
  unfold Particles.step3. rewrite length_fmap.
  etrans; [apply List.filter_length_le|]. by rewrite length_fmap.
Qed.

Lemma Particles_spawn_length cos sin l x y d :
  (length (Particles._spawn_particles cos sin l x y d) <= 3)%nat.
Proof.
  unfold Particles._spawn_particles.
  destruct (Qltb _ _), (Qltb _ _), (Qltb _ _); simpl; lia.
Qed.

Lemma Particles_spawned_length cos sin dt draws l :
  (length (Particles.spawned cos sin dt draws l)
   <= 3 * length (argwhere (burning dt l)))%nat.
Proof.
  unfold Particles.spawned.
  induction (argwhere (burning dt l)) as [|[x y] coords IH]; [done|].
  rewrite fmap_cons. simpl. rewrite length_app.
  pose proof (Particles_spawn_length cos sin l x y (draws x y)). simpl in *. lia.
Qed.

(** X30.  The particles of a letter.  After [Letter.update] no particle of
    the letter has reached its lifetime: step 3 moves every particle, the
    new ones included, and keeps those whose age is below their lifetime.
    Only burning pixels emit, at most three particles each; so a letter that
    is cold (no pixel at the ignition point) emits nothing in an update with
    a frame time that is not negative, and its particles only age. *)
Theorem letter_particles_age_out (cos sin : Q -> Q) (dt : Q)
    (draws : nat -> nat -> Particles.SpawnDraws) (l : Letter)
    (particles : list Particles.Particle) :
  let after := Particles.update_particles cos sin dt draws l particles in
  Forall (λ p, Particles.age p < Particles.lifetime p) after
  ∧ (length after <= length particles + 3 * length (argwhere (burning dt l)))%nat
  ∧ (0 <= dt -> cold l -> after = Particles.step3 dt particles).
Proof.
  intros after. unfold after, Particles.update_particles.
  split; [apply Particles_step3_young|]. split.
  - etrans; [apply Particles_step3_length|]. rewrite length_app.
    pose proof (Particles_spawned_length cos sin dt draws l). lia.
  - intros Hdt Hc.
    assert (E : argwhere (burning dt l) = []).
    { destruct (argwhere (burning dt l)) as [|[x y] rest] eqn:E; [done|].
      assert (Hin : (x, y) ∈ argwhere (burning dt l)) by (rewrite E; left).
      apply elem_of_argwhere, bcell_true in Hin.
      by rewrite cold_not_burning in Hin. }
    unfold Particles.spawned. rewrite E. simpl. by rewrite app_nil_r.
Qed.

(** * Binary64 arithmetic *)

(** ** Powers of two *)

Lemma pow2_pos (k : Z) : 0 < 2 ^ k.
Proof. by apply Qpower.Qpower_0_lt. Qed.

Lemma pow2_add (a b : Z) : 2 ^ (a + b) == 2 ^ a * 2 ^ b.
Proof. by apply Qpower.Qpower_plus. Qed.

Lemma pow2_lt (a b : Z) : (a < b)%Z -> 2 ^ a < 2 ^ b.
Proof. intros. by apply Qpower.Qpower_lt_compat_l. Qed.

Lemma pow2_le (a b : Z) : (a <= b)%Z -> 2 ^ a <= 2 ^ b.
Proof. intros. by apply Qpower.Qpower_le_compat_l. Qed.

Lemma pow2_lt_inv (a b : Z) : 2 ^ a < 2 ^ b -> (a < b)%Z.
Proof. intros. by eapply Qpower.Qpower_lt_compat_l_inv. Qed.

Lemma pow2_inject (n : Z) : (0 <= n)%Z -> inject_Z (2 ^ n) == 2 ^ n.
Proof. intros. by rewrite Qpower.Zpower_Qpower. Qed.

Lemma pow2_cancel (a : Z) : 2 ^ a * 2 ^ (- a) == 1.
Proof. rewrite <- pow2_add. by replace (a + - a)%Z with 0%Z by lia. Qed.

(** ** The exponent *)

Lemma exponent_spec (x : Q) :
  0 < x -> 2 ^ B64.exponent x <= x ∧ x < 2 ^ (B64.exponent x + 1).
Proof.
  intros Hx. unfold B64.exponent.
  destruct x as [a b]. simpl Qnum. simpl Qden.
  assert (Ha : (0 < a)%Z) by (unfold Qlt in Hx; simpl in Hx; lia).
  set (la := Z.log2 a). set (lb := Z.log2 (Z.pos b)).
  assert (Hla : (2 ^ la <= a < 2 ^ (la + 1))%Z).
  { pose proof (Z.log2_spec a Ha). unfold la. replace (Z.log2 a + 1)%Z with (Z.succ (Z.log2 a)) by lia. done. }
  assert (Hlb : (2 ^ lb <= Z.pos b < 2 ^ (lb + 1))%Z).
  { pose proof (Z.log2_spec (Z.pos b) ltac:(lia)). unfold lb.
    replace (Z.log2 (Z.pos b) + 1)%Z with (Z.succ (Z.log2 (Z.pos b))) by lia. done. }
  assert (H0a : (0 <= la)%Z) by apply Z.log2_nonneg.
  assert (H0b : (0 <= lb)%Z) by apply Z.log2_nonneg.
  assert (Hq : a # b == inject_Z a * / inject_Z (Z.pos b)) by apply Qmake_Qdiv.
  set (B := inject_Z (Z.pos b)) in *.
  assert (HB : 0 < B) by (unfold B; change 0 with (inject_Z 0); rewrite <- Zlt_Qlt; lia).
  assert (HBl : 2 ^ lb <= B).
  { rewrite <- pow2_inject by done. unfold B. rewrite <- Zle_Qle. lia. }
  assert (HBu : B < 2 ^ (lb + 1)).
  { rewrite <- pow2_inject by lia. unfold B. rewrite <- Zlt_Qlt. lia. }
  assert (HAl : 2 ^ la <= inject_Z a).
  { rewrite <- pow2_inject by done. rewrite <- Zle_Qle. lia. }
  assert (HAu : inject_Z a < 2 ^ (la + 1)).
  { rewrite <- pow2_inject by lia. rewrite <- Zlt_Qlt. lia. }
  assert (Hx' : a # b == inject_Z a / B) by done.
  (* x * B = a *)
  assert (HxB : (a # b) * B == inject_Z a).
  { rewrite Hx'. field. lra. }
  assert (Hup : a # b < 2 ^ (la - lb + 1)).
  { apply (Qmult_lt_r _ _ B HB). rewrite HxB.
    eapply Qlt_le_trans; [exact HAu|].
    replace (la + 1)%Z with ((la - lb + 1) + lb)%Z by lia. rewrite pow2_add.
    apply Qmult_le_l; [apply pow2_pos|done]. }
  assert (Hlo : 2 ^ (la - lb - 1) < a # b).
  { apply (Qmult_lt_r _ _ B HB). rewrite HxB.
    eapply Qlt_le_trans; [|exact HAl].
    replace la with ((la - lb - 1) + (lb + 1))%Z at 2 by lia. rewrite pow2_add.
    apply Qmult_lt_l; [apply pow2_pos|done]. }
  destruct (Qle_bool (2 ^ (la - lb)) (a # b)) eqn:E.
  - apply Qle_bool_iff in E. done.
  - assert (¬ 2 ^ (la - lb) <= a # b) by (rewrite <- Qle_bool_iff; congruence).
    replace (la - lb - 1 + 1)%Z with (la - lb)%Z by lia. split; lra.
Qed.

Lemma exponent_unique (x : Q) (e : Z) :
  2 ^ e <= x -> x < 2 ^ (e + 1) -> B64.exponent x = e.
Proof.
  intros Hl Hu.
  assert (Hx : 0 < x) by (pose proof (pow2_pos e); lra).
  destruct (exponent_spec x Hx) as [Hl' Hu'].
  assert ((B64.exponent x < e + 1)%Z) by (apply pow2_lt_inv; lra).
  assert ((e < B64.exponent x + 1)%Z) by (apply pow2_lt_inv; lra).
  lia.
Qed.


(** ** Rounding to the nearest integer *)

Lemma nearest_even_cases (x : Q) :
  let n := Qround.Qfloor x in
  inject_Z n <= x < inject_Z n + 1
  ∧ ((x - inject_Z n < 1 # 2 ∧ B64.nearest_even x = n)
     ∨ (1 # 2 < x - inject_Z n ∧ B64.nearest_even x = (n + 1)%Z)
     ∨ (x - inject_Z n == 1 # 2
        ∧ B64.nearest_even x = if Z.even n then n else (n + 1)%Z)).
Proof.
  intros n. split.
  - split; [apply Qround.Qfloor_le|].
    pose proof (Qround.Qlt_floor x) as H. fold n in H.
    rewrite inject_Z_plus in H. exact H.
  - unfold B64.nearest_even. fold n.
    destruct (Qcompare (x - inject_Z n) (1 # 2)) eqn:E.
    + right. right. by apply Qeq_alt in E.
    + left. by apply Qlt_alt in E.
    + right. left. by apply Qgt_alt in E.
Qed.

Lemma nearest_even_err (x : Q) :
  x - (1 # 2) <= inject_Z (B64.nearest_even x) <= x + (1 # 2).
Proof.
  destruct (nearest_even_cases x) as [[Hl Hu] [[H ->]|[[H ->]|[H ->]]]];
    [| |destruct (Z.even _)]; rewrite ?inject_Z_plus;
    change (inject_Z 1) with 1; lra.
Qed.

Lemma nearest_even_Z (n : Z) : B64.nearest_even (inject_Z n) = n.
Proof.
  unfold B64.nearest_even. rewrite Qround.Qfloor_Z.
  destruct (Qcompare _ _) eqn:E; [apply Qeq_alt in E; lra|done|apply Qgt_alt in E; lra].
Qed.

Lemma nearest_even_mono (x y : Q) :
  x <= y -> (B64.nearest_even x <= B64.nearest_even y)%Z.
Proof.
  intros Hxy.
  pose proof (Qround.Qfloor_resp_le x y Hxy) as Hfl.
  destruct (nearest_even_cases x) as [[Hxl Hxu] Hx].
  destruct (nearest_even_cases y) as [[Hyl Hyu] Hy].
  set (n := Qround.Qfloor x) in *. set (m := Qround.Qfloor y) in *.
  destruct (Z.eq_dec n m) as [->|Hne].
  - destruct Hx as [[Hx ->]|[[Hx ->]|[Hx ->]]],
             Hy as [[Hy ->]|[[Hy ->]|[Hy ->]]];
      try destruct (Z.even m); try lia; lra.
  - assert (n + 1 <= m)%Z by lia.
    assert (B64.nearest_even x <= n + 1)%Z.
    { destruct Hx as [[Hx ->]|[[Hx ->]|[Hx ->]]]; [| |destruct (Z.even n)]; lia. }
    assert (m <= B64.nearest_even y)%Z.
    { destruct Hy as [[Hy ->]|[[Hy ->]|[Hy ->]]]; [| |destruct (Z.even m)]; lia. }
    lia.
Qed.

#[global] Instance nearest_even_proper : Proper (Qeq ==> eq) B64.nearest_even.
Proof.
  intros x y E. unfold B64.nearest_even.
  rewrite (Qround.Qfloor_comp x y E).
  assert (Ec : Qcompare (x - inject_Z (Qround.Qfloor y)) (1 # 2)
               = Qcompare (y - inject_Z (Qround.Qfloor y)) (1 # 2)).
  { apply Qcompare_comp; [|reflexivity]. apply Qplus_comp; [exact E|reflexivity]. }
  by rewrite Ec.
Qed.

(** ** Rounding a positive number *)

(** The significand of a positive number, scaled to [[2^52, 2^53)]. *)
Lemma scaled_bounds (x : Q) :
  0 < x ->
  let s := x * 2 ^ (52 - B64.exponent x) in
  inject_Z (2 ^ 52) <= s ∧ s < inject_Z (2 ^ 53).
Proof.
  intros Hx s. destruct (exponent_spec x Hx) as [Hl Hu].
  set (e := B64.exponent x) in *. unfold s.
  pose proof (pow2_pos (52 - e)) as Hp.
  rewrite !pow2_inject by lia. split.
  - replace 52%Z with (e + (52 - e))%Z at 1 by lia. rewrite pow2_add.
    by apply Qmult_le_r.
  - replace 53%Z with ((e + 1) + (52 - e))%Z at 1 by lia. rewrite pow2_add.
    by apply Qmult_lt_r.
Qed.

Lemma significand_bounds (x : Q) :
  0 < x ->
  (2 ^ 52 <= B64.nearest_even (x * 2 ^ (52 - B64.exponent x)) <= 2 ^ 53)%Z.
Proof.
  intros Hx. destruct (scaled_bounds x Hx) as [Hl Hu]. split.
  - rewrite <- (nearest_even_Z (2 ^ 52)). by apply nearest_even_mono.
  - rewrite <- (nearest_even_Z (2 ^ 53)). apply nearest_even_mono. lra.
Qed.

Lemma round_pos_bounds (x : Q) :
  0 < x ->
  2 ^ B64.exponent x <= B64.round_pos x <= 2 ^ (B64.exponent x + 1).
Proof.
  intros Hx. pose proof (significand_bounds x Hx) as [Hl Hu].
  unfold B64.round_pos. set (e := B64.exponent x) in *.
  set (N := B64.nearest_even _) in *.
  pose proof (pow2_pos (e - 52)) as Hp.
  rewrite Zle_Qle in Hl, Hu. rewrite !pow2_inject in Hl, Hu by lia. split.
  - replace e with (52 + (e - 52))%Z at 1 by lia. rewrite pow2_add.
    by apply Qmult_le_r.
  - replace (e + 1)%Z with (53 + (e - 52))%Z by lia. rewrite pow2_add.
    by apply Qmult_le_r.
Qed.

Lemma round_pos_err (x : Q) :
  0 < x ->
  x - 2 ^ (B64.exponent x - 53) <= B64.round_pos x
  ∧ B64.round_pos x <= x + 2 ^ (B64.exponent x - 53).
Proof.
  intros Hx. unfold B64.round_pos. set (e := B64.exponent x).
  pose proof (nearest_even_err (x * 2 ^ (52 - e))) as [Hl Hu].
  set (N := inject_Z (B64.nearest_even _)) in *.
  pose proof (pow2_pos (e - 52)) as Hp.
  assert (E1 : x * 2 ^ (52 - e) * 2 ^ (e - 52) == x).
  { rewrite <- Qmult_assoc, <- pow2_add.
    replace (52 - e + (e - 52))%Z with 0%Z by lia. simpl. ring. }
  assert (E2 : (1 # 2) * 2 ^ (e - 52) == 2 ^ (e - 53)).
  { replace (e - 52)%Z with (1 + (e - 53))%Z by lia. rewrite pow2_add.
    change (2 ^ 1) with 2. field. }
  set (S := x * 2 ^ (52 - e)) in *. set (P := 2 ^ (e - 52)) in *.
  rewrite <- E2. rewrite <- E1. split; nra.
Qed.

Lemma round_pos_proper (x y : Q) : 0 < x -> x == y -> B64.round_pos x == B64.round_pos y.
Proof.
  intros Hx E. unfold B64.round_pos.
  assert (Ee : B64.exponent x = B64.exponent y).
  { destruct (exponent_spec x Hx). symmetry. apply exponent_unique; by rewrite <- E. }
  rewrite Ee. by rewrite E.
Qed.

(** ** Rounding *)

Lemma round_pos_eq (x : Q) : 0 < x -> B64.round x = B64.round_pos x.
Proof.
  intros H. unfold B64.round.
  destruct (Qcompare x 0) eqn:E; [apply Qeq_alt in E; lra|apply Qlt_alt in E; lra|done].
Qed.

Lemma round_neg_eq (x : Q) : x < 0 -> B64.round x = - B64.round_pos (- x).
Proof.
  intros H. unfold B64.round.
  destruct (Qcompare x 0) eqn:E; [apply Qeq_alt in E; lra|done|apply Qgt_alt in E; lra].
Qed.

Lemma round_zero_eq (x : Q) : x == 0 -> B64.round x = 0.
Proof.
  intros H. unfold B64.round.
  destruct (Qcompare x 0) eqn:E; [done|apply Qlt_alt in E; lra|apply Qgt_alt in E; lra].
Qed.

#[global] Instance round_proper : Proper (Qeq ==> Qeq) B64.round.
Proof.
  intros x y E. destruct (Q_dec x 0) as [[H|H]|H].
  - rewrite (round_neg_eq x H), (round_neg_eq y) by by rewrite <- E.
    apply Qopp_comp. apply round_pos_proper; [lra|by rewrite E].
  - rewrite (round_pos_eq x H), (round_pos_eq y) by by rewrite <- E.
    by apply round_pos_proper.
  - rewrite (round_zero_eq x H), (round_zero_eq y); [done|by rewrite <- E].
Qed.

Lemma round_0 : B64.round 0 = 0.
Proof. reflexivity. Qed.

Lemma round_opp (x : Q) : B64.round (- x) == - B64.round x.
Proof.
  destruct (Q_dec x 0) as [[H|H]|H].
  - rewrite (round_neg_eq x H), (round_pos_eq (- x)) by lra. ring.
  - rewrite (round_pos_eq x H), (round_neg_eq (- x)) by lra.
    apply Qopp_comp. apply round_pos_proper; [lra|ring].
  - rewrite (round_zero_eq x H), (round_zero_eq (- x)); [done|lra].
Qed.

Lemma round_pos_gt0 (x : Q) : 0 < x -> 0 < B64.round x.
Proof.
  intros H. rewrite (round_pos_eq x H).
  pose proof (round_pos_bounds x H) as [Hl _]. pose proof (pow2_pos (B64.exponent x)). lra.
Qed.

(** The error of one rounding is at most [u] times the size of the
    number. *)
Lemma round_err_pos (x : Q) :
  0 <= x -> x * (1 - B64.u) <= B64.round x <= x * (1 + B64.u).
Proof.
  intros Hx. destruct (Qle_lt_or_eq _ _ Hx) as [H|H].
  - rewrite (round_pos_eq x H).
    destruct (round_pos_err x H) as [Hl Hu].
    destruct (exponent_spec x H) as [He _].
    set (e := B64.exponent x) in *.
    assert (E : 2 ^ (e - 53) == 2 ^ e * B64.u).
    { unfold B64.u. rewrite <- pow2_add. by replace (e + -53)%Z with (e - 53)%Z by lia. }
    assert (Hu0 : 0 < B64.u) by apply pow2_pos.
    assert (2 ^ (e - 53) <= x * B64.u).
    { rewrite E. by apply Qmult_le_r. }
    split; lra.
  - rewrite (round_zero_eq x) by done. rewrite <- H. split; lra.
Qed.

Lemma round_err (x : Q) : Qabs.Qabs (B64.round x - x) <= B64.u * Qabs.Qabs x.
Proof.
  assert (Hu0 : 0 < B64.u) by apply pow2_pos.
  destruct (Qlt_le_dec x 0) as [H|H].
  - pose proof (round_err_pos (- x) ltac:(lra)) as [Hl Hu].
    rewrite round_opp in Hl, Hu.
    rewrite (Qabs.Qabs_neg x) by lra.
    apply Qabs.Qabs_Qle_condition. split; lra.
  - pose proof (round_err_pos x H) as [Hl Hu].
    rewrite (Qabs.Qabs_pos x) by lra.
    apply Qabs.Qabs_Qle_condition. split; lra.
Qed.

Lemma round_mono_pos (x y : Q) : 0 < x -> x <= y -> B64.round x <= B64.round y.
Proof.
  intros Hx Hxy. assert (Hy : 0 < y) by lra.
  rewrite (round_pos_eq x Hx), (round_pos_eq y Hy).
  destruct (exponent_spec x Hx) as [Hxl Hxu].
  destruct (exponent_spec y Hy) as [Hyl Hyu].
  assert (He : (B64.exponent x <= B64.exponent y)%Z).
  { assert (B64.exponent x < B64.exponent y + 1)%Z by (apply pow2_lt_inv; lra). lia. }
  destruct (Z.eq_dec (B64.exponent x) (B64.exponent y)) as [E|E].
  - unfold B64.round_pos. rewrite E. apply Qmult_le_r; [apply pow2_pos|].
    rewrite <- Zle_Qle. apply nearest_even_mono.
    apply Qmult_le_r; [apply pow2_pos|done].
  - pose proof (round_pos_bounds x Hx) as [_ Hu].
    pose proof (round_pos_bounds y Hy) as [Hl _].
    pose proof (pow2_le (B64.exponent x + 1) (B64.exponent y) ltac:(lia)). lra.
Qed.

Lemma round_mono (x y : Q) : x <= y -> B64.round x <= B64.round y.
Proof.
  intros Hxy. destruct (Q_dec x 0) as [[Hx|Hx]|Hx].
  - destruct (Q_dec y 0) as [[Hy|Hy]|Hy].
    + pose proof (round_mono_pos (- y) (- x) ltac:(lra) ltac:(lra)) as H.
      rewrite !round_opp in H. lra.
    + pose proof (round_pos_gt0 y Hy). pose proof (round_pos_gt0 (- x) ltac:(lra)) as H'.
      rewrite round_opp in H'. lra.
    + rewrite (round_zero_eq y Hy). pose proof (round_pos_gt0 (- x) ltac:(lra)) as H'.
      rewrite round_opp in H'. lra.
  - by apply round_mono_pos.
  - rewrite (round_zero_eq x Hx). destruct (Qle_lt_or_eq 0 y ltac:(lra)) as [Hy|Hy].
    + pose proof (round_pos_gt0 y Hy). lra.
    + rewrite (round_zero_eq y); [lra|by rewrite <- Hy].
Qed.

(** Numbers with a significand of at most 53 bits are not changed. *)
Lemma round_exact_pos (n k : Z) :
  (0 < n < 2 ^ 53)%Z -> B64.round (inject_Z n * 2 ^ k) == inject_Z n * 2 ^ k.
Proof.
  intros [Hn0 Hn].
  set (x := inject_Z n * 2 ^ k).
  assert (HnQ : 0 < inject_Z n) by (change 0 with (inject_Z 0); rewrite <- Zlt_Qlt; lia).
  assert (Hx : 0 < x).
  { unfold x. apply Qmult_lt_0_compat; [done|apply pow2_pos]. }
  rewrite (round_pos_eq x Hx).
  pose proof (Z.log2_spec n Hn0) as [Hl Hu]. set (l := Z.log2 n) in *.
  assert (H0l : (0 <= l)%Z) by apply Z.log2_nonneg.
  assert (Hl53 : (l < 53)%Z).
  { apply (Z.pow_lt_mono_r_iff 2); lia. }
  assert (He : B64.exponent x = (l + k)%Z).
  { apply exponent_unique; unfold x.
    - rewrite pow2_add. apply Qmult_le_r; [apply pow2_pos|].
      rewrite <- pow2_inject by done. rewrite <- Zle_Qle. lia.
    - replace (l + k + 1)%Z with ((l + 1) + k)%Z by lia. rewrite pow2_add.
      apply Qmult_lt_r; [apply pow2_pos|].
      rewrite <- pow2_inject by lia. rewrite <- Zlt_Qlt. lia. }
  unfold B64.round_pos. rewrite He.
  assert (Es : x * 2 ^ (52 - (l + k)) == inject_Z (n * 2 ^ (52 - l))).
  { unfold x. rewrite inject_Z_mult, pow2_inject by lia.
    rewrite <- Qmult_assoc, <- pow2_add.
    by replace (k + (52 - (l + k)))%Z with (52 - l)%Z by lia. }
  rewrite Es, nearest_even_Z.
  rewrite inject_Z_mult, pow2_inject by lia.
  rewrite <- Qmult_assoc, <- pow2_add. unfold x.
  by replace (52 - l + (l + k - 52))%Z with k by lia.
Qed.

Lemma round_exact (n k : Z) :
  (Z.abs n <= 2 ^ 53)%Z -> B64.round (inject_Z n * 2 ^ k) == inject_Z n * 2 ^ k.
Proof.
  intros Hn.
  assert (Hpos : ∀ m, (0 < m <= 2 ^ 53)%Z ->
            B64.round (inject_Z m * 2 ^ k) == inject_Z m * 2 ^ k).
  { intros m [H0 H1]. destruct (Z.eq_dec m (2 ^ 53)%Z) as [->|?].
    - assert (E : inject_Z (2 ^ 53) * 2 ^ k == inject_Z 1 * 2 ^ (53 + k)).
      { rewrite pow2_inject by lia. rewrite pow2_add. change (inject_Z 1) with 1. ring. }
      rewrite E. apply round_exact_pos. lia.
    - apply round_exact_pos. lia. }
  destruct (Z.lt_trichotomy n 0) as [H|[->|H]].
  - assert (E : inject_Z n * 2 ^ k == - (inject_Z (- n) * 2 ^ k)).
    { rewrite inject_Z_opp. ring. }
    rewrite E, round_opp. apply Qopp_comp. apply Hpos. lia.
  - rewrite round_zero_eq; [|ring]. ring.
  - apply Hpos. lia.
Qed.

Lemma round_Z (n : Z) : (Z.abs n <= 2 ^ 53)%Z -> B64.round (inject_Z n) == inject_Z n.
Proof.
  intros H. pose proof (round_exact n 0 H) as E. simpl in E.
  by rewrite !Qmult_1_r in E.
Qed.

Lemma round_idem (x : Q) : B64.round (B64.round x) == B64.round x.
Proof.
  assert (Hpos : ∀ y, 0 < y -> B64.round (B64.round_pos y) == B64.round_pos y).
  { intros y Hy. unfold B64.round_pos. apply round_exact.
    pose proof (significand_bounds y Hy). lia. }
  destruct (Q_dec x 0) as [[H|H]|H].
  - rewrite (round_neg_eq x H), round_opp. apply Qopp_comp. apply Hpos. lra.
  - rewrite (round_pos_eq x H). by apply Hpos.
  - by rewrite (round_zero_eq x H).
Qed.

